(** * itrie: the copy-on-write hexary Merkle-Patricia trie

    A shallow embedding of the trie transaction of package [itrie]
    (Txn.lookup, Txn.insert, Txn.delete, Txn.writeNode, Trie.Get, Trie.Txn,
    Txn.Commit, Trie.Commit) and the properties the specification states
    about it.

    The Go code works on a graph of heap objects: node structs that are
    reached through pointers, several of which are updated in place
    ([n.setEdge], [n.child = child], [obj.key = ...], [n.hash = n.hash[:0]]).
    The embedding keeps that: a [heap] is the list of allocated node structs,
    a pointer is an index into it, and every function threads the heap. *)

From Stdlib Require Import ZArith Lia.
From Stdlib.Strings Require Import Byte.
From stdpp Require Import base option list countable gmap.

Open Scope Z_scope.

#[local] Set Warnings "-clear-no-such-hyp".

Tactic Notation "case_bd" constr(P) "as" ident(H) :=
  destruct (decide P) as [H|H];
  [ rewrite ?(bool_decide_eq_true_2 P H) in *
  | rewrite ?(bool_decide_eq_false_2 P H) in * ].

(** ** Bytes *)

#[global] Instance byte_eq_dec : EqDecision byte := Byte.byte_eq_dec.

#[global] Program Instance byte_countable : Countable byte :=
  inj_countable Byte.to_N Byte.of_N _.
Next Obligation. intros x. apply Byte.of_to_N. Qed.

(** [byte(i)] for an [int] [i]: the low eight bits. *)
Definition byte_of_Z (i : Z) : byte :=
  default x00 (Byte.of_N (Z.to_N (i mod 256))).

(** The terminator nibble [0x10]. *)
Definition terminator : byte := x10.

(** ** Outcomes

    A call either returns, panics (an explicit [panic], an index out of
    range, a nil dereference), or the embedding runs out of fuel: the Go
    functions recurse through the node graph and through nodes resolved from
    the backing store, so the recursion is on a fuel counter. *)

Inductive outcome (A : Type) : Type :=
| Done (a : A)
| Panic
| OutOfFuel.
Arguments Done {A} a.
Arguments Panic {A}.
Arguments OutOfFuel {A}.

(** ** Nodes and the heap *)

Abbreviation loc := nat (only parsing).

(** A value of interface type [Node]: nil or a pointer to a node struct. *)
Abbreviation Node := (option loc) (only parsing).

(** The node structs.  [common.hash] is the [hash] field of Short and Full
    nodes.  A [ValueNode] buffer may be the nil slice ([None]). *)
Inductive cell : Type :=
| ValueNode (hash : bool) (buf : option (list byte))
| ShortNode (hash : list byte) (key : list byte) (child : Node)
| FullNode (hash : list byte) (epoch : Z) (value : Node) (children : list Node).

Abbreviation heap := (list cell) (only parsing).

(** A node as the decoder hands it out: a tree of fresh structs. *)
#[warnings="-register-all"]
Inductive dnode : Type :=
| DNil
| DValue (hash : bool) (buf : option (list byte))
| DShort (hash : list byte) (key : list byte) (child : dnode)
| DFull (hash : list byte) (epoch : Z) (value : dnode) (children : list dnode).

(** What [GetNode(hash, storage)] returns: [(node, true, nil)], or
    [(nil, false, nil)] when the store has no such hash, or an error.

    Modelled from the spec: GetNode and the Storage interface are not in
    the sources at hand.  Section 4.D: the resolver performs
    [backing_store.get(value.buf)] and decodes the returned bytes into a
    node; [get] reports "absent" or a lower-level fault.  A store is taken
    as the function from hashes to these three answers. *)
Inductive get_result : Type :=
| GetFault
| GetAbsent
| GetOk (n : dnode).

Definition Storage := list byte → get_result.

(** The storage of [&Trie{}]: a nil interface, every call on it panics. *)
Definition nil_storage : Storage := λ _, GetFault.

(** ** The state-and-panic monad *)

Definition M (A : Type) : Type := heap → outcome (A * heap).

Definition ret {A} (a : A) : M A := λ h, Done (a, h).

Definition bind {A B} (m : M A) (k : A → M B) : M B :=
  λ h, match m h with
       | Done (a, h') => k a h'
       | Panic => Panic
       | OutOfFuel => OutOfFuel
       end.

Definition panic {A} : M A := λ _, Panic.
Definition out_of_fuel {A} : M A := λ _, OutOfFuel.

Notation "'let*' x ':=' m 'in' k" := (bind m (λ x, k))
  (at level 10, x name, m at level 100, k at level 200).
Notation "'let*' ' p ':=' m 'in' k" := (bind m (λ x, match x with p => k end))
  (at level 10, p pattern, m at level 100, k at level 200).

(** [&T{...}]: a fresh struct on the heap. *)
Definition alloc (c : cell) : M loc := λ h, Done (length h, h ++ [c]).

(** Reading the struct behind a pointer. *)
Definition load (p : loc) : M cell :=
  λ h, match h !! p with Some c => Done (c, h) | None => Panic end.

(** Overwriting the struct behind a pointer. *)
Definition store (p : loc) (c : cell) : M unit :=
  λ h, match h !! p with Some _ => Done (tt, <[p:=c]> h) | None => Panic end.

(** ** Helpers of the source *)

(** [prefixLen]: the index of the first position where the slices differ,
    at most the shorter length. *)
Fixpoint prefixLen (k1 k2 : list byte) : nat :=
  match k1, k2 with
  | a :: k1', b :: k2' => if Byte.eqb a b then S (prefixLen k1' k2') else 0%nat
  | _, _ => 0%nat
  end.

Definition concat (a b : list byte) : list byte := a ++ b.

(** [bytes.Equal]. *)
Definition bytes_Equal (a b : list byte) : bool := bool_decide (a = b).

(** The array index of an edge; [children] has sixteen slots, so an index
    above fifteen is out of range. *)
Definition slot (cs : list Node) (idx : byte) : outcome Node :=
  match cs !! Byte.to_nat idx with
  | Some e => Done e
  | None => Panic
  end.

Definition lift {A} (o : outcome A) : M A :=
  λ h, match o with Done a => Done (a, h) | Panic => Panic | OutOfFuel => OutOfFuel end.

(** [f.getEdge(idx)] *)
Definition getEdge (p : loc) (idx : byte) : M Node :=
  let* c := load p in
  match c with
  | FullNode _ _ value children =>
      if Byte.eqb idx x10 then ret value else lift (slot children idx)
  | _ => panic
  end.

(** [f.setEdge(idx, e)]; [f.replaceEdge] has the same body. *)
Definition setEdge (p : loc) (idx : byte) (e : Node) : M unit :=
  let* c := load p in
  match c with
  | FullNode hash epoch value children =>
      if Byte.eqb idx x10 then store p (FullNode hash epoch e children)
      else if bool_decide (Byte.to_nat idx < length children)%nat
           then store p (FullNode hash epoch value (<[Byte.to_nat idx := e]> children))
           else panic
  | _ => panic
  end.

Definition replaceEdge := setEdge.

(** [n.hash = n.hash[:0]] on a Short or Full node. *)
Definition resetHash (p : loc) : M unit :=
  let* c := load p in
  match c with
  | ShortNode _ key child => store p (ShortNode [] key child)
  | FullNode _ epoch value children => store p (FullNode [] epoch value children)
  | ValueNode _ _ => panic
  end.

(** [n.child = e] and [n.key = k] on a Short node, [n.value = e] on a Full
    node. *)
Definition setChild (p : loc) (e : Node) : M unit :=
  let* c := load p in
  match c with
  | ShortNode hash key _ => store p (ShortNode hash key e)
  | _ => panic
  end.

Definition setKey (p : loc) (k : list byte) : M unit :=
  let* c := load p in
  match c with
  | ShortNode hash _ child => store p (ShortNode hash k child)
  | _ => panic
  end.

(** The decoder's output laid out as fresh structs.  A Full node has
    exactly sixteen child slots. *)
Fixpoint alloc_node (n : dnode) : M Node :=
  match n with
  | DNil => ret None
  | DValue hash buf => let* p := alloc (ValueNode hash buf) in ret (Some p)
  | DShort hash key child =>
      let* pc := alloc_node child in
      let* p := alloc (ShortNode hash key pc) in
      ret (Some p)
  | DFull hash epoch value children =>
      let* pv := alloc_node value in
      let* pcs := (fix go (cs : list dnode) : M (list Node) :=
                     match cs with
                     | [] => ret []
                     | c :: cs' =>
                         let* pc := alloc_node c in
                         let* r := go cs' in
                         ret (pc :: r)
                     end) children in
      let* p := alloc (FullNode hash epoch pv (resize 16 None pcs)) in
      ret (Some p)
  end.

(** [GetNode(buf, storage)]: [None] is [ok == false]; an error panics at
    every call site ([if err != nil { panic(err) }]). *)
Definition GetNode (buf : option (list byte)) (storage : Storage) : M (option Node) :=
  match storage (default [] buf) with
  | GetFault => panic
  | GetAbsent => ret None
  | GetOk n => let* p := alloc_node n in ret (Some p)
  end.

(** ** Tries and transactions *)

Record Trie : Type := mkTrie {
  trie_root : Node;
  trie_epoch : Z;
  trie_storage : Storage
}.

Record Txn : Type := mkTxn {
  root : Node;
  epoch : Z;
  storage : Storage;
  batch : option nat
}.

Definition uint32 (z : Z) : Z := z mod 2 ^ 32.

Definition NewTrie : Trie := mkTrie None 0 nil_storage.

(** [Trie.Txn] *)
Definition Trie_Txn (t : Trie) : Txn :=
  mkTxn (trie_root t) (uint32 (trie_epoch t + 1)) (trie_storage t) None.

(** [Txn.Commit] *)
Definition Txn_Commit (t : Txn) : Trie :=
  mkTrie (root t) (epoch t) (storage t).

(** The two nibbles of a byte: [b >> 4] and [b & 0xF]. *)
Definition hi (b : byte) : byte := byte_of_Z (Z.shiftr (Z.of_N (Byte.to_N b)) 4).
Definition lo (b : byte) : byte := byte_of_Z (Z.land (Z.of_N (Byte.to_N b)) 15).

(** Modelled from the spec: keybytesToHex is not in the sources at hand.
    Section 3.1: a byte key expands to the nibbles
    [(b0>>4, b0&0xF, b1>>4, b1&0xF, ...)], and a trailing terminator nibble
    with value 16 is appended to nibble sequences that terminate at a stored
    value, which the keys of Lookup, Insert and Delete all do. *)
Fixpoint to_nibbles (str : list byte) : list byte :=
  match str with
  | [] => []
  | b :: rest =>
      hi b :: lo b :: to_nibbles rest
  end.

Definition keybytesToHex (str : list byte) : list byte :=
  to_nibbles str ++ [terminator].

(** ** Txn.lookup *)

Fixpoint lookup (fuel : nat) (t : Txn) (node : Node) (key : list byte)
  : M (option (list byte)) :=
  match fuel with
  | O => out_of_fuel
  | S fuel =>
      match node with
      | None => ret None
      | Some p =>
          let* n := load p in
          match n with
          | ValueNode true buf =>
              let* r := GetNode buf (storage t) in
              match r with
              | None => ret None
              | Some nc => lookup fuel t nc key
              end
          | ValueNode false buf =>
              if bool_decide (length key = 0%nat) then ret buf else ret None
          | ShortNode _ nkey child =>
              let plen := length nkey in
              if bool_decide (length key < plen)%nat
                 || negb (bytes_Equal (take plen key) nkey)
              then ret None
              else lookup fuel t child (drop plen key)
          | FullNode _ _ value _ =>
              match key with
              | [] => lookup fuel t value key
              | k0 :: rest =>
                  let* e := getEdge p k0 in
                  lookup fuel t e rest
              end
          end
      end
  end.

(** [Txn.Lookup] *)
Definition Txn_Lookup (fuel : nat) (t : Txn) (key : list byte)
  : M (option (list byte)) :=
  lookup fuel t (root t) (keybytesToHex key).

(** [Trie.Get]: [(res, res != nil)]. *)
Definition Trie_Get (fuel : nat) (t : Trie) (k : list byte)
  : M (option (list byte) * bool) :=
  let txn := Trie_Txn t in
  let* res := Txn_Lookup fuel txn k in
  ret (res, bool_decide (res ≠ None)).

(** ** Txn.writeNode *)

Definition writeNode (t : Txn) (p : loc) : M loc :=
  let* n := load p in
  match n with
  | FullNode _ nepoch value children =>
      if bool_decide (epoch t = nepoch) then ret p
      else alloc (FullNode [] (epoch t) value children)
  | _ => panic
  end.

(** ** Txn.insert *)

Fixpoint insert (fuel : nat) (t : Txn) (node : Node) (search value : list byte)
  : M Node :=
  match fuel with
  | O => out_of_fuel
  | S fuel =>
      match node with
      | None =>
          if bool_decide (length search = 0%nat) then
            let* v := alloc (ValueNode false (Some value)) in
            ret (Some v)
          else
            let* child := insert fuel t None [] value in
            let* s := alloc (ShortNode [] search child) in
            ret (Some s)
      | Some p =>
          let* n := load p in
          match n with
          | ValueNode true buf =>
              let* r := GetNode buf (storage t) in
              match r with
              | None => ret None
              | Some nc => insert fuel t nc search value
              end
          | ValueNode false _ =>
              if bool_decide (length search = 0%nat) then
                let* v := alloc (ValueNode false (Some value)) in
                ret (Some v)
              else
                let* b := alloc (FullNode [] (epoch t) (Some p) (replicate 16 None)) in
                insert fuel t (Some b) search value
          | ShortNode _ nkey nchild =>
              let plen := prefixLen search nkey in
              if bool_decide (plen = length nkey) then
                let* child := insert fuel t nchild (drop plen search) value in
                let* s := alloc (ShortNode [] nkey child) in
                ret (Some s)
              else
                let* b := alloc (FullNode [] (epoch t) None (replicate 16 None)) in
                match nkey !! plen with
                | None => panic
                | Some edge =>
                    let* _ :=
                      (if bool_decide (plen + 1 < length nkey)%nat then
                         let* s := alloc (ShortNode [] (drop (plen + 1) nkey) nchild) in
                         setEdge b edge (Some s)
                       else setEdge b edge nchild) in
                    let* child := insert fuel t (Some b) (drop plen search) value in
                    if bool_decide (plen = 0%nat) then ret child
                    else
                      let* s := alloc (ShortNode [] (take plen search) child) in
                      ret (Some s)
                end
          | FullNode _ _ _ _ =>
              let* b := writeNode t p in
              match search with
              | [] =>
                  let* bv := getEdge b x10 in
                  let* v := insert fuel t bv [] value in
                  let* _ := setEdge b x10 v in
                  ret (Some b)
              | k :: rest =>
                  let* child := getEdge p k in
                  let* newChild := insert fuel t child rest value in
                  let* _ := (if bool_decide (child = None)
                             then setEdge b k newChild
                             else replaceEdge b k newChild) in
                  ret (Some b)
              end
          end
      end
  end.

(** [Txn.Insert] *)
Definition Txn_Insert (fuel : nat) (t : Txn) (key value : list byte) : M Txn :=
  let* r := insert fuel t (root t) (keybytesToHex key) value in
  match r with
  | Some _ => ret (mkTxn r (epoch t) (storage t) (batch t))
  | None => ret t
  end.

(** ** Txn.delete *)

(** The loop over [n.children] in the Full case of [delete]: [indx] is the
    index of the first non-nil child ([-1] when there is none), and the flag
    tells that a second one was met, at which the loop breaks. *)
Fixpoint scanChildren (cs : list Node) (edge indx : Z) : Z * bool :=
  match cs with
  | [] => (indx, false)
  | i :: cs' =>
      match i with
      | Some _ =>
          if bool_decide (indx ≠ -1) then (indx, true)
          else scanChildren cs' (edge + 1) edge
      | None => scanChildren cs' (edge + 1) indx
      end
  end.

(** The Full case of [delete] from the loop on (the statements after
    [n.setEdge(key, newChild)]): keep the node, drop it, or compress it into
    a Short node. *)
Definition collapseFull (t : Txn) (p : loc) : M (Node * bool) :=
  let* n := load p in
  match n with
  | FullNode _ _ value children =>
      let '(indx, notEmpty0) := scanChildren children 0 (-1) in
      let notEmpty :=
        notEmpty0 || (bool_decide (indx ≠ -1) && bool_decide (value ≠ None)) in
      if notEmpty then ret (Some p, true)
      else if bool_decide (indx = -1) then
        if bool_decide (value = None) then ret (None, true)
        else
          let* s := alloc (ShortNode [] [x10] value) in
          ret (Some s, true)
      else
        match children !! Z.to_nat indx with
        | None => panic
        | Some nc0 =>
            let* r :=
              match nc0 with
              | Some q =>
                  let* c := load q in
                  match c with
                  | ValueNode true buf => GetNode buf (storage t)
                  | _ => ret (Some nc0)
                  end
              | None => ret (Some nc0)
              end in
            match r with
            | None => ret (None, false)
            | Some nc =>
                let fresh :=
                  let* s := alloc (ShortNode [] [byte_of_Z indx] nc) in
                  ret (Some s, true) in
                match nc with
                | Some q =>
                    let* c := load q in
                    match c with
                    | ShortNode _ okey _ =>
                        let* _ := setKey q (concat [byte_of_Z indx] okey) in
                        let* _ := resetHash q in
                        ret (Some q, true)
                    | _ => fresh
                    end
                | None => fresh
                end
            end
        end
  | _ => panic
  end.

Fixpoint delete (fuel : nat) (t : Txn) (node : Node) (search : list byte)
  : M (Node * bool) :=
  match fuel with
  | O => out_of_fuel
  | S fuel =>
      match node with
      | None => ret (None, false)
      | Some p =>
          let* n := load p in
          match n with
          | ShortNode _ nkey nchild =>
              let* _ := resetHash p in
              let plen := prefixLen search nkey in
              if bool_decide (plen = length search) then ret (None, true)
              else if bool_decide (plen = 0%nat) then ret (None, false)
              else
                let* '(child, ok) := delete fuel t nchild (drop plen search) in
                if negb ok then ret (None, false)
                else
                  match child with
                  | None => ret (None, true)
                  | Some q =>
                      let* c := load q in
                      match c with
                      | ShortNode _ skey schild =>
                          let* n' := load p in
                          match n' with
                          | ShortNode _ nkey' _ =>
                              let* s := alloc (ShortNode [] (concat nkey' skey) schild) in
                              ret (Some s, true)
                          | _ => panic
                          end
                      | _ =>
                          let* _ := setChild p child in
                          ret (Some p, true)
                      end
                  end
          | ValueNode true buf =>
              let* r := GetNode buf (storage t) in
              match r with
              | None => ret (None, false)
              | Some nc => delete fuel t nc search
              end
          | ValueNode false _ =>
              if bool_decide (length search ≠ 0%nat) then ret (None, false)
              else ret (None, true)
          | FullNode _ _ _ _ =>
              let* _ := resetHash p in
              match search with
              | [] => panic
              | key :: rest =>
                  let* e := getEdge p key in
                  let* '(newChild, ok) := delete fuel t e rest in
                  if negb ok then ret (None, false)
                  else
                    let* _ := setEdge p key newChild in
                    collapseFull t p
              end
          end
      end
  end.

(** [Txn.Delete] *)
Definition Txn_Delete (fuel : nat) (t : Txn) (key : list byte) : M Txn :=
  let* '(r, ok) := delete fuel t (root t) (keybytesToHex key) in
  if ok then ret (mkTxn r (epoch t) (storage t) (batch t)) else ret t.

(** * The trie as a tree

    For tries without hash references the node graph under a root is a
    tree.  [tree] is that tree with the cached hashes and epochs left out;
    [own] relates it to the heap; [lookupA], [insertA] and [deleteA] say what
    the three operations compute on it.  They are partial: [None] stands for
    a panic and for the inputs that the keys of [keybytesToHex] never lead
    to. *)

#[warnings="-register-all"]
Inductive tree : Type :=
| TNil
| TValue (buf : option (list byte))
| TShort (key : list byte) (child : tree)
| TFull (value : tree) (children : list tree).

Definition is_TNil (tr : tree) : bool :=
  match tr with TNil => true | _ => false end.

Definition tgetEdge (value : tree) (children : list tree) (idx : byte) : option tree :=
  if Byte.eqb idx x10 then Some value else children !! Byte.to_nat idx.

Definition tsetEdge (value : tree) (children : list tree) (idx : byte) (e : tree)
  : option tree :=
  if Byte.eqb idx x10 then Some (TFull e children)
  else if bool_decide (Byte.to_nat idx < length children)%nat
       then Some (TFull value (<[Byte.to_nat idx := e]> children))
       else None.

Fixpoint lookupA (tr : tree) (key : list byte) : option (option (list byte)) :=
  match tr with
  | TNil => Some None
  | TValue buf => Some (if bool_decide (length key = 0%nat) then buf else None)
  | TShort k c =>
      if bool_decide (k = []) then None
      else if bool_decide (length key < length k)%nat
              || negb (bytes_Equal (take (length k) key) k)
      then Some None
      else lookupA c (drop (length k) key)
  | TFull v cs =>
      match key with
      | [] => None
      | k0 :: rest =>
          if Byte.eqb k0 x10 then lookupA v rest
          else mjoin (((λ c, lookupA c rest) <$> cs) !! Byte.to_nat k0)
      end
  end.

(** [insert] into nil. *)
Definition leafA (s value : list byte) : tree :=
  if bool_decide (length s = 0%nat) then TValue (Some value)
  else TShort s (TValue (Some value)).

Fixpoint insertA (tr : tree) (s value : list byte) : option tree :=
  match tr with
  | TNil => Some (leafA s value)
  | TValue _ => if bool_decide (length s = 0%nat) then Some (TValue (Some value)) else None
  | TShort k c =>
      let plen := prefixLen s k in
      if bool_decide (plen = length k) then
        if bool_decide (k = []) then None
        else match insertA c (drop plen s) value with
             | Some c' => Some (TShort k c')
             | None => None
             end
      else
        match k !! plen, drop plen s with
        | Some edge, k2 :: rest =>
            let piece :=
              if bool_decide (plen + 1 < length k)%nat
              then TShort (drop (plen + 1) k) c else c in
            match tsetEdge TNil (replicate 16 TNil) edge piece with
            | Some (TFull bv bcs) =>
                match tgetEdge bv bcs k2 with
                | Some TNil =>
                    match tsetEdge bv bcs k2 (leafA rest value) with
                    | Some b' =>
                        Some (if bool_decide (plen = 0%nat) then b'
                              else TShort (take plen s) b')
                    | None => None
                    end
                | _ => None
                end
            | _ => None
            end
        | _, _ => None
        end
  | TFull v cs =>
      match s with
      | [] => None
      | k :: rest =>
          if Byte.eqb k x10 then
            match v, rest with
            | TNil, [] | TValue _, [] => Some (TFull (TValue (Some value)) cs)
            | _, _ => None
            end
          else
            match ((λ c, insertA c rest value) <$> cs) !! Byte.to_nat k with
            | Some (Some c') => Some (TFull v (<[Byte.to_nat k := c']> cs))
            | _ => None
            end
      end
  end.

Definition shape (tr : tree) : Node :=
  if is_TNil tr then None else Some 0%nat.

Definition collapseA (v : tree) (cs : list tree) : option (tree * bool) :=
  let '(indx, notEmpty0) := scanChildren (shape <$> cs) 0 (-1) in
  let notEmpty :=
    notEmpty0 || (bool_decide (indx ≠ -1) && negb (is_TNil v)) in
  if notEmpty then Some (TFull v cs, true)
  else if bool_decide (indx = -1) then
    if is_TNil v then Some (TNil, true) else Some (TShort [x10] v, true)
  else
    match cs !! Z.to_nat indx with
    | None => None
    | Some (TShort okey oc) => Some (TShort (concat [byte_of_Z indx] okey) oc, true)
    | Some nc => Some (TShort [byte_of_Z indx] nc, true)
    end.

Fixpoint deleteA (tr : tree) (s : list byte) : option (tree * bool) :=
  match tr with
  | TNil => Some (TNil, false)
  | TValue _ => Some (TNil, negb (bool_decide (length s ≠ 0%nat)))
  | TShort k c =>
      let plen := prefixLen s k in
      if bool_decide (plen = length s) then Some (TNil, true)
      else if bool_decide (plen = 0%nat) then Some (TNil, false)
      else
        match deleteA c (drop plen s) with
        | None => None
        | Some (c', ok) =>
            if negb ok then Some (TNil, false)
            else match c' with
                 | TNil => Some (TNil, true)
                 | TShort k2 c2 => Some (TShort (concat k k2) c2, true)
                 | _ => Some (TShort k c', true)
                 end
        end
  | TFull v cs =>
      match s with
      | [] => None
      | key :: rest =>
          let r :=
            if Byte.eqb key x10 then deleteA v rest
            else mjoin (((λ c, deleteA c rest) <$> cs) !! Byte.to_nat key) in
          match r with
          | None => None
          | Some (newChild, ok) =>
              if negb ok then Some (TNil, false)
              else match tsetEdge v cs key newChild with
                   | Some (TFull v' cs') => collapseA v' cs'
                   | _ => None
                   end
          end
      end
  end.

(** [own h tr n F]: the node graph under [n] in heap [h] is the tree [tr],
    laid out in the structs at the pointers [F]. *)
Fixpoint own (h : heap) (tr : tree) (n : Node) (F : list loc) {struct tr} : Prop :=
  match tr with
  | TNil => n = None ∧ F = []
  | TValue buf => ∃ p, n = Some p ∧ h !! p = Some (ValueNode false buf) ∧ F = [p]
  | TShort k tc =>
      ∃ p hs c Fc, n = Some p ∧ h !! p = Some (ShortNode hs k c)
                   ∧ own h tc c Fc ∧ F = p :: Fc
  | TFull tv tcs =>
      ∃ p hs ep v cs Fv Fs,
        n = Some p ∧ h !! p = Some (FullNode hs ep v cs)
        ∧ own h tv v Fv
        ∧ (fix owns (ts : list tree) (cs : list Node) (Fs : list (list loc)) : Prop :=
             match ts, cs, Fs with
             | [], [], [] => True
             | t :: ts', c :: cs', F1 :: Fs' => own h t c F1 ∧ owns ts' cs' Fs'
             | _, _, _ => False
             end) tcs cs Fs
        ∧ F = p :: Fv ++ mjoin Fs
  end.

(** The footprint of a Full node without the slot [idx]. *)
Definition others (idx : byte) (Fv : list loc) (Fs : list (list loc)) : list loc :=
  if Byte.eqb idx x10 then mjoin Fs
  else Fv ++ mjoin (<[Byte.to_nat idx := []]> Fs).

(** A Full node with fields [v], [cs] holds the trees [tv], [tcs] in every
    slot but [idx]. *)
Definition own_others (h : heap) (v : Node) (cs : list Node) (tv : tree)
    (tcs : list tree) (Fv : list loc) (Fs : list (list loc)) (idx : byte) : Prop :=
  if Byte.eqb idx x10 then Forall3 (own h) tcs cs Fs
  else own h tv v Fv
       ∧ Forall3 (own h) (<[Byte.to_nat idx := TNil]> tcs)
           (<[Byte.to_nat idx := None]> cs) (<[Byte.to_nat idx := []]> Fs).

Definition nonempty (c : tree) : Prop := is_TNil c = false.

Definition count_nonempty (l : list tree) : nat :=
  length (filter (λ c, is_TNil c = false) l).

(** Nibble paths: a nibble is below sixteen; the search of a byte key is
    nibbles followed by the terminator. *)
Definition nib (b : byte) : Prop := (Byte.to_nat b < 16)%nat.

Definition tkey (s : list byte) : Prop :=
  ∃ p, s = p ++ [x10] ∧ Forall nib p.

(** The shape of the tries that byte keys build. *)
#[warnings="-register-all"]
Inductive good : tree → Prop :=
| good_leaf k buf : tkey k → good (TShort k (TValue buf))
| good_ext k v cs :
    k ≠ [] → Forall nib k → good (TFull v cs) → good (TShort k (TFull v cs))
| good_full v cs :
    length cs = 16%nat →
    (v = TNil ∨ ∃ buf, v = TValue buf) →
    Forall (λ c, c = TNil ∨ good c) cs →
    (2 ≤ count_nonempty (v :: cs))%nat →
    good (TFull v cs).

(** The three invariants of section 3.3 on a tree. *)
Fixpoint wellformed (tr : tree) : Prop :=
  match tr with
  | TNil => True
  | TValue _ => True
  | TShort k c =>
      k ≠ [] ∧ (match c with TShort _ _ => False | _ => True end) ∧ wellformed c
  | TFull v cs =>
      (2 ≤ count_nonempty (v :: cs))%nat
      ∧ wellformed v
      ∧ (fix all (ts : list tree) : Prop :=
           match ts with [] => True | t :: ts' => wellformed t ∧ all ts' end) cs
  end.

(** ** Sequences of operations on one transaction *)

Fixpoint insert_all (fuel : nat) (t : Txn) (kvs : list (list byte * list byte))
  : M Txn :=
  match kvs with
  | [] => ret t
  | (k, v) :: rest =>
      let* t' := Txn_Insert fuel t k v in
      insert_all fuel t' rest
  end.

Inductive op : Type :=
| OpInsert (key value : list byte)
| OpDelete (key : list byte).

Definition op_key (o : op) : list byte :=
  match o with OpInsert k _ => k | OpDelete k => k end.

Fixpoint run_ops (fuel : nat) (t : Txn) (ops : list op) : M Txn :=
  match ops with
  | [] => ret t
  | OpInsert k v :: rest =>
      let* t' := Txn_Insert fuel t k v in
      run_ops fuel t' rest
  | OpDelete k :: rest =>
      let* t' := Txn_Delete fuel t k in
      run_ops fuel t' rest
  end.

(** * Resolved nodes

    A node that the store hands out is a tree of fresh structs; [lookupD]
    is [lookup] on that tree, and [reprD] relates the tree to its copy in
    the heap. *)

Fixpoint lookupD (fuel : nat) (st : Storage) (n : dnode) (key : list byte)
  : outcome (option (list byte)) :=
  match fuel with
  | O => OutOfFuel
  | S fuel =>
      match n with
      | DNil => Done None
      | DValue true buf =>
          match st (default [] buf) with
          | GetFault => Panic
          | GetAbsent => Done None
          | GetOk nc => lookupD fuel st nc key
          end
      | DValue false buf =>
          Done (if bool_decide (length key = 0%nat) then buf else None)
      | DShort _ nkey child =>
          if bool_decide (length key < length nkey)%nat
             || negb (bytes_Equal (take (length nkey) key) nkey)
          then Done None
          else lookupD fuel st child (drop (length nkey) key)
      | DFull _ _ value children =>
          match key with
          | [] => lookupD fuel st value key
          | k0 :: rest =>
              if Byte.eqb k0 x10 then lookupD fuel st value rest
              else match resize 16 DNil children !! Byte.to_nat k0 with
                   | Some e => lookupD fuel st e rest
                   | None => Panic
                   end
          end
      end
  end.

Fixpoint reprD (h : list cell) (nd : dnode) (q : option nat) {struct nd} : Prop :=
  match nd with
  | DNil => q = None
  | DValue b buf => ∃ p, q = Some p ∧ h !! p = Some (ValueNode b buf)
  | DShort hs k c =>
      ∃ p pc, q = Some p ∧ h !! p = Some (ShortNode hs k pc) ∧ reprD h c pc
  | DFull hs ep v cs =>
      ∃ p pv pcs,
        q = Some p ∧ h !! p = Some (FullNode hs ep pv (resize 16 None pcs))
        ∧ reprD h v pv
        ∧ (fix reprs (cs : list dnode) (pcs : list (option nat)) : Prop :=
             match cs, pcs with
             | [], [] => True
             | c :: cs', pc :: pcs' => reprD h c pc ∧ reprs cs' pcs'
             | _, _ => False
             end) cs pcs
  end.

(** [lookup] on the copy of a resolved node is [lookupD] on the node. *)
Definition lookup_agrees (h : list cell) (o : outcome (option (list byte)))
    (r : outcome (option (list byte) * list cell)) : Prop :=
  match o with
  | Done x => ∃ ext, r = Done (x, h ++ ext)
  | Panic => r = Panic
  | OutOfFuel => r = OutOfFuel
  end.

(** A store that resolves every hash to the leaf [0x01 -> 0xaa]. *)
Definition leaf_storage : Storage :=
  λ _, GetOk (DShort [] [x00; x01; x10] (DValue false (Some [xaa]))).

(** ** Notions used in the statements *)

(** The number of non-nil entries among the child slots. *)
Definition count_some (cs : list (option nat)) : nat :=
  length (filter is_Some cs).

(** The number of non-empty slots among the seventeen of a Full node. *)
Definition nonempty_slots (v : option nat) (cs : list (option nat)) : nat :=
  ((match v with Some _ => 1 | None => 0 end) + count_some cs)%nat.

(** Resolving the surviving child [q] of a collapsing Full node: a hash
    reference is fetched from the store, any other node is taken as it
    is. *)
Definition resolves (t : Txn) (h : list cell) (q : nat)
    (nc : option nat) (h1 : list cell) : Prop :=
  match h !! q with
  | Some (ValueNode true buf) => GetNode buf (storage t) h = Done (Some nc, h1)
  | Some _ => nc = Some q ∧ h1 = h
  | None => False
  end.

Definition is_short (c : cell) : Prop :=
  match c with ShortNode _ _ _ => True | _ => False end.

(** ** Concrete tries used below *)

(** A trie whose epoch is the largest [uint32]. *)
Definition trie_max_epoch : Trie := mkTrie None (2 ^ 32 - 1) nil_storage.

(** A store that has no node at all, and one that fails. *)
Definition absent_storage : Storage := λ _, GetAbsent.

(** A lazily opened trie: the root is a hash reference. *)
Definition hashref_heap : list cell := [ValueNode true (Some [x01; x02])].
Definition hashref_txn (st : Storage) : Txn := mkTxn (Some 0%nat) 1 st None.

(** The keys [0x01 -> 0xaa] and [0x02 -> 0xbb] inserted in a transaction
    on the empty trie. *)
Definition two_keys : M Txn :=
  let* t1 := Txn_Insert 9 (Trie_Txn NewTrie) [x01] [xaa] in
  Txn_Insert 9 t1 [x02] [xbb].

(** The keys [0x1234 -> 0xaa] and [0x1235 -> 0xbb]. *)
Definition two_long_keys : M Txn :=
  let* t1 := Txn_Insert 9 (Trie_Txn NewTrie) [x12; x34] [xaa] in
  Txn_Insert 9 t1 [x12; x35] [xbb].

(** A Full node whose only non-empty slot is child 2, a Short node. *)
Definition collapse_children : list (option nat) :=
  <[2%nat := Some 1%nat]> (replicate 16 None).

Definition collapse_heap : list cell :=
  [ValueNode false (Some [xbb]); ShortNode [xff] [x10] (Some 0%nat);
   FullNode [] 1 None collapse_children].

(** Two bindings, and the map holding them. *)
Definition sample_kvs : list (list byte * list byte) :=
  [([x64; x6f], [x76; x65; x72; x62]);
   ([x64; x6f; x67], [x70; x75; x70; x70; x79])].

Definition sample_map : gmap (list byte) (list byte) := list_to_map sample_kvs.

Definition sample_ops : list op :=
  [OpInsert [x01] [xaa]; OpInsert [x02] [xbb]; OpDelete [x01];
   OpInsert [x02; x03] [xcc]; OpDelete [x07]].

(** ** Notions used in the proofs *)

(** A search, or what is left of one after its terminator. *)
Definition tkey0 (s : list byte) : Prop := s = [] ∨ tkey s.

(** What a slot of a Full node holds: the value slot a value, a child slot
    a Short or Full node. *)
Definition slot_ok (e : byte) (c : tree) : Prop :=
  (e = x10 ∧ ∃ buf, c = TValue buf) ∨ (nib e ∧ good c).

(** What [insert] promises for a tree it is given. *)
Definition insert_post (h : list cell) (F : list loc) (tr' : tree)
    (r : outcome (Node * list cell)) : Prop :=
  ∃ p' h' F',
    r = Done (Some p', h')
    ∧ own h' tr' (Some p') F' ∧ NoDup F'
    ∧ (∀ q, q ∈ F' → q ∈ F ∨ (length h ≤ q)%nat)
    ∧ (∀ q, (q < length h)%nat → q ∉ F → h' !! q = h !! q)
    ∧ (length h ≤ length h')%nat.

(** What [delete] promises for a tree it is given. *)
Definition delete_post (h : list cell) (F : list loc) (tr : tree) (n : option nat)
    (tr' : tree) (ok : bool) (r : outcome ((option nat * bool) * list cell)) : Prop :=
  ∃ n' h',
    r = Done ((n', ok), h')
    ∧ (if ok
       then ∃ F', own h' tr' n' F' ∧ NoDup F'
                  ∧ (∀ q, q ∈ F' → q ∈ F ∨ (length h ≤ q)%nat)
       else n' = None ∧ own h' tr n F)
    ∧ (∀ q, (q < length h)%nat → q ∉ F → h' !! q = h !! q)
    ∧ (length h ≤ length h')%nat.

(** The transaction's root is a trie built from byte keys, whose lookups
    are those of the map [m]. *)
Definition txn_holds (h : list cell) (t : Txn) (m : gmap (list byte) (list byte))
  : Prop :=
  ∃ tr F, own h tr (root t) F ∧ NoDup F ∧ (tr = TNil ∨ good tr)
          ∧ ∀ k, lookupA tr (keybytesToHex k) = Some (m !! k).

(** The transaction's root is a trie of the shape that byte keys build. *)
Definition txn_wf (h : list cell) (t : Txn) : Prop :=
  ∃ tr F, own h tr (root t) F ∧ NoDup F ∧ (tr = TNil ∨ good tr).

(** * The two-level commit

    [Trie.Commit] talks to the backing store and to the state cache.  What
    it does to them is kept as a log of events, in the order of the calls. *)

Inductive event : Type :=
| EvPut (b : nat) (kv : list byte * list byte)   (** [batch.Put(k, v)] *)
| EvWrite (b : nat)                              (** [batch.Write()] *)
| EvAddState (h : list byte) (t : Trie)          (** [state.AddState(h, t)] *)
| EvSetCode (h : list byte) (code : list byte).  (** [state.SetCode(h, code)] *)

(** The batches handed out so far and the calls made. *)
Record world : Type := mkWorld {
  next_batch : nat;
  log : list event
}.

Definition W (A : Type) : Type := world → M (A * world).

Definition retW {A} (a : A) : W A := λ w, ret (a, w).

Definition bindW {A B} (m : W A) (k : A → W B) : W B :=
  λ w, let* '(a, w') := m w in k a w'.

Notation "'let+' x ':=' m 'in' k" := (bindW m (λ x, k))
  (at level 10, x name, m at level 100, k at level 200).
Notation "'let+' ' p ':=' m 'in' k" := (bindW m (λ x, match x with p => k end))
  (at level 10, p pattern, m at level 100, k at level 200).

Definition liftW {A} (m : M A) : W A := λ w, let* a := m in ret (a, w).

Definition emit (e : event) : W unit :=
  λ w, ret (tt, mkWorld (next_batch w) (log w ++ [e])).

(** [t.storage.Batch()]: a new, empty batch. *)
Definition Storage_Batch : W nat :=
  λ w, ret (next_batch w, mkWorld (S (next_batch w)) (log w)).

(** An account and a state object, with the fields [Trie.Commit] reads and
    writes.  [so_Txn] is [a.Txn]: nil, or the pending storage changes in
    the order in which [Walk] visits them; a change to the nil interface
    value is [None]. *)
Record Account : Type := mkAccount {
  Nonce : Z;
  Balance : Z;
  Root : list byte;
  CodeHash : list byte;
  acc_Trie : Trie
}.

Record StateObject : Type := mkStateObject {
  so_Account : Account;
  Code : list byte;
  Deleted : bool;
  DirtyCode : bool;
  so_Txn : option (list (list byte * option (list byte)))
}.

(** A value of the change set: a [*state.StateObject], or something else
    (the logs). *)
Inductive entry : Type :=
| IsObject (a : StateObject)
| NotObject.

(** The values handed to the encoder's arena. *)
#[warnings="-register-all"]
Inductive rlp_value : Type :=
| NewUint (z : Z)
| NewBigInt (z : Z)
| NewBytes (b : list byte)
| NewArray (elems : list rlp_value).

(** What [Trie.Commit] calls and the sources at hand do not define: the
    Keccak-256 of [hashit], the two encoders, [types.BytesToHash], and
    the node hasher behind [Txn.Hash], which returns the root hash and the
    pairs it emits and may write the hash caches of the heap. *)
Class Externals : Type := {
  hashit : list byte → list byte;
  rlp_EncodeToBytes : list byte → list byte;
  MarshalTo : rlp_value → list byte;
  BytesToHash : list byte → list byte;
  hash_nodes : Txn → M (list byte * list (list byte * list byte))
}.

(** [bytes.TrimLeft(s, cutset)] for a cutset of ASCII bytes. *)
Fixpoint bytes_TrimLeft (s : list byte) (cutset : list byte) : list byte :=
  match s with
  | [] => []
  | c :: s' => if bool_decide (c ∈ cutset) then bytes_TrimLeft s' cutset else s
  end.

(** [Walk] of the radix tree over its entries in key order: the walk stops
    when the callback returns true.  What the callback writes through the
    pointers it holds (the transaction [s], the visited object) is handed
    back. *)
Fixpoint Walk {S V : Type} (fn : S → list byte → V → W (bool * S * V))
    (s : S) (entries : list (list byte * V)) : W (S * list (list byte * V)) :=
  match entries with
  | [] => retW (s, [])
  | (k, v) :: rest =>
      let+ '(stop, s', v') := fn s k v in
      if (stop : bool) then retW (s', (k, v') :: rest)
      else
        let+ '(s'', rest') := Walk fn s' rest in
        retW (s'', (k, v') :: rest')
  end.

Definition set_batch (t : Txn) (b : nat) : Txn :=
  mkTxn (root t) (epoch t) (storage t) (Some b).

Definition set_Root (a : StateObject) (r : list byte) : StateObject :=
  let acc := so_Account a in
  mkStateObject (mkAccount (Nonce acc) (Balance acc) r (CodeHash acc) (acc_Trie acc))
                (Code a) (Deleted a) (DirtyCode a) (so_Txn a).

(** Modelled from the spec: Txn.Hash is not in the sources at hand.
    Section 4.F: the hasher emits [(hash, encoding)] into the write-batch
    and returns the root hash; section 4.C: the write-batch of a
    transaction is optional. *)
Definition Txn_Hash `{Externals} (t : Txn) : W (list byte) :=
  let+ '(h, emitted) := liftW (hash_nodes t) in
  match batch t with
  | Some b => λ w, ret (h, mkWorld (next_batch w) (log w ++ map (EvPut b) emitted))
  | None => retW h
  end.

(** The callback of the walk over [a.Txn]. *)
Definition storage_change `{Externals} (fuel : nat) (localTxn : Txn)
    (k : list byte) (v : option (list byte))
  : W (bool * Txn * option (list byte)) :=
  match v with
  | None =>
      let+ localTxn' := liftW (Txn_Delete fuel localTxn k) in
      retW (false, localTxn', v)
  | Some b =>
      let vv := rlp_EncodeToBytes (bytes_TrimLeft b [x00]) in
      let+ localTxn' := liftW (Txn_Insert fuel localTxn k vv) in
      retW (false, localTxn', v)
  end.

(** The callback of the walk over the change set. *)
Definition commit_entry `{Externals} (fuel : nat) (batch : nat) (outer : Txn)
    (k : list byte) (v : entry) : W (bool * Txn * entry) :=
  match v with
  | NotObject => retW (false, outer, v)
  | IsObject a =>
      if Deleted a then
        let+ outer' := liftW (Txn_Delete fuel outer (hashit k)) in
        retW (false, outer', v)
      else
        let+ a1 :=
          match so_Txn a with
          | Some changes =>
              let localTxn := set_batch (Trie_Txn (acc_Trie (so_Account a))) batch in
              let+ '(localTxn', _) := Walk (storage_change fuel) localTxn changes in
              let+ accountStateRoot := Txn_Hash localTxn' in
              let accountStateTrie := Txn_Commit localTxn' in
              let+ _ := emit (EvAddState (BytesToHash accountStateRoot)
                                         accountStateTrie) in
              retW (set_Root a (BytesToHash accountStateRoot))
          | None => retW a
          end in
        let+ _ :=
          if DirtyCode a1
          then emit (EvSetCode (BytesToHash (CodeHash (so_Account a1))) (Code a1))
          else retW tt in
        let vv := NewArray [NewUint (Nonce (so_Account a1));
                            NewBigInt (Balance (so_Account a1));
                            NewBytes (Root (so_Account a1));
                            NewBytes (CodeHash (so_Account a1))] in
        let data := MarshalTo vv in
        let+ outer' := liftW (Txn_Insert fuel outer (hashit k) data) in
        retW (false, outer', IsObject a1)
  end.

(** [Trie.Commit]: the new trie, its root hash, and the change set as the
    walk leaves it. *)
Definition Trie_Commit `{Externals} (fuel : nat) (t : Trie)
    (x : list (list byte * entry))
  : W (Trie * list byte * list (list byte * entry)) :=
  let+ batch := Storage_Batch in
  let outer := set_batch (Trie_Txn t) batch in
  let+ '(outer', x') := Walk (commit_entry fuel batch) outer x in
  let+ root := Txn_Hash outer' in
  let nTrie := Txn_Commit outer' in
  let nTrie := mkTrie (trie_root nTrie) (trie_epoch nTrie) (trie_storage t) in
  let+ _ := emit (EvWrite batch) in
  let+ _ := emit (EvAddState (BytesToHash root) nTrie) in
  retW (nTrie, root, x').

(** ** The commit discipline in the words of section 4.G *)

(** A pending storage change: a nil value is a delete; another value is
    inserted as the encoding of the byte string without its leading
    zeros. *)
Definition spec_storage_op `{Externals} (ch : list byte * option (list byte)) : op :=
  match ch.2 with
  | None => OpDelete ch.1
  | Some v => OpInsert ch.1 (rlp_EncodeToBytes (bytes_TrimLeft v [x00]))
  end.

(** The canonical encoding of the account record. *)
Definition spec_record `{Externals} (acc : Account) : list byte :=
  MarshalTo (NewArray [NewUint (Nonce acc); NewBigInt (Balance acc);
                       NewBytes (Root acc); NewBytes (CodeHash acc)]).

(** The storage sub-trie of a live account: a transaction on the sub-trie
    with the batch [b] of the outer commit, every change applied, the
    sub-trie hashed and registered, its root written into the record. *)
Definition spec_storage `{Externals} (fuel : nat) (b : nat) (a : StateObject)
  : W StateObject :=
  match so_Txn a with
  | None => retW a
  | Some changes =>
      let+ sub := liftW (run_ops fuel (set_batch (Trie_Txn (acc_Trie (so_Account a))) b)
                                 (spec_storage_op <$> changes)) in
      let+ r := Txn_Hash sub in
      let+ _ := emit (EvAddState (BytesToHash r) (Txn_Commit sub)) in
      retW (set_Root a (BytesToHash r))
  end.

(** One changed account. *)
Definition spec_account `{Externals} (fuel : nat) (b : nat) (outer : Txn)
    (k : list byte) (a : StateObject) : W (Txn * StateObject) :=
  if Deleted a then
    let+ outer' := liftW (Txn_Delete fuel outer (hashit k)) in
    retW (outer', a)
  else
    let+ a' := spec_storage fuel b a in
    let+ _ := if DirtyCode a'
              then emit (EvSetCode (BytesToHash (CodeHash (so_Account a'))) (Code a'))
              else retW tt in
    let+ outer' := liftW (Txn_Insert fuel outer (hashit k) (spec_record (so_Account a'))) in
    retW (outer', a').

(** Every changed account of the change set, one after the other. *)
Fixpoint spec_accounts `{Externals} (fuel : nat) (b : nat) (outer : Txn)
    (x : list (list byte * entry)) : W (Txn * list (list byte * entry)) :=
  match x with
  | [] => retW (outer, [])
  | (k, NotObject) :: rest =>
      let+ '(outer', rest') := spec_accounts fuel b outer rest in
      retW (outer', (k, NotObject) :: rest')
  | (k, IsObject a) :: rest =>
      let+ '(outer1, a') := spec_account fuel b outer k a in
      let+ '(outer', rest') := spec_accounts fuel b outer1 rest in
      retW (outer', (k, IsObject a') :: rest')
  end.

(** An event that the accounts may cause while the batch [b] is open: no
    flush, and no put into another batch. *)
Definition on_batch (b : nat) (e : event) : Prop :=
  match e with
  | EvPut b' _ => b' = b
  | EvWrite _ => False
  | EvAddState _ _ | EvSetCode _ _ => True
  end.

(** The world [w'] comes from [w] by events that are allowed while the
    batch [b] is open, and no batch was handed out in between. *)
Definition grows (b : nat) (w w' : world) : Prop :=
  next_batch w' = next_batch w
  ∧ ∃ evs, log w' = log w ++ evs ∧ Forall (on_batch b) evs.

(** A stand-in for the externals, and a change set: a live account with two
    pending storage changes and new code, a deleted account, and a value
    that is no state object. *)
Definition sample_externals : Externals := {|
  hashit := λ k, k;
  rlp_EncodeToBytes := λ b, x80 :: b;
  MarshalTo := λ v,
    match v with
    | NewArray [NewUint n; NewBigInt bal; NewBytes r; NewBytes c] =>
        byte_of_Z n :: byte_of_Z bal :: r ++ c
    | _ => []
    end;
  BytesToHash := λ b, b;
  hash_nodes := λ t,
    match root t with
    | Some p => ret ([byte_of_Z (Z.of_nat p)], [([byte_of_Z (Z.of_nat p)], [xff])])
    | None => ret ([x00], [])
    end
|}.

Definition sample_changes : list (list byte * entry) :=
  [ ([x01], IsObject (mkStateObject (mkAccount 1 2 [] [xcc] NewTrie) [xc0] false true
                        (Some [([x0a], Some [x00; x05]); ([x0b], None)])));
    ([x02], IsObject (mkStateObject (mkAccount 0 0 [] [] NewTrie) [] true false None));
    ([x03], NotObject) ].

(** What the commit of [sample_changes] on the empty trie leaves. *)
Definition sample_committed : Trie := mkTrie (Some 3%nat) 1 nil_storage.

Definition sample_changes_after : list (list byte * entry) :=
  [ ([x01], IsObject (mkStateObject (mkAccount 1 2 [x01] [xcc] NewTrie) [xc0] false true
                        (Some [([x0a], Some [x00; x05]); ([x0b], None)])));
    ([x02], IsObject (mkStateObject (mkAccount 0 0 [] [] NewTrie) [] true false None));
    ([x03], NotObject) ].

Definition sample_world_after : world :=
  mkWorld 1 [ EvPut 0 ([x01], [xff]);
              EvAddState [x01] (mkTrie (Some 1%nat) 1 nil_storage);
              EvSetCode [xcc] [xc0];
              EvPut 0 ([x03], [xff]);
              EvWrite 0;
              EvAddState [x03] sample_committed ].

Definition sample_heap_after : list cell :=
  [ ValueNode false (Some [x80; x05]);
    ShortNode [] [x00; x0a; x10] (Some 0%nat);
    ValueNode false (Some [x01; x02; x01; xcc]);
    ShortNode [] [x00; x01; x10] (Some 2%nat) ].

(** * Further notions

    What the further properties of the operations are stated with. *)

(** ** What [delete] removes *)

(** The path of the leaf at which [delete] with search [s] ends when it
    reports a change: at a Short node it skips the node's whole key after
    going on with [s] from the common prefix. *)
Fixpoint followed (tr : tree) (s : list byte) : list byte :=
  match tr with
  | TNil => s
  | TValue _ => []
  | TShort k c =>
      match c with
      | TValue _ => k
      | _ => k ++ followed c (drop (prefixLen s k) s)
      end
  | TFull v cs =>
      match s with
      | [] => []
      | key :: rest =>
          key :: (if Byte.eqb key x10 then []
                  else match ((λ c, followed c rest) <$> cs) !! Byte.to_nat key with
                       | Some r => r
                       | None => rest
                       end)
      end
  end.

(** Every value of the tree is a byte slice that is not nil. *)
Fixpoint valued (tr : tree) : Prop :=
  match tr with
  | TNil => True
  | TValue buf => is_Some buf
  | TShort _ c => valued c
  | TFull v cs =>
      valued v
      ∧ (fix all (ts : list tree) : Prop :=
           match ts with [] => True | t :: ts' => valued t ∧ all ts' end) cs
  end.

(** ** Tries as finite maps *)

(** What an operation does to the map that the trie stands for. *)
Definition map_op (m : gmap (list byte) (list byte)) (o : op)
  : gmap (list byte) (list byte) :=
  match o with
  | OpInsert k v => <[k := v]> m
  | OpDelete k => base.delete k m
  end.

Definition map_ops (ops : list op) (m : gmap (list byte) (list byte))
  : gmap (list byte) (list byte) :=
  foldl map_op m ops.

(** Every delete of the sequence is of a key that is stored when its turn
    comes. *)
Fixpoint deletes_stored (m : gmap (list byte) (list byte)) (ops : list op) : Prop :=
  match ops with
  | [] => True
  | o :: rest =>
      match o with
      | OpDelete k => is_Some (m !! k)
      | OpInsert _ _ => True
      end
      ∧ deletes_stored (map_op m o) rest
  end.

(** The bindings of [m] without the one whose search is [s2]. *)
Definition without_path (s2 : list byte) (m : gmap (list byte) (list byte))
  : gmap (list byte) (list byte) :=
  filter (λ kv, keybytesToHex kv.1 ≠ s2) m.

(** The transaction's root is a trie built by inserts and deletes of byte
    keys, which stores the map [m]: its values are not nil, and the paths
    at which it holds values are the searches of the keys of [m]. *)
Definition txn_stores (h : list cell) (t : Txn)
    (m : gmap (list byte) (list byte)) : Prop :=
  ∃ tr F, own h tr (root t) F ∧ NoDup F ∧ (tr = TNil ∨ good tr) ∧ valued tr
          ∧ (∀ k, lookupA tr (keybytesToHex k) = Some (m !! k))
          ∧ (∀ s v, tkey s → lookupA tr s = Some (Some v) →
                    ∃ k, s = keybytesToHex k).

(** Every key of the map has length [L]. *)
Definition keys_of_length (L : nat) (m : gmap (list byte) (list byte)) : Prop :=
  ∀ k v, m !! k = Some v → length k = L.

(** Inserts and deletes in which every delete is of a stored key, and
    operations on keys of two bytes. *)
Definition stored_ops : list op :=
  [OpInsert [x01] [xaa]; OpInsert [x02] [xbb]; OpInsert [x01] [xcc];
   OpDelete [x02]; OpInsert [x02; x03] [xdd]; OpDelete [x01]].

Definition two_byte_ops : list op :=
  [OpInsert [x12; x34] [xaa]; OpInsert [x12; x35] [xbb]; OpDelete [x14; x34];
   OpDelete [x12; x34]; OpInsert [x12; x35] [xcc]].

(** ** What [insert] writes *)

(** A Full node tagged with the epoch [e]. *)
Definition epoch_full (e : Z) (c : cell) : bool :=
  match c with
  | FullNode _ ep _ _ => bool_decide (ep = e)
  | _ => false
  end.

(** [c'] is the Full node [c] with other slots: the cached hash and the
    epoch are those of [c]. *)
Definition same_but_slots (c c' : cell) : Prop :=
  match c, c' with
  | FullNode hs ep _ _, FullNode hs' ep' _ _ => hs' = hs ∧ ep' = ep
  | _, _ => False
  end.

(** From [h] to [h'] structs were added, and of the structs of [h] only
    the slots of Full nodes tagged with [e] were written. *)
Definition cow_frame (e : Z) (h h' : list cell) : Prop :=
  (length h ≤ length h')%nat
  ∧ ∀ q c, h !! q = Some c →
      h' !! q = Some c
      ∨ (epoch_full e c = true ∧ ∃ c', h' !! q = Some c' ∧ same_but_slots c c').

(** The heap that [two_keys] leaves, and the trie committed from it. *)
Definition two_keys_heap : list cell :=
  Eval vm_compute in
    match two_keys [] with Done (_, h) => h | _ => [] end.

Definition two_keys_root : option nat :=
  Eval vm_compute in
    match two_keys [] with Done (t, _) => root t | _ => None end.

Definition two_keys_trie : Trie := mkTrie two_keys_root 1 nil_storage.

(** The committed trie of [two_keys] as a tree, before and after a
    transaction opened on it has deleted [0x01]. *)
Definition two_keys_tree : tree :=
  TShort [x00]
    (TFull TNil
       (<[1%nat := TShort [x10] (TValue (Some [xaa]))]>
          (<[2%nat := TShort [x10] (TValue (Some [xbb]))]> (replicate 16 TNil)))).

Definition two_keys_tree_after : tree :=
  TShort [x00]
    (TFull TNil
       (<[2%nat := TShort [x02; x10] (TValue (Some [xbb]))]> (replicate 16 TNil))).

(** Operations of a transaction opened on a committed trie. *)
Definition later_ops : list op :=
  [OpDelete [x01]; OpInsert [x03] [xcc]; OpDelete [x02]].

(** A Full node of epoch 1 with a cached hash, and a transaction of that
    epoch on it. *)
Definition hashed_heap : list cell := [FullNode [xab] 1 None (replicate 16 None)].
Definition hashed_txn : Txn := mkTxn (Some 0%nat) 1 nil_storage None.

(** The sequences of operations on which the trie is known to behave as a
    finite map: every delete is of a stored key, or all keys have one
    length. *)
Definition map_like (ops : list op) : Prop :=
  deletes_stored ∅ ops ∨ ∃ L, ∀ o, o ∈ ops → length (op_key o) = L.

(** Two orders of building the map [0x01 -> 0xaa, 0x02 -> 0xbb]. *)
Definition build_ops_1 : list op :=
  [OpInsert [x01] [xaa]; OpInsert [x02] [xbb]].

Definition build_ops_2 : list op :=
  [OpInsert [x02] [xcc]; OpInsert [x03] [xdd]; OpInsert [x01] [xaa];
   OpDelete [x03]; OpInsert [x02] [xbb]].

(** What the walk of [Trie.Commit] may do to an entry of the change set:
    nothing, or write the storage root of an account that is not deleted
    and has pending storage changes. *)
Definition entry_kept (e e' : list byte * entry) : Prop :=
  e'.1 = e.1
  ∧ match e.2 with
    | NotObject => e'.2 = NotObject
    | IsObject a =>
        e'.2 = IsObject a
        ∨ (Deleted a = false ∧ is_Some (so_Txn a)
           ∧ ∃ r, e'.2 = IsObject (set_Root a r))
    end.

(** ** Notions used in the proofs about stored maps *)

(** The byte of a slot of a Full node: position 0 of [v :: cs] is the
    value slot. *)
Definition slot_byte (n : nat) : byte :=
  match n with
  | O => x10
  | S i => byte_of_Z (Z.of_nat i)
  end.

(** Two trees store the same values at the same paths. *)
Definition same_stored (tr1 tr2 : tree) : Prop :=
  ∀ s v, tkey s →
    lookupA tr1 s = Some (Some v) ↔ lookupA tr2 s = Some (Some v).

(** ** The cached hash of a node

    [common.hash] is a byte slice whose backing array is kept when the
    hash is reset, so that [SetHash] can write into it again.  A slice is
    its backing array from its first element on (as long as the capacity)
    and its length. *)
Record slice : Type := mkSlice {
  arr : list byte;
  slen : nat
}.

(** The bytes of the slice: [b[0:len(b)]]. *)
Definition contents (b : slice) : list byte := take (slen b) (arr b).

(** [extendByteSlice(b, needLen)].  [append] on a full slice moves to a new
    array; how much spare capacity it gets is up to the runtime ([spare]). *)
Definition extendByteSlice (spare : nat) (b : slice) (needLen : nat) : slice :=
  let b := mkSlice (arr b) (length (arr b)) in
  let n := (needLen - length (arr b))%nat in
  let b := if bool_decide (0 < n)%nat
           then mkSlice (arr b ++ replicate n x00 ++ replicate spare x00)
                        (slen b + n)
           else b in
  mkSlice (arr b) needLen.

(** [copy(dst, src)]: the first [min(len(dst), len(src))] bytes. *)
Definition copy (dst : slice) (src : list byte) : slice :=
  let n := (slen dst `min` length src)%nat in
  mkSlice (take n src ++ drop n (arr dst)) (slen dst).

(** [c.SetHash(b)] and [c.Hash()] on the [hash] field of [common], and the
    reset [n.hash = n.hash[:0]] of [delete]. *)
Definition SetHash (spare : nat) (hash : slice) (b : list byte) : slice :=
  copy (extendByteSlice spare hash (length b)) b.

Definition Hash (hash : slice) : list byte * bool :=
  (contents hash, bool_decide (slen hash ≠ 0%nat)).

Definition reset (hash : slice) : slice := mkSlice (arr hash) 0.

(** A slice is well formed when its length is within its capacity. *)
Definition slice_ok (b : slice) : Prop := (slen b ≤ length (arr b))%nat.

(** A store that resolves every hash to a leaf, a heap that holds a
    reference and the same leaf in memory. *)
Definition leaf_and_reference : list cell :=
  [ValueNode true (Some [x01; x02]);
   ValueNode false (Some [xaa]);
   ShortNode [] [x00; x01; x10] (Some 1%nat)].

(** ** What [delete] does to the cached hashes *)

(** The cached hash of a node; a Value node has none. *)
Definition cell_hash (c : cell) : list byte :=
  match c with
  | ShortNode hs _ _ => hs
  | FullNode hs _ _ _ => hs
  | ValueNode _ _ => []
  end.

(** From [h] to [h'] no cached hash was filled: every struct of [h] is
    still there, with the cached hash it had or with an empty one. *)
Definition clears (h h' : list cell) : Prop :=
  (length h ≤ length h')%nat
  ∧ ∀ q c, h !! q = Some c →
      ∃ c', h' !! q = Some c'
            ∧ (cell_hash c' = cell_hash c ∨ cell_hash c' = []).

(** The node at [q] has no cached hash. *)
Definition unhashed (h : list cell) (q : nat) : Prop :=
  ∃ c, h !! q = Some c ∧ cell_hash c = [].

(** A Short node over a Full node with two leaves, all with cached
    hashes, and a transaction on it. *)
Definition hashed_trie : list cell :=
  [ValueNode false (Some [xaa]);
   ShortNode [x0a] [x10] (Some 0%nat);
   ValueNode false (Some [xbb]);
   ShortNode [x0b] [x10] (Some 2%nat);
   FullNode [x0c] 1 None
     (<[1%nat := Some 1%nat]> (<[2%nat := Some 3%nat]> (replicate 16 None)));
   ShortNode [x0d] [x00] (Some 4%nat)].

Definition hashed_trie_txn : Txn := mkTxn (Some 5%nat) 1 nil_storage None.

(** Inserts and deletes that leave nothing stored. *)
Definition emptying_ops : list op :=
  [OpInsert [x01] [xaa]; OpInsert [x02] [xbb]; OpInsert [x02; x03] [xcc];
   OpDelete [x02]; OpDelete [x01]; OpDelete [x02; x03]].

(** A Full node of epoch 1 whose child 3 is a hash reference, and a Short
    node over a hash reference. *)
Definition dangling_heap : list cell :=
  [ValueNode true (Some [x01; x02]);
   FullNode [] 1 None (<[3%nat := Some 0%nat]> (replicate 16 None));
   ShortNode [] [x03] (Some 0%nat)].

(** * Properties *)

(** ** Reasoning in the monad *)

Lemma bind_Done {A B} (m : M A) (k : A → M B) (h : heap) (r : B * heap) :
  bind m k h = Done r ↔ ∃ a h1, m h = Done (a, h1) ∧ k a h1 = Done r.
Proof.
  unfold bind. split.
  - destruct (m h) as [[a h1]| |]; try discriminate. eauto.
  - intros (a & h1 & -> & Hk). exact Hk.
Qed.

Lemma load_Done p h c h' : load p h = Done (c, h') ↔ h !! p = Some c ∧ h' = h.
Proof.
  unfold load. destruct (h !! p) as [c0|]; split; intros H.
  - by inversion H.
  - destruct H as [H ->]. by inversion H.
  - discriminate.
  - by destruct H.
Qed.

(** ** Nibbles and searches *)

Lemma nib_not_terminator b : nib b → Byte.eqb b x10 = false.
Proof.
  unfold nib. intros H. destruct (Byte.eqb b x10) eqn:E; [|done].
  apply Byte.byte_dec_bl in E. subst. vm_compute in H. lia.
Qed.

Lemma eqb_terminator b : Byte.eqb b x10 = true ↔ b = x10.
Proof.
  split; [apply Byte.byte_dec_bl | intros ->; reflexivity].
Qed.

Lemma byte_eqb_refl b : Byte.eqb b b = true.
Proof. by apply Byte.byte_dec_lb. Qed.

Lemma byte_eqb_neq a b : a ≠ b → Byte.eqb a b = false.
Proof.
  intros H. destruct (Byte.eqb a b) eqn:E; [|done].
  by apply Byte.byte_dec_bl in E.
Qed.

Lemma tkey_nonempty s : tkey s → s ≠ [].
Proof. intros (p & -> & _). by destruct p. Qed.

Lemma tkey_cons k0 rest :
  tkey (k0 :: rest) → (k0 = x10 ∧ rest = []) ∨ (nib k0 ∧ tkey rest).
Proof.
  intros (p & E & Hp). destruct p as [|a p]; simpl in E.
  - inversion E. by left.
  - inversion E; subst. inversion Hp; subst. right. split; [done|].
    by exists p.
Qed.

Lemma tkey_terminator : tkey [x10].
Proof. exists []. by split. Qed.

Lemma tkey_cons_nib k0 rest : nib k0 → tkey rest → tkey (k0 :: rest).
Proof.
  intros Hk (p & -> & Hp). exists (k0 :: p). split; [done|]. by constructor.
Qed.

Lemma tkey_app k s : Forall nib k → tkey s → tkey (k ++ s).
Proof.
  induction 1; simpl; [done|]. intros Hs. apply tkey_cons_nib; auto.
Qed.

(** A search that continues after a prefix of nibbles. *)
Lemma tkey_drop_nib k s :
  Forall nib k → tkey s → take (length k) s = k →
  tkey (drop (length k) s).
Proof.
  intros Hk. revert s. induction Hk as [|a k Ha Hk IH]; intros s Hs E; simpl in *.
  - by rewrite drop_0.
  - destruct s as [|b s]; [done|]. simpl in E. inversion E; subst.
    simpl. apply tkey_cons in Hs as [[-> _]|[_ Hs]].
    + apply nib_not_terminator in Ha. done.
    + rewrite H1. by apply IH.
Qed.

(** The terminator is the last element: a search that is a prefix of
    another one is equal to it. *)
Lemma tkey_prefix_eq s s' :
  tkey s → tkey s' → take (length s) s' = s → s' = s.
Proof.
  revert s'. induction s as [|a s IH]; intros s' Hs Hs' E.
  - by apply tkey_nonempty in Hs.
  - destruct s' as [|b s']; [done|]. simpl in E. inversion E; subst.
    rewrite H1.
    apply tkey_cons in Hs as [[-> ->]|[Ha Hs]].
    + apply tkey_cons in Hs' as [[_ ->]|[Hn _]]; [done|].
      apply nib_not_terminator in Hn. done.
    + apply tkey_cons in Hs' as [[-> _]|[_ Hs']].
      * apply nib_not_terminator in Ha. done.
      * f_equal. by apply IH.
Qed.

Lemma tkey_drop s i : tkey s → (i < length s)%nat → tkey (drop i s).
Proof.
  revert s. induction i as [|i IH]; intros s Hs Hi.
  - by rewrite drop_0.
  - destruct s as [|a s]; simpl in *; [lia|].
    apply tkey_cons in Hs as [[-> ->]|[_ Hs]]; simpl in *; [lia|].
    apply IH; [done|lia].
Qed.

Lemma tkey_take_nib s i : tkey s → (i < length s)%nat → Forall nib (take i s).
Proof.
  revert s. induction i as [|i IH]; intros s Hs Hi.
  - rewrite take_0. constructor.
  - destruct s as [|a s]; simpl in *; [lia|].
    apply tkey_cons in Hs as [[-> ->]|[Ha Hs]]; simpl in *; [lia|].
    constructor; [done|]. apply IH; [done|lia].
Qed.

(** ** prefixLen *)

Lemma prefixLen_le_l s k : (prefixLen s k ≤ length s)%nat.
Proof.
  revert k. induction s as [|a s IH]; intros [|b k]; simpl; try lia.
  destruct (Byte.eqb a b); simpl; [|lia]. specialize (IH k). lia.
Qed.

Lemma prefixLen_le_r s k : (prefixLen s k ≤ length k)%nat.
Proof.
  revert k. induction s as [|a s IH]; intros [|b k]; simpl; try lia.
  destruct (Byte.eqb a b); simpl; [|lia]. specialize (IH k). lia.
Qed.

Lemma prefixLen_take s k : take (prefixLen s k) s = take (prefixLen s k) k.
Proof.
  revert k. induction s as [|a s IH]; intros [|b k]; simpl; try done.
  destruct (Byte.eqb a b) eqn:E; simpl; [|done].
  apply Byte.byte_dec_bl in E. subst. by rewrite IH.
Qed.

Lemma prefixLen_differ s k a b :
  s !! prefixLen s k = Some a → k !! prefixLen s k = Some b → a ≠ b.
Proof.
  revert k. induction s as [|x s IH]; intros [|y k]; simpl; try done.
  destruct (Byte.eqb x y) eqn:E; simpl.
  - apply IH.
  - intros [= ->] [= ->]. intros ->. by rewrite byte_eqb_refl in E.
Qed.

Lemma prefixLen_full_r s k :
  prefixLen s k = length k ↔ take (length k) s = k.
Proof.
  revert k. induction s as [|a s IH]; intros [|b k]; simpl; try done.
  destruct (Byte.eqb a b) eqn:E; simpl.
  - apply Byte.byte_dec_bl in E. subst. specialize (IH k). split.
    + intros [= H]. f_equal. by apply IH.
    + intros [= H]. f_equal. by apply IH.
  - split; [done|]. intros [= -> _]. by rewrite byte_eqb_refl in E.
Qed.

Lemma prefixLen_full_l s k :
  prefixLen s k = length s ↔ take (length s) k = s.
Proof.
  revert k. induction s as [|a s IH]; intros [|b k]; simpl; try done.
  destruct (Byte.eqb a b) eqn:E; simpl.
  - apply Byte.byte_dec_bl in E. subst. specialize (IH k). split.
    + intros [= H]. f_equal. by apply IH.
    + intros [= H]. f_equal. by apply IH.
  - split; [done|]. intros [= -> _]. by rewrite byte_eqb_refl in E.
Qed.

(** ** Trees *)

Lemma tree_ind' (P : tree → Prop) :
  P TNil →
  (∀ buf, P (TValue buf)) →
  (∀ k c, P c → P (TShort k c)) →
  (∀ v cs, P v → Forall P cs → P (TFull v cs)) →
  ∀ t, P t.
Proof.
  intros HN HV HS HF. fix IH 1. intros [|buf|k c|v cs].
  - exact HN.
  - apply HV.
  - apply HS, IH.
  - apply HF; [apply IH|].
    induction cs as [|c cs IHcs]; constructor; [apply IH|exact IHcs].
Qed.

Lemma count_nonempty_cons c l :
  count_nonempty (c :: l) = ((if is_TNil c then 0 else 1) + count_nonempty l)%nat.
Proof.
  unfold count_nonempty. rewrite filter_cons.
  destruct (decide (is_TNil c = false)) as [H|H]; destruct (is_TNil c);
    simpl; congruence.
Qed.

Lemma count_nonempty_ge_1 l i c :
  l !! i = Some c → nonempty c → (1 ≤ count_nonempty l)%nat.
Proof.
  revert i. induction l as [|x l IH]; intros [|i] H Hc; simpl in *; try done.
  - inversion H; subst. rewrite count_nonempty_cons. unfold nonempty in Hc.
    rewrite Hc. lia.
  - rewrite count_nonempty_cons. specialize (IH _ H Hc). lia.
Qed.

Lemma count_nonempty_ge_2 l i j ci cj :
  i ≠ j → l !! i = Some ci → l !! j = Some cj → nonempty ci → nonempty cj →
  (2 ≤ count_nonempty l)%nat.
Proof.
  revert i j. induction l as [|x l IH]; intros [|i] [|j] Hij Hi Hj Hci Hcj;
    simpl in *; try done; rewrite count_nonempty_cons.
  - inversion Hi; subst. unfold nonempty in Hci. rewrite Hci.
    pose proof (count_nonempty_ge_1 _ _ _ Hj Hcj). lia.
  - inversion Hj; subst. unfold nonempty in Hcj. rewrite Hcj.
    pose proof (count_nonempty_ge_1 _ _ _ Hi Hci). lia.
  - assert (i ≠ j) by congruence.
    pose proof (IH _ _ H Hi Hj Hci Hcj). lia.
Qed.

Lemma count_nonempty_insert l i c :
  nonempty c → (count_nonempty l ≤ count_nonempty (<[i:=c]> l))%nat.
Proof.
  intros Hc. revert i. induction l as [|x l IH]; intros [|i]; simpl; try done.
  - rewrite !count_nonempty_cons. unfold nonempty in Hc. rewrite Hc.
    destruct (is_TNil x); lia.
  - rewrite !count_nonempty_cons. specialize (IH i). lia.
Qed.

(** ** Lookup after insert, on trees *)

Lemma lookupA_leafA s v s' :
  tkey0 s → tkey0 s' →
  lookupA (leafA s v) s' = Some (if decide (s' = s) then Some v else None).
Proof.
  intros Hs Hs'. unfold leafA. case_bool_decide as E.
  - apply nil_length_inv in E. subst. simpl.
    case_bool_decide as E'.
    + apply nil_length_inv in E'. subst. by rewrite decide_True.
    + rewrite decide_False; [done|]. intros ->. done.
  - destruct Hs as [->|Hs]; [done|]. simpl.
    rewrite bool_decide_eq_false_2 by (by apply tkey_nonempty).
    unfold bytes_Equal.
    destruct (decide (s' = s)) as [->|Hne].
    + rewrite bool_decide_eq_false_2 by lia.
      rewrite firstn_all, bool_decide_eq_true_2 by done. simpl.
      rewrite drop_all. by rewrite bool_decide_eq_true_2.
    + case_bool_decide as E1; simpl; [done|].
      case_bool_decide as E2; simpl; [|done].
      destruct Hs' as [->|Hs']; [simpl in E1; destruct s; simpl in *; [done|lia]|].
      exfalso. apply Hne. by apply tkey_prefix_eq.
Qed.

Lemma to_nat_inj a b : Byte.to_nat a = Byte.to_nat b → a = b.
Proof.
  intros H. apply (f_equal Byte.of_nat) in H.
  rewrite !Byte.of_to_nat in H. by inversion H.
Qed.

Lemma good_short_inv k c :
  good (TShort k c) →
  (∃ buf, c = TValue buf ∧ tkey k)
  ∨ (∃ v cs, c = TFull v cs ∧ k ≠ [] ∧ Forall nib k ∧ good (TFull v cs)).
Proof. inversion 1; subst; [left|right]; eauto 10. Qed.

Lemma good_full_inv v cs :
  good (TFull v cs) →
  length cs = 16%nat ∧ (v = TNil ∨ ∃ buf, v = TValue buf)
  ∧ Forall (λ c, c = TNil ∨ good c) cs ∧ (2 ≤ count_nonempty (v :: cs))%nat.
Proof. by inversion 1. Qed.

Lemma good_nonempty c : good c → nonempty c.
Proof. by inversion 1. Qed.

Lemma slot_ok_nonempty e c : slot_ok e c → nonempty c.
Proof. intros [[_ [buf ->]]|[_ H]]; [done|by apply good_nonempty]. Qed.

Lemma lookupA_full_child v cs k0 rest c :
  nib k0 → cs !! Byte.to_nat k0 = Some c →
  lookupA (TFull v cs) (k0 :: rest) = lookupA c rest.
Proof.
  intros Hk Hc. simpl. rewrite nib_not_terminator by done.
  by rewrite list_lookup_fmap, Hc.
Qed.

Lemma lookupA_full_value v cs rest :
  lookupA (TFull v cs) (x10 :: rest) = lookupA v rest.
Proof. done. Qed.

Lemma Forall_replicate_TNil n : Forall (λ c, c = TNil ∨ good c) (replicate n TNil).
Proof. apply Forall_replicate. by left. Qed.

Lemma branch2 edge piece k2 leaf :
  edge ≠ k2 → slot_ok edge piece → slot_ok k2 leaf →
  ∃ bv bcs v' cs',
    tsetEdge TNil (replicate 16 TNil) edge piece = Some (TFull bv bcs)
    ∧ tgetEdge bv bcs k2 = Some TNil
    ∧ tsetEdge bv bcs k2 leaf = Some (TFull v' cs')
    ∧ good (TFull v' cs')
    ∧ ∀ k0 rest', (k0 = x10 ∨ nib k0) →
        lookupA (TFull v' cs') (k0 :: rest') =
          if decide (k0 = edge) then lookupA piece rest'
          else if decide (k0 = k2) then lookupA leaf rest' else Some None.
Proof.
  intros Hne He Hk.
  pose proof (slot_ok_nonempty _ _ He) as Hpn.
  pose proof (slot_ok_nonempty _ _ Hk) as Hln.
  unfold tsetEdge, tgetEdge.
  destruct He as [[-> [buf ->]]|[He Hp]]; destruct Hk as [[-> [buf' ->]]|[Hk Hl]];
    try done.
  - exists (TValue buf), (replicate 16 TNil), (TValue buf),
      (<[Byte.to_nat k2 := leaf]> (replicate 16 TNil)).
    rewrite byte_eqb_refl, (nib_not_terminator k2) by done.
    rewrite bool_decide_eq_true_2
      by (rewrite length_replicate; exact Hk).
    rewrite lookup_replicate_2 by exact Hk.
    repeat split; try done.
    + constructor.
      * by rewrite length_insert, length_replicate.
      * right. eauto.
      * apply Forall_insert; [apply Forall_replicate_TNil|by right].
      * apply (count_nonempty_ge_2 _ 0 (S (Byte.to_nat k2)) (TValue buf) leaf);
          [done|done| |done|exact Hln].
        simpl. apply list_lookup_insert_eq. exact Hk.
    + intros k0 rest' [->|Hk0].
      * rewrite lookupA_full_value. by rewrite decide_True.
      * rewrite decide_False by (intros ->; by apply nib_not_terminator in Hk0).
        destruct (decide (k0 = k2)) as [->|Hk02].
        -- erewrite lookupA_full_child; [done|done|].
           apply list_lookup_insert_eq. assumption.
        -- erewrite lookupA_full_child; [|done|].
           2:{ rewrite list_lookup_insert_ne
                 by (intros E; apply to_nat_inj in E; done).
               apply lookup_replicate_2. exact Hk0. }
           done.
  - exists TNil, (<[Byte.to_nat edge := piece]> (replicate 16 TNil)), (TValue buf'),
      (<[Byte.to_nat edge := piece]> (replicate 16 TNil)).
    rewrite (nib_not_terminator edge) by done. rewrite byte_eqb_refl.
    rewrite bool_decide_eq_true_2
      by (rewrite length_replicate; exact He).
    repeat split; try done.
    + constructor.
      * by rewrite length_insert, length_replicate.
      * right. eauto.
      * apply Forall_insert; [apply Forall_replicate_TNil|by right].
      * apply (count_nonempty_ge_2 _ 0 (S (Byte.to_nat edge)) (TValue buf') piece);
          [done|done| |done|exact Hpn].
        simpl. apply list_lookup_insert_eq. exact He.
    + intros k0 rest' [->|Hk0].
      * rewrite lookupA_full_value.
        rewrite decide_False by (intros <-; by apply nib_not_terminator in He).
        by rewrite decide_True.
      * destruct (decide (k0 = edge)) as [->|Hk0e].
        -- erewrite lookupA_full_child; [done|done|].
           apply list_lookup_insert_eq. assumption.
        -- rewrite decide_False by (intros ->; by apply nib_not_terminator in Hk0).
           erewrite lookupA_full_child; [|done|].
           2:{ rewrite list_lookup_insert_ne
                 by (intros E; apply to_nat_inj in E; done).
               apply lookup_replicate_2. exact Hk0. }
           done.
  - exists TNil, (<[Byte.to_nat edge := piece]> (replicate 16 TNil)), TNil,
      (<[Byte.to_nat k2 := leaf]> (<[Byte.to_nat edge := piece]> (replicate 16 TNil))).
    rewrite (nib_not_terminator edge), (nib_not_terminator k2) by done.
    rewrite bool_decide_eq_true_2
      by (rewrite length_replicate; exact He).
    rewrite bool_decide_eq_true_2
      by (rewrite length_insert, length_replicate; exact Hk).
    rewrite list_lookup_insert_ne by (intros E; apply to_nat_inj in E; done).
    rewrite lookup_replicate_2 by exact Hk.
    repeat split; try done.
    + constructor.
      * by rewrite !length_insert, length_replicate.
      * by left.
      * apply Forall_insert; [apply Forall_insert|by right];
          [apply Forall_replicate_TNil|by right].
      * apply (count_nonempty_ge_2 _ (S (Byte.to_nat edge)) (S (Byte.to_nat k2))
                 piece leaf); [ | | | exact Hpn | exact Hln ].
        -- intros [= E]. by apply to_nat_inj in E.
        -- simpl. rewrite list_lookup_insert_ne
             by (intros E; apply to_nat_inj in E; done).
           apply list_lookup_insert_eq. exact He.
        -- simpl. apply list_lookup_insert_eq.
           rewrite length_insert. exact Hk.
    + intros k0 rest' [->|Hk0].
      * rewrite lookupA_full_value.
        rewrite decide_False by (intros <-; by apply nib_not_terminator in He).
        rewrite decide_False by (intros <-; by apply nib_not_terminator in Hk).
        done.
      * destruct (decide (k0 = edge)) as [->|Hk0e].
        -- erewrite lookupA_full_child; [done|done|].
           rewrite list_lookup_insert_ne
             by (intros E; apply to_nat_inj in E; done).
           apply list_lookup_insert_eq. assumption.
        -- destruct (decide (k0 = k2)) as [->|Hk02].
           ++ erewrite lookupA_full_child; [done|done|].
              apply list_lookup_insert_eq.
              rewrite length_insert. assumption.
           ++ erewrite lookupA_full_child; [|done|].
              2:{ rewrite !list_lookup_insert_ne
                    by (intros E; apply to_nat_inj in E; done).
                  apply lookup_replicate_2. exact Hk0. }
              done.
Qed.

Lemma tkey_not_nib s : tkey s → Forall nib s → False.
Proof.
  intros (p & -> & _) H. apply Forall_app in H as [_ H].
  inversion H as [|? ? Hx]; subst. vm_compute in Hx. lia.
Qed.

Lemma tkey_last s : tkey s → s !! (length s - 1)%nat = Some x10.
Proof.
  intros (p & -> & _). rewrite length_app. simpl.
  rewrite lookup_app_r by lia.
  replace (length p + 1 - 1 - length p)%nat with 0%nat by lia. done.
Qed.

Lemma tkey_lookup_nib s i b :
  tkey s → (i + 1 < length s)%nat → s !! i = Some b → nib b.
Proof.
  intros Hs Hi Hb.
  pose proof (tkey_take_nib s (i + 1) Hs Hi) as H.
  rewrite Forall_lookup in H. apply (H i).
  rewrite lookup_take_lt by lia. done.
Qed.

Lemma lookupA_short_mismatch k c s' :
  k ≠ [] → take (length k) s' ≠ k → lookupA (TShort k c) s' = Some None.
Proof.
  intros Hk Hne. simpl. rewrite bool_decide_eq_false_2 by done.
  unfold bytes_Equal. rewrite (bool_decide_eq_false_2 (take _ _ = _)) by done.
  simpl. by rewrite orb_true_r.
Qed.

Lemma lookupA_short_match k c s1 :
  k ≠ [] → lookupA (TShort k c) (k ++ s1) = lookupA c s1.
Proof.
  intros Hk. simpl. rewrite bool_decide_eq_false_2 by done.
  rewrite bool_decide_eq_false_2 by (rewrite length_app; lia).
  unfold bytes_Equal. rewrite take_app_length, bool_decide_eq_true_2 by done.
  simpl. by rewrite drop_app_length.
Qed.

Lemma lookupA_short_app k1 k2 c s1 :
  k2 ≠ [] → lookupA (TShort (k1 ++ k2) c) (k1 ++ s1) = lookupA (TShort k2 c) s1.
Proof.
  intros Hk2.
  destruct (decide (take (length k2) s1 = k2)) as [E|E].
  - rewrite <- (take_drop (length k2) s1), E.
    rewrite (app_assoc k1 k2), !lookupA_short_match; try done.
    by destruct k1.
  - rewrite !lookupA_short_mismatch; try done.
    + by destruct k1.
    + rewrite length_app. rewrite take_app_ge by lia.
      replace (length k1 + length k2 - length k1)%nat with (length k2) by lia.
      intros H. by apply app_inv_head in H.
Qed.

Lemma take_eq_lookup (k s' : list byte) i :
  take (length k) s' = k → (i < length k)%nat → s' !! i = k !! i.
Proof.
  intros E Hi. rewrite <- E at 1. by rewrite lookup_take_lt.
Qed.

Lemma insertA_split k c s v :
  good (TShort k c) → tkey s → prefixLen s k ≠ length k →
  ∃ tr', insertA (TShort k c) s v = Some tr' ∧ good tr'
    ∧ ∀ s', tkey s' →
        lookupA tr' s' =
          if decide (s' = s) then Some (Some v) else lookupA (TShort k c) s'.
Proof.
  intros Hg Hs Hne.
  pose proof (good_short_inv _ _ Hg) as Hinv.
  assert (Hk_ne : k ≠ []).
  { destruct Hinv as [(buf & _ & Hk)|(tv & tcs & _ & Hk & _)];
      [by apply tkey_nonempty|done]. }
  remember (prefixLen s k) as plen eqn:Hplen.
  assert (Hplen_k : (plen < length k)%nat)
    by (pose proof (prefixLen_le_r s k); lia).
  assert (Hplen_s : (plen < length s)%nat).
  { pose proof (prefixLen_le_l s k).
    destruct (decide (plen = length s)) as [E|]; [|lia].
    exfalso. rewrite Hplen in E. apply prefixLen_full_l in E.
    destruct Hinv as [(buf & _ & Hk)|(tv & tcs & _ & _ & Hk & _)].
    - apply (tkey_prefix_eq s k) in E; try done. subst k.
      apply Hne. rewrite Hplen. apply prefixLen_full_r. by rewrite firstn_all.
    - apply (tkey_not_nib s); [done|]. rewrite <- E. by apply Forall_take. }
  destruct (lookup_lt_is_Some_2 k plen Hplen_k) as [edge Hedge].
  destruct (lookup_lt_is_Some_2 s plen Hplen_s) as [k2 Hk2].
  assert (Hdiff : edge ≠ k2).
  { intros ->. subst plen. by eapply prefixLen_differ. }
  pose proof (drop_S _ _ _ Hk2) as Hdrop.
  remember (drop (S plen) s) as rest eqn:Hrest.
  assert (Htk : tkey (k2 :: rest)) by (rewrite <- Hdrop; by apply tkey_drop).
  assert (Htake : take plen s = take plen k)
    by (subst plen; apply prefixLen_take).
  remember (if bool_decide (plen + 1 < length k)%nat
            then TShort (drop (plen + 1) k) c else c) as piece eqn:Hpiece.
  assert (Hpok : slot_ok edge piece).
  { subst piece.
    destruct Hinv as [(buf & -> & Hk)|(tv & tcs & -> & _ & Hk & Hgc)].
    - case_bool_decide as Hl.
      + right. split; [exact (tkey_lookup_nib k plen edge Hk Hl Hedge)|].
        constructor. apply tkey_drop; [done|lia].
      + left. split; [|eauto].
        pose proof (tkey_last k Hk) as Hlast.
        replace (length k - 1)%nat with plen in Hlast by lia.
        congruence.
    - assert (nib edge) by (rewrite Forall_lookup in Hk; by eapply Hk).
      right. split; [done|]. case_bool_decide as Hl; [|done].
      constructor; [|by apply Forall_drop|done].
      intros E. apply (f_equal length) in E. rewrite length_drop in E.
      simpl in E. lia. }
  assert (Hlok : slot_ok k2 (leafA rest v)).
  { apply tkey_cons in Htk as [[-> ->]|[Hn Hr]].
    - left. split; [done|]. unfold leafA. simpl. eauto.
    - right. split; [done|]. unfold leafA.
      rewrite bool_decide_eq_false_2.
      + by constructor.
      + apply tkey_nonempty in Hr. destruct rest; simpl; [done|lia]. }
  destruct (branch2 edge piece k2 (leafA rest v) Hdiff Hpok Hlok)
    as (bv & bcs & v' & cs' & E1 & E2 & E3 & Hgb & Hlk).
  exists (if bool_decide (plen = 0%nat) then TFull v' cs'
          else TShort (take plen s) (TFull v' cs')).
  split.
  { cbn [insertA]. rewrite <- Hplen. rewrite bool_decide_eq_false_2 by done.
    rewrite Hedge, Hdrop. rewrite <- Hpiece. rewrite E1, E2, E3. done. }
  split.
  { case_bd (plen = 0%nat) as Hz; [done|]. constructor; [|by apply tkey_take_nib|done].
    intros E. apply (f_equal length) in E. rewrite length_take in E.
    simpl in E. lia. }
  intros s' Hs'.
  assert (HN : lookupA (if bool_decide (plen = 0%nat) then TFull v' cs'
                        else TShort (take plen s) (TFull v' cs')) s'
               = if decide (take plen s' = take plen s)
                 then lookupA (TFull v' cs') (drop plen s') else Some None).
  { case_bd (plen = 0%nat) as Hz.
    - rewrite Hz, !take_0, drop_0. by rewrite decide_True.
    - assert (take plen s ≠ []).
      { intros E. apply (f_equal length) in E. rewrite length_take in E.
        simpl in E. lia. }
      destruct (decide (take plen s' = take plen s)) as [E|E].
      + rewrite <- (take_drop plen s') at 1. rewrite E.
        by rewrite lookupA_short_match.
      + apply lookupA_short_mismatch; [done|].
        rewrite length_take. by replace (plen `min` length s)%nat with plen by lia. }
  rewrite HN. clear HN.
  assert (Hold : ∀ b, s' !! plen = Some b → b ≠ edge →
                      lookupA (TShort k c) s' = Some None).
  { intros b Hb Hbe. apply lookupA_short_mismatch; [done|].
    intros E. apply (take_eq_lookup _ _ plen) in E; [|done]. congruence. }
  destruct (decide (take plen s' = take plen s)) as [Hpre|Hpre].
  - assert (Hplen_s' : (plen < length s')%nat).
    { destruct (decide (plen < length s')%nat); [done|]. exfalso.
      apply (tkey_not_nib s'); [done|].
      rewrite <- (take_ge s' plen) by lia.
      rewrite Hpre. by apply tkey_take_nib. }
    destruct (lookup_lt_is_Some_2 s' plen Hplen_s') as [k0 Hk0].
    pose proof (drop_S _ _ _ Hk0) as Hdrop'.
    remember (drop (S plen) s') as rest' eqn:Hrest'.
    assert (Htk' : tkey (k0 :: rest')) by (rewrite <- Hdrop'; by apply tkey_drop).
    rewrite Hdrop'. rewrite Hlk.
    2:{ apply tkey_cons in Htk' as [[-> _]|[? _]]; auto. }
    assert (Es' : s' = take plen s ++ k0 :: rest').
    { rewrite <- Hpre, <- Hdrop'. by rewrite take_drop. }
    assert (Es : s = take plen s ++ k2 :: rest).
    { rewrite <- Hdrop. by rewrite take_drop. }
    destruct (decide (k0 = edge)) as [->|Hk0e].
    + rewrite decide_False by (intros ->; congruence).
      assert (Ek : k = (take plen k ++ [edge]) ++ drop (plen + 1) k).
      { rewrite <- app_assoc. simpl. rewrite Nat.add_1_r.
        rewrite <- (drop_S _ _ _ Hedge). by rewrite take_drop. }
      rewrite Es'. rewrite Htake.
      replace (take plen k ++ edge :: rest') with ((take plen k ++ [edge]) ++ rest')
        by (by rewrite <- app_assoc).
      subst piece. case_bd (plen + 1 < length k)%nat as Hl.
      * transitivity
          (lookupA (TShort ((take plen k ++ [edge]) ++ drop (plen + 1) k) c)
             ((take plen k ++ [edge]) ++ rest')); [|by rewrite <- Ek].
        rewrite lookupA_short_app; [done|].
        intros E. apply (f_equal length) in E. rewrite length_drop in E.
        simpl in E. lia.
      * assert (drop (plen + 1) k = []) as Ed
          by (apply drop_ge; lia).
        rewrite Ed, app_nil_r in Ek. rewrite <- Ek.
        rewrite lookupA_short_match; [done|]. done.
    + destruct (decide (k0 = k2)) as [->|Hk02].
      * rewrite lookupA_leafA.
        2:{ apply tkey_cons in Htk as [[_ ->]|[_ ?]]; [by left|by right]. }
        2:{ apply tkey_cons in Htk' as [[_ ->]|[_ ?]]; [by left|by right]. }
        destruct (decide (rest' = rest)) as [->|Hr].
        -- rewrite decide_True by congruence. done.
        -- rewrite decide_False.
           2:{ intros E.
               assert (take plen s ++ k2 :: rest' = take plen s ++ k2 :: rest)
                 as E' by congruence.
               apply app_inv_head in E'. congruence. }
           symmetry. by eapply Hold.
      * rewrite decide_False by (intros ->; congruence).
        symmetry. by eapply Hold.
  - rewrite decide_False by (intros ->; done).
    symmetry. apply lookupA_short_mismatch; [done|].
    intros E. apply Hpre. rewrite Htake.
    rewrite <- E at 1. rewrite take_take.
    by replace (plen `min` length k)%nat with plen by lia.
Qed.

Lemma insertA_short_match k c s v :
  k ≠ [] → prefixLen s k = length k →
  insertA (TShort k c) s v =
    match insertA c (drop (length k) s) v with
    | Some c' => Some (TShort k c')
    | None => None
    end.
Proof.
  intros Hk Hp. cbn [insertA]. rewrite bool_decide_eq_true_2 by done.
  rewrite bool_decide_eq_false_2 by done. by rewrite Hp.
Qed.

Lemma insertA_good tr :
  tr = TNil ∨ good tr → ∀ s v, tkey s →
  ∃ tr', insertA tr s v = Some tr' ∧ good tr'
    ∧ (∀ v0 cs0, tr = TFull v0 cs0 → ∃ v1 cs1, tr' = TFull v1 cs1)
    ∧ ∀ s', tkey s' →
        lookupA tr' s' = if decide (s' = s) then Some (Some v) else lookupA tr s'.
Proof.
  induction tr as [|buf|k c IH|tv tcs _ IHcs] using tree_ind'; intros Hg s v Hs.
  - simpl. eexists; split; [done|]. split; [|split; [done|]].
    + unfold leafA. rewrite bool_decide_eq_false_2.
      * by constructor.
      * apply tkey_nonempty in Hs. destruct s; simpl; [done|lia].
    + intros s' Hs'. rewrite lookupA_leafA by (by right).
      by destruct (decide _).
  - destruct Hg as [|Hg]; [done|inversion Hg].
  - destruct Hg as [|Hg]; [done|].
    destruct (decide (prefixLen s k = length k)) as [Hp|Hp].
    2:{ destruct (insertA_split k c s v Hg Hs Hp) as (tr' & E & Hg' & Hl).
        exists tr'. repeat split; try done. }
    pose proof (proj1 (prefixLen_full_r s k) Hp) as Hpre.
    destruct (good_short_inv _ _ Hg) as [(buf & -> & Hk)|(tv & tcs & -> & Hkne & Hk & Hgc)].
    + assert (s = k) as -> by (by apply tkey_prefix_eq).
      exists (TShort k (TValue (Some v))).
      split.
      { rewrite insertA_short_match by (done || by apply tkey_nonempty).
        rewrite drop_all. done. }
      split; [by constructor|]. split; [done|].
      intros s' Hs'. destruct (decide (s' = k)) as [->|Hne].
      * rewrite <- (app_nil_r k) at 2.
        rewrite lookupA_short_match by (by apply tkey_nonempty). done.
      * rewrite !lookupA_short_mismatch; try done; try (by apply tkey_nonempty).
        all: intros E; apply Hne; by apply tkey_prefix_eq.
    + assert (Hs1 : tkey (drop (length k) s)) by (by apply tkey_drop_nib).
      destruct (IH (or_intror Hgc) _ v Hs1) as (c' & Ec & Hgc' & Hfull & Hlk).
      destruct (Hfull _ _ eq_refl) as (v1 & cs1 & ->).
      exists (TShort k (TFull v1 cs1)).
      split.
      { rewrite insertA_short_match by done. by rewrite Ec. }
      split; [by constructor|]. split; [done|].
      intros s' Hs'.
      destruct (decide (take (length k) s' = k)) as [E|E].
      * assert (Hs1' : tkey (drop (length k) s')) by (by apply tkey_drop_nib).
        assert (Hm : ∀ c0, lookupA (TShort k c0) s' = lookupA c0 (drop (length k) s')).
        { intros c0. rewrite <- (take_drop (length k) s') at 1. rewrite E.
          by rewrite lookupA_short_match. }
        rewrite !Hm. rewrite Hlk by done.
        destruct (decide (drop (length k) s' = drop (length k) s)) as [Ed|Ed].
        -- rewrite decide_True; [done|].
           rewrite <- (take_drop (length k) s'), <- (take_drop (length k) s).
           congruence.
        -- rewrite decide_False; [done|]. congruence.
      * rewrite decide_False by congruence.
        rewrite !lookupA_short_mismatch; done.
  - destruct Hg as [|Hg]; [done|].
    destruct (good_full_inv _ _ Hg) as (Hlen & Hv & Hcs & Hcount).
    destruct s as [|k0 rest]; [by apply tkey_nonempty in Hs|].
    apply tkey_cons in Hs as [[-> ->]|[Hk0 Hrest]].
    + exists (TFull (TValue (Some v)) tcs).
      split.
      { cbn [insertA]. rewrite byte_eqb_refl.
        by destruct Hv as [->|[buf ->]]. }
      split.
      { constructor; try done; [right; eauto|].
        rewrite count_nonempty_cons in *. simpl. destruct (is_TNil tv); lia. }
      split; [eauto|].
      intros s' Hs'. destruct s' as [|k0' rest']; [by apply tkey_nonempty in Hs'|].
      apply tkey_cons in Hs' as [[-> ->]|[Hk0' Hrest']].
      * rewrite decide_True by done. done.
      * rewrite decide_False
          by (intros [= -> _]; by apply nib_not_terminator in Hk0').
        cbn [lookupA]. by rewrite nib_not_terminator.
    + destruct (lookup_lt_is_Some_2 tcs (Byte.to_nat k0)) as [c Hc];
        [rewrite Hlen; exact Hk0|].
      rewrite Forall_lookup in IHcs. rewrite Forall_lookup in Hcs.
      destruct (IHcs _ _ Hc (Hcs _ _ Hc) rest v Hrest)
        as (c' & Ec & Hgc' & _ & Hlk).
      exists (TFull tv (<[Byte.to_nat k0 := c']> tcs)).
      split.
      { cbn [insertA]. rewrite nib_not_terminator by done.
        rewrite list_lookup_fmap, Hc. simpl. by rewrite Ec. }
      split.
      { constructor.
        - by rewrite length_insert.
        - done.
        - apply Forall_insert; [by apply Forall_lookup|by right].
        - pose proof (count_nonempty_insert (tv :: tcs) (S (Byte.to_nat k0)) c'
                        (good_nonempty _ Hgc')) as Hci.
          simpl in Hci. lia. }
      split; [eauto|].
      intros s' Hs'. destruct s' as [|k0' rest']; [by apply tkey_nonempty in Hs'|].
      apply tkey_cons in Hs' as [[-> ->]|[Hk0' Hrest']].
      * rewrite decide_False
          by (intros [= <- _]; by apply nib_not_terminator in Hk0).
        done.
      * destruct (decide (k0' = k0)) as [->|Hne].
        -- erewrite (lookupA_full_child _ (<[_:=_]> _)); [|done|].
           2:{ apply list_lookup_insert_eq. rewrite Hlen. exact Hk0. }
           rewrite Hlk by done.
           erewrite (lookupA_full_child _ tcs); [|done|exact Hc].
           destruct (decide (rest' = rest)) as [->|Hr].
           ++ by rewrite decide_True.
           ++ rewrite decide_False; [done|]. congruence.
        -- rewrite decide_False by congruence.
           destruct (lookup_lt_is_Some_2 tcs (Byte.to_nat k0')) as [c0 Hc0];
             [rewrite Hlen; exact Hk0'|].
           erewrite (lookupA_full_child _ (<[_:=_]> _)); [|done|].
           2:{ rewrite list_lookup_insert_ne; [exact Hc0|].
               intros E. by apply to_nat_inj in E. }
           by erewrite (lookupA_full_child _ tcs).
Qed.

(** ** The heap *)

Lemma bind_step {A B} (m : M A) (k : A → M B) h a h' :
  m h = Done (a, h') → bind m k h = k a h'.
Proof. unfold bind. by intros ->. Qed.

Lemma load_ok p h c : h !! p = Some c → load p h = Done (c, h).
Proof. unfold load. by intros ->. Qed.

Lemma store_ok p h c0 c : h !! p = Some c0 → store p c h = Done (tt, <[p:=c]> h).
Proof. unfold store. by intros ->. Qed.

Lemma alloc_ok c h : alloc c h = Done (length h, h ++ [c]).
Proof. done. Qed.

Lemma lookup_alloc (h : heap) c : (h ++ [c]) !! length h = Some c.
Proof. by rewrite lookup_app_r, Nat.sub_diag by lia. Qed.

Lemma lookup_alloc_old (h : heap) c q : (q < length h)%nat → (h ++ [c]) !! q = h !! q.
Proof. intros. by rewrite lookup_app_l. Qed.

(** ** Trees in the heap *)

Lemma own_nil_iff h n F : own h TNil n F ↔ n = None ∧ F = [].
Proof. done. Qed.

Lemma own_value_iff h buf n F :
  own h (TValue buf) n F ↔
  ∃ p, n = Some p ∧ h !! p = Some (ValueNode false buf) ∧ F = [p].
Proof. done. Qed.

Lemma own_short_iff h k tc n F :
  own h (TShort k tc) n F ↔
  ∃ p hs c Fc, n = Some p ∧ h !! p = Some (ShortNode hs k c)
               ∧ own h tc c Fc ∧ F = p :: Fc.
Proof. done. Qed.

Lemma own_full_iff h tv tcs n F :
  own h (TFull tv tcs) n F ↔
  ∃ p hs ep v cs Fv Fs,
    n = Some p ∧ h !! p = Some (FullNode hs ep v cs)
    ∧ own h tv v Fv ∧ Forall3 (own h) tcs cs Fs ∧ F = p :: Fv ++ mjoin Fs.
Proof.
  assert (Hl : ∀ ts cs Fs,
    (fix owns (ts : list tree) (cs : list Node) (Fs : list (list loc)) : Prop :=
       match ts, cs, Fs with
       | [], [], [] => True
       | t :: ts', c :: cs', F1 :: Fs' => own h t c F1 ∧ owns ts' cs' Fs'
       | _, _, _ => False
       end) ts cs Fs ↔ Forall3 (own h) ts cs Fs).
  { induction ts as [|t ts IH]; intros [|c cs] [|F1 Fs]; split;
      try done; try (by inversion 1).
    - constructor.
    - intros [H1 H2]. constructor; [done|by apply IH].
    - inversion 1; subst. split; [done|by apply IH]. }
  cbn [own]. split.
  - intros (p & hs & ep & v & cs & Fv & Fs & H1 & H2 & H3 & H4 & H5).
    exists p, hs, ep, v, cs, Fv, Fs. repeat split; try done. by apply Hl.
  - intros (p & hs & ep & v & cs & Fv & Fs & H1 & H2 & H3 & H4 & H5).
    exists p, hs, ep, v, cs, Fv, Fs. repeat split; try done. by apply Hl.
Qed.

Lemma own_frame tr : ∀ h h' n F,
  own h tr n F → (∀ q, q ∈ F → h' !! q = h !! q) → own h' tr n F.
Proof.
  induction tr as [|buf|k c IH|tv tcs IHv IHcs] using tree_ind'; intros h h' n F Ho Hf.
  - done.
  - destruct Ho as (p & -> & Hp & ->). exists p. repeat split; try done.
    rewrite Hf; [done|set_solver].
  - destruct Ho as (p & hs & c0 & Fc & -> & Hp & Hc & ->).
    exists p, hs, c0, Fc. repeat split; try done.
    + rewrite Hf; [done|set_solver].
    + eapply IH; [done|]. intros q Hq. apply Hf. set_solver.
  - apply own_full_iff in Ho
      as (p & hs & ep & v & cs & Fv & Fs & -> & Hp & Hv & Hcs & ->).
    apply own_full_iff. exists p, hs, ep, v, cs, Fv, Fs.
    repeat split; try done.
    + rewrite Hf; [done|set_solver].
    + eapply IHv; [done|]. intros q Hq. apply Hf. set_solver.
    + assert (Hsub : ∀ q, q ∈ mjoin Fs → h' !! q = h !! q)
        by (intros q Hq; apply Hf; set_solver).
      clear Hf Hp Hv. revert Hsub.
      induction Hcs as [|t c0 F1 ts cs0 Fs0 H1 Hrest IHrest]; intros Hsub;
        [constructor|].
      inversion IHcs; subst.
      constructor.
      * eapply H2; [done|]. intros q Hq. apply Hsub. simpl. set_solver.
      * apply IHrest; [done|]. intros q Hq. apply Hsub. simpl. set_solver.
Qed.

Lemma own_bound tr : ∀ h n F q, own h tr n F → q ∈ F → (q < length h)%nat.
Proof.
  induction tr as [|buf|k c IH|tv tcs IHv IHcs] using tree_ind'; intros h n F q Ho Hq.
  - destruct Ho as [_ ->]. set_solver.
  - destruct Ho as (p & -> & Hp & ->). apply lookup_lt_Some in Hp.
    apply list_elem_of_singleton in Hq. by subst.
  - destruct Ho as (p & hs & c0 & Fc & -> & Hp & Hc & ->).
    apply lookup_lt_Some in Hp.
    apply elem_of_cons in Hq as [->|Hq]; [done|]. by eapply IH.
  - apply own_full_iff in Ho
      as (p & hs & ep & v & cs & Fv & Fs & -> & Hp & Hv & Hcs & ->).
    apply lookup_lt_Some in Hp.
    apply elem_of_cons in Hq as [->|Hq]; [done|].
    apply elem_of_app in Hq as [Hq|Hq]; [by eapply IHv|].
    clear Hp Hv. induction Hcs as [|t c0 F1 ts cs0 Fs0 H1 Hrest IHrest];
      [set_solver|].
    inversion IHcs; subst. simpl in Hq.
    apply elem_of_app in Hq as [Hq|Hq]; [by eapply H2|by apply IHrest].
Qed.

Lemma own_mono tr h ext n F : own h tr n F → own (h ++ ext) tr n F.
Proof.
  intros Ho. eapply own_frame; [done|]. intros q Hq.
  apply lookup_app_l. by eapply own_bound.
Qed.

Lemma own_shape tr h n F : own h tr n F → (n = None ↔ tr = TNil).
Proof.
  destruct tr; simpl.
  - by intros [-> _].
  - intros (p & -> & _). done.
  - intros (p & ? & ? & ? & -> & _). done.
  - intros (p & ? & ? & ? & ? & ? & ? & -> & _). done.
Qed.

Lemma getEdge_value p h hs ep v cs :
  h !! p = Some (FullNode hs ep v cs) → getEdge p x10 h = Done (v, h).
Proof.
  intros Hp. unfold getEdge. rewrite (bind_step _ _ _ _ _ (load_ok _ _ _ Hp)).
  done.
Qed.

Lemma getEdge_child p h hs ep v cs k e :
  h !! p = Some (FullNode hs ep v cs) → Byte.eqb k x10 = false →
  cs !! Byte.to_nat k = Some e → getEdge p k h = Done (e, h).
Proof.
  intros Hp Hk He. unfold getEdge.
  rewrite (bind_step _ _ _ _ _ (load_ok _ _ _ Hp)).
  rewrite Hk. unfold lift, slot. by rewrite He.
Qed.

(** ** Footprints of Full nodes *)

Lemma mjoin_insert_nil (Fs : list (list loc)) i Fi :
  Fs !! i = Some Fi → mjoin Fs ≡ₚ Fi ++ mjoin (<[i:=[]]> Fs).
Proof.
  revert i. induction Fs as [|F1 Fs IH]; intros [|i] H; simpl in *; try done.
  - by inversion H.
  - rewrite (IH _ H). by rewrite !app_assoc, (Permutation_app_comm F1 Fi).
Qed.

Lemma mjoin_insert (Fs : list (list loc)) i Fe :
  (i < length Fs)%nat → mjoin (<[i:=Fe]> Fs) ≡ₚ Fe ++ mjoin (<[i:=[]]> Fs).
Proof.
  intros Hi.
  rewrite (mjoin_insert_nil (<[i:=Fe]> Fs) i Fe)
    by (by apply list_lookup_insert_eq).
  by rewrite list_insert_insert_eq.
Qed.

Lemma Forall3_insert {A B C} (P : A → B → C → Prop) l k k' i x y z :
  Forall3 P l k k' → P x y z →
  Forall3 P (<[i:=x]> l) (<[i:=y]> k) (<[i:=z]> k').
Proof.
  intros H. revert i. induction H; intros [|i] Hp; simpl; constructor; auto.
Qed.

Lemma Forall3_own_frame h h' ts cs Fs :
  Forall3 (own h) ts cs Fs → (∀ q, q ∈ mjoin Fs → h' !! q = h !! q) →
  Forall3 (own h') ts cs Fs.
Proof.
  induction 1 as [|t c F1 ts cs Fs H1 Hrest IH]; intros Hf; constructor.
  - eapply own_frame; [done|]. intros q Hq. apply Hf. simpl. set_solver.
  - apply IH. intros q Hq. apply Hf. simpl. set_solver.
Qed.

Lemma own_others_frame h h' v cs tv tcs Fv Fs idx :
  own_others h v cs tv tcs Fv Fs idx →
  (∀ q, q ∈ others idx Fv Fs → h' !! q = h !! q) →
  own_others h' v cs tv tcs Fv Fs idx.
Proof.
  unfold own_others, others. destruct (Byte.eqb idx x10).
  - apply Forall3_own_frame.
  - intros [Hv Hcs] Hf. split.
    + eapply own_frame; [done|]. intros q Hq. apply Hf. set_solver.
    + eapply Forall3_own_frame; [done|]. intros q Hq. apply Hf. set_solver.
Qed.

Lemma getEdge_own h p hs ep v cs tv tcs Fv Fs idx te :
  h !! p = Some (FullNode hs ep v cs) →
  own h tv v Fv → Forall3 (own h) tcs cs Fs →
  tgetEdge tv tcs idx = Some te →
  ∃ e Fi, getEdge p idx h = Done (e, h) ∧ own h te e Fi
          ∧ Fv ++ mjoin Fs ≡ₚ Fi ++ others idx Fv Fs
          ∧ own_others h v cs tv tcs Fv Fs idx
          ∧ (∀ h', own_others h' v cs tv tcs Fv Fs idx → own h' te e Fi →
                   own h' tv v Fv ∧ Forall3 (own h') tcs cs Fs).
Proof.
  intros Hp Hv Hcs Hg. unfold tgetEdge, others, own_others in *.
  destruct (Byte.eqb idx x10) eqn:E.
  - apply eqb_terminator in E. subst. inversion Hg; subst.
    exists v, Fv. repeat split; try done. by eapply getEdge_value.
  - destruct (Forall3_lookup_l _ _ _ _ _ _ Hcs Hg) as (e & Fi & He & HFi & Hoe).
    exists e, Fi. split; [by eapply getEdge_child|]. split; [done|].
    split; [|split; [split; [done|by apply Forall3_insert]|]].
    + rewrite (mjoin_insert_nil Fs _ Fi HFi).
      by rewrite !app_assoc, (Permutation_app_comm Fv Fi).
    + intros h' [Hv' Hcs'] Hte'. split; [done|].
      pose proof (Forall3_insert _ _ _ _ (Byte.to_nat idx) te e Fi Hcs' Hte') as H.
      rewrite !list_insert_insert_eq in H.
      by rewrite !list_insert_id in H.
Qed.

Lemma setEdge_own h p hs ep v cs tv tcs Fv Fs idx te e Fe tr' :
  h !! p = Some (FullNode hs ep v cs) →
  own_others h v cs tv tcs Fv Fs idx →
  tsetEdge tv tcs idx te = Some tr' →
  own h te e Fe → p ∉ Fe → p ∉ others idx Fv Fs →
  ∃ h' F', setEdge p idx e h = Done (tt, h')
           ∧ own h' tr' (Some p) (p :: F')
           ∧ F' ≡ₚ Fe ++ others idx Fv Fs
           ∧ (∀ q, q ≠ p → h' !! q = h !! q)
           ∧ length h' = length h.
Proof.
  intros Hp Hoth Hset Hte HpFe HpO.
  unfold tsetEdge, others, own_others, setEdge in *.
  rewrite (bind_step _ _ _ _ _ (load_ok _ _ _ Hp)).
  pose proof (lookup_lt_Some _ _ _ Hp) as Hplt.
  destruct (Byte.eqb idx x10) eqn:E.
  - inversion Hset; subst.
    rewrite (store_ok _ _ _ _ Hp).
    eexists _, _. split; [done|]. split; [|split; [reflexivity|split]].
    + apply own_full_iff. do 7 eexists.
      split; [done|]. split; [by apply list_lookup_insert_eq|].
      split; [|split; [|reflexivity]].
      * eapply own_frame; [done|]. intros q Hq.
        apply list_lookup_insert_ne. intros ->. done.
      * eapply Forall3_own_frame; [done|]. intros q Hq.
        apply list_lookup_insert_ne. intros ->. done.
    + intros q Hq. by apply list_lookup_insert_ne.
    + by rewrite length_insert.
  - destruct Hoth as [Hv Hcs].
    pose proof (Forall3_length_lm _ _ _ _ Hcs) as Hlen1.
    pose proof (Forall3_length_lr _ _ _ _ Hcs) as Hlen2.
    repeat rewrite length_insert in Hlen1. repeat rewrite length_insert in Hlen2.
    case_bd (Byte.to_nat idx < length tcs)%nat as Hi; [|done].
    inversion Hset; subst.
    rewrite bool_decide_eq_true_2 by lia.
    rewrite (store_ok _ _ _ _ Hp).
    eexists _, (Fv ++ mjoin (<[Byte.to_nat idx := Fe]> Fs)).
    split; [done|]. split; [|split; [|split]].
    + apply own_full_iff.
      exists p, hs, ep, v, (<[Byte.to_nat idx := e]> cs), Fv,
        (<[Byte.to_nat idx := Fe]> Fs).
      split; [done|]. split; [by apply list_lookup_insert_eq|].
      split; [|split; [|reflexivity]].
      * eapply own_frame; [done|]. intros q Hq.
        apply list_lookup_insert_ne. intros ->. apply HpO. set_solver.
      * rewrite <- (list_insert_insert_eq tcs _ te TNil).
        rewrite <- (list_insert_insert_eq cs _ e None).
        rewrite <- (list_insert_insert_eq Fs _ Fe []).
        apply Forall3_insert.
        -- eapply Forall3_own_frame; [done|]. intros q Hq.
           apply list_lookup_insert_ne. intros ->. apply HpO. set_solver.
        -- eapply own_frame; [done|]. intros q Hq.
           apply list_lookup_insert_ne. intros ->. done.
    + rewrite mjoin_insert by lia.
      by rewrite !app_assoc, (Permutation_app_comm Fv Fe).
    + intros q Hq. by apply list_lookup_insert_ne.
    + by rewrite length_insert.
Qed.

(** ** The operations on the heap compute what they compute on the tree *)

Lemma lookup_refine tr : ∀ fuel t h n F key r,
  own h tr n F → lookupA tr key = Some r → (length key + 1 ≤ fuel)%nat →
  lookup fuel t n key h = Done (r, h).
Proof.
  induction tr as [|buf|k c IH|tv tcs IHv IHcs] using tree_ind';
    intros fuel t h n F key r Ho Hl Hf;
    (destruct fuel as [|fuel]; [lia|]); cbn [lookup].
  - destruct Ho as [-> _]. simpl in Hl. by inversion Hl.
  - destruct Ho as (p & -> & Hp & ->).
    rewrite (bind_step _ _ _ _ _ (load_ok _ _ _ Hp)).
    simpl in Hl. inversion Hl. by destruct (bool_decide _).
  - destruct Ho as (p & hs & c0 & Fc & -> & Hp & Hc & ->).
    rewrite (bind_step _ _ _ _ _ (load_ok _ _ _ Hp)).
    cbn [lookupA] in Hl.
    case_bd (k = []) as Hk; [done|].
    destruct (bool_decide (length key < length k)%nat
              || negb (bytes_Equal (take (length k) key) k)) eqn:E.
    + by inversion Hl.
    + apply orb_false_iff in E as [E1 _].
      apply bool_decide_eq_false in E1.
      eapply IH; [done|done|].
      rewrite length_drop. destruct k; [done|]. simpl in *. lia.
  - apply own_full_iff in Ho
      as (p & hs & ep & v & cs & Fv & Fs & -> & Hp & Hv & Hcs & ->).
    rewrite (bind_step _ _ _ _ _ (load_ok _ _ _ Hp)).
    cbn [lookupA] in Hl. destruct key as [|k0 rest]; [done|].
    destruct (Byte.eqb k0 x10) eqn:Ek.
    + apply eqb_terminator in Ek. subst k0.
      rewrite (bind_step _ _ _ _ _ (getEdge_value _ _ _ _ _ _ Hp)).
      eapply IHv; [done|done|]. simpl in Hf. lia.
    + rewrite list_lookup_fmap in Hl.
      destruct (tcs !! Byte.to_nat k0) as [c|] eqn:Hc; [|done]. simpl in Hl.
      destruct (Forall3_lookup_l _ _ _ _ _ _ Hcs Hc) as (e & Fe & He & _ & Hoe).
      rewrite (bind_step _ _ _ _ _ (getEdge_child _ _ _ _ _ _ _ _ Hp Ek He)).
      rewrite Forall_lookup in IHcs.
      eapply IHcs; [done|done|done|]. simpl in Hf. lia.
Qed.

Lemma writeNode_ok t p h hs ep v cs :
  h !! p = Some (FullNode hs ep v cs) →
  writeNode t p h =
    if decide (epoch t = ep) then Done (p, h)
    else Done (length h, h ++ [FullNode [] (epoch t) v cs]).
Proof.
  intros Hp. unfold writeNode.
  rewrite (bind_step _ _ _ _ _ (load_ok _ _ _ Hp)).
  case_bd (epoch t = ep) as E; done.
Qed.

Lemma insert_nil_ok fuel t h s v :
  (2 ≤ fuel)%nat →
  ∃ p' h' F', insert fuel t None s v h = Done (Some p', h')
    ∧ own h' (leafA s v) (Some p') F' ∧ NoDup F'
    ∧ (∀ q, q ∈ F' → (length h ≤ q)%nat)
    ∧ (∀ q, (q < length h)%nat → h' !! q = h !! q)
    ∧ (length h ≤ length h')%nat.
Proof.
  intros Hf. destruct fuel as [|[|fuel]]; [lia|lia|].
  cbn [insert]. unfold leafA. case_bd (length s = 0%nat) as E.
  - exists (length h), (h ++ [ValueNode false (Some v)]), [length h].
    split; [done|]. split.
    { exists (length h). split; [done|]. split; [apply lookup_alloc|done]. }
    split; [apply NoDup_singleton|]. split; [|split].
    + intros q Hq. apply list_elem_of_singleton in Hq. lia.
    + intros q Hq. by apply lookup_alloc_old.
    + rewrite length_app. lia.
  - simpl.
    exists (S (length h)),
      ((h ++ [ValueNode false (Some v)]) ++ [ShortNode [] s (Some (length h))]),
      [S (length h); length h].
    split.
    { unfold bind, alloc, ret. simpl. rewrite length_app. simpl.
      by rewrite Nat.add_1_r. }
    split.
    { exists (S (length h)), [], (Some (length h)), [length h].
      split; [done|]. split.
      { replace (S (length h)) with (length (h ++ [ValueNode false (Some v)]))
          by (rewrite length_app; simpl; lia).
        apply lookup_alloc. }
      split; [|done].
      exists (length h). split; [done|]. split; [|done].
      rewrite lookup_app_l by (rewrite length_app; simpl; lia).
      apply lookup_alloc. }
    split.
    { apply NoDup_cons. split; [|apply NoDup_singleton].
      intros Hq. apply list_elem_of_singleton in Hq. lia. }
    split; [|split].
    + intros q Hq. apply elem_of_cons in Hq as [->|Hq]; [lia|].
      apply list_elem_of_singleton in Hq. lia.
    + intros q Hq. rewrite <- app_assoc. by apply lookup_app_l.
    + rewrite !length_app. lia.
Qed.

Lemma insert_full_step fuel t h p hs ep v cs tv tcs Fv Fs k rest value te te' tr' :
  h !! p = Some (FullNode hs ep v cs) →
  own h tv v Fv → Forall3 (own h) tcs cs Fs →
  NoDup (p :: Fv ++ mjoin Fs) →
  tgetEdge tv tcs k = Some te →
  tsetEdge tv tcs k te' = Some tr' →
  (∀ h0 e Fi, own h0 te e Fi → NoDup Fi →
     insert_post h0 Fi te' (insert fuel t e rest value h0)) →
  insert_post h (p :: Fv ++ mjoin Fs) tr'
    (insert (S fuel) t (Some p) (k :: rest) value h).
Proof.
  intros Hp Hv Hcs Hnd Hget Hset Hslot.
  apply NoDup_cons in Hnd as [HpF HndF].
  assert (HboundF : ∀ q, q ∈ Fv ++ mjoin Fs → (q < length h)%nat).
  { intros q Hq. eapply (own_bound (TFull tv tcs) h (Some p) (p :: Fv ++ mjoin Fs)).
    - apply own_full_iff. by exists p, hs, ep, v, cs, Fv, Fs.
    - set_solver. }
  pose proof (lookup_lt_Some _ _ _ Hp) as Hplt.
  assert (∃ b h0 hs' ep',
            writeNode t p h = Done (b, h0)
            ∧ h0 !! b = Some (FullNode hs' ep' v cs)
            ∧ (∀ q, (q < length h)%nat → h0 !! q = h !! q)
            ∧ (length h ≤ length h0)%nat
            ∧ (b = p ∨ b = length h) ∧ (b < length h0)%nat)
    as (b & h0 & hs' & ep' & Hw & Hb & Hh0 & Hlen0 & Hbcase & Hblt).
  { rewrite (writeNode_ok _ _ _ _ _ _ _ Hp).
    destruct (decide (epoch t = ep)).
    - exists p, h, hs, ep. repeat split; auto.
    - exists (length h), (h ++ [FullNode [] (epoch t) v cs]), [], (epoch t).
      split; [done|]. split; [apply lookup_alloc|].
      split; [intros; by apply lookup_alloc_old|].
      rewrite length_app. simpl. repeat split; auto; lia. }
  assert (HbF : b ∉ Fv ++ mjoin Fs).
  { destruct Hbcase as [->| ->]; [done|]. intros Hq. apply HboundF in Hq. lia. }
  assert (Hp0 : h0 !! p = Some (FullNode hs ep v cs)) by (by rewrite Hh0).
  assert (Hv0 : own h0 tv v Fv).
  { eapply own_frame; [done|]. intros q Hq. apply Hh0, HboundF. set_solver. }
  assert (Hcs0 : Forall3 (own h0) tcs cs Fs).
  { eapply Forall3_own_frame; [done|]. intros q Hq. apply Hh0, HboundF. set_solver. }
  destruct (getEdge_own _ _ _ _ _ _ _ _ _ _ _ _ Hp0 Hv0 Hcs0 Hget)
    as (e & Fi & Hge & Hoe & Hperm & Hoth & _).
  assert (HFi : ∀ q, q ∈ Fi → q ∈ Fv ++ mjoin Fs)
    by (intros q Hq; rewrite Hperm; set_solver).
  assert (HO : ∀ q, q ∈ others k Fv Fs → q ∈ Fv ++ mjoin Fs)
    by (intros q Hq; rewrite Hperm; set_solver).
  assert (Hnd2 : NoDup (Fi ++ others k Fv Fs)) by (by rewrite <- Hperm).
  apply NoDup_app in Hnd2 as (HndFi & Hdisj & HndO).
  destruct (Hslot h0 e Fi Hoe HndFi)
    as (p1 & h1 & F1 & Hins & Ho1 & Hnd1 & HF1 & Hfr1 & Hlen1).
  assert (Hb1 : h1 !! b = Some (FullNode hs' ep' v cs)).
  { rewrite Hfr1; [done|done|]. intros Hq. apply HbF. by apply HFi. }
  assert (Hoth1 : own_others h1 v cs tv tcs Fv Fs k).
  { eapply own_others_frame; [done|]. intros q Hq. apply Hfr1.
    - apply HO, HboundF in Hq. lia.
    - intros HqFi. by apply (Hdisj q). }
  assert (HbF1 : b ∉ F1).
  { intros Hq. apply HF1 in Hq as [Hq|Hq]; [|lia]. apply HbF. by apply HFi. }
  assert (HbO : b ∉ others k Fv Fs) by (intros Hq; apply HbF; by apply HO).
  destruct (setEdge_own _ _ _ _ _ _ _ _ _ _ _ _ _ _ _ Hb1 Hoth1 Hset Ho1 HbF1 HbO)
    as (h' & F' & Hse & Hown' & HpermF' & Hfr' & Hlen').
  exists b, h', (b :: F').
  split.
  { cbn [insert]. rewrite (bind_step _ _ _ _ _ (load_ok _ _ _ Hp)).
    rewrite (bind_step _ _ _ _ _ Hw).
    rewrite (bind_step _ _ _ _ _ Hge).
    rewrite (bind_step _ _ _ _ _ Hins).
    unfold replaceEdge.
    destruct (bool_decide (e = None)); by rewrite (bind_step _ _ _ _ _ Hse). }
  split; [done|]. split.
  { apply NoDup_cons. split.
    - rewrite HpermF'. set_solver.
    - rewrite HpermF'. apply NoDup_app. repeat split; try done.
      intros q Hq HqO. apply HF1 in Hq as [Hq|Hq].
      + by apply (Hdisj q).
      + apply HO, HboundF in HqO. lia. }
  split; [|split].
  - intros q Hq. apply elem_of_cons in Hq as [->|Hq].
    + destruct Hbcase as [->| ->]; [left; set_solver|right; lia].
    + rewrite HpermF' in Hq. apply elem_of_app in Hq as [Hq|Hq].
      * apply HF1 in Hq as [Hq|Hq]; [left|right; lia].
        apply HFi in Hq. set_solver.
      * left. apply HO in Hq. set_solver.
  - intros q Hq HqF. rewrite Hfr'.
    2:{ intros ->. destruct Hbcase as [->| ->]; [set_solver|lia]. }
    rewrite Hfr1; [by apply Hh0|lia|].
    intros HqFi. apply HFi in HqFi. set_solver.
  - lia.
Qed.

Lemma insertA_full_inv tv tcs k rest v tr' :
  insertA (TFull tv tcs) (k :: rest) v = Some tr' →
  ∃ te te', tgetEdge tv tcs k = Some te ∧ insertA te rest v = Some te'
            ∧ tsetEdge tv tcs k te' = Some tr'
            ∧ (te = tv ∨ ∃ i, tcs !! i = Some te).
Proof.
  cbn [insertA]. unfold tgetEdge, tsetEdge. destruct (Byte.eqb k x10) eqn:E.
  - intros H. exists tv, (TValue (Some v)).
    destruct tv; destruct rest; try done; inversion H; subst; auto.
  - rewrite list_lookup_fmap.
    destruct (tcs !! Byte.to_nat k) as [c|] eqn:Hc; [|done]. simpl.
    destruct (insertA c rest v) as [c'|] eqn:Ec; [|done].
    intros [= <-]. exists c, c'. repeat split; eauto.
    rewrite bool_decide_eq_true_2; [done|]. by eapply lookup_lt_Some.
Qed.

Lemma Forall3_own_replicate h n :
  Forall3 (own h) (replicate n TNil) (replicate n None) (replicate n []).
Proof. induction n; simpl; constructor; done. Qed.

Lemma others_empty idx n : others idx [] (replicate n []) = [].
Proof.
  unfold others. destruct (Byte.eqb idx x10).
  - induction n; simpl; done.
  - rewrite insert_replicate. induction n; simpl; done.
Qed.

Lemma own_others_empty h idx n :
  own_others h None (replicate n None) TNil (replicate n TNil) [] (replicate n []) idx.
Proof.
  unfold own_others. destruct (Byte.eqb idx x10).
  - apply Forall3_own_replicate.
  - split; [done|]. rewrite !insert_replicate. apply Forall3_own_replicate.
Qed.

Lemma insert_split_refine fuel t h p hs k c0 tc Fc s v tr' :
  h !! p = Some (ShortNode hs k c0) → own h tc c0 Fc → NoDup (p :: Fc) →
  prefixLen s k ≠ length k →
  insertA (TShort k tc) s v = Some tr' → (4 ≤ fuel)%nat →
  insert_post h (p :: Fc) tr' (insert fuel t (Some p) s v h).
Proof.
  intros Hp Hc Hnd Hne Hins Hf.
  cbn [insertA] in Hins. rewrite bool_decide_eq_false_2 in Hins by done.
  remember (prefixLen s k) as plen eqn:Hplen.
  destruct (k !! plen) as [edge|] eqn:Hedge; [|done].
  destruct (drop plen s) as [|k2 rest] eqn:Hdrop; [done|].
  remember (if bool_decide (plen + 1 < length k)%nat
            then TShort (drop (plen + 1) k) tc else tc) as piece eqn:Hpiece.
  destruct (tsetEdge TNil (replicate 16 TNil) edge piece) as [[| | |bv bcs]|] eqn:E1;
    try done.
  destruct (tgetEdge bv bcs k2) as [[| | |]|] eqn:E2; try done.
  destruct (tsetEdge bv bcs k2 (leafA rest v)) as [b'|] eqn:E3; [|done].
  inversion Hins as [Htr']. clear Hins.
  assert (HFc : ∀ q, q ∈ Fc → (q < length h)%nat) by (intros; by eapply own_bound).
  pose proof (lookup_lt_Some _ _ _ Hp) as Hplt.
  destruct fuel as [|f1]; [lia|]. destruct f1 as [|f2]; [lia|].
  set (h1 := h ++ [FullNode [] (epoch t) None (replicate 16 None)]).
  set (pb := length h).
  assert (Hlen1 : length h1 = S (length h))
    by (unfold h1; rewrite length_app; simpl; lia).
  (* the piece under its edge *)
  assert (∃ e h2 Fp jk,
    (if bool_decide (plen + 1 < length k)%nat
     then let* s0 := alloc (ShortNode [] (drop (plen + 1) k) c0) in
          setEdge pb edge (Some s0)
     else setEdge pb edge c0) h1 = setEdge pb edge e h2
    ∧ own h2 piece e Fp ∧ NoDup Fp
    ∧ (∀ q, q ∈ Fp → q ∈ Fc ∨ q = S (length h))
    ∧ h2 = h1 ++ jk ∧ (length jk ≤ 1)%nat) as (e & h2 & Fp & jk & Hcode & Hpo & Hpnd & HFp & Hh2 & Hjk).
  { subst piece. case_bd (plen + 1 < length k)%nat as Hl.
    - exists (Some (length h1)), (h1 ++ [ShortNode [] (drop (plen + 1) k) c0]),
        (length h1 :: Fc), [ShortNode [] (drop (plen + 1) k) c0].
      split; [done|]. split.
      { exists (length h1), [], c0, Fc. split; [done|].
        split; [apply lookup_alloc|]. split; [|done].
        unfold h1. rewrite <- app_assoc. by apply own_mono. }
      split.
      { apply NoDup_cons. split; [|by apply NoDup_cons in Hnd as [_ ?]].
        intros Hq. apply HFc in Hq. lia. }
      split; [|done].
      intros q Hq. apply elem_of_cons in Hq as [->|Hq]; [right; lia|by left].
    - exists c0, h1, Fc, []. split; [done|]. split; [by apply own_mono|].
      split; [by apply NoDup_cons in Hnd as [_ ?]|]. split; [by left|].
      split; [by rewrite app_nil_r|simpl; lia]. }
  assert (Hpb2 : h2 !! pb = Some (FullNode [] (epoch t) None (replicate 16 None))).
  { rewrite Hh2. rewrite lookup_app_l by lia. apply lookup_alloc. }
  assert (HpbFp : pb ∉ Fp).
  { intros Hq. apply HFp in Hq as [Hq|Hq]; [apply HFc in Hq|]; unfold pb in *; lia. }
  destruct (setEdge_own h2 pb _ _ _ _ _ _ [] (replicate 16 []) edge piece e Fp _
              Hpb2 (own_others_empty _ _ _) E1 Hpo HpbFp)
    as (h3 & F3 & Hse & Hown3 & Hperm3 & Hfr3 & Hlen3).
  { rewrite others_empty. set_solver. }
  rewrite others_empty, app_nil_r in Hperm3.
  assert (Hnd3 : NoDup (pb :: F3)).
  { apply NoDup_cons. rewrite Hperm3. done. }
  pose proof Hown3 as Hown3'.
  apply own_full_iff in Hown3'
    as (pb' & hs3 & ep3 & v3 & cs3 & Fv3 & Fs3 & Epb & Hpb3 & Hv3 & Hcs3 & EF3).
  inversion Epb; subst pb'. inversion EF3 as [EF3']. clear Epb EF3.
  assert (Hstep : insert_post h3 (pb :: F3) b'
                    (insert (S f2) t (Some pb) (k2 :: rest) v h3)).
  { rewrite EF3'. eapply insert_full_step; try done.
    - by rewrite <- EF3'.
    - intros h0 e0 Fi Ho0 _. destruct Ho0 as [-> ->].
      destruct (insert_nil_ok f2 t h0 rest v ltac:(lia))
        as (p' & h' & F' & ? & ? & ? & HF' & Hfr' & ?).
      exists p', h', F'. repeat split; try done.
      + intros q Hq. right. by apply HF'.
      + intros q Hq _. by apply Hfr'. }
  destruct Hstep as (p4 & h4 & F4 & Hins4 & Hown4 & Hnd4 & HF4 & Hfr4 & Hlen4).
  assert (Hlen2 : (length h1 ≤ length h2 ≤ length h1 + 1)%nat)
    by (rewrite Hh2, length_app; lia).
  assert (HF3 : ∀ q, q ∈ F3 → q ∈ Fc ∨ q = S (length h))
    by (intros q Hq; rewrite Hperm3 in Hq; by apply HFp).
  assert (HF4' : ∀ q, q ∈ F4 → q ∈ Fc ∨ (length h ≤ q)%nat).
  { intros q Hq. apply HF4 in Hq as [Hq|Hq]; [|right; lia].
    apply elem_of_cons in Hq as [->|Hq]; [right; unfold pb; lia|].
    apply HF3 in Hq as [?|?]; [by left|right; lia]. }
  assert (Hframe : ∀ q, (q < length h)%nat → q ∉ p :: Fc → h4 !! q = h !! q).
  { intros q Hq HqF. rewrite Hfr4; [|lia|].
    - rewrite Hfr3 by (unfold pb; lia). rewrite Hh2.
      rewrite lookup_app_l by lia. by apply lookup_alloc_old.
    - intros Hq'. apply elem_of_cons in Hq' as [->|Hq']; [unfold pb in *; lia|].
      apply HF3 in Hq' as [?|?]; [set_solver|lia]. }
  assert (Hrun : insert (S (S f2)) t (Some p) s v h =
    (if bool_decide (plen = 0%nat) then ret (Some p4)
     else let* s0 := alloc (ShortNode [] (take plen s) (Some p4)) in ret (Some s0)) h4).
  { cbn [insert]. rewrite (bind_step _ _ _ _ _ (load_ok _ _ _ Hp)).
    rewrite <- Hplen. rewrite bool_decide_eq_false_2 by done.
    rewrite (bind_step _ _ _ _ _ (alloc_ok _ _)). fold h1. fold pb.
    rewrite Hedge.
    unfold bind at 1. rewrite Hcode, Hse.
    rewrite Hdrop. by rewrite (bind_step _ _ _ _ _ Hins4). }
  rewrite Hrun. subst tr'. case_bd (plen = 0%nat) as Hz.
  - exists p4, h4, F4. repeat split; try done.
    + intros q Hq. apply HF4' in Hq as [?|?]; [left; set_solver|by right].
    + lia.
  - exists (length h4), (h4 ++ [ShortNode [] (take plen s) (Some p4)]), (length h4 :: F4).
    split; [done|]. split.
    { exists (length h4), [], (Some p4), F4. split; [done|].
      split; [apply lookup_alloc|]. split; [by apply own_mono|done]. }
    split.
    { apply NoDup_cons. split; [|done]. intros Hq.
      eapply own_bound in Hq; [|done]. lia. }
    split; [|split].
    + intros q Hq. apply elem_of_cons in Hq as [->|Hq]; [right; lia|].
      apply HF4' in Hq as [?|?]; [left; set_solver|by right].
    + intros q Hq HqF. rewrite lookup_app_l by lia. by apply Hframe.
    + rewrite length_app. lia.
Qed.

Lemma insert_refine tr : ∀ fuel t h n F s v tr',
  own h tr n F → NoDup F → insertA tr s v = Some tr' →
  (length s + 4 ≤ fuel)%nat →
  insert_post h F tr' (insert fuel t n s v h).
Proof.
  induction tr as [|buf|k c IH|tv tcs IHv IHcs] using tree_ind';
    intros fuel t h n F s v tr' Ho Hnd Hins Hf.
  - destruct Ho as [-> ->]. inversion Hins; subst.
    destruct (insert_nil_ok fuel t h s v ltac:(lia))
      as (p' & h' & F' & ? & ? & ? & HF' & Hfr' & ?).
    exists p', h', F'. repeat split; try done.
    + intros q Hq. right. by apply HF'.
    + intros q Hq _. by apply Hfr'.
  - destruct Ho as (p & -> & Hp & ->). cbn [insertA] in Hins.
    case_bd (length s = 0%nat) as Hs; [|done]. inversion Hins; subst.
    destruct fuel as [|fuel]; [lia|]. cbn [insert].
    rewrite (bind_step _ _ _ _ _ (load_ok _ _ _ Hp)).
    rewrite bool_decide_eq_true_2 by done.
    exists (length h), (h ++ [ValueNode false (Some v)]), [length h].
    split; [done|]. split.
    { exists (length h). split; [done|]. split; [apply lookup_alloc|done]. }
    split; [apply NoDup_singleton|]. split; [|split].
    + intros q Hq. apply list_elem_of_singleton in Hq. right. lia.
    + intros q Hq _. by apply lookup_alloc_old.
    + rewrite length_app. lia.
  - destruct Ho as (p & hs & c0 & Fc & -> & Hp & Hc & ->).
    destruct (decide (prefixLen s k = length k)) as [Hpl|Hpl].
    2:{ eapply insert_split_refine; try done. lia. }
    cbn [insertA] in Hins. rewrite bool_decide_eq_true_2 in Hins by done.
    case_bd (k = []) as Hk; [done|].
    destruct (insertA c (drop (prefixLen s k) s) v) as [c'|] eqn:Ec; [|done].
    inversion Hins; subst tr'. clear Hins.
    destruct fuel as [|fuel]; [lia|].
    apply NoDup_cons in Hnd as [HpFc HndFc].
    assert (Hfuel : (length (drop (prefixLen s k) s) + 4 ≤ fuel)%nat).
    { rewrite length_drop, Hpl. pose proof (prefixLen_le_l s k).
      assert (1 ≤ length k)%nat by (destruct k; simpl; [done|lia]). lia. }
    destruct (IH fuel t h c0 Fc _ v c' Hc HndFc Ec Hfuel)
      as (p1 & h1 & F1 & Hins1 & Ho1 & Hnd1 & HF1 & Hfr1 & Hlen1).
    exists (length h1), (h1 ++ [ShortNode [] k (Some p1)]), (length h1 :: F1).
    split.
    { cbn [insert]. rewrite (bind_step _ _ _ _ _ (load_ok _ _ _ Hp)).
      rewrite bool_decide_eq_true_2 by done.
      by rewrite (bind_step _ _ _ _ _ Hins1). }
    split.
    { exists (length h1), [], (Some p1), F1. split; [done|].
      split; [apply lookup_alloc|]. split; [by apply own_mono|done]. }
    split.
    { apply NoDup_cons. split; [|done]. intros Hq.
      eapply own_bound in Hq; [|done]. lia. }
    split; [|split].
    + intros q Hq. apply elem_of_cons in Hq as [->|Hq]; [right; lia|].
      apply HF1 in Hq as [?|?]; [left; set_solver|by right].
    + intros q Hq HqF. rewrite lookup_app_l by lia. apply Hfr1; [done|set_solver].
    + rewrite length_app. lia.
  - apply own_full_iff in Ho
      as (p & hs & ep & v0 & cs & Fv & Fs & -> & Hp & Hv & Hcs & ->).
    destruct s as [|k0 rest]; [done|].
    destruct (insertA_full_inv _ _ _ _ _ _ Hins)
      as (te & te' & Hget & Hte & Hset & Hwhere).
    destruct fuel as [|fuel]; [lia|].
    eapply insert_full_step; try done.
    intros h0 e Fi Ho0 Hnd0.
    destruct Hwhere as [->|[i Hi]].
    + eapply IHv; try done. simpl in Hf. lia.
    + rewrite Forall_lookup in IHcs. eapply IHcs; try done. simpl in Hf. lia.
Qed.

(** ** Keys *)

Lemma hi_nib b : nib (hi b).
Proof. unfold nib. destruct b; vm_compute; lia. Qed.

Lemma lo_nib b : nib (lo b).
Proof. unfold nib. destruct b; vm_compute; lia. Qed.

Lemma hi_lo_byte b :
  b = byte_of_Z (16 * Z.of_nat (Byte.to_nat (hi b)) + Z.of_nat (Byte.to_nat (lo b))).
Proof. destruct b; reflexivity. Qed.

Lemma to_nibbles_nib str : Forall nib (to_nibbles str).
Proof.
  induction str as [|b str IH]; simpl; [constructor|].
  constructor; [apply hi_nib|]. constructor; [apply lo_nib|done].
Qed.

Lemma to_nibbles_inj a b : to_nibbles a = to_nibbles b → a = b.
Proof.
  revert b. induction a as [|x a IH]; intros [|y b]; simpl; try done.
  intros [= H1 H2 H3]. f_equal; [|by apply IH].
  rewrite (hi_lo_byte x), (hi_lo_byte y). by rewrite H1, H2.
Qed.

Lemma length_to_nibbles str : length (to_nibbles str) = (2 * length str)%nat.
Proof. induction str; simpl; lia. Qed.

Lemma keybytesToHex_tkey k : tkey (keybytesToHex k).
Proof. exists (to_nibbles k). split; [done|apply to_nibbles_nib]. Qed.

Lemma keybytesToHex_inj a b : keybytesToHex a = keybytesToHex b → a = b.
Proof.
  unfold keybytesToHex. intros H. apply app_inj_tail in H as [H _].
  by apply to_nibbles_inj.
Qed.

Lemma length_keybytesToHex k : length (keybytesToHex k) = (2 * length k + 1)%nat.
Proof. unfold keybytesToHex. rewrite length_app, length_to_nibbles. simpl. lia. Qed.

(** ** A transaction's trie *)

Lemma txn_holds_empty h t : root t = None → txn_holds h t ∅.
Proof.
  intros Hr. exists TNil, []. rewrite Hr. repeat split; try done.
  - constructor.
  - by left.
Qed.

Lemma Txn_Insert_holds fuel t h m k v :
  txn_holds h t m → (2 * length k + 5 ≤ fuel)%nat →
  ∃ t' h', Txn_Insert fuel t k v h = Done (t', h')
           ∧ txn_holds h' t' (<[k:=v]> m)
           ∧ epoch t' = epoch t ∧ storage t' = storage t.
Proof.
  intros (tr & F & Ho & Hnd & Hg & Hm) Hf.
  destruct (insertA_good tr Hg (keybytesToHex k) v (keybytesToHex_tkey k))
    as (tr' & Hins & Hg' & _ & Hl).
  assert (Hfuel : (length (keybytesToHex k) + 4 ≤ fuel)%nat)
    by (rewrite length_keybytesToHex; lia).
  destruct (insert_refine tr fuel t h (root t) F _ v tr' Ho Hnd Hins Hfuel)
    as (p' & h' & F' & Hrun & Ho' & Hnd' & _).
  exists (mkTxn (Some p') (epoch t) (storage t) (batch t)), h'.
  split; [|split; [|done]].
  { unfold Txn_Insert. by rewrite (bind_step _ _ _ _ _ Hrun). }
  exists tr', F'. repeat split; try done; [by right|].
  intros k'. rewrite Hl by apply keybytesToHex_tkey.
  destruct (decide (keybytesToHex k' = keybytesToHex k)) as [E|E].
  - apply keybytesToHex_inj in E. subst. by rewrite lookup_insert_eq.
  - rewrite lookup_insert_ne by congruence. apply Hm.
Qed.

Lemma Txn_Lookup_holds fuel t h m k :
  txn_holds h t m → (2 * length k + 2 ≤ fuel)%nat →
  Txn_Lookup fuel t k h = Done (m !! k, h).
Proof.
  intros (tr & F & Ho & Hnd & Hg & Hm) Hf. unfold Txn_Lookup.
  eapply lookup_refine; [done|apply Hm|].
  rewrite length_keybytesToHex. lia.
Qed.

Lemma insert_all_holds fuel kvs : ∀ t h m,
  txn_holds h t m →
  (∀ k v, (k, v) ∈ kvs → (2 * length k + 5 ≤ fuel)%nat) →
  ∃ t' h', insert_all fuel t kvs h = Done (t', h')
           ∧ txn_holds h' t' (foldl (λ m kv, <[kv.1 := kv.2]> m) m kvs).
Proof.
  induction kvs as [|[k v] kvs IH]; intros t h m Hh Hf; simpl.
  - by exists t, h.
  - destruct (Txn_Insert_holds fuel t h m k v Hh) as (t1 & h1 & Hrun & Hh1 & _).
    { apply (Hf k v). set_solver. }
    destruct (IH t1 h1 _ Hh1) as (t' & h' & Hrun' & Hh').
    { intros k' v' Hin. apply (Hf k' v'). set_solver. }
    exists t', h'. split; [|done].
    by rewrite (bind_step _ _ _ _ _ Hrun).
Qed.

Lemma foldl_insert_list_to_map (kvs : list (list byte * list byte))
    (m : gmap (list byte) (list byte)) :
  foldl (λ m kv, <[kv.1 := kv.2]> m) m kvs
  = foldr (λ kv m, <[kv.1 := kv.2]> m) m (reverse kvs).
Proof.
  revert m. induction kvs as [|kv kvs IH]; intros m; simpl; [done|].
  rewrite IH, reverse_cons, foldr_app. done.
Qed.

(** ** The scan of the children *)

Lemma scan_found cs : ∀ e i0 indx fl,
  i0 ≠ -1 → scanChildren cs e i0 = (indx, fl) →
  indx = i0
  ∧ (fl = false → ∀ j c, cs !! j = Some c → c = None)
  ∧ (fl = true → ∃ j q, cs !! j = Some (Some q)).
Proof.
  induction cs as [|c cs IH]; intros e i0 indx fl Hi0 H; simpl in H.
  - inversion H; subst. repeat split; try done.
  - destruct c as [q|].
    + rewrite bool_decide_eq_true_2 in H by done. inversion H; subst.
      repeat split; try done. intros _. by exists 0%nat, q.
    + destruct (IH _ _ _ _ Hi0 H) as (-> & H1 & H2). repeat split.
      * intros Hfl [|j] c Hc; simpl in Hc; [by inversion Hc|by eapply H1].
      * intros Hfl. destruct (H2 Hfl) as (j & q & Hj). by exists (S j), q.
Qed.

Lemma scan_index cs : ∀ e indx fl,
  0 ≤ e → scanChildren cs e (-1) = (indx, fl) →
  (indx = -1 ∧ fl = false ∧ ∀ j c, cs !! j = Some c → c = None)
  ∨ (∃ i q, indx = e + Z.of_nat i ∧ cs !! i = Some (Some q)
       ∧ (∀ j c, (j < i)%nat → cs !! j = Some c → c = None)
       ∧ (fl = false → ∀ j c, (i < j)%nat → cs !! j = Some c → c = None)
       ∧ (fl = true → ∃ j q', (i < j)%nat ∧ cs !! j = Some (Some q'))).
Proof.
  induction cs as [|c cs IH]; intros e indx fl He H; simpl in H.
  - inversion H; subst. left. repeat split; try done.
  - destruct c as [q|].
    + apply scan_found in H as (-> & H1 & H2); [|lia].
      right. exists 0%nat, q. repeat split; try done.
      * lia.
      * intros; lia.
      * intros Hfl [|j] c Hj Hc; [lia|]. simpl in Hc. by eapply H1.
      * intros Hfl. destruct (H2 Hfl) as (j & q' & Hj).
        exists (S j), q'. split; [lia|done].
    + assert (He' : 0 ≤ e + 1) by lia.
      destruct (IH _ _ _ He' H) as [(-> & -> & H1)|(i & q & -> & Hi & H1 & H2 & H3)].
      * left. repeat split; try done.
        intros [|j] c Hc; simpl in Hc; [by inversion Hc|by eapply H1].
      * right. exists (S i), q. repeat split; try done.
        -- lia.
        -- intros [|j] c Hj Hc; simpl in Hc; [by inversion Hc|].
           eapply (H1 j); [lia|done].
        -- intros Hfl [|j] c Hj Hc; [lia|]. simpl in Hc.
           eapply (H2 Hfl j); [lia|done].
        -- intros Hfl. destruct (H3 Hfl) as (j & q' & Hj & Hq').
           exists (S j), q'. split; [lia|done].
Qed.

Lemma byte_of_Z_to_nat (i : nat) :
  (i < 256)%nat → Byte.to_nat (byte_of_Z (Z.of_nat i)) = i.
Proof.
  intros Hi. unfold byte_of_Z.
  rewrite Z.mod_small by lia.
  destruct (Byte.of_N (Z.to_N (Z.of_nat i))) as [b|] eqn:E.
  - simpl. apply Byte.to_of_N in E. rewrite Byte.to_nat_via_N, E. lia.
  - apply Byte.of_N_None_iff in E. lia.
Qed.

Lemma shape_lookup (cs : list tree) j :
  (shape <$> cs) !! j = shape <$> (cs !! j).
Proof. apply list_lookup_fmap. Qed.

Lemma shape_None c : shape c = None ↔ c = TNil.
Proof. by destruct c. Qed.

Lemma shape_Some c q : shape c = Some q → nonempty c.
Proof. by destruct c. Qed.

(** ** Delete keeps the shape *)

Lemma collapseA_good v cs :
  length cs = 16%nat → (v = TNil ∨ ∃ buf, v = TValue buf) →
  Forall (λ c, c = TNil ∨ good c) cs →
  ∃ tr', collapseA v cs = Some (tr', true) ∧ (tr' = TNil ∨ good tr').
Proof.
  intros Hlen Hv Hcs. unfold collapseA.
  destruct (scanChildren (shape <$> cs) 0 (-1)) as [indx fl] eqn:Hscan.
  apply scan_index in Hscan; [|lia].
  pose proof Hcs as HcsF. rewrite Forall_lookup in Hcs.
  destruct Hscan as [(-> & -> & Hall)|(i & q & -> & Hi & Hbefore & Hafter & Hsecond)].
  - simpl. destruct Hv as [->|[buf ->]]; simpl.
    + eexists. split; [done|]. by left.
    + eexists. split; [done|]. right. constructor. apply tkey_terminator.
  - rewrite shape_lookup in Hi.
    destruct (cs !! i) as [c|] eqn:Hc; [|done]. simpl in Hi.
    inversion Hi as [Hshape]. apply shape_Some in Hshape.
    assert (Hgc : good c).
    { destruct (Hcs _ _ Hc) as [->|?]; [done|done]. }
    assert (Hi16 : (i < 16)%nat) by (apply lookup_lt_Some in Hc; lia).
    rewrite bool_decide_eq_true_2 by lia.
    destruct fl; simpl.
    + eexists. split; [done|]. right. constructor; try done.
      * destruct (Hsecond eq_refl) as (j & q' & Hj & Hq').
        rewrite shape_lookup in Hq'.
        destruct (cs !! j) as [c'|] eqn:Hc'; [|done]. simpl in Hq'.
        inversion Hq' as [Hshape']. apply shape_Some in Hshape'.
        apply (count_nonempty_ge_2 _ (S i) (S j) c c'); try done. lia.
    + destruct Hv as [->|[buf ->]]; simpl.
      * rewrite bool_decide_eq_false_2 by lia.
        replace (Z.to_nat (0 + Z.of_nat i)) with i by lia.
        rewrite Hc.
        assert (Hnib : nib (byte_of_Z (0 + Z.of_nat i))).
        { unfold nib. rewrite Z.add_0_l, byte_of_Z_to_nat; lia. }
        destruct c as [|buf|okey oc|cv ccs]; try (by inversion Hgc).
        -- eexists. split; [done|]. right.
           destruct (good_short_inv _ _ Hgc)
             as [(buf & -> & Hk)|(tv & tcs & -> & Hkne & Hk & Hgf)].
           ++ constructor. by apply tkey_cons_nib.
           ++ constructor; try done. by constructor.
        -- eexists. split; [done|]. right. constructor; try done.
           by constructor.
      * eexists. split; [done|]. right. constructor; try done.
        -- right. eauto.
        -- apply (count_nonempty_ge_2 _ 0 (S i) (TValue buf) c); try done.
Qed.

Lemma deleteA_good tr :
  tr = TNil ∨ good tr → ∀ s, tkey s →
  ∃ tr' ok, deleteA tr s = Some (tr', ok) ∧ (tr' = TNil ∨ good tr').
Proof.
  induction tr as [|buf|k c IH|tv tcs _ IHcs] using tree_ind'; intros Hg s Hs.
  - exists TNil, false. split; [done|by left].
  - destruct Hg as [|Hg]; [done|inversion Hg].
  - destruct Hg as [|Hg]; [done|]. cbn [deleteA].
    case_bd (prefixLen s k = length s) as E1.
    { exists TNil, true. split; [done|by left]. }
    case_bd (prefixLen s k = 0%nat) as E2.
    { exists TNil, false. split; [done|by left]. }
    assert (Hs1 : tkey (drop (prefixLen s k) s)).
    { apply tkey_drop; [done|]. pose proof (prefixLen_le_l s k). lia. }
    destruct (good_short_inv _ _ Hg)
      as [(buf & -> & Hk)|(tv & tcs & -> & Hkne & Hk & Hgf)].
    + exists TNil, false. split; [|by left]. cbn [deleteA].
      rewrite bool_decide_eq_true_2; [done|].
      apply tkey_nonempty in Hs1. destruct (drop _ _); simpl; [done|lia].
    + destruct (IH (or_intror Hgf) _ Hs1) as (c' & ok & -> & Hgc').
      destruct ok; simpl; [|exists TNil, false; split; [done|by left]].
      destruct Hgc' as [->|Hgc']; [exists TNil, true; split; [done|by left]|].
      destruct c' as [|buf|k2 c2|cv ccs]; try (by inversion Hgc').
      * eexists _, _. split; [done|]. right.
        destruct (good_short_inv _ _ Hgc')
          as [(buf & -> & Hk2)|(tv2 & tcs2 & -> & Hk2ne & Hk2 & Hgf2)].
        -- constructor. by apply tkey_app.
        -- constructor; try done.
           ++ unfold concat. by destruct k.
           ++ by apply Forall_app.
      * eexists _, _. split; [done|]. right. by constructor.
  - destruct Hg as [|Hg]; [done|].
    destruct (good_full_inv _ _ Hg) as (Hlen & Hv & Hcs & Hcount).
    destruct s as [|key rest]; [by apply tkey_nonempty in Hs|].
    cbn [deleteA]. apply tkey_cons in Hs as [[-> ->]|[Hkey Hrest]].
    + rewrite byte_eqb_refl. destruct Hv as [->|[buf ->]]; simpl.
      * exists TNil, false. split; [done|by left].
      * destruct (collapseA_good TNil tcs Hlen (or_introl eq_refl) Hcs)
          as (tr' & -> & Hg').
        by exists tr', true.
    + rewrite nib_not_terminator by done.
      destruct (lookup_lt_is_Some_2 tcs (Byte.to_nat key)) as [c Hc];
        [rewrite Hlen; exact Hkey|].
      rewrite list_lookup_fmap, Hc. simpl.
      rewrite Forall_lookup in IHcs. rewrite Forall_lookup in Hcs.
      destruct (IHcs _ _ Hc (Hcs _ _ Hc) rest Hrest) as (c' & ok & -> & Hgc').
      destruct ok; simpl; [|exists TNil, false; split; [done|by left]].
      unfold tsetEdge. rewrite nib_not_terminator by done.
      rewrite bool_decide_eq_true_2 by (rewrite Hlen; exact Hkey).
      destruct (collapseA_good tv (<[Byte.to_nat key := c']> tcs))
        as (tr' & -> & Hg'); try done.
      * by rewrite length_insert.
      * apply Forall_insert; [by apply Forall_lookup|done].
      * by exists tr', true.
Qed.

Lemma good_wellformed tr : tr = TNil ∨ good tr → wellformed tr.
Proof.
  induction tr as [|buf|k c IH|tv tcs IHv IHcs] using tree_ind'; intros Hg; simpl.
  - done.
  - done.
  - destruct Hg as [|Hg]; [done|].
    destruct (good_short_inv _ _ Hg)
      as [(buf & -> & Hk)|(tv & tcs & -> & Hkne & Hk & Hgf)].
    + split; [by apply tkey_nonempty|]. done.
    + split; [done|]. split; [done|]. apply IH. by right.
  - destruct Hg as [|Hg]; [done|].
    destruct (good_full_inv _ _ Hg) as (Hlen & Hv & Hcs & Hcount).
    split; [done|]. split.
    + destruct Hv as [->|[buf ->]]; done.
    + clear Hlen Hcount Hg. induction tcs as [|c tcs IHl]; [done|].
      inversion IHcs; subst. inversion Hcs; subst. split; [auto|].
      by apply IHl.
Qed.

(** ** Delete on the heap *)

Lemma scan_ext (l1 l2 : list (option nat)) :
  Forall2 (λ a b, a = None ↔ b = None) l1 l2 →
  ∀ e i, scanChildren l1 e i = scanChildren l2 e i.
Proof.
  induction 1 as [|a b l1 l2 Hab Hl IH]; intros e i; simpl; [done|].
  destruct a as [qa|], b as [qb|].
  - destruct (bool_decide (i ≠ -1)); [done|apply IH].
  - destruct Hab as [_ Hab]. by specialize (Hab eq_refl).
  - destruct Hab as [Hab _]. by specialize (Hab eq_refl).
  - apply IH.
Qed.

Lemma Forall3_own_shape h tcs cs Fs :
  Forall3 (own h) tcs cs Fs →
  Forall2 (λ a b, a = None ↔ b = None) cs (shape <$> tcs).
Proof.
  induction 1 as [|t c F1 ts cs Fs H1 Hrest IH]; simpl; constructor; [|done].
  rewrite shape_None. by eapply own_shape.
Qed.

Lemma own_short_fresh h tc nc Fi k :
  own h tc nc Fi → NoDup Fi →
  own (h ++ [ShortNode [] k nc]) (TShort k tc) (Some (length h)) (length h :: Fi)
  ∧ NoDup (length h :: Fi).
Proof.
  intros Ho Hnd. split.
  - exists (length h), [], nc, Fi. split; [done|].
    split; [apply lookup_alloc|]. split; [by apply own_mono|done].
  - apply NoDup_cons. split; [|done]. intros Hq.
    eapply own_bound in Hq; [|done]. lia.
Qed.

Lemma resolve_own (t : Txn) h tc (nc0 : option nat) Fi :
  own h tc nc0 Fi →
  match nc0 with
  | Some q =>
      let* c := load q in
      match c with
      | ValueNode true buf => GetNode buf (storage t)
      | _ => ret (Some nc0)
      end
  | None => ret (Some nc0)
  end h = Done (Some nc0, h).
Proof.
  destruct tc as [|buf|okey oc|cv ccs].
  - by intros [-> ->].
  - intros (q & -> & Hq & ->).
    by rewrite (bind_step _ _ _ _ _ (load_ok _ _ _ Hq)).
  - intros (q & hs' & occ & Foc & -> & Hq & Hoc & ->).
    by rewrite (bind_step _ _ _ _ _ (load_ok _ _ _ Hq)).
  - intros Ho. apply own_full_iff in Ho
      as (q & hs' & ep' & v' & cs' & Fv' & Fs' & -> & Hq & Hrest).
    by rewrite (bind_step _ _ _ _ _ (load_ok _ _ _ Hq)).
Qed.

Lemma collapse_refine t h p tv tcs F tr' ok :
  own h (TFull tv tcs) (Some p) F → NoDup F →
  collapseA tv tcs = Some (tr', ok) →
  ok = true ∧ delete_post h F (TFull tv tcs) (Some p) tr' true (collapseFull t p h).
Proof.
  intros Ho Hnd Hc.
  pose proof Ho as Ho'.
  apply own_full_iff in Ho'
    as (p0 & hs & ep & v & cs & Fv & Fs & Ep & Hp & Hv & Hcs & ->).
  inversion Ep; subst p0. clear Ep.
  unfold collapseFull. rewrite (bind_step _ _ _ _ _ (load_ok _ _ _ Hp)).
  unfold collapseA in Hc.
  rewrite (scan_ext _ _ (Forall3_own_shape _ _ _ _ Hcs)).
  destruct (scanChildren (shape <$> tcs) 0 (-1)) as [indx fl].
  pose proof (own_shape _ _ _ _ Hv) as Hvshape.
  assert (Hvb : bool_decide (v ≠ None) = negb (is_TNil tv)).
  { destruct tv; simpl.
    - rewrite bool_decide_eq_false_2; [done|]. intros H. apply H. by apply Hvshape.
    - rewrite bool_decide_eq_true_2; [done|]. intros H. by apply Hvshape in H.
    - rewrite bool_decide_eq_true_2; [done|]. intros H. by apply Hvshape in H.
    - rewrite bool_decide_eq_true_2; [done|]. intros H. by apply Hvshape in H. }
  assert (Hvb' : bool_decide (v = None) = is_TNil tv).
  { destruct tv; simpl.
    - rewrite bool_decide_eq_true_2; [done|]. by apply Hvshape.
    - rewrite bool_decide_eq_false_2; [done|]. intros H. by apply Hvshape in H.
    - rewrite bool_decide_eq_false_2; [done|]. intros H. by apply Hvshape in H.
    - rewrite bool_decide_eq_false_2; [done|]. intros H. by apply Hvshape in H. }
  rewrite Hvb, Hvb'.
  apply NoDup_cons in Hnd as [HpF HndF].
  apply NoDup_app in HndF as (HndFv & HdisjF & HndFs).
  destruct (fl || bool_decide (indx ≠ -1) && negb (is_TNil tv)).
  { inversion Hc; subst. split; [done|].
    exists (Some p), h. split; [done|]. split; [|split; [done|lia]].
    exists (p :: Fv ++ mjoin Fs). split; [done|]. split; [|by left].
    apply NoDup_cons. split; [done|]. apply NoDup_app. done. }
  destruct (bool_decide (indx = -1)).
  { destruct (is_TNil tv) eqn:Etv; inversion Hc; subst; (split; [done|]).
    - exists None, h. split; [done|]. split; [|split; [done|lia]].
      exists []. split; [done|]. split; [constructor|]. set_solver.
    - destruct (own_short_fresh h tv v Fv [x10] Hv HndFv) as [Hos Hnds].
      exists (Some (length h)), (h ++ [ShortNode [] [x10] v]).
      split; [done|]. split; [|split].
      + exists (length h :: Fv). split; [done|]. split; [done|].
        intros q Hq. apply elem_of_cons in Hq as [->|Hq]; [right; lia|].
        left. set_solver.
      + intros q Hq _. by apply lookup_alloc_old.
      + rewrite length_app. lia. }
  destruct (tcs !! Z.to_nat indx) as [tc|] eqn:Htc; [|done].
  destruct (Forall3_lookup_l _ _ _ _ _ _ Hcs Htc) as (nc0 & Fi & Hnc0 & HFi & Hoi).
  rewrite Hnc0.
  pose proof (mjoin_insert_nil Fs _ Fi HFi) as Hperm.
  assert (HFiF : ∀ q, q ∈ Fi → q ∈ p :: Fv ++ mjoin Fs).
  { intros q Hq. rewrite Hperm. set_solver. }
  assert (HndFi : NoDup Fi).
  { rewrite Hperm in HndFs. by apply NoDup_app in HndFs as [? _]. }
  assert (Hfresh : ∀ b,
    (match tc with TShort _ _ => False | _ => True end) →
    delete_post h (p :: Fv ++ mjoin Fs) (TFull tv tcs) (Some p)
      (TShort [b] tc) true
      ((let* s0 := alloc (ShortNode [] [b] nc0) in ret (Some s0, true)) h)).
  { intros b _.
    destruct (own_short_fresh h tc nc0 Fi [b] Hoi HndFi) as [Hos Hnds].
    exists (Some (length h)), (h ++ [ShortNode [] [b] nc0]).
    split; [done|]. split; [|split].
    + exists (length h :: Fi). split; [done|]. split; [done|].
      intros q Hq. apply elem_of_cons in Hq as [->|Hq]; [right; lia|].
      left. by apply HFiF.
    + intros q Hq _. by apply lookup_alloc_old.
    + rewrite length_app. lia. }
  rewrite (bind_step _ _ _ _ _ (resolve_own t _ _ _ _ Hoi)).
  destruct tc as [|buf|okey oc|cv ccs].
  - inversion Hc; subst. split; [done|].
    destruct Hoi as [-> ->]. by apply Hfresh.
  - inversion Hc; subst. split; [done|].
    pose proof Hoi as (q & -> & Hq & ->).
    rewrite (bind_step _ _ _ _ _ (load_ok _ _ _ Hq)).
    by apply Hfresh.
  - inversion Hc; subst. split; [done|].
    destruct Hoi as (q & hs' & occ & Foc & -> & Hq & Hoc & ->).
    rewrite (bind_step _ _ _ _ _ (load_ok _ _ _ Hq)).
    pose proof (lookup_lt_Some _ _ _ Hq) as Hqlt.
    set (c1 := ShortNode hs' (concat [byte_of_Z indx] okey) occ).
    set (c2 := ShortNode [] (concat [byte_of_Z indx] okey) occ).
    assert (Hsk : setKey q (concat [byte_of_Z indx] okey) h = Done (tt, <[q:=c1]> h)).
    { unfold setKey. rewrite (bind_step _ _ _ _ _ (load_ok _ _ _ Hq)).
      by rewrite (store_ok _ _ _ _ Hq). }
    assert (Hq1 : <[q:=c1]> h !! q = Some c1) by (by apply list_lookup_insert_eq).
    assert (Hrh : resetHash q (<[q:=c1]> h) = Done (tt, <[q:=c2]> h)).
    { unfold resetHash. rewrite (bind_step _ _ _ _ _ (load_ok _ _ _ Hq1)).
      unfold c1. rewrite (store_ok _ _ _ _ Hq1).
      by rewrite list_insert_insert_eq. }
    rewrite (bind_step _ _ _ _ _ Hsk), (bind_step _ _ _ _ _ Hrh).
    apply NoDup_cons in HndFi as [HqFoc HndFoc].
    exists (Some q), (<[q:=c2]> h). split; [done|]. split; [|split].
    + exists (q :: Foc). split; [|split].
      * exists q, [], occ, Foc. split; [done|].
        split; [by apply list_lookup_insert_eq|]. split; [|done].
        eapply own_frame; [done|]. intros q' Hq'.
        apply list_lookup_insert_ne. intros ->. done.
      * by apply NoDup_cons.
      * intros q' Hq'. left. by apply HFiF.
    + intros q' Hq' Hnot. apply list_lookup_insert_ne. intros ->.
      apply Hnot. apply HFiF. set_solver.
    + by rewrite length_insert.
  - inversion Hc; subst. split; [done|].
    apply own_full_iff in Hoi
      as (q & hs' & ep' & v' & cs' & Fv' & Fs' & -> & Hq & Hrest).
    rewrite (bind_step _ _ _ _ _ (load_ok _ _ _ Hq)).
    apply Hfresh. done.
Qed.

Lemma resetHash_short p h hs k c :
  h !! p = Some (ShortNode hs k c) →
  resetHash p h = Done (tt, <[p := ShortNode [] k c]> h).
Proof.
  intros Hp. unfold resetHash. rewrite (bind_step _ _ _ _ _ (load_ok _ _ _ Hp)).
  by rewrite (store_ok _ _ _ _ Hp).
Qed.

Lemma resetHash_full p h hs ep v cs :
  h !! p = Some (FullNode hs ep v cs) →
  resetHash p h = Done (tt, <[p := FullNode [] ep v cs]> h).
Proof.
  intros Hp. unfold resetHash. rewrite (bind_step _ _ _ _ _ (load_ok _ _ _ Hp)).
  by rewrite (store_ok _ _ _ _ Hp).
Qed.

Lemma setChild_ok p h hs k c e :
  h !! p = Some (ShortNode hs k c) →
  setChild p e h = Done (tt, <[p := ShortNode hs k e]> h).
Proof.
  intros Hp. unfold setChild. rewrite (bind_step _ _ _ _ _ (load_ok _ _ _ Hp)).
  by rewrite (store_ok _ _ _ _ Hp).
Qed.

Lemma setKey_ok p h hs k c k' :
  h !! p = Some (ShortNode hs k c) →
  setKey p k' h = Done (tt, <[p := ShortNode hs k' c]> h).
Proof.
  intros Hp. unfold setKey. rewrite (bind_step _ _ _ _ _ (load_ok _ _ _ Hp)).
  by rewrite (store_ok _ _ _ _ Hp).
Qed.

Lemma deleteA_full_inv tv tcs key rest tr' ok :
  deleteA (TFull tv tcs) (key :: rest) = Some (tr', ok) →
  ∃ te c' ok1,
    tgetEdge tv tcs key = Some te ∧ deleteA te rest = Some (c', ok1)
    ∧ (te = tv ∨ ∃ i, tcs !! i = Some te)
    ∧ (if ok1
       then ∃ v' cs', tsetEdge tv tcs key c' = Some (TFull v' cs')
                      ∧ collapseA v' cs' = Some (tr', ok)
       else tr' = TNil ∧ ok = false).
Proof.
  cbn [deleteA]. unfold tgetEdge.
  assert (Hcommon : ∀ te r,
    r = deleteA te rest →
    match r with
    | Some (newChild, ok0) =>
        if negb ok0 then Some (TNil, false)
        else match tsetEdge tv tcs key newChild with
             | Some (TFull v' cs') => collapseA v' cs'
             | _ => None
             end
    | None => None
    end = Some (tr', ok) →
    ∃ c' ok1, deleteA te rest = Some (c', ok1)
      ∧ (if ok1
         then ∃ v' cs', tsetEdge tv tcs key c' = Some (TFull v' cs')
                        ∧ collapseA v' cs' = Some (tr', ok)
         else tr' = TNil ∧ ok = false)).
  { intros te r -> H. destruct (deleteA te rest) as [[c' ok1]|]; [|done].
    exists c', ok1. split; [done|]. destruct ok1; simpl in H.
    - destruct (tsetEdge tv tcs key c') as [[| | |v' cs']|]; try done.
      by exists v', cs'.
    - by inversion H. }
  destruct (Byte.eqb key x10) eqn:E.
  - intros H. destruct (Hcommon tv _ eq_refl H) as (c' & ok1 & ? & ?).
    exists tv, c', ok1. repeat split; auto.
  - rewrite list_lookup_fmap.
    destruct (tcs !! Byte.to_nat key) as [c|] eqn:Hc; [|done]. simpl.
    intros H. destruct (Hcommon c _ eq_refl H) as (c' & ok1 & ? & ?).
    exists c, c', ok1. repeat split; eauto.
Qed.

Lemma delete_refine tr : ∀ fuel t h n F s tr' ok,
  own h tr n F → NoDup F → deleteA tr s = Some (tr', ok) →
  (length s + 1 ≤ fuel)%nat →
  delete_post h F tr n tr' ok (delete fuel t n s h).
Proof.
  induction tr as [|buf|k c IH|tv tcs IHv IHcs] using tree_ind';
    intros fuel t h n F s tr' ok Ho Hnd Hdel Hf;
    (destruct fuel as [|fuel]; [lia|]); cbn [delete].
  - destruct Ho as [-> ->]. inversion Hdel; subst.
    exists None, h. repeat split; try done.
  - pose proof Ho as (p & -> & Hp & ->).
    rewrite (bind_step _ _ _ _ _ (load_ok _ _ _ Hp)).
    cbn [deleteA] in Hdel. inversion Hdel; subst.
    case_bd (length s ≠ 0%nat) as Hs; simpl.
    + exists None, h. repeat split; try done.
    + exists None, h. split; [done|]. split; [|split; [done|lia]].
      exists []. split; [done|]. split; [constructor|set_solver].
  - pose proof Ho as (p & hs & c0 & Fc & -> & Hp & Hc & ->).
    rewrite (bind_step _ _ _ _ _ (load_ok _ _ _ Hp)).
    rewrite (bind_step _ _ _ _ _ (resetHash_short _ _ _ _ _ Hp)).
    apply NoDup_cons in Hnd as [HpFc HndFc].
    pose proof (lookup_lt_Some _ _ _ Hp) as Hplt.
    set (h1 := <[p:=ShortNode [] k c0]> h).
    assert (Hp1 : h1 !! p = Some (ShortNode [] k c0))
      by (by apply list_lookup_insert_eq).
    assert (Hfr1 : ∀ q, q ≠ p → h1 !! q = h !! q)
      by (intros; by apply list_lookup_insert_ne).
    assert (Hlen1 : length h1 = length h) by (by apply length_insert).
    assert (Hc1 : own h1 c c0 Fc).
    { eapply own_frame; [done|]. intros q Hq. apply Hfr1. intros ->. done. }
    assert (Hself : own h1 (TShort k c) (Some p) (p :: Fc)).
    { exists p, [], c0, Fc. done. }
    cbn [deleteA] in Hdel.
    case_bd (prefixLen s k = length s) as E1.
    { inversion Hdel; subst. exists None, h1.
      split; [done|]. split; [|split].
      - exists []. split; [done|]. split; [constructor|set_solver].
      - intros q Hq HqF. apply Hfr1. set_solver.
      - lia. }
    case_bd (prefixLen s k = 0%nat) as E2.
    { inversion Hdel; subst. exists None, h1.
      split; [done|]. split; [done|]. split.
      - intros q Hq HqF. apply Hfr1. set_solver.
      - lia. }
    destruct (deleteA c (drop (prefixLen s k) s)) as [[c' ok1]|] eqn:Ec; [|done].
    assert (Hfuel : (length (drop (prefixLen s k) s) + 1 ≤ fuel)%nat)
      by (rewrite length_drop; pose proof (prefixLen_le_l s k); lia).
    destruct (IH fuel t h1 c0 Fc _ c' ok1 Hc1 HndFc Ec Hfuel)
      as (n1 & h2 & Hrun & Hres & Hfr2 & Hlen2).
    rewrite (bind_step _ _ _ _ _ Hrun). cbv beta iota.
    assert (Hp2 : h2 !! p = Some (ShortNode [] k c0)).
    { rewrite Hfr2; [done|lia|done]. }
    assert (Hframe : ∀ q, (q < length h)%nat → q ∉ p :: Fc → h2 !! q = h !! q).
    { intros q Hq HqF. rewrite Hfr2; [|lia|set_solver]. apply Hfr1. set_solver. }
    destruct ok1; simpl in Hdel |- *.
    2:{ inversion Hdel; subst. destruct Hres as [-> Ho2].
        exists None, h2. split; [done|]. split; [|split; [done|lia]].
        split; [done|]. exists p, [], c0, Fc. done. }
    destruct Hres as (F1 & Ho1 & Hnd1 & HF1).
    assert (HpF1 : p ∉ F1).
    { intros Hq. apply HF1 in Hq as [?|?]; [done|lia]. }
    destruct c' as [|buf|k2 c2|cv ccs].
    + inversion Hdel; subst. destruct Ho1 as [-> ->].
      exists None, h2. split; [done|]. split; [|split; [done|lia]].
      exists []. split; [done|]. split; [constructor|set_solver].
    + inversion Hdel; subst. destruct Ho1 as (q & -> & Hq & ->).
      rewrite (bind_step _ _ _ _ _ (load_ok _ _ _ Hq)).
      rewrite (bind_step _ _ _ _ _ (setChild_ok _ _ _ _ _ _ Hp2)).
      exists (Some p), (<[p:=ShortNode [] k (Some q)]> h2).
      split; [done|]. split; [|split].
      * exists (p :: [q]). split; [|split].
        -- exists p, [], (Some q), [q]. split; [done|].
           split; [apply list_lookup_insert_eq; lia|]. split; [|done].
           exists q. split; [done|]. split; [|done].
           rewrite list_lookup_insert_ne; [done|]. intros ->. set_solver.
        -- apply NoDup_cons. split; [done|]. apply NoDup_singleton.
        -- intros q' Hq'. apply elem_of_cons in Hq' as [->|Hq']; [left; set_solver|].
           apply HF1 in Hq' as [?|?]; [left; set_solver|right; lia].
      * intros q' Hq' HqF. rewrite list_lookup_insert_ne by set_solver.
        by apply Hframe.
      * rewrite length_insert. lia.
    + inversion Hdel; subst.
      destruct Ho1 as (q & hs2 & cc2 & F2 & -> & Hq & Ho2 & ->).
      rewrite (bind_step _ _ _ _ _ (load_ok _ _ _ Hq)).
      rewrite (bind_step _ _ _ _ _ (load_ok _ _ _ Hp2)).
      apply NoDup_cons in Hnd1 as [HqF2 HndF2].
      destruct (own_short_fresh h2 c2 cc2 F2 (concat k k2) Ho2 HndF2) as [Hos Hnds].
      exists (Some (length h2)), (h2 ++ [ShortNode [] (concat k k2) cc2]).
      split; [done|]. split; [|split].
      * exists (length h2 :: F2). split; [done|]. split; [done|].
        intros q' Hq'. apply elem_of_cons in Hq' as [->|Hq']; [right; lia|].
        destruct (HF1 q') as [?|?]; [set_solver|left; set_solver|right; lia].
      * intros q' Hq' HqF. rewrite lookup_app_l by lia. by apply Hframe.
      * rewrite length_app. lia.
    + inversion Hdel; subst.
      pose proof Ho1 as Ho1'.
      apply own_full_iff in Ho1'
        as (q & hs2 & ep2 & v2 & cs2 & Fv2 & Fs2 & -> & Hq & _ & _ & EF1).
      rewrite (bind_step _ _ _ _ _ (load_ok _ _ _ Hq)).
      rewrite (bind_step _ _ _ _ _ (setChild_ok _ _ _ _ _ _ Hp2)).
      exists (Some p), (<[p:=ShortNode [] k (Some q)]> h2).
      split; [done|]. split; [|split].
      * exists (p :: F1). split; [|split].
        -- exists p, [], (Some q), F1. split; [done|].
           split; [apply list_lookup_insert_eq; lia|]. split; [|done].
           eapply own_frame; [done|]. intros q' Hq'.
           apply list_lookup_insert_ne. intros ->. done.
        -- by apply NoDup_cons.
        -- intros q' Hq'. apply elem_of_cons in Hq' as [->|Hq']; [left; set_solver|].
           apply HF1 in Hq' as [?|?]; [left; set_solver|right; lia].
      * intros q' Hq' HqF. rewrite list_lookup_insert_ne by set_solver.
        by apply Hframe.
      * rewrite length_insert. lia.
  - pose proof Ho as Ho'. apply own_full_iff in Ho'
      as (p & hs & ep & v0 & cs & Fv & Fs & -> & Hp & Hv & Hcs & ->).
    rewrite (bind_step _ _ _ _ _ (load_ok _ _ _ Hp)).
    rewrite (bind_step _ _ _ _ _ (resetHash_full _ _ _ _ _ _ Hp)).
    destruct s as [|key rest]; [done|].
    destruct (deleteA_full_inv _ _ _ _ _ _ Hdel)
      as (te & c' & ok1 & Hget & Hte & Hwhere & Hres).
    pose proof Hnd as Hnd0.
    apply NoDup_cons in Hnd as [HpF HndF].
    pose proof (lookup_lt_Some _ _ _ Hp) as Hplt.
    set (h1 := <[p:=FullNode [] ep v0 cs]> h).
    assert (Hp1 : h1 !! p = Some (FullNode [] ep v0 cs))
      by (by apply list_lookup_insert_eq).
    assert (Hfr1 : ∀ q, q ≠ p → h1 !! q = h !! q)
      by (intros; by apply list_lookup_insert_ne).
    assert (Hlen1 : length h1 = length h) by (by apply length_insert).
    assert (Hv1 : own h1 tv v0 Fv).
    { eapply own_frame; [done|]. intros q Hq. apply Hfr1. intros ->. set_solver. }
    assert (Hcs1 : Forall3 (own h1) tcs cs Fs).
    { eapply Forall3_own_frame; [done|]. intros q Hq. apply Hfr1. intros ->.
      set_solver. }
    assert (HboundF : ∀ q, q ∈ Fv ++ mjoin Fs → (q < length h)%nat).
    { intros q Hq. eapply (own_bound _ _ _ _ _ Ho). set_solver. }
    destruct (getEdge_own _ _ _ _ _ _ _ _ _ _ _ _ Hp1 Hv1 Hcs1 Hget)
      as (e & Fi & Hge & Hoe & Hperm & Hoth & Hrestore).
    assert (HFi : ∀ q, q ∈ Fi → q ∈ Fv ++ mjoin Fs)
      by (intros q Hq; rewrite Hperm; set_solver).
    assert (HO : ∀ q, q ∈ others key Fv Fs → q ∈ Fv ++ mjoin Fs)
      by (intros q Hq; rewrite Hperm; set_solver).
    assert (Hnd2 : NoDup (Fi ++ others key Fv Fs)) by (by rewrite <- Hperm).
    apply NoDup_app in Hnd2 as (HndFi & Hdisj & HndO).
    rewrite (bind_step _ _ _ _ _ Hge).
    assert (Hfuel : (length rest + 1 ≤ fuel)%nat) by (simpl in Hf; lia).
    assert (Hrec : delete_post h1 Fi te e c' ok1 (delete fuel t e rest h1)).
    { destruct Hwhere as [->|[i Hi]].
      - eapply IHv; done.
      - rewrite Forall_lookup in IHcs. eapply IHcs; done. }
    destruct Hrec as (n1 & h2 & Hrun & Hres2 & Hfr2 & Hlen2).
    rewrite (bind_step _ _ _ _ _ Hrun). cbv beta iota.
    assert (Hp2 : h2 !! p = Some (FullNode [] ep v0 cs)).
    { rewrite Hfr2; [done|lia|]. intros Hq. apply HpF. by apply HFi. }
    assert (Hoth2 : own_others h2 v0 cs tv tcs Fv Fs key).
    { eapply own_others_frame; [done|]. intros q Hq. apply Hfr2.
      - apply HO, HboundF in Hq. lia.
      - intros HqFi. by apply (Hdisj q). }
    assert (Hframe : ∀ q, (q < length h)%nat → q ∉ p :: Fv ++ mjoin Fs →
                          h2 !! q = h !! q).
    { intros q Hq HqF. rewrite Hfr2; [|lia|].
      - apply Hfr1. set_solver.
      - intros HqFi. apply HFi in HqFi. set_solver. }
    destruct ok1; simpl.
    2:{ destruct Hres as [-> ->]. destruct Hres2 as [-> Ho2].
        exists None, h2. split; [done|]. split; [|split; [done|lia]].
        split; [done|].
        destruct (Hrestore h2 Hoth2 Ho2) as [Hv2 Hcs2].
        apply own_full_iff. exists p, [], ep, v0, cs, Fv, Fs. done. }
    destruct Hres as (v' & cs' & Hset & Hcol).
    destruct Hres2 as (F1 & Ho1 & Hnd1 & HF1).
    assert (HpF1 : p ∉ F1).
    { intros Hq. apply HF1 in Hq as [Hq|Hq]; [|lia]. apply HpF. by apply HFi. }
    assert (HpO : p ∉ others key Fv Fs) by (intros Hq; apply HpF; by apply HO).
    destruct (setEdge_own _ _ _ _ _ _ _ _ _ _ _ _ _ _ _ Hp2 Hoth2 Hset Ho1 HpF1 HpO)
      as (h3 & F3 & Hse & Hown3 & HpermF3 & Hfr3 & Hlen3).
    rewrite (bind_step _ _ _ _ _ Hse).
    assert (Hnd3 : NoDup (p :: F3)).
    { apply NoDup_cons. split.
      - rewrite HpermF3. set_solver.
      - rewrite HpermF3. apply NoDup_app. repeat split; try done.
        intros q Hq HqO. apply HF1 in Hq as [Hq|Hq].
        + by apply (Hdisj q).
        + apply HO, HboundF in HqO. lia. }
    destruct (collapse_refine t h3 p v' cs' _ tr' ok Hown3 Hnd3 Hcol)
      as (-> & n4 & h4 & Hrun4 & Hres4 & Hfr4 & Hlen4).
    destruct Hres4 as (F4 & Ho4 & Hnd4 & HF4).
    assert (HF3 : ∀ q, q ∈ p :: F3 → q ∈ p :: Fv ++ mjoin Fs ∨ (length h ≤ q)%nat).
    { intros q Hq. apply elem_of_cons in Hq as [->|Hq]; [left; set_solver|].
      rewrite HpermF3 in Hq. apply elem_of_app in Hq as [Hq|Hq].
      - apply HF1 in Hq as [Hq|Hq]; [left|right; lia]. apply HFi in Hq. set_solver.
      - left. apply HO in Hq. set_solver. }
    exists n4, h4. split; [done|]. split; [|split].
    + exists F4. split; [done|]. split; [done|].
      intros q Hq. apply HF4 in Hq as [Hq|Hq]; [by apply HF3|right; lia].
    + intros q Hq HqF. rewrite Hfr4; [|lia|].
      * rewrite Hfr3 by set_solver. by apply Hframe.
      * intros Hq3. apply HF3 in Hq3 as [?|?]; [done|lia].
    + lia.
Qed.

Lemma foldl_insert_map (M : gmap (list byte) (list byte))
    (kvs : list (list byte * list byte)) :
  kvs ≡ₚ map_to_list M →
  foldl (λ m kv, <[kv.1 := kv.2]> m) ∅ kvs = M.
Proof.
  intros Hperm. rewrite foldl_insert_list_to_map.
  change (list_to_map (reverse kvs) = M).
  rewrite <- (list_to_map_to_list M). apply list_to_map_proper.
  - rewrite reverse_Permutation, Hperm. apply NoDup_fst_map_to_list.
  - by rewrite reverse_Permutation.
Qed.

Lemma txn_holds_wf h t m : txn_holds h t m → txn_wf h t.
Proof. intros (tr & F & ? & ? & ? & _). by exists tr, F. Qed.

Lemma Txn_Insert_wf fuel t h k v :
  txn_wf h t → (2 * length k + 5 ≤ fuel)%nat →
  ∃ t' h', Txn_Insert fuel t k v h = Done (t', h') ∧ txn_wf h' t'.
Proof.
  intros (tr & F & Ho & Hnd & Hg) Hf.
  destruct (insertA_good tr Hg (keybytesToHex k) v (keybytesToHex_tkey k))
    as (tr' & Hins & Hg' & _ & Hl).
  assert (Hfuel : (length (keybytesToHex k) + 4 ≤ fuel)%nat)
    by (rewrite length_keybytesToHex; lia).
  destruct (insert_refine tr fuel t h (root t) F _ v tr' Ho Hnd Hins Hfuel)
    as (p' & h' & F' & Hrun & Ho' & Hnd' & _).
  exists (mkTxn (Some p') (epoch t) (storage t) (batch t)), h'.
  split.
  { unfold Txn_Insert. by rewrite (bind_step _ _ _ _ _ Hrun). }
  exists tr', F'. repeat split; try done. by right.
Qed.

Lemma Txn_Delete_wf fuel t h k :
  txn_wf h t → (2 * length k + 2 ≤ fuel)%nat →
  ∃ t' h', Txn_Delete fuel t k h = Done (t', h') ∧ txn_wf h' t'.
Proof.
  intros (tr & F & Ho & Hnd & Hg) Hf.
  destruct (deleteA_good tr Hg (keybytesToHex k) (keybytesToHex_tkey k))
    as (tr' & ok & Hdel & Hg').
  assert (Hfuel : (length (keybytesToHex k) + 1 ≤ fuel)%nat)
    by (rewrite length_keybytesToHex; lia).
  destruct (delete_refine tr fuel t h (root t) F _ tr' ok Ho Hnd Hdel Hfuel)
    as (n' & h' & Hrun & Hres & _).
  unfold Txn_Delete. rewrite (bind_step _ _ _ _ _ Hrun). cbv beta iota.
  destruct ok.
  - destruct Hres as (F' & Ho' & Hnd' & _).
    eexists _, _. split; [done|]. by exists tr', F'.
  - destruct Hres as [-> Ho'].
    eexists _, _. split; [done|]. by exists tr, F.
Qed.

(** The heap fixes the tree under a pointer. *)
Lemma own_functional tr1 : ∀ tr2 h n F1 F2,
  own h tr1 n F1 → own h tr2 n F2 → tr1 = tr2.
Proof.
  induction tr1 as [|buf|k c IH|tv tcs IHv IHcs] using tree_ind';
    intros tr2 h n F1 F2 H1 H2.
  - destruct H1 as [-> _]. symmetry. by apply (own_shape tr2 h None F2).
  - destruct H1 as (p & -> & Hp & _).
    destruct tr2 as [|buf2|k2 c2|tv2 tcs2].
    + by destruct H2.
    + destruct H2 as (p2 & [= <-] & Hp2 & _). congruence.
    + destruct H2 as (p2 & ? & ? & ? & [= <-] & Hp2 & _). congruence.
    + apply own_full_iff in H2 as (p2 & ? & ? & ? & ? & ? & ? & [= <-] & Hp2 & _).
      congruence.
  - destruct H1 as (p & hs & c0 & Fc & -> & Hp & Hc & _).
    destruct tr2 as [|buf2|k2 c2|tv2 tcs2].
    + by destruct H2.
    + destruct H2 as (p2 & [= <-] & Hp2 & _). congruence.
    + destruct H2 as (p2 & hs2 & c02 & Fc2 & [= <-] & Hp2 & Hc2 & _).
      rewrite Hp in Hp2. injection Hp2 as <- <- <-.
      f_equal. by eapply IH.
    + apply own_full_iff in H2 as (p2 & ? & ? & ? & ? & ? & ? & [= <-] & Hp2 & _).
      congruence.
  - apply own_full_iff in H1
      as (p & hs & ep & v & cs & Fv & Fs & -> & Hp & Hv & Hcs & _).
    destruct tr2 as [|buf2|k2 c2|tv2 tcs2].
    + by destruct H2.
    + destruct H2 as (p2 & [= <-] & Hp2 & _). congruence.
    + destruct H2 as (p2 & ? & ? & ? & [= <-] & Hp2 & _). congruence.
    + apply own_full_iff in H2
        as (p2 & hs2 & ep2 & v2 & cs2 & Fv2 & Fs2 & [= <-] & Hp2 & Hv2 & Hcs2 & _).
      rewrite Hp in Hp2. injection Hp2 as <- <- <- <-.
      f_equal; [by eapply IHv|].
      clear Hp Hv Hv2. revert tcs2 Fs2 Hcs2.
      induction Hcs as [|t c0 F1' ts cs0 Fs0 Ho Hrest IHrest]; intros tcs2 Fs2 Hcs2.
      * by inversion Hcs2.
      * inversion Hcs2 as [|t2 ? F2' ts2 ? Fs2' Ho2 Hrest2]; subst.
        inversion IHcs as [|? ? Ht Hts]; subst.
        f_equal; [by eapply Ht|]. by eapply IHrest.
Qed.

Lemma own_two_keys_tree :
  own two_keys_heap two_keys_tree two_keys_root [6; 2; 3; 0; 5; 4]%nat.
Proof.
  apply own_short_iff. eexists 6%nat, _, _, _.
  split; [reflexivity|]. split; [reflexivity|]. split; [|reflexivity].
  apply own_full_iff. eexists 2%nat, _, _, _, _, [], (<[1%nat := [3;0]%nat]> (<[2%nat := [5;4]%nat]> (replicate 16 []))).
  split; [reflexivity|]. split; [reflexivity|]. split; [done|].
  split; [|reflexivity].
  repeat constructor; try done.
  - apply own_short_iff. eexists 3%nat, _, _, _. repeat split; try reflexivity.
    eexists 0%nat. repeat split; reflexivity.
  - apply own_short_iff. eexists 5%nat, _, _, _. repeat split; try reflexivity.
    eexists 4%nat. repeat split; reflexivity.
Qed.

Lemma own_two_keys_tree_after h :
  h !! 6%nat = Some (ShortNode [] [x00] (Some 2%nat)) →
  h !! 2%nat = Some (FullNode [] 1 None (<[2%nat := Some 5%nat]> (replicate 16 None))) →
  h !! 5%nat = Some (ShortNode [] [x02; x10] (Some 4%nat)) →
  h !! 4%nat = Some (ValueNode false (Some [xbb])) →
  own h two_keys_tree_after (Some 6%nat) [6; 2; 5; 4]%nat.
Proof.
  intros H6 H2 H5 H4.
  apply own_short_iff. eexists 6%nat, _, _, _.
  split; [reflexivity|]. split; [exact H6|]. split; [|reflexivity].
  apply own_full_iff.
  eexists 2%nat, _, _, _, _, [], (<[2%nat := [5;4]%nat]> (replicate 16 [])).
  split; [reflexivity|]. split; [exact H2|]. split; [done|].
  split; [|reflexivity].
  repeat constructor; try done.
  apply own_short_iff. eexists 5%nat, _, _, _.
  split; [reflexivity|]. split; [exact H5|]. split; [|reflexivity].
  eexists 4%nat. repeat split; [exact H4].
Qed.

(** * The claims *)

(** C1 (P1, round trip).  Insert the bindings of a key/value map [M], in
    any order [kvs], into a transaction on an empty trie: every insert
    returns, and afterwards [Txn.Lookup k] returns [M !! k] for every key:
    the value stored under [k] when [k] is in [M], and nil when it is not.
    The fuel only has to cover the length of the keys. *)
Theorem C1_insert_lookup_roundtrip
    (M : gmap (list byte) (list byte)) (kvs : list (list byte * list byte))
    (t : Txn) (h : list cell) (fuel : nat) :
  root t = None →
  kvs ≡ₚ map_to_list M →
  (∀ k v, (k, v) ∈ kvs → (2 * length k + 5 ≤ fuel)%nat) →
  ∃ t' h',
    insert_all fuel t kvs h = Done (t', h')
    ∧ ∀ k, (2 * length k + 2 ≤ fuel)%nat →
           Txn_Lookup fuel t' k h' = Done (M !! k, h').
Proof.
  intros Hroot Hperm Hfuel.
  destruct (insert_all_holds fuel kvs t h ∅ (txn_holds_empty h t Hroot) Hfuel)
    as (t' & h' & Hrun & Hholds).
  rewrite (foldl_insert_map M kvs Hperm) in Hholds.
  exists t', h'. split; [done|].
  intros k Hk. by apply Txn_Lookup_holds.
Qed.

Lemma C1_insert_lookup_roundtrip_witness :
  root (Trie_Txn NewTrie) = None
  ∧ sample_kvs ≡ₚ map_to_list sample_map
  ∧ (∀ k v, (k, v) ∈ sample_kvs → (2 * length k + 5 ≤ 11)%nat)
  ∧ ∃ t' h',
      insert_all 11 (Trie_Txn NewTrie) sample_kvs [] = Done (t', h')
      ∧ ∀ k, (2 * length k + 2 ≤ 11)%nat →
             Txn_Lookup 11 t' k h' = Done (sample_map !! k, h').
Proof.
  assert (H1 : root (Trie_Txn NewTrie) = None) by reflexivity.
  assert (H2 : sample_kvs ≡ₚ map_to_list sample_map).
  { symmetry. apply map_to_list_to_map. vm_compute.
    repeat (constructor; [rewrite ?elem_of_cons, elem_of_nil; intuition discriminate|]).
    constructor. }
  assert (H3 : ∀ k v, (k, v) ∈ sample_kvs → (2 * length k + 5 ≤ 11)%nat).
  { intros k v Hin. unfold sample_kvs in Hin.
    rewrite !elem_of_cons, elem_of_nil in Hin.
    destruct Hin as [[= -> ->]|[[= -> ->]|[]]]; simpl; lia. }
  split; [exact H1|]. split; [exact H2|]. split; [exact H3|].
  exact (C1_insert_lookup_roundtrip sample_map sample_kvs (Trie_Txn NewTrie) [] 11
           H1 H2 H3).
Defined.

(** C6 (P6, structural well-formedness; violated through [Txn.Delete]).
    The trie holding [0x01 -> 0xaa] and [0x02 -> 0xbb] is built by two
    [Txn.Insert]s on the empty trie and committed; it satisfies the three
    invariants.  A transaction opened on it deletes [0x01].  [delete] sets
    the slot of the committed Full node in place, without [writeNode], and
    collapses only the transaction's own path: the trie under the
    transaction's root is well-formed, but under the committed root the
    Full node is left with one non-empty slot among its seventeen, so the
    committed trie no longer satisfies the invariants. *)
Theorem C6_delete_breaks_committed_invariants :
  ∃ t2 h2 t3 h3 F2 F3 F,
    two_keys [] = Done (t2, h2)
    ∧ own h2 two_keys_tree (trie_root (Txn_Commit t2)) F2
    ∧ wellformed two_keys_tree
    ∧ Txn_Delete 9 (Trie_Txn (Txn_Commit t2)) [x01] h2 = Done (t3, h3)
    ∧ own h3 two_keys_tree_after (trie_root (Txn_Commit t2)) F3
    ∧ (∀ tr F', own h3 tr (trie_root (Txn_Commit t2)) F' → ¬ wellformed tr)
    ∧ h3 !! 2%nat = Some (FullNode [] 1 None
                       (<[2%nat := Some 5%nat]> (replicate 16 None)))
    ∧ nonempty_slots None (<[2%nat := Some 5%nat]> (replicate 16 None)) = 1%nat
    ∧ own h3 (TShort [x00; x02; x10] (TValue (Some [xbb]))) (root t3) F
    ∧ wellformed (TShort [x00; x02; x10] (TValue (Some [xbb]))).
Proof.
  eexists _, _, _, _, [6; 2; 3; 0; 5; 4]%nat, [6; 2; 5; 4]%nat, [7; 4]%nat.
  split; [vm_compute; reflexivity|].
  split; [exact own_two_keys_tree|].
  split; [vm_compute; repeat split; (done || lia)|].
  split; [vm_compute; reflexivity|].
  assert (Ha : own
    [ValueNode false (Some [xaa]);
     ShortNode [] [x00; x01; x10] (Some 0%nat);
     FullNode [] 1 None (<[2%nat := Some 5%nat]> (replicate 16 None));
     ShortNode [] [x10] (Some 0%nat);
     ValueNode false (Some [xbb]);
     ShortNode [] [x02; x10] (Some 4%nat);
     ShortNode [] [x00] (Some 2%nat);
     ShortNode [] [x00; x02; x10] (Some 4%nat)]
    two_keys_tree_after (Some 6%nat) [6; 2; 5; 4]%nat)
    by (by apply own_two_keys_tree_after).
  split; [exact Ha|].
  split.
  { intros tr F' Ho Hwf.
    pose proof (own_functional _ _ _ _ _ _ Ho Ha) as ->.
    destruct Hwf as (_ & _ & Hc & _). vm_compute in Hc. lia. }
  split; [reflexivity|]. split; [reflexivity|].
  split.
  - apply own_short_iff. eexists 7%nat, _, _, _. repeat split; try reflexivity.
    eexists 4%nat. repeat split; reflexivity.
  - simpl. done.
Qed.

(** C2 (P4, snapshot isolation; violated by [Txn.Delete]).  The trie
    holding [0x01 -> 0xaa] and [0x02 -> 0xbb] is committed; a transaction
    opened on it deletes [0x01].  [delete] does not go through [writeNode]:
    it sets the slot of the committed Full node and rewrites the key of the
    committed Short node in place, so afterwards the committed trie has lost
    both keys and its nodes have changed. *)
Theorem C2_delete_mutates_committed_trie :
  ∃ t2 h2 t3 h3,
    two_keys [] = Done (t2, h2)
    ∧ Trie_Get 9 (Txn_Commit t2) [x01] h2 = Done ((Some [xaa], true), h2)
    ∧ Trie_Get 9 (Txn_Commit t2) [x02] h2 = Done ((Some [xbb], true), h2)
    ∧ Txn_Delete 9 (Trie_Txn (Txn_Commit t2)) [x01] h2 = Done (t3, h3)
    ∧ Trie_Get 9 (Txn_Commit t2) [x01] h3 = Done ((None, false), h3)
    ∧ Trie_Get 9 (Txn_Commit t2) [x02] h3 = Done ((None, false), h3)
    ∧ h2 !! 2%nat = Some (FullNode [] 1 None
                       (<[1%nat := Some 3%nat]> (<[2%nat := Some 5%nat]>
                          (replicate 16 None))))
    ∧ h3 !! 2%nat = Some (FullNode [] 1 None
                       (<[2%nat := Some 5%nat]> (replicate 16 None)))
    ∧ h2 !! 5%nat = Some (ShortNode [] [x10] (Some 4%nat))
    ∧ h3 !! 5%nat = Some (ShortNode [] [x02; x10] (Some 4%nat)).
Proof.
  do 4 eexists. split; [vm_compute; reflexivity|].
  repeat split; vm_compute; reflexivity.
Qed.

(** C3 (delete at a diverging Short node; violated).  In the trie holding
    [0x1234] and [0x1235] the root is a Short node with key [1,2,3].
    [Txn.Delete(0x14)] reaches it with the remainder [1,4,16]: the common
    prefix has length 1, below both lengths.  The code only tests
    [plen == 0] and descends: the absent key's delete removes [0x1234]. *)
Theorem C3_delete_diverging_key_removes_value :
  ∃ t2 h2 t3 h3,
    two_long_keys [] = Done (t2, h2)
    ∧ h2 !! 6%nat = Some (ShortNode [] [x01; x02; x03] (Some 2%nat))
    ∧ root t2 = Some 6%nat
    ∧ prefixLen (keybytesToHex [x14]) [x01; x02; x03] = 1%nat
    ∧ Txn_Lookup 9 t2 [x14] h2 = Done (None, h2)
    ∧ Txn_Lookup 9 t2 [x12; x34] h2 = Done (Some [xaa], h2)
    ∧ delete 9 t2 (root t2) (keybytesToHex [x14]) h2 = Done ((root t3, true), h3)
    ∧ Txn_Delete 9 t2 [x14] h2 = Done (t3, h3)
    ∧ Txn_Lookup 9 t3 [x12; x34] h3 = Done (None, h3).
Proof.
  do 4 eexists. split; [vm_compute; reflexivity|].
  repeat split; vm_compute; reflexivity.
Qed.

(** *** The collapse of a Full node *)

Lemma count_some_cons c cs :
  count_some (c :: cs)
  = ((match c with Some _ => 1 | None => 0 end) + count_some cs)%nat.
Proof.
  unfold count_some. rewrite filter_cons.
  destruct c; destruct (decide _) as [H|H]; simpl; try done.
  exfalso. apply H. by eexists.
Qed.

Lemma count_some_ge_1 cs i q : cs !! i = Some (Some q) → (1 ≤ count_some cs)%nat.
Proof.
  revert i. induction cs as [|c cs IH]; intros [|i] H; simpl in H; try done.
  - inversion H; subst. rewrite count_some_cons. lia.
  - rewrite count_some_cons. specialize (IH _ H). lia.
Qed.

Lemma scan_found_count cs : ∀ e i0,
  i0 ≠ -1 → scanChildren cs e i0 = (i0, bool_decide (1 ≤ count_some cs)%nat).
Proof.
  induction cs as [|c cs IH]; intros e i0 Hi0; simpl.
  - done.
  - rewrite count_some_cons. destruct c.
    + rewrite bool_decide_eq_true_2 by done.
      by rewrite bool_decide_eq_true_2 by lia.
    + by rewrite IH.
Qed.

Lemma scan_count cs : ∀ e,
  0 ≤ e →
  ∃ indx,
    scanChildren cs e (-1) = (indx, bool_decide (2 ≤ count_some cs)%nat)
    ∧ (count_some cs = 0%nat → indx = -1)
    ∧ ((1 ≤ count_some cs)%nat → 0 ≤ indx)
    ∧ (∀ i q, count_some cs = 1%nat → cs !! i = Some (Some q) →
              indx = e + Z.of_nat i).
Proof.
  induction cs as [|c cs IH]; intros e He; simpl.
  - exists (-1). repeat split; try done. unfold count_some. simpl. lia.
  - rewrite count_some_cons. destruct c as [q0|].
    + rewrite scan_found_count by lia. exists e.
      split; [|split; [|split]].
      * f_equal. apply bool_decide_ext. lia.
      * lia.
      * lia.
      * intros [|i] q Hc Hi; [lia|]. simpl in Hi.
        apply count_some_ge_1 in Hi. lia.
    + assert (He' : 0 ≤ e + 1) by lia.
      destruct (IH _ He') as (indx & Hs & H0 & H1 & H2).
      exists indx. split; [done|]. split; [done|]. split; [done|].
      intros [|i] q Hc Hi; [done|]. simpl in Hi.
      rewrite (H2 i q Hc Hi). lia.
Qed.

Lemma collapse_single_child t h p hs ep cs i q :
  h !! p = Some (FullNode hs ep None cs) →
  count_some cs = 1%nat → cs !! i = Some (Some q) →
  collapseFull t p h =
    (let* r :=
       (let* c := load q in
        match c with
        | ValueNode true buf => GetNode buf (storage t)
        | _ => ret (Some (Some q))
        end) in
     match r with
     | None => ret (None, false)
     | Some nc =>
         let fresh :=
           let* s := alloc (ShortNode [] [byte_of_Z (Z.of_nat i)] nc) in
           ret (Some s, true) in
         match nc with
         | Some q =>
             let* c := load q in
             match c with
             | ShortNode _ okey _ =>
                 let* _ := setKey q (concat [byte_of_Z (Z.of_nat i)] okey) in
                 let* _ := resetHash q in
                 ret (Some q, true)
             | _ => fresh
             end
         | None => fresh
         end
     end) h.
Proof.
  intros Hp Hcount Hi.
  destruct (scan_count cs 0 ltac:(lia)) as (indx & Hscan & H0 & H1 & H2).
  rewrite (H2 i q Hcount Hi) in Hscan. rewrite Z.add_0_l in Hscan.
  unfold collapseFull.
  rewrite (bind_step _ _ _ _ _ (load_ok _ _ _ Hp)). rewrite Hscan.
  rewrite (bool_decide_eq_false_2 (2 ≤ _)%nat) by lia.
  rewrite (bool_decide_eq_false_2 (None ≠ None)) by (intros H; by apply H).
  rewrite andb_false_r. simpl orb. cbv iota.
  rewrite bool_decide_eq_false_2 by lia.
  rewrite Nat2Z.id, Hi. done.
Qed.

(** C5 (collapse of a Full node on delete).  Once [delete] has descended
    through a Full node, found the child changed and updated the slot, its
    result is decided by the number of non-empty slots among the seventeen:
    with two or more the node stays; with none the result is nil; when only
    the value slot is left the result is a fresh Short node with key
    [terminator] over the value; when only child [i] is left it is resolved
    (fetched from the store when it is a hash reference) and, if that is a
    Short node, that node is returned with [i] put in front of its key and
    its hash emptied, and otherwise a fresh Short node with key [i] over
    it. *)
Theorem C5_full_node_collapse
    (t : Txn) (h : list cell) (p : nat)
    (hs : list byte) (ep : Z) (v : option nat) (cs : list (option nat)) :
  h !! p = Some (FullNode hs ep v cs) →
  length cs = 16%nat →
  (∀ fuel key rest e newChild h0 h1 h2,
     resetHash p h0 = Done (tt, h1) →
     getEdge p key h1 = Done (e, h1) →
     delete fuel t e rest h1 = Done ((newChild, true), h2) →
     setEdge p key newChild h2 = Done (tt, h) →
     (∃ hs0 ep0 v0 cs0, h0 !! p = Some (FullNode hs0 ep0 v0 cs0)) →
     delete (S fuel) t (Some p) (key :: rest) h0 = collapseFull t p h)
  ∧ ((2 ≤ nonempty_slots v cs)%nat →
     collapseFull t p h = Done ((Some p, true), h))
  ∧ (nonempty_slots v cs = 0%nat →
     collapseFull t p h = Done ((None, true), h))
  ∧ (nonempty_slots v cs = 1%nat → ∀ q, v = Some q →
     collapseFull t p h
     = Done ((Some (length h), true), h ++ [ShortNode [] [x10] (Some q)]))
  ∧ (nonempty_slots v cs = 1%nat → ∀ i q nc h1,
     cs !! i = Some (Some q) → resolves t h q nc h1 →
     Byte.to_nat (byte_of_Z (Z.of_nat i)) = i
     ∧ (∀ r hs' k c, nc = Some r → h1 !! r = Some (ShortNode hs' k c) →
        collapseFull t p h
        = Done ((Some r, true),
                <[r := ShortNode [] (byte_of_Z (Z.of_nat i) :: k) c]> h1))
     ∧ ((∀ r, nc = Some r → ∃ c, h1 !! r = Some c ∧ ¬ is_short c) →
        collapseFull t p h
        = Done ((Some (length h1), true),
                h1 ++ [ShortNode [] [byte_of_Z (Z.of_nat i)] nc]))).
Proof.
  intros Hp Hlen.
  destruct (scan_count cs 0 ltac:(lia)) as (indx & Hscan & H0 & H1 & H2).
  unfold nonempty_slots.
  split; [|split; [|split; [|split]]].
  - intros fuel key rest e newChild h0 h1 h2 Hr Hg Hd Hs (hs0 & ep0 & v0 & cs0 & Hp0).
    cbn [delete]. rewrite (bind_step _ _ _ _ _ (load_ok _ _ _ Hp0)).
    rewrite (bind_step _ _ _ _ _ Hr), (bind_step _ _ _ _ _ Hg).
    rewrite (bind_step _ _ _ _ _ Hd). cbv beta iota.
    change (negb true) with false. cbv iota.
    by rewrite (bind_step _ _ _ _ _ Hs).
  - intros Hn. unfold collapseFull.
    rewrite (bind_step _ _ _ _ _ (load_ok _ _ _ Hp)). rewrite Hscan.
    destruct (decide (2 ≤ count_some cs)%nat) as [Hc|Hc].
    + by rewrite bool_decide_eq_true_2 by done.
    + rewrite (bool_decide_eq_false_2 (2 ≤ _)%nat) by done.
      destruct v as [q|]; [|lia].
      rewrite bool_decide_eq_true_2 by lia.
      by rewrite bool_decide_eq_true_2 by done.
  - intros Hn. unfold collapseFull.
    rewrite (bind_step _ _ _ _ _ (load_ok _ _ _ Hp)). rewrite Hscan.
    destruct v as [q|]; [lia|].
    rewrite H0 by lia.
    rewrite (bool_decide_eq_false_2 (2 ≤ _)%nat) by lia. simpl.
    done.
  - intros Hn q ->. unfold collapseFull.
    rewrite (bind_step _ _ _ _ _ (load_ok _ _ _ Hp)). rewrite Hscan.
    rewrite H0 by lia.
    rewrite (bool_decide_eq_false_2 (2 ≤ _)%nat) by lia. simpl.
    done.
  - intros Hn i q nc h1 Hi Hres.
    pose proof (count_some_ge_1 _ _ _ Hi) as Hge.
    pose proof (lookup_lt_Some _ _ _ Hi) as Hi16.
    destruct v as [qv|]; [lia|].
    assert (Hcount : count_some cs = 1%nat) by lia.
    rewrite (H2 i q Hcount Hi) in Hscan. rewrite Z.add_0_l in Hscan.
    pose proof (collapse_single_child t h p hs ep cs i q Hp Hcount Hi) as Hpre.
    assert (Hr : (let* c := load q in
                  match c with
                  | ValueNode true buf => GetNode buf (storage t)
                  | _ => ret (Some (Some q))
                  end) h = Done (Some nc, h1)).
    { unfold resolves in Hres.
      destruct (h !! q) as [c|] eqn:Hq; [|done].
      rewrite (bind_step _ _ _ _ _ (load_ok _ _ _ Hq)).
      destruct c as [[|] buf| |];
        first [exact Hres | by destruct Hres as [-> ->]]. }
    split; [apply byte_of_Z_to_nat; lia|]. split.
    + intros r hs' k c -> Hr1. rewrite Hpre.
      rewrite (bind_step _ _ _ _ _ Hr). cbv beta iota zeta.
      rewrite (bind_step _ _ _ _ _ (load_ok _ _ _ Hr1)).
      pose proof (lookup_lt_Some _ _ _ Hr1) as Hrlt.
      rewrite (bind_step _ _ _ _ _ (setKey_ok _ _ _ _ _ _ Hr1)).
      assert (Hr2 : <[r:=ShortNode hs' (concat [byte_of_Z (Z.of_nat i)] k) c]> h1 !! r
                    = Some (ShortNode hs' (concat [byte_of_Z (Z.of_nat i)] k) c))
        by (by apply list_lookup_insert_eq).
      rewrite (bind_step _ _ _ _ _ (resetHash_short _ _ _ _ _ Hr2)).
      by rewrite list_insert_insert_eq.
    + intros Hns. rewrite Hpre. rewrite (bind_step _ _ _ _ _ Hr).
      cbv beta iota zeta.
      destruct nc as [r|]; [|done].
      destruct (Hns r eq_refl) as (c & Hc & Hnot).
      rewrite (bind_step _ _ _ _ _ (load_ok _ _ _ Hc)).
      destruct c; try done.
Qed.

Lemma C5_full_node_collapse_witness :
  collapse_heap !! 2%nat = Some (FullNode [] 1 None collapse_children)
  ∧ length collapse_children = 16%nat
  ∧ nonempty_slots None collapse_children = 1%nat
  ∧ collapse_children !! 2%nat = Some (Some 1%nat)
  ∧ resolves (Trie_Txn NewTrie) collapse_heap 1 (Some 1%nat) collapse_heap
  ∧ collapseFull (Trie_Txn NewTrie) 2 collapse_heap
    = Done ((Some 1%nat, true),
            <[1%nat := ShortNode [] [x02; x10] (Some 0%nat)]> collapse_heap).
Proof.
  assert (H1 : collapse_heap !! 2%nat = Some (FullNode [] 1 None collapse_children))
    by reflexivity.
  assert (H2 : length collapse_children = 16%nat) by reflexivity.
  assert (H3 : nonempty_slots None collapse_children = 1%nat) by reflexivity.
  assert (H4 : collapse_children !! 2%nat = Some (Some 1%nat)) by reflexivity.
  assert (H5 : resolves (Trie_Txn NewTrie) collapse_heap 1 (Some 1%nat) collapse_heap)
    by (split; reflexivity).
  destruct (C5_full_node_collapse (Trie_Txn NewTrie) collapse_heap 2 [] 1 None
              collapse_children H1 H2) as (_ & _ & _ & _ & Hone).
  destruct (Hone H3 2%nat 1%nat (Some 1%nat) collapse_heap H4 H5) as (_ & Hshort & _).
  split; [exact H1|]. split; [exact H2|]. split; [exact H3|].
  split; [exact H4|]. split; [exact H5|].
  exact (Hshort 1%nat [xff] [x10] (Some 0%nat) eq_refl eq_refl).
Defined.

(** C4, the claim as stated fails for [Txn.Insert]: on a trie whose root
    is a hash reference that the store does not have, the insert returns
    without a panic and leaves the transaction as it was. *)
Lemma C4_insert_absent_not_fatal :
  Txn_Insert 1 (hashref_txn absent_storage) [x01] [xaa] hashref_heap
  = Done (hashref_txn absent_storage, hashref_heap)
  ∧ Txn_Insert 1 (hashref_txn absent_storage) [x01] [xaa] hashref_heap ≠ Panic.
Proof. split; [reflexivity|discriminate]. Qed.

Lemma GetNode_absent buf st h :
  st (default [] buf) = GetAbsent → GetNode buf st h = Done (None, h).
Proof. unfold GetNode. by intros ->. Qed.

Lemma GetNode_fault {A} buf st (k : option (option nat) → M A) h :
  st (default [] buf) = GetFault → bind (GetNode buf st) k h = Panic.
Proof. unfold GetNode, bind. by intros ->. Qed.

(** C4 (amended).  At a hash-reference Value node whose hash the store
    reports absent, [lookup] returns nil, [delete] returns "not changed"
    (also where it resolves the last child of a collapsing Full node), and
    [insert] returns nil as well: none of them panics, and on a trie whose
    root is that reference [Txn.Lookup] returns nil while [Txn.Delete] and
    [Txn.Insert] leave the transaction as it was.  When the store reports a
    fault, all of them panic. *)
Theorem C4_absent_hash_and_fault
    (fuel : nat) (t : Txn) (p : nat) (h : list cell) (buf : option (list byte))
    (s key value : list byte) :
  h !! p = Some (ValueNode true buf) →
  (storage t (default [] buf) = GetAbsent →
     lookup (S fuel) t (Some p) s h = Done (None, h)
     ∧ delete (S fuel) t (Some p) s h = Done ((None, false), h)
     ∧ insert (S fuel) t (Some p) s value h = Done (None, h)
     ∧ (∀ pf hs ep cs i,
          h !! pf = Some (FullNode hs ep None cs) → count_some cs = 1%nat →
          cs !! i = Some (Some p) →
          collapseFull t pf h = Done ((None, false), h))
     ∧ (root t = Some p →
          Txn_Lookup (S fuel) t key h = Done (None, h)
          ∧ Txn_Delete (S fuel) t key h = Done (t, h)
          ∧ Txn_Insert (S fuel) t key value h = Done (t, h)))
  ∧ (storage t (default [] buf) = GetFault →
     lookup (S fuel) t (Some p) s h = Panic
     ∧ delete (S fuel) t (Some p) s h = Panic
     ∧ insert (S fuel) t (Some p) s value h = Panic
     ∧ (∀ pf hs ep cs i,
          h !! pf = Some (FullNode hs ep None cs) → count_some cs = 1%nat →
          cs !! i = Some (Some p) →
          collapseFull t pf h = Panic)
     ∧ (root t = Some p →
          Txn_Lookup (S fuel) t key h = Panic
          ∧ Txn_Delete (S fuel) t key h = Panic
          ∧ Txn_Insert (S fuel) t key value h = Panic)).
Proof.
  intros Hp.
  assert (Hl : ∀ s0, lookup (S fuel) t (Some p) s0 h =
    (let* r := GetNode buf (storage t) in
     match r with None => ret None | Some nc => lookup fuel t nc s0 end) h).
  { intros s0. cbn [lookup]. by rewrite (bind_step _ _ _ _ _ (load_ok _ _ _ Hp)). }
  assert (Hd : ∀ s0, delete (S fuel) t (Some p) s0 h =
    (let* r := GetNode buf (storage t) in
     match r with None => ret (None, false) | Some nc => delete fuel t nc s0 end) h).
  { intros s0. cbn [delete]. by rewrite (bind_step _ _ _ _ _ (load_ok _ _ _ Hp)). }
  assert (Hi : ∀ s0, insert (S fuel) t (Some p) s0 value h =
    (let* r := GetNode buf (storage t) in
     match r with None => ret None | Some nc => insert fuel t nc s0 value end) h).
  { intros s0. cbn [insert]. by rewrite (bind_step _ _ _ _ _ (load_ok _ _ _ Hp)). }
  split.
  - intros Habs. pose proof (GetNode_absent buf (storage t) h Habs) as Hg.
    assert (H1 : ∀ s0, lookup (S fuel) t (Some p) s0 h = Done (None, h))
      by (intros; by rewrite Hl, (bind_step _ _ _ _ _ Hg)).
    assert (H2 : ∀ s0, delete (S fuel) t (Some p) s0 h = Done ((None, false), h))
      by (intros; by rewrite Hd, (bind_step _ _ _ _ _ Hg)).
    assert (H3 : ∀ s0, insert (S fuel) t (Some p) s0 value h = Done (None, h))
      by (intros; by rewrite Hi, (bind_step _ _ _ _ _ Hg)).
    split; [apply H1|]. split; [apply H2|]. split; [apply H3|]. split.
    + intros pf hs ep cs i Hpf Hc Hci.
      rewrite (collapse_single_child _ _ _ _ _ _ _ _ Hpf Hc Hci).
      unfold bind at 1. rewrite (bind_step _ _ _ _ _ (load_ok _ _ _ Hp)).
      by rewrite Hg.
    + intros Hroot. unfold Txn_Lookup, Txn_Delete, Txn_Insert.
      rewrite Hroot. split; [apply H1|]. split.
      * by rewrite (bind_step _ _ _ _ _ (H2 _)).
      * by rewrite (bind_step _ _ _ _ _ (H3 _)).
  - intros Hf.
    assert (H1 : ∀ s0, lookup (S fuel) t (Some p) s0 h = Panic)
      by (intros; by rewrite Hl, GetNode_fault).
    assert (H2 : ∀ s0, delete (S fuel) t (Some p) s0 h = Panic)
      by (intros; by rewrite Hd, GetNode_fault).
    assert (H3 : ∀ s0, insert (S fuel) t (Some p) s0 value h = Panic)
      by (intros; by rewrite Hi, GetNode_fault).
    split; [apply H1|]. split; [apply H2|]. split; [apply H3|]. split.
    + intros pf hs ep cs i Hpf Hc Hci.
      rewrite (collapse_single_child _ _ _ _ _ _ _ _ Hpf Hc Hci).
      unfold bind at 1. rewrite (bind_step _ _ _ _ _ (load_ok _ _ _ Hp)).
      unfold GetNode. by rewrite Hf.
    + intros Hroot. unfold Txn_Lookup, Txn_Delete, Txn_Insert.
      rewrite Hroot. split; [apply H1|]. split.
      * unfold bind. by rewrite H2.
      * unfold bind. by rewrite H3.
Qed.

Lemma C4_absent_hash_and_fault_witness :
  hashref_heap !! 0%nat = Some (ValueNode true (Some [x01; x02]))
  ∧ storage (hashref_txn absent_storage) (default [] (Some [x01; x02])) = GetAbsent
  ∧ storage (hashref_txn nil_storage) (default [] (Some [x01; x02])) = GetFault
  ∧ root (hashref_txn absent_storage) = Some 0%nat
  ∧ Txn_Lookup 1 (hashref_txn absent_storage) [x01] hashref_heap
    = Done (None, hashref_heap)
  ∧ Txn_Delete 1 (hashref_txn absent_storage) [x01] hashref_heap
    = Done (hashref_txn absent_storage, hashref_heap)
  ∧ Txn_Insert 1 (hashref_txn absent_storage) [x01] [xaa] hashref_heap
    = Done (hashref_txn absent_storage, hashref_heap)
  ∧ Txn_Lookup 1 (hashref_txn nil_storage) [x01] hashref_heap = Panic
  ∧ Txn_Delete 1 (hashref_txn nil_storage) [x01] hashref_heap = Panic
  ∧ Txn_Insert 1 (hashref_txn nil_storage) [x01] [xaa] hashref_heap = Panic.
Proof.
  destruct (C4_absent_hash_and_fault 0 (hashref_txn absent_storage) 0 hashref_heap
              (Some [x01; x02]) [] [x01] [xaa] eq_refl) as [Habs _].
  destruct (C4_absent_hash_and_fault 0 (hashref_txn nil_storage) 0 hashref_heap
              (Some [x01; x02]) [] [x01] [xaa] eq_refl) as [_ Hfault].
  destruct (Habs eq_refl) as (_ & _ & _ & _ & Ha).
  destruct (Hfault eq_refl) as (_ & _ & _ & _ & Hf).
  destruct (Ha eq_refl) as (Ha1 & Ha2 & Ha3).
  destruct (Hf eq_refl) as (Hf1 & Hf2 & Hf3).
  repeat split; assumption || reflexivity.
Defined.

(** C10 ([Trie.Get]).  [Get] returns the result of the lookup of a fresh
    transaction together with the flag "the result is not nil": [(v, true)]
    exactly when the lookup returns a non-nil slice [v], [(nil, false)]
    exactly when it returns nil.  On a trie with a nil root it returns
    [(nil, false)] for every key, and a key inserted with the empty byte
    string as its value is reported as present, with the empty non-nil
    slice. *)
Theorem C10_Get_reports_presence
    (fuel : nat) (t : Trie) (k : list byte) (h : list cell) :
  (∀ r h', Txn_Lookup fuel (Trie_Txn t) k h = Done (r, h') →
           Trie_Get fuel t k h = Done ((r, bool_decide (r ≠ None)), h'))
  ∧ (∀ r b h', Trie_Get fuel t k h = Done ((r, b), h') →
               Txn_Lookup fuel (Trie_Txn t) k h = Done (r, h')
               ∧ (b = true ↔ ∃ v, r = Some v) ∧ (b = false ↔ r = None))
  ∧ (trie_root t = None → (1 ≤ fuel)%nat →
     Trie_Get fuel t k h = Done ((None, false), h))
  ∧ (∀ kvs t1 h1,
       trie_root t = None →
       (∀ k' v, (k', v) ∈ kvs → (2 * length k' + 5 ≤ fuel)%nat) →
       (2 * length k + 5 ≤ fuel)%nat →
       insert_all fuel (Trie_Txn t) (kvs ++ [(k, [])]) h = Done (t1, h1) →
       Trie_Get fuel (Txn_Commit t1) k h1 = Done ((Some [], true), h1)).
Proof.
  split; [|split; [|split]].
  - intros r h' Hl. unfold Trie_Get. by rewrite (bind_step _ _ _ _ _ Hl).
  - intros r b h' Hg. unfold Trie_Get in Hg.
    apply bind_Done in Hg as (r0 & h0 & Hl & Hret). inversion Hret; subst.
    split; [done|]. destruct r as [v|].
    + rewrite bool_decide_eq_true_2 by done.
      split; split; try done. intros _. by exists v.
    + rewrite bool_decide_eq_false_2 by (intros H; by apply H).
      split; split; try done. intros [v ?]. done.
  - intros Hroot Hf. unfold Trie_Get, Txn_Lookup. simpl. rewrite Hroot.
    destruct fuel as [|fuel]; [lia|]. done.
  - intros kvs t1 h1 Hroot Hfk Hf Hrun.
    destruct (insert_all_holds fuel (kvs ++ [(k, [])]) (Trie_Txn t) h ∅)
      as (t' & h' & Hrun' & Hholds).
    { by apply txn_holds_empty. }
    { intros k' v Hin. apply elem_of_app in Hin as [Hin|Hin]; [by eapply Hfk|].
      apply list_elem_of_singleton in Hin. by inversion Hin; subst. }
    rewrite Hrun in Hrun'. inversion Hrun'; subst t' h'.
    rewrite foldl_app in Hholds. simpl in Hholds.
    assert (Hholds' : txn_holds h1 (Trie_Txn (Txn_Commit t1))
              (<[k:=[]]> (foldl (λ m kv, <[kv.1:=kv.2]> m) ∅ kvs))).
    { destruct Hholds as (tr & F & Ho & Hrest). by exists tr, F. }
    unfold Trie_Get.
    rewrite (bind_step _ _ _ _ _
               (Txn_Lookup_holds fuel _ h1 _ k Hholds' ltac:(lia))).
    by rewrite lookup_insert_eq.
Qed.

Lemma C10_Get_reports_presence_witness :
  trie_root NewTrie = None
  ∧ (1 ≤ 7)%nat
  ∧ Trie_Get 7 NewTrie [x01] [] = Done ((None, false), [])
  ∧ ∃ t1 h1,
      insert_all 7 (Trie_Txn NewTrie) ([] ++ [([x01], [])]) [] = Done (t1, h1)
      ∧ Trie_Get 7 (Txn_Commit t1) [x01] h1 = Done ((Some [], true), h1).
Proof.
  destruct (C10_Get_reports_presence 7 NewTrie [x01] []) as (_ & _ & Hnil & Hempty).
  assert (H1 : trie_root NewTrie = None) by reflexivity.
  assert (H2 : (1 ≤ 7)%nat) by lia.
  split; [exact H1|]. split; [exact H2|]. split; [exact (Hnil H1 H2)|].
  eexists _, _. split; [vm_compute; reflexivity|].
  apply (Hempty []); [exact H1| |simpl; lia|vm_compute; reflexivity].
  intros k' v Hin. by apply elem_of_nil in Hin.
Defined.

(** C7, the claim as stated fails at the largest epoch: the transaction's
    epoch wraps around to 0. *)
Lemma C7_epoch_wraps :
  epoch (Trie_Txn trie_max_epoch) = 0
  ∧ ¬ (trie_epoch trie_max_epoch < epoch (Trie_Txn trie_max_epoch)).
Proof. split; [reflexivity|]. vm_compute. intros H. discriminate H. Qed.

(** C7 (amended).  The epoch of a transaction is the trie's epoch plus one
    in [uint32] arithmetic, strictly greater unless the trie's epoch is the
    largest [uint32].  [writeNode] on a Full node returns the node itself,
    with the heap untouched, when the epochs are equal; otherwise it returns
    a fresh node (a pointer that was not allocated before) holding the same
    value slot and the same sixteen child slots, the transaction's epoch and
    an empty hash, and the original is untouched. *)
Theorem C7_epoch_and_writeNode
    (tr : Trie) (t : Txn) (h : list cell) (p : nat)
    (hs : list byte) (ep : Z) (v : option nat) (cs : list (option nat)) :
  epoch (Trie_Txn tr) = (trie_epoch tr + 1) mod 2 ^ 32
  ∧ (0 ≤ trie_epoch tr < 2 ^ 32 - 1 → trie_epoch tr < epoch (Trie_Txn tr))
  ∧ (h !! p = Some (FullNode hs ep v cs) →
     (epoch t = ep → writeNode t p h = Done (p, h))
     ∧ (epoch t ≠ ep →
        writeNode t p h = Done (length h, h ++ [FullNode [] (epoch t) v cs])
        ∧ h !! length h = None
        ∧ (h ++ [FullNode [] (epoch t) v cs]) !! p = Some (FullNode hs ep v cs)
        ∧ (h ++ [FullNode [] (epoch t) v cs]) !! length h
          = Some (FullNode [] (epoch t) v cs))).
Proof.
  split; [reflexivity|]. split.
  - intros Hr. simpl. unfold uint32. rewrite Z.mod_small; lia.
  - intros Hp. rewrite (writeNode_ok _ _ _ _ _ _ _ Hp). split.
    + intros E. by rewrite decide_True.
    + intros E. rewrite decide_False by done. split; [done|].
      split; [by apply lookup_ge_None_2|].
      split; [by apply lookup_app_l_Some|apply lookup_alloc].
Qed.

Lemma C7_epoch_and_writeNode_witness :
  (0 ≤ trie_epoch NewTrie < 2 ^ 32 - 1)
  ∧ [FullNode [] 0 None (replicate 16 None)] !! 0%nat
    = Some (FullNode [] 0 None (replicate 16 None))
  ∧ epoch (Trie_Txn NewTrie) ≠ 0
  ∧ trie_epoch NewTrie < epoch (Trie_Txn NewTrie)
  ∧ writeNode (Trie_Txn NewTrie) 0 [FullNode [] 0 None (replicate 16 None)]
    = Done (1%nat, [FullNode [] 0 None (replicate 16 None);
                    FullNode [] 1 None (replicate 16 None)]).
Proof.
  assert (H1 : 0 ≤ trie_epoch NewTrie < 2 ^ 32 - 1) by (simpl; lia).
  assert (H2 : [FullNode [] 0 None (replicate 16 None)] !! 0%nat
               = Some (FullNode [] 0 None (replicate 16 None))) by reflexivity.
  assert (H3 : epoch (Trie_Txn NewTrie) ≠ 0) by (vm_compute; discriminate).
  destruct (C7_epoch_and_writeNode NewTrie (Trie_Txn NewTrie)
              [FullNode [] 0 None (replicate 16 None)] 0 [] 0 None
              (replicate 16 None)) as (_ & Hgt & Hw).
  destruct (Hw H2) as (_ & Hclone).
  destruct (Hclone H3) as (Hrun & _).
  repeat split; try done; try (by apply Hgt).
Defined.

(** *** Lookup reads only *)

Lemma dnode_ind' (P : dnode → Prop) :
  P DNil →
  (∀ b buf, P (DValue b buf)) →
  (∀ hs k c, P c → P (DShort hs k c)) →
  (∀ hs ep v cs, P v → Forall P cs → P (DFull hs ep v cs)) →
  ∀ n, P n.
Proof.
  intros HN HV HS HF. fix IH 1. intros [|b buf|hs k c|hs ep v cs].
  - exact HN.
  - apply HV.
  - apply HS, IH.
  - apply HF; [apply IH|].
    induction cs as [|c cs IHcs]; constructor; [apply IH|exact IHcs].
Qed.

Lemma reprD_full_iff h hs ep v cs q :
  reprD h (DFull hs ep v cs) q ↔
  ∃ p pv pcs,
    q = Some p ∧ h !! p = Some (FullNode hs ep pv (resize 16 None pcs))
    ∧ reprD h v pv ∧ Forall2 (reprD h) cs pcs.
Proof.
  assert (Hl : ∀ cs pcs,
    (fix reprs (cs : list dnode) (pcs : list (option nat)) : Prop :=
       match cs, pcs with
       | [], [] => True
       | c :: cs', pc :: pcs' => reprD h c pc ∧ reprs cs' pcs'
       | _, _ => False
       end) cs pcs ↔ Forall2 (reprD h) cs pcs).
  { induction cs0 as [|c cs0 IH]; intros [|pc pcs].
    - split; [constructor|done].
    - split; [done|inversion 1].
    - split; [done|inversion 1].
    - split.
      + intros [H1 H2]. constructor; [done|by apply IH].
      + inversion 1; subst. split; [done|by apply IH]. }
  cbn [reprD]. split.
  - intros (p & pv & pcs & H1 & H2 & H3 & H4).
    exists p, pv, pcs. repeat split; try done. by apply Hl.
  - intros (p & pv & pcs & H1 & H2 & H3 & H4).
    exists p, pv, pcs. repeat split; try done. by apply Hl.
Qed.

Lemma reprD_mono nd : ∀ h ext q, reprD h nd q → reprD (h ++ ext) nd q.
Proof.
  induction nd as [|b buf|hs k c IH|hs ep v cs IHv IHcs] using dnode_ind';
    intros h ext q Hr.
  - done.
  - destruct Hr as (p & -> & Hp). exists p. split; [done|].
    by apply lookup_app_l_Some.
  - destruct Hr as (p & pc & -> & Hp & Hc). exists p, pc.
    split; [done|]. split; [by apply lookup_app_l_Some|by apply IH].
  - apply reprD_full_iff in Hr as (p & pv & pcs & -> & Hp & Hv & Hcs).
    apply reprD_full_iff. exists p, pv, pcs.
    split; [done|]. split; [by apply lookup_app_l_Some|].
    split; [by apply IHv|].
    clear Hp. induction Hcs as [|c pc cs pcs Hc Hrest IHrest]; [constructor|].
    inversion IHcs; subst. constructor; [by apply H1|by apply IHrest].
Qed.

Lemma alloc_node_repr nd : ∀ h,
  ∃ q ext, alloc_node nd h = Done (q, h ++ ext) ∧ reprD (h ++ ext) nd q.
Proof.
  induction nd as [|b buf|hs k c IH|hs ep v cs IHv IHcs] using dnode_ind';
    intros h.
  - exists None, []. rewrite app_nil_r. done.
  - exists (Some (length h)), [ValueNode b buf]. split; [done|].
    exists (length h). split; [done|apply lookup_alloc].
  - destruct (IH h) as (pc & ext & Ha & Hr).
    exists (Some (length (h ++ ext))), (ext ++ [ShortNode hs k pc]).
    split.
    { cbn [alloc_node]. rewrite (bind_step _ _ _ _ _ Ha).
      unfold bind, alloc, ret. by rewrite app_assoc. }
    exists (length (h ++ ext)), pc. split; [done|].
    rewrite app_assoc. split; [apply lookup_alloc|by apply reprD_mono].
  - destruct (IHv h) as (pv & ext1 & Hav & Hrv).
    assert (Hlist : ∀ h0, ∃ pcs ext,
      (fix go (cs : list dnode) : M (list (option nat)) :=
         match cs with
         | [] => ret []
         | c :: cs' =>
             let* pc := alloc_node c in
             let* r := go cs' in
             ret (pc :: r)
         end) cs h0 = Done (pcs, h0 ++ ext)
      ∧ Forall2 (reprD (h0 ++ ext)) cs pcs).
    { clear Hav Hrv. induction cs as [|c cs IHl]; intros h0.
      - exists [], []. rewrite app_nil_r. split; [done|constructor].
      - inversion IHcs; subst.
        destruct (H1 h0) as (pc & e1 & Ha1 & Hr1).
        destruct (IHl H2 (h0 ++ e1)) as (pcs & e2 & Ha2 & Hr2).
        exists (pc :: pcs), (e1 ++ e2). split.
        + rewrite (bind_step _ _ _ _ _ Ha1), (bind_step _ _ _ _ _ Ha2).
          unfold ret. by rewrite app_assoc.
        + rewrite app_assoc. constructor; [by apply reprD_mono|done]. }
    destruct (Hlist (h ++ ext1)) as (pcs & ext2 & Hal & Hrl).
    exists (Some (length ((h ++ ext1) ++ ext2))),
      (ext1 ++ ext2 ++ [FullNode hs ep pv (resize 16 None pcs)]).
    split.
    { cbn [alloc_node]. rewrite (bind_step _ _ _ _ _ Hav).
      rewrite (bind_step _ _ _ _ _ Hal).
      unfold bind, alloc, ret. by rewrite <- !app_assoc. }
    apply reprD_full_iff. exists (length ((h ++ ext1) ++ ext2)), pv, pcs.
    split; [done|].
    replace (h ++ ext1 ++ ext2 ++ [FullNode hs ep pv (resize 16 None pcs)])
      with (((h ++ ext1) ++ ext2) ++ [FullNode hs ep pv (resize 16 None pcs)])
      by (by rewrite <- !app_assoc).
    split; [apply lookup_alloc|]. split.
    + rewrite <- app_assoc. by apply reprD_mono.
    + eapply Forall2_impl; [done|]. intros. by apply reprD_mono.
Qed.

Lemma lookup_reprD fuel : ∀ t nd h q key,
  reprD h nd q →
  lookup_agrees h (lookupD fuel (storage t) nd key) (lookup fuel t q key h).
Proof.
  induction fuel as [|fuel IH]; intros t nd h q key Hr; [done|].
  cbn [lookup lookupD].
  destruct nd as [|b buf|hs k c|hs ep v cs].
  - simpl in Hr. subst. exists []. by rewrite app_nil_r.
  - destruct Hr as (p & -> & Hp).
    rewrite (bind_step _ _ _ _ _ (load_ok _ _ _ Hp)).
    destruct b.
    + unfold GetNode. destruct (storage t (default [] buf)) as [| |nd2] eqn:Est.
      * done.
      * exists []. by rewrite app_nil_r.
      * destruct (alloc_node_repr nd2 h) as (q2 & ext & Ha & Hr2).
        unfold bind at 1. rewrite (bind_step _ _ _ _ _ Ha).
        unfold ret. cbv beta iota.
        specialize (IH t nd2 (h ++ ext) q2 key Hr2).
        destruct (lookupD fuel (storage t) nd2 key); simpl in *; try done.
        destruct IH as (ext' & ->). exists (ext ++ ext'). by rewrite app_assoc.
    + exists []. rewrite app_nil_r. by destruct (bool_decide _).
  - destruct Hr as (p & pc & -> & Hp & Hc).
    rewrite (bind_step _ _ _ _ _ (load_ok _ _ _ Hp)).
    destruct (bool_decide (length key < length k)%nat
              || negb (bytes_Equal (take (length k) key) k)).
    + exists []. by rewrite app_nil_r.
    + by apply IH.
  - apply reprD_full_iff in Hr as (p & pv & pcs & -> & Hp & Hv & Hcs).
    rewrite (bind_step _ _ _ _ _ (load_ok _ _ _ Hp)).
    destruct key as [|k0 rest]; [by apply IH|].
    destruct (Byte.eqb k0 x10) eqn:Ek.
    + apply eqb_terminator in Ek. subst k0.
      rewrite (bind_step _ _ _ _ _ (getEdge_value _ _ _ _ _ _ Hp)).
      by apply IH.
    + assert (Forall2 (reprD h) (resize 16 DNil cs) (resize 16 None pcs)) as Hcs'
        by (by apply Forall2_resize).
      destruct (resize 16 DNil cs !! Byte.to_nat k0) as [e|] eqn:He.
      * destruct (Forall2_lookup_l _ _ _ _ _ Hcs' He) as (pe & Hpe & Hre).
        rewrite (bind_step _ _ _ _ _ (getEdge_child _ _ _ _ _ _ _ _ Hp Ek Hpe)).
        by apply IH.
      * assert (resize 16 None pcs !! Byte.to_nat k0 = None) as Hn.
        { apply lookup_ge_None. apply lookup_ge_None in He.
          by rewrite <- (Forall2_length _ _ _ Hcs'). }
        unfold getEdge. unfold bind at 1.
        rewrite (bind_step _ _ _ _ _ (load_ok _ _ _ Hp)).
        rewrite Ek. unfold lift, slot. by rewrite Hn.
Qed.

Lemma lookup_extends fuel : ∀ t n key h r h',
  lookup fuel t n key h = Done (r, h') → ∃ ext, h' = h ++ ext.
Proof.
  induction fuel as [|fuel IH]; intros t n key h r h' Hl; [done|].
  cbn [lookup] in Hl. destruct n as [p|].
  2:{ inversion Hl; subst. exists []. by rewrite app_nil_r. }
  apply bind_Done in Hl as (c & h0 & Hload & Hl).
  apply load_Done in Hload as [Hp ->].
  destruct c as [[|] buf|hs k c|hs ep v cs].
  - apply bind_Done in Hl as (r0 & h1 & Hg & Hl).
    unfold GetNode in Hg. destruct (storage t (default [] buf)) as [| |nd] eqn:Est.
    + done.
    + inversion Hg; subst. inversion Hl; subst. exists []. by rewrite app_nil_r.
    + destruct (alloc_node_repr nd h) as (q & ext & Ha & _).
      rewrite (bind_step _ _ _ _ _ Ha) in Hg. inversion Hg; subst.
      apply IH in Hl as (ext' & ->). exists (ext ++ ext'). by rewrite app_assoc.
  - exists []. rewrite app_nil_r. by destruct (bool_decide _); inversion Hl.
  - destruct (bool_decide (length key < length k)%nat
              || negb (bytes_Equal (take (length k) key) k)).
    + inversion Hl; subst. exists []. by rewrite app_nil_r.
    + by eapply IH.
  - destruct key as [|k0 rest]; [by eapply IH|].
    apply bind_Done in Hl as (e & h1 & Hg & Hl).
    unfold getEdge in Hg. rewrite (bind_step _ _ _ _ _ (load_ok _ _ _ Hp)) in Hg.
    assert (h1 = h) as ->.
    { destruct (Byte.eqb k0 x10); [by inversion Hg|].
      unfold lift, slot in Hg. destruct (cs !! Byte.to_nat k0); by inversion Hg. }
    by eapply IH.
Qed.

Lemma lookup_stable fuel : ∀ t n key h r h' ext,
  lookup fuel t n key h = Done (r, h') →
  ∃ h'', lookup fuel t n key (h ++ ext) = Done (r, h'').
Proof.
  induction fuel as [|fuel IH]; intros t n key h r h' ext Hl; [done|].
  cbn [lookup] in Hl |- *. destruct n as [p|].
  2:{ inversion Hl; subst. by eexists. }
  apply bind_Done in Hl as (c & h0 & Hload & Hl).
  apply load_Done in Hload as [Hp ->].
  pose proof (lookup_app_l_Some _ ext _ _ Hp) as Hp'.
  rewrite (bind_step _ _ _ _ _ (load_ok _ _ _ Hp')).
  destruct c as [[|] buf|hs k c|hs ep v cs].
  - apply bind_Done in Hl as (r0 & h1 & Hg & Hl).
    unfold GetNode in Hg |- *.
    destruct (storage t (default [] buf)) as [| |nd] eqn:Est.
    + done.
    + inversion Hg; subst. inversion Hl; subst. by eexists.
    + destruct (alloc_node_repr nd h) as (q & e1 & Ha & Hr).
      rewrite (bind_step _ _ _ _ _ Ha) in Hg. inversion Hg; subst.
      destruct (alloc_node_repr nd (h ++ ext)) as (q' & e2 & Ha' & Hr').
      unfold bind at 1. rewrite (bind_step _ _ _ _ _ Ha').
      unfold ret. cbv beta iota.
      pose proof (lookup_reprD fuel t nd _ _ key Hr) as H1.
      pose proof (lookup_reprD fuel t nd _ _ key Hr') as H2.
      rewrite Hl in H1.
      destruct (lookupD fuel (storage t) nd key) as [x| |]; simpl in *.
      * destruct H1 as (e & H1). inversion H1; subst.
        destruct H2 as (e' & ->). by eexists.
      * done.
      * done.
  - destruct (bool_decide (length key = 0%nat)); inversion Hl; subst; by eexists.
  - destruct (bool_decide (length key < length k)%nat
              || negb (bytes_Equal (take (length k) key) k)).
    + inversion Hl; subst. by eexists.
    + by eapply IH.
  - destruct key as [|k0 rest]; [by eapply IH|].
    apply bind_Done in Hl as (e & h1 & Hg & Hl).
    unfold getEdge in Hg |- *.
    rewrite (bind_step _ _ _ _ _ (load_ok _ _ _ Hp)) in Hg.
    unfold bind at 1. rewrite (bind_step _ _ _ _ _ (load_ok _ _ _ Hp')).
    destruct (Byte.eqb k0 x10).
    + inversion Hg; subst. unfold ret. by eapply IH.
    + unfold lift, slot in Hg |- *.
      destruct (cs !! Byte.to_nat k0); inversion Hg; subst. by eapply IH.
Qed.

(** C9 (lookup is a pure read).  The transaction is a value that a lookup
    does not return, so its root is the same afterwards.  A [Txn.Lookup]
    that returns leaves every struct of the heap exactly as it was: the
    heap afterwards is the heap before followed by fresh structs only (the
    copies of resolved nodes, which no older struct points to), so a
    resolved node is never spliced into its parent.  The same lookup, and
    any lookup of another key or from another node, returns the same
    result after it as before it. *)
Theorem C9_lookup_reads_only
    (fuel : nat) (t : Txn) (key : list byte)
    (h : list cell) (r : option (list byte)) (h' : list cell) :
  Txn_Lookup fuel t key h = Done (r, h') →
  (∃ ext, h' = h ++ ext)
  ∧ (∀ p c, h !! p = Some c → h' !! p = Some c)
  ∧ (∃ h3, Txn_Lookup fuel t key h' = Done (r, h3))
  ∧ (∀ key2 r2 h2,
       Txn_Lookup fuel t key2 h = Done (r2, h2) →
       ∃ h3, Txn_Lookup fuel t key2 h' = Done (r2, h3))
  ∧ (∀ fuel2 n2 nibbles r2 h2,
       lookup fuel2 t n2 nibbles h = Done (r2, h2) →
       ∃ h3, lookup fuel2 t n2 nibbles h' = Done (r2, h3)).
Proof.
  unfold Txn_Lookup. intros Hl.
  destruct (lookup_extends _ _ _ _ _ _ _ Hl) as (ext & ->).
  split; [by exists ext|]. split; [|split; [|split]].
  - intros p c Hp. by apply lookup_app_l_Some.
  - by eapply lookup_stable.
  - intros key2 r2 h2 Hl2. by eapply lookup_stable.
  - intros fuel2 n2 nibbles r2 h2 Hl2. by eapply lookup_stable.
Qed.

Lemma C9_lookup_reads_only_witness :
  Txn_Lookup 4 (hashref_txn leaf_storage) [x01] hashref_heap
    = Done (Some [xaa],
            hashref_heap ++ [ValueNode false (Some [xaa]);
                             ShortNode [] [x00; x01; x10] (Some 1%nat)])
  ∧ ∃ h3, Txn_Lookup 4 (hashref_txn leaf_storage) [x01]
            (hashref_heap ++ [ValueNode false (Some [xaa]);
                              ShortNode [] [x00; x01; x10] (Some 1%nat)])
          = Done (Some [xaa], h3).
Proof.
  split; [reflexivity|].
  exact (proj1 (proj2 (proj2
    (C9_lookup_reads_only 4 (hashref_txn leaf_storage) [x01] hashref_heap
       (Some [xaa]) _ eq_refl)))).
Defined.

(** *** The two-level commit *)

Section commit.
Context `{Externals}.

Lemma Txn_Insert_batch fuel t k v h t' h' :
  Txn_Insert fuel t k v h = Done (t', h') → batch t' = batch t.
Proof.
  unfold Txn_Insert. intros Hi.
  apply bind_Done in Hi as (r & h1 & _ & Hi).
  destruct r; inversion Hi; by subst.
Qed.

Lemma Txn_Delete_batch fuel t k h t' h' :
  Txn_Delete fuel t k h = Done (t', h') → batch t' = batch t.
Proof.
  unfold Txn_Delete. intros Hd.
  apply bind_Done in Hd as ([r ok] & h1 & _ & Hd).
  destruct ok; inversion Hd; by subst.
Qed.

Lemma run_ops_batch fuel ops : ∀ t h t' h',
  run_ops fuel t ops h = Done (t', h') → batch t' = batch t.
Proof.
  induction ops as [|[k v|k] ops IH]; intros t h t' h' Hr; cbn [run_ops] in Hr.
  - by inversion Hr.
  - apply bind_Done in Hr as (t1 & h1 & H1 & Hr).
    rewrite (IH _ _ _ _ Hr). by eapply Txn_Insert_batch.
  - apply bind_Done in Hr as (t1 & h1 & H1 & Hr).
    rewrite (IH _ _ _ _ Hr). by eapply Txn_Delete_batch.
Qed.

Lemma bindW_Done {A B} (m : W A) (k : A → W B) w h r :
  bindW m k w h = Done r ↔
  ∃ a w1 h1, m w h = Done ((a, w1), h1) ∧ k a w1 h1 = Done r.
Proof.
  unfold bindW, bind. split.
  - destruct (m w h) as [[[a w1] h1]| |]; [|done..].
    intros Hk. by exists a, w1, h1.
  - intros (a & w1 & h1 & -> & Hk). done.
Qed.

Lemma liftW_Done {A} (m : M A) w h a w1 h1 :
  liftW m w h = Done ((a, w1), h1) ↔ m h = Done (a, h1) ∧ w1 = w.
Proof.
  unfold liftW, bind, ret. split.
  - destruct (m h) as [[a0 h0]| |]; [|done..]. by inversion 1.
  - by intros [-> ->].
Qed.

(** Running [m] and then [k], at a state. *)
Lemma bindW_step {A B} (m : W A) (k : A → W B) w h a w1 h1 :
  m w h = Done ((a, w1), h1) → bindW m k w h = k a w1 h1.
Proof. unfold bindW, bind. by intros ->. Qed.

Lemma bindW_ext {A B} (m : W A) (k1 k2 : A → W B) w h :
  (∀ a w1 h1, k1 a w1 h1 = k2 a w1 h1) → bindW m k1 w h = bindW m k2 w h.
Proof.
  intros Hk. unfold bindW, bind.
  destruct (m w h) as [[[a w1] h1]| |]; [apply Hk|done..].
Qed.

Lemma bindW_assoc {A B C} (m : W A) (k : A → W B) (k' : B → W C) w h :
  bindW (bindW m k) k' w h = bindW m (λ a, bindW (k a) k') w h.
Proof.
  unfold bindW, bind. by destruct (m w h) as [[[a w1] h1]| |].
Qed.

Lemma bindW_retW {A B} (a : A) (k : A → W B) w h :
  bindW (retW a) k w h = k a w h.
Proof. done. Qed.

Lemma bindW_liftW_bind {A B C} (m : M A) (k : A → M B) (k' : B → W C) w h :
  bindW (liftW (bind m k)) k' w h
  = bindW (liftW m) (λ a, bindW (liftW (k a)) k') w h.
Proof.
  unfold bindW, liftW, bind, ret. by destruct (m h) as [[a h1]| |].
Qed.

(** The walk over the pending changes is the list of operations of the
    spec, run in order. *)
Lemma Walk_storage_change fuel changes : ∀ t w h,
  Walk (storage_change fuel) t changes w h
  = (let+ t' := liftW (run_ops fuel t (spec_storage_op <$> changes)) in
     retW (t', changes)) w h.
Proof.
  induction changes as [|[k v] changes IH]; intros t w h; [done|].
  cbn [Walk fmap list_fmap].
  destruct v as [v|]; cbn [storage_change spec_storage_op fst snd run_ops].
  - rewrite bindW_assoc, bindW_liftW_bind. apply bindW_ext.
    intros t1 w1 h1. rewrite bindW_retW. cbv beta iota.
    unfold bindW at 1. unfold bind at 1. rewrite IH.
    unfold bindW, liftW, bind, ret, retW.
    by destruct (run_ops fuel t1 _ h1) as [[t2 h2]| |].
  - rewrite bindW_assoc, bindW_liftW_bind. apply bindW_ext.
    intros t1 w1 h1. rewrite bindW_retW. cbv beta iota.
    unfold bindW at 1. unfold bind at 1. rewrite IH.
    unfold bindW, liftW, bind, ret, retW.
    by destruct (run_ops fuel t1 _ h1) as [[t2 h2]| |].
Qed.

Lemma bindW_ext_l {A B} (m1 m2 : W A) (k : A → W B) w h :
  m1 w h = m2 w h → bindW m1 k w h = bindW m2 k w h.
Proof. unfold bindW, bind. by intros ->. Qed.

Lemma storage_walk_spec fuel b a w h :
  match so_Txn a with
  | Some changes =>
      let localTxn := set_batch (Trie_Txn (acc_Trie (so_Account a))) b in
      let+ '(localTxn', _) := Walk (storage_change fuel) localTxn changes in
      let+ accountStateRoot := Txn_Hash localTxn' in
      let accountStateTrie := Txn_Commit localTxn' in
      let+ _ := emit (EvAddState (BytesToHash accountStateRoot) accountStateTrie) in
      retW (set_Root a (BytesToHash accountStateRoot))
  | None => retW a
  end w h
  = spec_storage fuel b a w h.
Proof.
  unfold spec_storage. destruct (so_Txn a) as [changes|]; [|done].
  cbv zeta. rewrite (bindW_ext_l _ _ _ _ _ (Walk_storage_change _ _ _ _ _)).
  rewrite bindW_assoc. apply bindW_ext. done.
Qed.

(** The callback of the outer walk does to an account what the spec says. *)
Lemma commit_entry_spec fuel b outer k a w h :
  commit_entry fuel b outer k (IsObject a) w h
  = (let+ '(outer', a') := spec_account fuel b outer k a in
     retW (false, outer', IsObject a')) w h.
Proof.
  unfold commit_entry, spec_account. destruct (Deleted a).
  - rewrite bindW_assoc. apply bindW_ext. done.
  - rewrite (bindW_ext_l _ _ _ _ _ (storage_walk_spec _ _ _ _ _)).
    rewrite bindW_assoc. apply bindW_ext. intros a1 w1 h1.
    rewrite bindW_assoc. apply bindW_ext. intros _ w2 h2.
    rewrite bindW_assoc. apply bindW_ext. done.
Qed.

Lemma Walk_commit_entry fuel b x : ∀ outer w h,
  Walk (commit_entry fuel b) outer x w h = spec_accounts fuel b outer x w h.
Proof.
  induction x as [|[k [a|]] x IH]; intros outer w h; cbn [Walk spec_accounts].
  - done.
  - rewrite (bindW_ext_l _ _ _ _ _ (commit_entry_spec _ _ _ _ _ _ _)).
    rewrite bindW_assoc. apply bindW_ext. intros [outer1 a'] w1 h1.
    rewrite bindW_retW. cbv beta iota. by apply bindW_ext_l.
  - cbn [commit_entry]. rewrite bindW_retW. cbv beta iota. by apply bindW_ext_l.
Qed.

(** *** What the accounts may do to the store *)

Lemma grows_refl b w : grows b w w.
Proof.
  split; [done|]. exists []. by rewrite app_nil_r.
Qed.

Lemma grows_trans b w1 w2 w3 : grows b w1 w2 → grows b w2 w3 → grows b w1 w3.
Proof.
  intros [Hn1 (e1 & Hl1 & Hf1)] [Hn2 (e2 & Hl2 & Hf2)].
  split; [congruence|]. exists (e1 ++ e2).
  split; [by rewrite Hl2, Hl1, app_assoc|by apply Forall_app].
Qed.

Lemma emit_grows b e w h r w' h' :
  on_batch b e → emit e w h = Done ((r, w'), h') → grows b w w'.
Proof.
  intros He Hr. inversion Hr; subst. split; [done|].
  exists [e]. split; [done|by constructor].
Qed.

Lemma Txn_Hash_Done t w h rh w' h' :
  Txn_Hash t w h = Done ((rh, w'), h') →
  ∃ puts, hash_nodes t h = Done ((rh, puts), h')
          ∧ next_batch w' = next_batch w
          ∧ log w' = log w ++ match batch t with
                              | Some b => EvPut b <$> puts
                              | None => []
                              end.
Proof.
  unfold Txn_Hash. intros Hh.
  apply bindW_Done in Hh as ([r puts] & w1 & h1 & Hl & Hh).
  apply liftW_Done in Hl as [Hn ->]. exists puts.
  destruct (batch t) as [b|]; inversion Hh; subst.
  - done.
  - by rewrite app_nil_r.
Qed.

Lemma Txn_Hash_grows b t w h rh w' h' :
  batch t = Some b → Txn_Hash t w h = Done ((rh, w'), h') → grows b w w'.
Proof.
  intros Hb Hh. apply Txn_Hash_Done in Hh as (puts & _ & Hn & Hl).
  rewrite Hb in Hl. split; [done|]. exists (EvPut b <$> puts).
  split; [done|]. apply Forall_fmap, Forall_forall. by intros ? _.
Qed.

Lemma spec_storage_grows fuel b a w h a' w' h' :
  spec_storage fuel b a w h = Done ((a', w'), h') → grows b w w'.
Proof.
  unfold spec_storage. destruct (so_Txn a) as [changes|].
  2:{ inversion 1. apply grows_refl. }
  intros Hs.
  apply bindW_Done in Hs as (sub & w1 & h1 & Hr & Hs).
  apply liftW_Done in Hr as [Hr ->].
  apply bindW_Done in Hs as (r & w2 & h2 & Hh & Hs).
  apply bindW_Done in Hs as (u & w3 & h3 & He & Hs).
  inversion Hs; subst.
  eapply grows_trans.
  - eapply (Txn_Hash_grows b sub); [|exact Hh].
    by rewrite (run_ops_batch _ _ _ _ _ _ Hr).
  - eapply emit_grows; [|exact He]. done.
Qed.

Lemma spec_account_grows fuel b outer k a w h outer' a' w' h' :
  spec_account fuel b outer k a w h = Done (((outer', a'), w'), h') →
  grows b w w' ∧ batch outer' = batch outer.
Proof.
  unfold spec_account. destruct (Deleted a).
  - intros Hs. apply bindW_Done in Hs as (o & w1 & h1 & Hd & Hs).
    apply liftW_Done in Hd as [Hd ->]. inversion Hs; subst.
    split; [apply grows_refl|by eapply Txn_Delete_batch].
  - intros Hs. apply bindW_Done in Hs as (a1 & w1 & h1 & Hst & Hs).
    apply bindW_Done in Hs as (u & w2 & h2 & Hc & Hs).
    apply bindW_Done in Hs as (o & w3 & h3 & Hi & Hs).
    apply liftW_Done in Hi as [Hi ->]. inversion Hs; subst.
    split; [|by eapply Txn_Insert_batch].
    eapply grows_trans; [by eapply spec_storage_grows|].
    destruct (DirtyCode a').
    + eapply emit_grows; [|exact Hc]. done.
    + inversion Hc. apply grows_refl.
Qed.

Lemma spec_accounts_grows fuel b x : ∀ outer w h outer' x' w' h',
  spec_accounts fuel b outer x w h = Done (((outer', x'), w'), h') →
  grows b w w' ∧ batch outer' = batch outer.
Proof.
  induction x as [|[k [a|]] x IH]; intros outer w h outer' x' w' h' Hs;
    cbn [spec_accounts] in Hs.
  - inversion Hs; subst. split; [apply grows_refl|done].
  - apply bindW_Done in Hs as ([o1 a1] & w1 & h1 & Ha & Hs).
    apply bindW_Done in Hs as ([o2 x2] & w2 & h2 & Hx & Hs).
    inversion Hs; subst.
    apply spec_account_grows in Ha as [Hg1 Hb1].
    apply IH in Hx as [Hg2 Hb2].
    split; [by eapply grows_trans|congruence].
  - apply bindW_Done in Hs as ([o2 x2] & w2 & h2 & Hx & Hs).
    inversion Hs; subst. by eapply IH.
Qed.

(** C8 (two-level commit).  When [Trie.Commit] returns, the change set was
    processed as section 4.G says, with the batch [b] that the commit
    opened: for an account marked deleted only the delete of
    [hashit(address)] from the outer transaction; for another account every
    pending storage change applied to a transaction on its sub-trie that
    holds the batch [b] (nil: delete; otherwise insert of the encoding of the
    value without its leading zeros), the hash of the sub-trie written into
    the record, and the encoding of (nonce, balance, root, code hash)
    inserted at [hashit(address)] ([spec_accounts]).  Until then nothing was
    flushed and every put went into [b]; then the outer root is computed,
    and after its puts comes the one flush of [b], followed only by the
    registration of the new trie. *)
Theorem C8_two_level_commit
    (fuel : nat) (t : Trie) (x : list (list byte * entry))
    (w : world) (h : list cell)
    (nTrie : Trie) (rh : list byte) (x' : list (list byte * entry))
    (w' : world) (h' : list cell) :
  Trie_Commit fuel t x w h = Done (((nTrie, rh, x'), w'), h') →
  let b := next_batch w in
  ∃ outer' w1 h1 puts evs,
    spec_accounts fuel b (set_batch (Trie_Txn t) b) x
                  (mkWorld (S b) (log w)) h
      = Done (((outer', x'), w1), h1)
    ∧ batch outer' = Some b
    ∧ log w1 = log w ++ evs ∧ Forall (on_batch b) evs
    ∧ hash_nodes outer' h1 = Done ((rh, puts), h')
    ∧ nTrie = mkTrie (root outer') (epoch outer') (trie_storage t)
    ∧ log w' = log w1 ++ (EvPut b <$> puts)
                      ++ [EvWrite b; EvAddState (BytesToHash rh) nTrie].
Proof.
  intros Hc b. unfold Trie_Commit in Hc.
  apply bindW_Done in Hc as (b0 & w0 & h0 & Hb & Hc).
  inversion Hb; subst b0 w0 h0. clear Hb. fold b in Hc.
  apply bindW_Done in Hc as ([outer' x1] & w1 & h1 & Hw & Hc).
  rewrite Walk_commit_entry in Hw.
  apply bindW_Done in Hc as (r & w2 & h2 & Hh & Hc).
  apply bindW_Done in Hc as (u1 & w3 & h3 & He1 & Hc).
  apply bindW_Done in Hc as (u2 & w4 & h4 & He2 & Hc).
  inversion He1; subst u1 w3 h3. inversion He2; subst u2 w4 h4.
  inversion Hc; subst. clear He1 He2 Hc.
  destruct (spec_accounts_grows _ _ _ _ _ _ _ _ _ _ Hw) as [[_ (evs & Hl & Hf)] Hbt].
  apply Txn_Hash_Done in Hh as (puts & Hn & _ & Hl2).
  rewrite Hbt in Hl2. cbn [set_batch batch] in Hl2, Hbt.
  exists outer', w1, h1, puts, evs.
  repeat split; try done.
  cbn [log]. rewrite Hl2. by rewrite <- !app_assoc.
Qed.
End commit.

Lemma C8_two_level_commit_witness :
  Trie_Commit (H:=sample_externals) 9 NewTrie sample_changes (mkWorld 0 []) []
    = Done (((sample_committed, [x03], sample_changes_after),
             sample_world_after), sample_heap_after)
  ∧ ∃ outer' w1 h1 puts evs,
      spec_accounts (H:=sample_externals) 9 0 (set_batch (Trie_Txn NewTrie) 0)
                    sample_changes (mkWorld 1 []) []
        = Done (((outer', sample_changes_after), w1), h1)
      ∧ batch outer' = Some 0%nat
      ∧ log w1 = [] ++ evs ∧ Forall (on_batch 0) evs
      ∧ hash_nodes (Externals:=sample_externals) outer' h1
          = Done (([x03], puts), sample_heap_after)
      ∧ sample_committed = mkTrie (root outer') (epoch outer') (trie_storage NewTrie)
      ∧ log sample_world_after
          = log w1 ++ (EvPut 0 <$> puts)
                   ++ [EvWrite 0; EvAddState [x03] sample_committed].
Proof.
  assert (Hrun :
    Trie_Commit (H:=sample_externals) 9 NewTrie sample_changes (mkWorld 0 []) []
    = Done (((sample_committed, [x03], sample_changes_after),
             sample_world_after), sample_heap_after))
    by (vm_compute; reflexivity).
  split; [exact Hrun|].
  exact (@C8_two_level_commit sample_externals 9 NewTrie sample_changes
           (mkWorld 0 []) [] _ _ _ _ _ Hrun).
Defined.

(** * Further properties *)

Lemma valued_full_iff v cs : valued (TFull v cs) ↔ valued v ∧ Forall valued cs.
Proof.
  cbn [valued]. apply and_iff_compat_l. induction cs as [|c cs IH].
  - split; [constructor|done].
  - split.
    + intros [H1 H2]. constructor; [done|by apply IH].
    + inversion 1; subst. split; [done|by apply IH].
Qed.

Lemma good_key_nonempty k c : good (TShort k c) → k ≠ [].
Proof.
  intros Hg. destruct (good_short_inv _ _ Hg) as [(buf & -> & Hk)|(v & cs & -> & Hk & _)].
  - by apply tkey_nonempty.
  - done.
Qed.

Lemma nib_byte_of_nat i : (i < 16)%nat → nib (byte_of_Z (Z.of_nat i)).
Proof. intros Hi. unfold nib. rewrite byte_of_Z_to_nat; lia. Qed.

Lemma nib_neq_terminator b : nib b → b ≠ x10.
Proof. intros Hb ->. vm_compute in Hb. lia. Qed.

(** A collapsed Full node answers every lookup as before. *)
Lemma lookupA_collapseA v cs tr' :
  length cs = 16%nat → (v = TNil ∨ ∃ buf, v = TValue buf) →
  Forall (λ c, c = TNil ∨ good c) cs →
  collapseA v cs = Some (tr', true) →
  ∀ s', tkey s' → lookupA tr' s' = lookupA (TFull v cs) s'.
Proof.
  intros Hlen Hv Hcs Heq s' Hs'. unfold collapseA in Heq.
  destruct (scanChildren (shape <$> cs) 0 (-1)) as [indx fl] eqn:Hscan.
  apply scan_index in Hscan; [|lia].
  rewrite Forall_lookup in Hcs.
  assert (Hchild : ∀ k0, nib k0 → ∃ c, cs !! Byte.to_nat k0 = Some c).
  { intros k0 Hk0. apply lookup_lt_is_Some_2. rewrite Hlen. exact Hk0. }
  destruct s' as [|k0 rest]; [by apply tkey_nonempty in Hs'|].
  destruct Hscan as [(-> & -> & Hall)|(i & q & -> & Hi & Hbefore & Hafter & Hsecond)].
  - assert (Hnil : ∀ j c, cs !! j = Some c → c = TNil).
    { intros j c Hc. apply shape_None. apply (Hall j).
      by rewrite shape_lookup, Hc. }
    destruct Hv as [->|[buf ->]]; simpl in Heq; inversion Heq; subst;
      apply tkey_cons in Hs' as [[-> ->]|[Hk0 Hrest]].
    + by rewrite lookupA_full_value.
    + destruct (Hchild _ Hk0) as [c Hc].
      rewrite (lookupA_full_child _ _ _ _ _ Hk0 Hc). by rewrite (Hnil _ _ Hc).
    + rewrite lookupA_full_value. by rewrite (lookupA_short_match [x10] _ []).
    + destruct (Hchild _ Hk0) as [c Hc].
      rewrite (lookupA_full_child _ _ _ _ _ Hk0 Hc), (Hnil _ _ Hc).
      apply lookupA_short_mismatch; [done|]. simpl.
      intros E. inversion E. subst. by apply nib_neq_terminator in Hk0.
  - rewrite shape_lookup in Hi.
    destruct (cs !! i) as [c|] eqn:Hc; [|done]. simpl in Hi.
    inversion Hi as [Hshape]. apply shape_Some in Hshape.
    assert (Hgc : good c) by (destruct (Hcs _ _ Hc) as [->|?]; done).
    assert (Hi16 : (i < 16)%nat) by (apply lookup_lt_Some in Hc; lia).
    rewrite bool_decide_eq_true_2 in Heq by lia.
    destruct fl; simpl in Heq; [by inversion Heq|].
    destruct Hv as [->|[buf ->]]; simpl in Heq; [|by inversion Heq].
    rewrite bool_decide_eq_false_2 in Heq by lia.
    replace (Z.to_nat (0 + Z.of_nat i)) with i in Heq by lia.
    rewrite Hc in Heq. rewrite Z.add_0_l in Heq.
    pose proof (nib_byte_of_nat i Hi16) as Hnib.
    assert (Hto : Byte.to_nat (byte_of_Z (Z.of_nat i)) = i)
      by (apply byte_of_Z_to_nat; lia).
    assert (Hothers : ∀ j c', j ≠ i → cs !! j = Some c' → c' = TNil).
    { intros j c' Hj Hc'. apply shape_None.
      destruct (decide (j < i)%nat).
      - apply (Hbefore j); [done|]. by rewrite shape_lookup, Hc'.
      - apply (Hafter eq_refl j); [lia|]. by rewrite shape_lookup, Hc'. }
    remember (byte_of_Z (Z.of_nat i)) as bi eqn:Hbi.
    assert (Hmis : ∀ key oc, k0 ≠ bi →
      lookupA (TShort (bi :: key) oc) (k0 :: rest) = Some None).
    { intros key oc Hne. apply lookupA_short_mismatch; [done|].
      simpl. intros E. by inversion E. }
    apply tkey_cons in Hs' as [[-> ->]|[Hk0 Hrest]].
    + rewrite lookupA_full_value. simpl.
      assert (x10 ≠ bi) by (intros E; rewrite <- E in Hnib; by apply nib_neq_terminator in Hnib).
      destruct c as [|buf|okey oc|cv ccs]; try (by inversion Hgc);
        inversion Heq; subst; by apply Hmis.
    + destruct (decide (k0 = bi)) as [E0|Hne]; [rewrite E0 in *; clear E0|].
      * rewrite (lookupA_full_child _ _ _ _ c Hk0) by (by rewrite Hto).
        destruct c as [|buf|okey oc|cv ccs]; try (by inversion Hgc);
          inversion Heq; subst.
        -- apply (lookupA_short_app [_] okey oc rest).
           by apply good_key_nonempty in Hgc.
        -- by apply (lookupA_short_match [_] _ rest).
      * destruct (Hchild _ Hk0) as [c' Hc'].
        rewrite (lookupA_full_child _ _ _ _ _ Hk0 Hc').
        assert (Byte.to_nat k0 ≠ i) as Hki.
        { intros E. apply Hne. apply to_nat_inj. by rewrite Hto. }
        rewrite (Hothers _ _ Hki Hc').
        destruct c as [|buf|okey oc|cv ccs]; try (by inversion Hgc);
          inversion Heq; subst; by apply Hmis.
Qed.

Lemma deleteA_short_inv k c s tr' :
  deleteA (TShort k c) s = Some (tr', true) →
  (prefixLen s k = length s ∧ tr' = TNil)
  ∨ (prefixLen s k ≠ length s ∧ prefixLen s k ≠ 0%nat
     ∧ ∃ c', deleteA c (drop (prefixLen s k) s) = Some (c', true)
          ∧ tr' = match c' with
                  | TNil => TNil
                  | TShort k2 c2 => TShort (concat k k2) c2
                  | _ => TShort k c'
                  end).
Proof.
  cbn [deleteA]. case_bd (prefixLen s k = length s) as E1.
  { intros [= <-]. by left. }
  case_bd (prefixLen s k = 0%nat) as E2; [done|].
  destruct (deleteA c (drop (prefixLen s k) s)) as [[c' ok]|]; [|done].
  destruct ok; simpl; [|done]. intros Heq. right.
  split; [done|]. split; [done|]. exists c'. split; [done|].
  destruct c'; by inversion Heq.
Qed.

(** A Short node over a subtree [c] that lost the path [s2]: the lookups
    of a tree [T] that agrees with [c] behind the key [k]. *)
Lemma lookupA_behind_key k c T s2 :
  k ≠ [] → Forall nib k →
  (∀ x, tkey x → lookupA T (k ++ x)
                 = if decide (x = s2) then Some None else lookupA c x) →
  (∀ s', tkey s' → take (length k) s' ≠ k → lookupA T s' = Some None) →
  ∀ s', tkey s' →
    lookupA T s' = if decide (s' = k ++ s2) then Some None
                   else lookupA (TShort k c) s'.
Proof.
  intros Hk Hnib Hin Hout s' Hs'.
  destruct (decide (take (length k) s' = k)) as [Ht|Ht].
  - pose proof (tkey_drop_nib _ _ Hnib Hs' Ht) as Hx.
    assert (Es : s' = k ++ drop (length k) s')
      by (by rewrite <- Ht at 1; rewrite take_drop).
    remember (drop (length k) s') as x eqn:Ex. clear Ex. subst s'.
    rewrite Hin by done. rewrite lookupA_short_match by done.
    destruct (decide (x = s2)) as [E|E].
    + by rewrite decide_True by (by rewrite E).
    + rewrite decide_False; [done|]. intros E'. by apply app_inv_head in E'.
  - rewrite Hout by done. rewrite lookupA_short_mismatch by done.
    destruct (decide (s' = k ++ s2)) as [E|E]; [|done]. done.
Qed.

Lemma tkey_no_nib_prefix s k :
  tkey s → Forall nib k → prefixLen s k ≠ length s.
Proof.
  intros Hs Hk E. apply prefixLen_full_l in E.
  apply (tkey_not_nib s Hs). rewrite <- E. by apply Forall_take.
Qed.

Lemma followed_short_ext k v cs s :
  followed (TShort k (TFull v cs)) s
  = k ++ followed (TFull v cs) (drop (prefixLen s k) s).
Proof. done. Qed.

Lemma followed_full_child v cs key rest c :
  nib key → cs !! Byte.to_nat key = Some c →
  followed (TFull v cs) (key :: rest) = key :: followed c rest.
Proof.
  intros Hk Hc. cbn [followed]. rewrite nib_not_terminator by done.
  by rewrite list_lookup_fmap, Hc.
Qed.

(** When [delete] reports a change, the tree has lost exactly the path
    [followed tr s]. *)
Lemma deleteA_removes tr :
  tr = TNil ∨ good tr → ∀ s tr', tkey s → deleteA tr s = Some (tr', true) →
  tkey (followed tr s)
  ∧ (length s ≤ length (followed tr s))%nat
  ∧ (length (followed tr s) = length s → followed tr s = s)
  ∧ (valued tr → ∃ v, lookupA tr (followed tr s) = Some (Some v))
  ∧ ∀ s', tkey s' →
      lookupA tr' s' = if decide (s' = followed tr s) then Some None
                       else lookupA tr s'.
Proof.
  induction tr as [|buf|k c IH|tv tcs _ IHcs] using tree_ind'; intros Hg s tr' Hs Hd.
  - done.
  - destruct Hg as [|Hg]; [done|inversion Hg].
  - destruct Hg as [|Hg]; [done|].
    pose proof (good_key_nonempty _ _ Hg) as Hkne.
    apply deleteA_short_inv in Hd.
    destruct (good_short_inv _ _ Hg)
      as [(buf & -> & Hk)|(tv & tcs & -> & _ & Hk & Hgf)].
    + assert (Hsk : prefixLen s k = length s ∧ tr' = TNil).
      { destruct Hd as [?|(E1 & E2 & c' & Hc' & _)]; [done|].
        cbn [deleteA] in Hc'. exfalso.
        assert (length (drop (prefixLen s k) s) ≠ 0%nat).
        { rewrite length_drop. pose proof (prefixLen_le_l s k). lia. }
        by rewrite bool_decide_eq_true_2 in Hc'. }
      destruct Hsk as [E ->]. apply prefixLen_full_l in E.
      assert (k = s) as -> by (by apply tkey_prefix_eq).
      cbn [followed]. repeat split; try done.
      * intros Hv. cbn [valued] in Hv. destruct Hv as [v ->].
        exists v. pose proof (lookupA_short_match s (TValue (Some v)) [] Hkne) as E'.
        rewrite app_nil_r in E'. by rewrite E'.
      * intros s' Hs'. destruct (decide (s' = s)) as [->|Hne]; [done|].
        symmetry. apply lookupA_short_mismatch; [done|].
        intros E'. apply Hne. by apply tkey_prefix_eq.
    + destruct Hd as [[E _]|(E1 & E2 & c' & Hc' & ->)];
        [by apply tkey_no_nib_prefix in E|].
      assert (Hs1 : tkey (drop (prefixLen s k) s)).
      { apply tkey_drop; [done|]. pose proof (prefixLen_le_l s k). lia. }
      destruct (IH (or_intror Hgf) _ _ Hs1 Hc') as (Ht2 & Hlen & Hsame & Hpres & Hl).
      destruct (deleteA_good _ (or_intror Hgf) _ Hs1) as (c0 & ok0 & Hc0 & Hgc').
      rewrite Hc' in Hc0. inversion Hc0; subst c0 ok0. clear Hc0.
      rewrite followed_short_ext.
      set (s2 := followed (TFull tv tcs) (drop (prefixLen s k) s)) in *.
      pose proof (prefixLen_le_l s k) as Hle1.
      pose proof (prefixLen_le_r s k) as Hle2.
      split; [by apply tkey_app|]. split; [|split; [|split]].
      * rewrite length_app. rewrite length_drop in Hlen. lia.
      * rewrite length_app. rewrite length_drop in Hlen, Hsame. intros El.
        assert (prefixLen s k = length k) as Ek by lia.
        rewrite Hsame by lia. rewrite Ek.
        apply prefixLen_full_r in Ek. rewrite <- Ek at 1.
        apply take_drop.
      * intros Hv. cbn [valued] in Hv. destruct (Hpres Hv) as [v Hv'].
        exists v. by rewrite lookupA_short_match.
      * apply lookupA_behind_key; try done.
        -- intros x Hx.
           destruct Hgc' as [->|Hgc'].
           { by rewrite <- Hl. }
           destruct c' as [|buf|k2 c2|cv ccs]; try (by inversion Hgc').
           ++ unfold concat. rewrite lookupA_short_app
                by (by apply good_key_nonempty in Hgc').
              by apply Hl.
           ++ rewrite lookupA_short_match by done. by apply Hl.
        -- intros s' Hs' Hne.
           destruct Hgc' as [->|Hgc']; [done|].
           destruct c' as [|buf|k2 c2|cv ccs]; try (by inversion Hgc').
           ++ apply lookupA_short_mismatch.
              { unfold concat. by destruct k. }
              unfold concat. rewrite length_app. intros E. apply Hne.
              apply (f_equal (take (length k))) in E.
              rewrite take_take, take_app_length in E.
              by rewrite Nat.min_l in E by lia.
           ++ by apply lookupA_short_mismatch.
  - destruct Hg as [|Hg]; [done|].
    destruct (good_full_inv _ _ Hg) as (Hlen & Hv & Hcs & Hcount).
    destruct s as [|key rest]; [by apply tkey_nonempty in Hs|].
    apply deleteA_full_inv in Hd as (te & c' & ok1 & Hte & Hdc & _ & Hres).
    destruct ok1; [|by destruct Hres].
    destruct Hres as (v' & cs' & Hset & Hcol).
    unfold tgetEdge in Hte. unfold tsetEdge in Hset.
    apply tkey_cons in Hs as [[-> ->]|[Hkey Hrest]].
    + rewrite byte_eqb_refl in Hte, Hset. inversion Hte; subst te.
      inversion Hset; subst v' cs'. clear Hte Hset.
      destruct Hv as [->|[buf ->]]; [done|].
      cbn [deleteA] in Hdc. inversion Hdc; subst c'. clear Hdc.
      cbn [followed]. rewrite byte_eqb_refl.
      split; [apply tkey_terminator|]. split; [done|]. split; [done|]. split.
      * intros Hval. apply valued_full_iff in Hval as [Hval _].
        destruct Hval as [v ->]. exists v. by rewrite lookupA_full_value.
      * intros s' Hs'.
        rewrite (lookupA_collapseA _ _ _ Hlen (or_introl eq_refl) Hcs Hcol _ Hs').
        destruct s' as [|k0 r]; [by apply tkey_nonempty in Hs'|].
        apply tkey_cons in Hs' as [[-> ->]|[Hk0 Hr]].
        -- rewrite decide_True by done. by rewrite lookupA_full_value.
        -- rewrite decide_False.
           2:{ intros [= -> _]. by apply nib_neq_terminator in Hk0. }
           destruct (lookup_lt_is_Some_2 tcs (Byte.to_nat k0)) as [c Hc];
             [rewrite Hlen; exact Hk0|].
           by rewrite !(lookupA_full_child _ _ _ _ _ Hk0 Hc).
    + rewrite nib_not_terminator in Hte, Hset by done.
      rewrite bool_decide_eq_true_2 in Hset by (rewrite Hlen; exact Hkey).
      inversion Hset; subst v' cs'. clear Hset.
      rewrite Forall_lookup in IHcs.
      pose proof Hcs as HcsF. rewrite Forall_lookup in Hcs.
      destruct (IHcs _ _ Hte (Hcs _ _ Hte) _ _ Hrest Hdc)
        as (Ht2 & Hlen2 & Hsame & Hpres & Hl).
      destruct (deleteA_good _ (Hcs _ _ Hte) _ Hrest) as (c0 & ok0 & Hc0 & Hgc').
      rewrite Hdc in Hc0. inversion Hc0; subst c0 ok0. clear Hc0.
      rewrite (followed_full_child _ _ _ _ _ Hkey Hte).
      split; [by apply tkey_cons_nib|]. split; [simpl; lia|]. split; [|split].
      * simpl. intros El. f_equal. apply Hsame. lia.
      * intros Hval. apply valued_full_iff in Hval as [_ Hval].
        rewrite Forall_lookup in Hval.
        destruct (Hpres (Hval _ _ Hte)) as [v Hv'].
        exists v. by rewrite (lookupA_full_child _ _ _ _ _ Hkey Hte).
      * intros s' Hs'.
        assert (Hlen' : length (<[Byte.to_nat key := c']> tcs) = 16%nat)
          by (by rewrite length_insert).
        assert (Hcs' : Forall (λ c, c = TNil ∨ good c) (<[Byte.to_nat key := c']> tcs))
          by (by apply Forall_insert).
        rewrite (lookupA_collapseA _ _ _ Hlen' Hv Hcs' Hcol _ Hs').
        destruct s' as [|k0 r]; [by apply tkey_nonempty in Hs'|].
        apply tkey_cons in Hs' as [[-> ->]|[Hk0 Hr]].
        -- rewrite decide_False.
           2:{ intros [= <- _]. by apply nib_neq_terminator in Hkey. }
           by rewrite !lookupA_full_value.
        -- destruct (decide (k0 = key)) as [->|Hne].
           ++ rewrite (lookupA_full_child _ _ _ _ c' Hkey).
              2:{ apply list_lookup_insert_eq. rewrite Hlen. exact Hkey. }
              rewrite (lookupA_full_child _ _ _ _ _ Hkey Hte).
              rewrite (Hl _ Hr).
              destruct (decide (r = followed te rest)) as [->|E].
              ** by rewrite decide_True.
              ** rewrite decide_False; [done|]. by intros [= ?].
           ++ rewrite decide_False by (by intros [= ? _]).
              destruct (lookup_lt_is_Some_2 tcs (Byte.to_nat k0)) as [c Hc];
                [rewrite Hlen; exact Hk0|].
              rewrite (lookupA_full_child _ _ _ _ c Hk0).
              2:{ rewrite list_lookup_insert_ne; [done|].
                  intros E. apply Hne. by apply to_nat_inj. }
              by rewrite (lookupA_full_child _ _ _ _ _ Hk0 Hc).
Qed.

Lemma lookupA_short_inv k c s r :
  k ≠ [] → lookupA (TShort k c) s = Some (Some r) →
  take (length k) s = k ∧ lookupA c (drop (length k) s) = Some (Some r).
Proof.
  intros Hk Hl. destruct (decide (take (length k) s = k)) as [E|E].
  - split; [done|]. rewrite <- (take_drop (length k) s) in Hl at 1.
    rewrite E in Hl. by rewrite lookupA_short_match in Hl.
  - by rewrite lookupA_short_mismatch in Hl.
Qed.

(** When [delete] reports no change, the search was not in the tree. *)
Lemma deleteA_unchanged tr :
  tr = TNil ∨ good tr → ∀ s tr', tkey s → deleteA tr s = Some (tr', false) →
  lookupA tr s = Some None.
Proof.
  induction tr as [|buf|k c IH|tv tcs _ IHcs] using tree_ind'; intros Hg s tr' Hs Hd.
  - done.
  - destruct Hg as [|Hg]; [done|inversion Hg].
  - destruct Hg as [|Hg]; [done|].
    pose proof (good_key_nonempty _ _ Hg) as Hkne.
    cbn [deleteA] in Hd.
    case_bd (prefixLen s k = length s) as E1; [done|].
    destruct (decide (prefixLen s k = length k)) as [Ek|Ek].
    2:{ apply lookupA_short_mismatch; [done|]. by rewrite <- prefixLen_full_r. }
    pose proof Ek as Et. apply prefixLen_full_r in Et.
    rewrite <- (take_drop (length k) s) at 1. rewrite Et.
    rewrite lookupA_short_match by done.
    case_bd (prefixLen s k = 0%nat) as E2.
    { destruct k; [done|simpl in Ek; lia]. }
    rewrite Ek in Hd.
    assert (Hs1 : tkey (drop (length k) s)).
    { apply tkey_drop; [done|]. pose proof (prefixLen_le_l s k). lia. }
    destruct (good_short_inv _ _ Hg)
      as [(buf & -> & Hk)|(tv & tcs & -> & _ & Hk & Hgf)].
    + cbn [lookupA]. rewrite bool_decide_eq_false_2; [done|].
      rewrite length_drop. pose proof (prefixLen_le_l s k). lia.
    + destruct (deleteA (TFull tv tcs) (drop (length k) s)) as [[c' ok]|] eqn:Hc;
        [|done].
      destruct ok.
      * simpl in Hd. by destruct c'.
      * by apply (IH (or_intror Hgf) _ _ Hs1 Hc).
  - destruct Hg as [|Hg]; [done|].
    destruct (good_full_inv _ _ Hg) as (Hlen & Hv & Hcs & Hcount).
    destruct s as [|key rest]; [by apply tkey_nonempty in Hs|].
    apply deleteA_full_inv in Hd as (te & c' & ok1 & Hte & Hdc & _ & Hres).
    destruct ok1.
    { destruct Hres as (v' & cs' & Hset & Hcol). unfold tsetEdge in Hset.
      apply tkey_cons in Hs as [[-> ->]|[Hkey Hrest]].
      - rewrite byte_eqb_refl in Hset. inversion Hset; subst v' cs'.
        destruct (collapseA_good c' tcs Hlen) as (? & Hc2 & _); [| |].
        { unfold tgetEdge in Hte. rewrite byte_eqb_refl in Hte.
          inversion Hte; subst te.
          destruct Hv as [->|[buf ->]]; [done|].
          cbn [deleteA] in Hdc. inversion Hdc. by left. }
        { done. }
        unfold tgetEdge in Hte. rewrite byte_eqb_refl in Hte.
        inversion Hte; subst te.
        destruct Hv as [->|[buf ->]]; [done|].
        cbn [deleteA] in Hdc. inversion Hdc; subst.
        rewrite Hcol in Hc2. by inversion Hc2.
      - rewrite nib_not_terminator in Hset by done.
        rewrite bool_decide_eq_true_2 in Hset by (rewrite Hlen; exact Hkey).
        inversion Hset; subst v' cs'.
        unfold tgetEdge in Hte. rewrite nib_not_terminator in Hte by done.
        rewrite Forall_lookup in Hcs.
        destruct (deleteA_good _ (Hcs _ _ Hte) _ Hrest) as (c0 & ok0 & Hc0 & Hgc').
        rewrite Hdc in Hc0. inversion Hc0; subst c0 ok0.
        destruct (collapseA_good tv (<[Byte.to_nat key := c']> tcs))
          as (? & Hc2 & _); try done.
        + by rewrite length_insert.
        + apply Forall_insert; [by apply Forall_lookup|done].
        + rewrite Hcol in Hc2. by inversion Hc2. }
    unfold tgetEdge in Hte.
    apply tkey_cons in Hs as [[-> ->]|[Hkey Hrest]].
    + rewrite byte_eqb_refl in Hte. inversion Hte; subst te.
      rewrite lookupA_full_value.
      destruct Hv as [->|[buf ->]]; [done|]. by cbn [deleteA] in Hdc.
    + rewrite nib_not_terminator in Hte by done.
      rewrite (lookupA_full_child _ _ _ _ _ Hkey Hte).
      rewrite Forall_lookup in IHcs. rewrite Forall_lookup in Hcs.
      by apply (IHcs _ _ Hte (Hcs _ _ Hte) _ _ Hrest Hdc).
Qed.

(** The search of a stored key is the path that [delete] follows. *)
Lemma followed_present tr :
  tr = TNil ∨ good tr → ∀ s v, tkey s → lookupA tr s = Some (Some v) →
  followed tr s = s.
Proof.
  induction tr as [|buf|k c IH|tv tcs _ IHcs] using tree_ind'; intros Hg s v Hs Hl.
  - done.
  - destruct Hg as [|Hg]; [done|inversion Hg].
  - destruct Hg as [|Hg]; [done|].
    pose proof (good_key_nonempty _ _ Hg) as Hkne.
    apply lookupA_short_inv in Hl as [Et Hl]; [|done].
    destruct (good_short_inv _ _ Hg)
      as [(buf & -> & Hk)|(tv & tcs & -> & _ & Hk & Hgf)].
    + cbn [followed]. symmetry. by apply tkey_prefix_eq.
    + rewrite followed_short_ext.
      rewrite (proj2 (prefixLen_full_r s k) Et).
      rewrite (IH (or_intror Hgf) _ v); [| |done].
      * rewrite <- Et at 1. apply take_drop.
      * by apply tkey_drop_nib.
  - destruct Hg as [|Hg]; [done|].
    destruct (good_full_inv _ _ Hg) as (Hlen & Hv & Hcs & Hcount).
    destruct s as [|key rest]; [by apply tkey_nonempty in Hs|].
    apply tkey_cons in Hs as [[-> ->]|[Hkey Hrest]].
    + cbn [followed]. by rewrite byte_eqb_refl.
    + destruct (lookup_lt_is_Some_2 tcs (Byte.to_nat key)) as [c Hc];
        [rewrite Hlen; exact Hkey|].
      rewrite (followed_full_child _ _ _ _ _ Hkey Hc).
      rewrite (lookupA_full_child _ _ _ _ _ Hkey Hc) in Hl.
      rewrite Forall_lookup in IHcs. rewrite Forall_lookup in Hcs.
      f_equal. by apply (IHcs _ _ Hc (Hcs _ _ Hc) _ v).
Qed.

(** ** Values are never nil *)

Lemma tsetEdge_valued v cs idx e tr' :
  valued (TFull v cs) → valued e → tsetEdge v cs idx e = Some tr' → valued tr'.
Proof.
  intros Hv He. apply valued_full_iff in Hv as [Hv Hcs]. unfold tsetEdge.
  destruct (Byte.eqb idx x10).
  - intros [= <-]. by apply valued_full_iff.
  - destruct (bool_decide _); [|done]. intros [= <-].
    apply valued_full_iff. split; [done|]. by apply Forall_insert.
Qed.

Lemma valued_leafA s v : valued (leafA s v).
Proof. unfold leafA. destruct (bool_decide _); simpl; eauto. Qed.

Lemma valued_replicate n : valued (TFull TNil (replicate n TNil)).
Proof.
  apply valued_full_iff. split; [done|]. by apply Forall_replicate.
Qed.

Lemma insertA_valued tr : ∀ s v tr',
  valued tr → insertA tr s v = Some tr' → valued tr'.
Proof.
  induction tr as [|buf|k c IH|tv tcs _ IHcs] using tree_ind'; intros s v tr' Hv Hi.
  - inversion Hi. apply valued_leafA.
  - cbn [insertA] in Hi. destruct (bool_decide _); inversion Hi. simpl. eauto.
  - cbn [insertA] in Hi. cbn [valued] in Hv.
    destruct (bool_decide (prefixLen s k = length k)).
    + destruct (bool_decide (k = [])); [done|].
      destruct (insertA c (drop (prefixLen s k) s) v) as [c'|] eqn:Hc; [|done].
      inversion Hi. cbn [valued]. by eapply IH.
    + destruct (k !! prefixLen s k) as [edge|]; [|done].
      destruct (drop (prefixLen s k) s) as [|k2 rest]; [done|].
      set (piece := if bool_decide (prefixLen s k + 1 < length k)%nat
                    then TShort (drop (prefixLen s k + 1) k) c else c) in *.
      assert (Hp : valued piece) by (unfold piece; by destruct (bool_decide _)).
      destruct (tsetEdge TNil (replicate 16 TNil) edge piece) as [b|] eqn:Hb; [|done].
      pose proof (tsetEdge_valued _ _ _ _ _ (valued_replicate 16) Hp Hb) as Hvb.
      destruct b as [| | |bv bcs]; try done.
      destruct (tgetEdge bv bcs k2) as [[| | |]|]; try done.
      destruct (tsetEdge bv bcs k2 (leafA rest v)) as [b'|] eqn:Hb'; [|done].
      pose proof (tsetEdge_valued _ _ _ _ _ Hvb (valued_leafA rest v) Hb') as Hvb'.
      injection Hi as <-. by destruct (bool_decide (prefixLen s k = 0%nat)).
  - destruct s as [|k rest]; [done|].
    apply valued_full_iff in Hv as [Hv Hcs].
    cbn [insertA] in Hi. destruct (Byte.eqb k x10).
    + destruct tv, rest; inversion Hi; apply valued_full_iff; split; simpl; eauto.
    + rewrite list_lookup_fmap in Hi.
      destruct (tcs !! Byte.to_nat k) as [c|] eqn:Hc; [|done]. simpl in Hi.
      destruct (insertA c rest v) as [c'|] eqn:Hc'; [|done]. inversion Hi.
      apply valued_full_iff. split; [done|].
      apply Forall_insert; [done|].
      rewrite Forall_lookup in IHcs. rewrite Forall_lookup in Hcs.
      by apply (IHcs _ _ Hc _ _ _ (Hcs _ _ Hc) Hc').
Qed.

Lemma collapseA_valued v cs tr' ok :
  valued (TFull v cs) → collapseA v cs = Some (tr', ok) → valued tr'.
Proof.
  intros Hv. pose proof Hv as Hv0. apply valued_full_iff in Hv as [Hv Hcs].
  unfold collapseA.
  destruct (scanChildren (shape <$> cs) 0 (-1)) as [indx fl].
  destruct (fl || _); [by intros [= <- _]|].
  destruct (bool_decide (indx = -1)).
  - destruct (is_TNil v); by intros [= <- _].
  - destruct (cs !! Z.to_nat indx) as [c|] eqn:Hc; [|done].
    rewrite Forall_lookup in Hcs. pose proof (Hcs _ _ Hc) as Hvc.
    destruct c; intros [= <- _]; done.
Qed.

Lemma deleteA_valued tr : ∀ s tr' ok,
  valued tr → deleteA tr s = Some (tr', ok) → valued tr'.
Proof.
  induction tr as [|buf|k c IH|tv tcs IHv IHcs] using tree_ind'; intros s tr' ok Hv Hd.
  - by inversion Hd.
  - by inversion Hd.
  - cbn [deleteA] in Hd. cbn [valued] in Hv.
    destruct (bool_decide (prefixLen s k = length s)); [by inversion Hd|].
    destruct (bool_decide (prefixLen s k = 0%nat)); [by inversion Hd|].
    destruct (deleteA c (drop (prefixLen s k) s)) as [[c' ok']|] eqn:Hc; [|done].
    pose proof (IH _ _ _ Hv Hc) as Hvc.
    destruct ok'; simpl in Hd; [|by inversion Hd].
    destruct c'; by inversion Hd.
  - destruct s as [|key rest]; [done|].
    apply deleteA_full_inv in Hd as (te & c' & ok1 & Hte & Hdc & Hin & Hres).
    destruct ok1; [|by destruct Hres as [-> _]].
    destruct Hres as (v' & cs' & Hset & Hcol).
    pose proof Hv as Hv0. apply valued_full_iff in Hv as [Hvv Hcs].
    assert (Hvc : valued c').
    { destruct Hin as [->|[i Hi]].
      - by eapply IHv.
      - rewrite Forall_lookup in IHcs. rewrite Forall_lookup in Hcs.
        by apply (IHcs _ _ Hi _ _ _ (Hcs _ _ Hi) Hdc). }
    pose proof (tsetEdge_valued _ _ _ _ _ Hv0 Hvc Hset) as Hv'.
    by eapply collapseA_valued.
Qed.

Lemma lookup_without_path m s2 k' :
  without_path s2 m !! k'
  = if decide (keybytesToHex k' = s2) then None else m !! k'.
Proof.
  unfold without_path. apply option_eq. intros x.
  rewrite map_lookup_filter_Some. simpl.
  destruct (decide (keybytesToHex k' = s2)); naive_solver.
Qed.

Lemma without_path_delete m k :
  without_path (keybytesToHex k) m = base.delete k m.
Proof.
  apply map_eq. intros k'. rewrite lookup_without_path.
  destruct (decide (keybytesToHex k' = keybytesToHex k)) as [E|E].
  - apply keybytesToHex_inj in E. subst. by rewrite lookup_delete_eq.
  - rewrite lookup_delete_ne by congruence. done.
Qed.

Lemma txn_stores_empty h t : root t = None → txn_stores h t ∅.
Proof.
  intros Hr. exists TNil, []. rewrite Hr.
  repeat split; try done; [constructor|by left].
Qed.

Lemma txn_stores_holds h t m : txn_stores h t m → txn_holds h t m.
Proof. intros (tr & F & ? & ? & ? & _ & ? & _). by exists tr, F. Qed.

Lemma Txn_Insert_stores fuel t h m k v :
  txn_stores h t m → (2 * length k + 5 ≤ fuel)%nat →
  ∃ t' h', Txn_Insert fuel t k v h = Done (t', h')
           ∧ txn_stores h' t' (<[k:=v]> m)
           ∧ epoch t' = epoch t ∧ storage t' = storage t.
Proof.
  intros (tr & F & Ho & Hnd & Hg & Hval & Hm & Hhex) Hf.
  destruct (insertA_good tr Hg (keybytesToHex k) v (keybytesToHex_tkey k))
    as (tr' & Hins & Hg' & _ & Hl).
  assert (Hfuel : (length (keybytesToHex k) + 4 ≤ fuel)%nat)
    by (rewrite length_keybytesToHex; lia).
  destruct (insert_refine tr fuel t h (root t) F _ v tr' Ho Hnd Hins Hfuel)
    as (p' & h' & F' & Hrun & Ho' & Hnd' & _).
  exists (mkTxn (Some p') (epoch t) (storage t) (batch t)), h'.
  split; [|split; [|done]].
  { unfold Txn_Insert. by rewrite (bind_step _ _ _ _ _ Hrun). }
  exists tr', F'. split; [done|]. split; [done|]. split; [by right|].
  split; [by eapply insertA_valued|]. split.
  - intros k'. rewrite Hl by apply keybytesToHex_tkey.
    destruct (decide (keybytesToHex k' = keybytesToHex k)) as [E|E].
    + apply keybytesToHex_inj in E. subst. by rewrite lookup_insert_eq.
    + rewrite lookup_insert_ne by congruence. apply Hm.
  - intros s v' Hs. rewrite (Hl _ Hs).
    destruct (decide (s = keybytesToHex k)) as [->|E]; [by exists k|].
    by apply Hhex.
Qed.

(** [Txn.Delete] on a trie that stores the map [m]. *)
Lemma Txn_Delete_stores fuel t h m k :
  txn_stores h t m → (2 * length k + 2 ≤ fuel)%nat →
  ∃ t' h' m',
    Txn_Delete fuel t k h = Done (t', h')
    ∧ txn_stores h' t' m'
    ∧ epoch t' = epoch t ∧ storage t' = storage t
    ∧ (∃ s2, m' = without_path s2 m)
    ∧ m' !! k = None
    ∧ (is_Some (m !! k) → m' = base.delete k m)
    ∧ (keys_of_length (length k) m → m' = base.delete k m).
Proof.
  intros (tr & F & Ho & Hnd & Hg & Hval & Hm & Hhex) Hf.
  pose proof (keybytesToHex_tkey k) as Hs.
  destruct (deleteA_good tr Hg _ Hs) as (tr' & ok & Hdel & Hg').
  assert (Hfuel : (length (keybytesToHex k) + 1 ≤ fuel)%nat)
    by (rewrite length_keybytesToHex; lia).
  destruct (delete_refine tr fuel t h (root t) F _ tr' ok Ho Hnd Hdel Hfuel)
    as (n' & h' & Hrun & Hres & _).
  unfold Txn_Delete. rewrite (bind_step _ _ _ _ _ Hrun). cbv beta iota.
  destruct ok.
  - destruct Hres as (F' & Ho' & Hnd' & _).
    destruct (deleteA_removes tr Hg _ _ Hs Hdel) as (Ht2 & _ & Hsame & Hstored & Hl).
    set (s2 := followed tr (keybytesToHex k)) in *.
    assert (Hpres : is_Some (m !! k) → s2 = keybytesToHex k).
    { intros [v Hv]. apply (followed_present tr Hg _ v Hs).
      by rewrite Hm, Hv. }
    eexists _, _, (without_path s2 m). split; [done|]. split.
    { exists tr', F'. split; [done|]. split; [done|]. split; [done|].
      split; [by eapply deleteA_valued|]. split.
      - intros k'. rewrite (Hl _ (keybytesToHex_tkey k')), lookup_without_path.
        destruct (decide (keybytesToHex k' = s2)); [done|apply Hm].
      - intros s v' Hs'. rewrite (Hl _ Hs').
        destruct (decide (s = s2)); [done|]. by apply Hhex. }
    split; [done|]. split; [done|]. split; [by exists s2|]. split; [|split].
    + rewrite lookup_without_path.
      destruct (decide (keybytesToHex k = s2)) as [E|E]; [done|].
      destruct (m !! k) as [v|] eqn:Hv; [|done].
      exfalso. apply E. symmetry. apply Hpres. by exists v.
    + intros Hk. rewrite (Hpres Hk). apply without_path_delete.
    + intros Hlen. destruct (Hstored Hval) as [v2 Hv2].
      destruct (Hhex _ _ Ht2 Hv2) as [k2 Hk2].
      assert (m !! k2 = Some v2) as Hmk2.
      { pose proof (Hm k2) as E. rewrite <- Hk2, Hv2 in E. by inversion E. }
      assert (s2 = keybytesToHex k) as ->.
      { apply Hsame. rewrite Hk2, !length_keybytesToHex.
        by rewrite (Hlen _ _ Hmk2). }
      apply without_path_delete.
  - destruct Hres as [-> Ho'].
    pose proof (deleteA_unchanged tr Hg _ _ Hs Hdel) as Hno.
    rewrite Hm in Hno. inversion Hno as [Hk].
    eexists _, _, m. split; [done|].
    split; [by exists tr, F|]. split; [done|]. split; [done|]. split.
    { exists []. apply map_eq. intros k'. rewrite lookup_without_path.
      rewrite decide_False; [done|].
      intros E. by apply (tkey_nonempty _ (keybytesToHex_tkey k')). }
    split; [done|]. split.
    + rewrite Hk. by intros [? ?].
    + intros _. by rewrite delete_id.
Qed.

Lemma run_ops_stores fuel ops : ∀ t h m,
  txn_stores h t m → deletes_stored m ops →
  (∀ o, o ∈ ops → (2 * length (op_key o) + 5 ≤ fuel)%nat) →
  ∃ t' h', run_ops fuel t ops h = Done (t', h')
           ∧ txn_stores h' t' (map_ops ops m)
           ∧ epoch t' = epoch t ∧ storage t' = storage t.
Proof.
  induction ops as [|o ops IH]; intros t h m Hh Hst Hf.
  - by exists t, h.
  - destruct Hst as [Ho Hst].
    assert (Hfo : (2 * length (op_key o) + 5 ≤ fuel)%nat)
      by (apply Hf; left).
    assert (Hfr : ∀ o', o' ∈ ops → (2 * length (op_key o') + 5 ≤ fuel)%nat)
      by (intros; apply Hf; by right).
    destruct o as [k v|k]; cbn [run_ops map_ops foldl map_op op_key] in *.
    + destruct (Txn_Insert_stores fuel t h m k v Hh Hfo) as (t1 & h1 & Hr & Hh1 & He & Hs).
      destruct (IH _ _ _ Hh1 Hst Hfr) as (t' & h' & Hr' & Hh' & He' & Hs').
      exists t', h'. rewrite (bind_step _ _ _ _ _ Hr).
      repeat split; try done; congruence.
    + destruct (Txn_Delete_stores fuel t h m k Hh) as
        (t1 & h1 & m1 & Hr & Hh1 & He & Hs & _ & _ & Hm1 & _); [lia|].
      rewrite (Hm1 Ho) in Hh1.
      destruct (IH _ _ _ Hh1 Hst Hfr) as (t' & h' & Hr' & Hh' & He' & Hs').
      exists t', h'. rewrite (bind_step _ _ _ _ _ Hr).
      repeat split; try done; congruence.
Qed.

Lemma keys_of_length_map_op L m o :
  keys_of_length L m → length (op_key o) = L → keys_of_length L (map_op m o).
Proof.
  intros Hm Ho. destruct o as [k v|k]; intros k' v'; simpl in *.
  - intros [[<- _]|[_ Hk']]%lookup_insert_Some; [done|by eapply Hm].
  - intros [_ Hk']%lookup_delete_Some. by eapply Hm.
Qed.

Lemma run_ops_stores_len L fuel ops : ∀ t h m,
  txn_stores h t m → keys_of_length L m →
  (∀ o, o ∈ ops → length (op_key o) = L) → (2 * L + 5 ≤ fuel)%nat →
  ∃ t' h', run_ops fuel t ops h = Done (t', h')
           ∧ txn_stores h' t' (map_ops ops m)
           ∧ keys_of_length L (map_ops ops m).
Proof.
  induction ops as [|o ops IH]; intros t h m Hh Hm Hk Hf.
  - by exists t, h.
  - assert (Hko : length (op_key o) = L) by (apply Hk; left).
    assert (Hkr : ∀ o', o' ∈ ops → length (op_key o') = L)
      by (intros; apply Hk; by right).
    pose proof (keys_of_length_map_op L m o Hm Hko) as Hm1.
    destruct o as [k v|k]; cbn [run_ops map_ops foldl map_op op_key] in *.
    + destruct (Txn_Insert_stores fuel t h m k v Hh) as (t1 & h1 & Hr & Hh1 & _); [lia|].
      destruct (IH _ _ _ Hh1 Hm1 Hkr Hf) as (t' & h' & Hr' & Hh').
      exists t', h'. by rewrite (bind_step _ _ _ _ _ Hr).
    + destruct (Txn_Delete_stores fuel t h m k Hh) as
        (t1 & h1 & m1 & Hr & Hh1 & _ & _ & _ & _ & _ & Hm1'); [lia|].
      rewrite Hm1' in Hh1 by (by rewrite Hko).
      destruct (IH _ _ _ Hh1 Hm1 Hkr Hf) as (t' & h' & Hr' & Hh').
      exists t', h'. by rewrite (bind_step _ _ _ _ _ Hr).
Qed.

Lemma run_ops_stores_some fuel ops : ∀ t h m,
  txn_stores h t m →
  (∀ o, o ∈ ops → (2 * length (op_key o) + 5 ≤ fuel)%nat) →
  ∃ t' h' m', run_ops fuel t ops h = Done (t', h') ∧ txn_stores h' t' m'.
Proof.
  induction ops as [|o ops IH]; intros t h m Hh Hf.
  - by exists t, h, m.
  - assert (Hfo : (2 * length (op_key o) + 5 ≤ fuel)%nat)
      by (apply Hf; left).
    assert (Hfr : ∀ o', o' ∈ ops → (2 * length (op_key o') + 5 ≤ fuel)%nat)
      by (intros; apply Hf; by right).
    destruct o as [k v|k]; cbn [run_ops op_key] in *.
    + destruct (Txn_Insert_stores fuel t h m k v Hh Hfo) as (t1 & h1 & Hr & Hh1 & _).
      destruct (IH _ _ _ Hh1 Hfr) as (t' & h' & m' & Hr' & Hh').
      exists t', h', m'. by rewrite (bind_step _ _ _ _ _ Hr).
    + destruct (Txn_Delete_stores fuel t h m k Hh) as
        (t1 & h1 & m1 & Hr & Hh1 & _); [lia|].
      destruct (IH _ _ _ Hh1 Hfr) as (t' & h' & m' & Hr' & Hh').
      exists t', h', m'. by rewrite (bind_step _ _ _ _ _ Hr).
Qed.

(** X1 (inserts and deletes of stored keys).  On a
    transaction opened on the empty trie, a sequence of [Txn.Insert] and
    [Txn.Delete] in which every delete is of a key that is stored at that
    point runs to its end, and afterwards [Txn.Lookup] of every key returns
    what the finite map returns on which the same inserts and deletes were
    made: the value of the last insert of the key that no delete followed,
    and nil for any other key. *)
Theorem inserts_and_stored_deletes_as_map
    (ops : list op) (t : Txn) (h : list cell) (fuel : nat) :
  root t = None →
  deletes_stored ∅ ops →
  (∀ o, o ∈ ops → (2 * length (op_key o) + 5 ≤ fuel)%nat) →
  ∃ t' h',
    run_ops fuel t ops h = Done (t', h')
    ∧ ∀ k, (2 * length k + 2 ≤ fuel)%nat →
           Txn_Lookup fuel t' k h' = Done (map_ops ops ∅ !! k, h').
Proof.
  intros Hroot Hst Hf.
  destruct (run_ops_stores fuel ops t h ∅ (txn_stores_empty h t Hroot) Hst Hf)
    as (t' & h' & Hrun & Hh & _).
  exists t', h'. split; [done|]. intros k Hk.
  apply Txn_Lookup_holds; [|done]. by apply txn_stores_holds.
Qed.

Lemma inserts_and_stored_deletes_as_map_witness :
  root (Trie_Txn NewTrie) = None
  ∧ deletes_stored ∅ stored_ops
  ∧ (∀ o, o ∈ stored_ops → (2 * length (op_key o) + 5 ≤ 9)%nat)
  ∧ ∃ t' h',
      run_ops 9 (Trie_Txn NewTrie) stored_ops [] = Done (t', h')
      ∧ ∀ k, (2 * length k + 2 ≤ 9)%nat →
             Txn_Lookup 9 t' k h' = Done (map_ops stored_ops ∅ !! k, h').
Proof.
  assert (H1 : root (Trie_Txn NewTrie) = None) by reflexivity.
  assert (H2 : deletes_stored ∅ stored_ops).
  { repeat split; vm_compute; eauto. }
  assert (H3 : ∀ o, o ∈ stored_ops → (2 * length (op_key o) + 5 ≤ 9)%nat).
  { intros o Hin. unfold stored_ops in Hin.
    rewrite !elem_of_cons, elem_of_nil in Hin.
    destruct Hin as [->|[->|[->|[->|[->|[->|[]]]]]]]; simpl; lia. }
  split; [exact H1|]. split; [exact H2|]. split; [exact H3|].
  exact (inserts_and_stored_deletes_as_map stored_ops (Trie_Txn NewTrie) [] 9 H1 H2 H3).
Defined.

(** X2 (keys of one length).  When all keys have the
    same length, as the hashed keys of the account and storage tries have,
    every sequence of [Txn.Insert] and [Txn.Delete] on a transaction opened
    on the empty trie runs to its end and leaves the lookups of the finite
    map on which the same operations were made; the delete of a key that
    is not stored changes no lookup. *)
Theorem keys_of_one_length_as_map
    (L : nat) (ops : list op) (t : Txn) (h : list cell) (fuel : nat) :
  root t = None →
  (∀ o, o ∈ ops → length (op_key o) = L) →
  (2 * L + 5 ≤ fuel)%nat →
  ∃ t' h',
    run_ops fuel t ops h = Done (t', h')
    ∧ ∀ k, (2 * length k + 2 ≤ fuel)%nat →
           Txn_Lookup fuel t' k h' = Done (map_ops ops ∅ !! k, h').
Proof.
  intros Hroot Hk Hf.
  destruct (run_ops_stores_len L fuel ops t h ∅ (txn_stores_empty h t Hroot)) 
    as (t' & h' & Hrun & Hh & _); try done.
  exists t', h'. split; [done|]. intros k Hfk.
  apply Txn_Lookup_holds; [|done]. by apply txn_stores_holds.
Qed.

Lemma keys_of_one_length_as_map_witness :
  root (Trie_Txn NewTrie) = None
  ∧ (∀ o, o ∈ two_byte_ops → length (op_key o) = 2%nat)
  ∧ (2 * 2 + 5 ≤ 9)%nat
  ∧ ∃ t' h',
      run_ops 9 (Trie_Txn NewTrie) two_byte_ops [] = Done (t', h')
      ∧ ∀ k, (2 * length k + 2 ≤ 9)%nat →
             Txn_Lookup 9 t' k h' = Done (map_ops two_byte_ops ∅ !! k, h').
Proof.
  assert (H1 : root (Trie_Txn NewTrie) = None) by reflexivity.
  assert (H2 : ∀ o, o ∈ two_byte_ops → length (op_key o) = 2%nat).
  { intros o Hin. unfold two_byte_ops in Hin.
    rewrite !elem_of_cons, elem_of_nil in Hin.
    destruct Hin as [->|[->|[->|[->|[->|[]]]]]]; reflexivity. }
  assert (H3 : (2 * 2 + 5 ≤ 9)%nat) by lia.
  split; [exact H1|]. split; [exact H2|]. split; [exact H3|].
  exact (keys_of_one_length_as_map 2 two_byte_ops (Trie_Txn NewTrie) [] 9 H1 H2 H3).
Defined.

(** X3 (what a delete can lose).  On a trie reached from the empty trie by any
    inserts and deletes, [Txn.Delete(k)] returns; afterwards [k] is not
    stored, no key has a new or another value, at most one key has lost
    its value, and when [k] was stored it is [k] alone that is lost. *)
Theorem delete_loses_at_most_one_key
    (ops : list op) (k : list byte) (t : Txn) (h : list cell) (fuel : nat) :
  root t = None →
  (∀ o, o ∈ ops → (2 * length (op_key o) + 5 ≤ fuel)%nat) →
  (2 * length k + 2 ≤ fuel)%nat →
  ∃ t1 h1 t2 h2 (m m' : gmap (list byte) (list byte)),
    run_ops fuel t ops h = Done (t1, h1)
    ∧ Txn_Delete fuel t1 k h1 = Done (t2, h2)
    ∧ (∀ k', (2 * length k' + 2 ≤ fuel)%nat →
             Txn_Lookup fuel t1 k' h1 = Done (m !! k', h1))
    ∧ (∀ k', (2 * length k' + 2 ≤ fuel)%nat →
             Txn_Lookup fuel t2 k' h2 = Done (m' !! k', h2))
    ∧ m' !! k = None
    ∧ (∀ k', m' !! k' = m !! k' ∨ m' !! k' = None)
    ∧ (∀ k1 k2, m' !! k1 ≠ m !! k1 → m' !! k2 ≠ m !! k2 → k1 = k2)
    ∧ (is_Some (m !! k) → m' = base.delete k m).
Proof.
  intros Hroot Hf Hfk.
  destruct (run_ops_stores_some fuel ops t h ∅ (txn_stores_empty h t Hroot) Hf)
    as (t1 & h1 & m & Hrun & Hh).
  destruct (Txn_Delete_stores fuel t1 h1 m k Hh Hfk)
    as (t2 & h2 & m' & Hdel & Hh' & _ & _ & [s2 Hs2] & Hk & Hpres & _).
  exists t1, h1, t2, h2, m, m'.
  split; [done|]. split; [done|].
  split; [intros; apply Txn_Lookup_holds; [by apply txn_stores_holds|done]|].
  split; [intros; apply Txn_Lookup_holds; [by apply txn_stores_holds|done]|].
  split; [done|]. split; [|split; [|done]].
  - intros k'. rewrite Hs2, lookup_without_path.
    destruct (decide (keybytesToHex k' = s2)); [by right|by left].
  - intros k1 k2. rewrite Hs2, !lookup_without_path.
    destruct (decide (keybytesToHex k1 = s2)) as [E1|]; [|done].
    destruct (decide (keybytesToHex k2 = s2)) as [E2|]; [|done].
    intros _ _. apply keybytesToHex_inj. congruence.
Qed.

Lemma delete_loses_at_most_one_key_witness :
  root (Trie_Txn NewTrie) = None
  ∧ (∀ o, o ∈ sample_ops → (2 * length (op_key o) + 5 ≤ 9)%nat)
  ∧ (2 * length [x02] + 2 ≤ 9)%nat
  ∧ ∃ t1 h1 t2 h2 (m m' : gmap (list byte) (list byte)),
      run_ops 9 (Trie_Txn NewTrie) sample_ops [] = Done (t1, h1)
      ∧ Txn_Delete 9 t1 [x02] h1 = Done (t2, h2)
      ∧ (∀ k', (2 * length k' + 2 ≤ 9)%nat →
               Txn_Lookup 9 t1 k' h1 = Done (m !! k', h1))
      ∧ (∀ k', (2 * length k' + 2 ≤ 9)%nat →
               Txn_Lookup 9 t2 k' h2 = Done (m' !! k', h2))
      ∧ m' !! [x02] = None
      ∧ (∀ k', m' !! k' = m !! k' ∨ m' !! k' = None)
      ∧ (∀ k1 k2, m' !! k1 ≠ m !! k1 → m' !! k2 ≠ m !! k2 → k1 = k2)
      ∧ (is_Some (m !! [x02]) → m' = base.delete [x02] m).
Proof.
  assert (H1 : root (Trie_Txn NewTrie) = None) by reflexivity.
  assert (H2 : ∀ o, o ∈ sample_ops → (2 * length (op_key o) + 5 ≤ 9)%nat).
  { intros o Hin. unfold sample_ops in Hin.
    rewrite !elem_of_cons, elem_of_nil in Hin.
    destruct Hin as [->|[->|[->|[->|[->|[]]]]]]; simpl; lia. }
  assert (H3 : (2 * length [x02] + 2 ≤ 9)%nat) by (simpl; lia).
  split; [exact H1|]. split; [exact H2|]. split; [exact H3|].
  exact (delete_loses_at_most_one_key sample_ops [x02] (Trie_Txn NewTrie) [] 9 H1 H2 H3).
Defined.

(** ** The tree depends on the stored map only *)

Lemma count_nonempty_one l :
  (1 ≤ count_nonempty l)%nat → ∃ i c, l !! i = Some c ∧ nonempty c.
Proof.
  induction l as [|c l IH]; [by cbv; lia|].
  rewrite count_nonempty_cons. destruct (is_TNil c) eqn:E.
  - intros H. destruct IH as (i & c' & Hi & Hc); [lia|]. by exists (S i), c'.
  - intros _. by exists 0%nat, c.
Qed.

Lemma count_nonempty_two l :
  (2 ≤ count_nonempty l)%nat →
  ∃ i j ci cj, (i < j)%nat ∧ l !! i = Some ci ∧ l !! j = Some cj
               ∧ nonempty ci ∧ nonempty cj.
Proof.
  induction l as [|c l IH]; [by cbv; lia|].
  rewrite count_nonempty_cons. destruct (is_TNil c) eqn:E.
  - intros H. destruct IH as (i & j & ci & cj & Hij & Hi & Hj & Hci & Hcj); [lia|].
    exists (S i), (S j), ci, cj. repeat split; try done. lia.
  - intros H. destruct (count_nonempty_one l) as (j & cj & Hj & Hcj); [lia|].
    exists 0%nat, (S j), c, cj. repeat split; try done. lia.
Qed.

Lemma slot_byte_inj i j :
  (i ≤ 16)%nat → (j ≤ 16)%nat → slot_byte i = slot_byte j → i = j.
Proof.
  intros Hi Hj E. apply (f_equal Byte.to_nat) in E.
  destruct i as [|i], j as [|j]; simpl in E; try done.
  - rewrite byte_of_Z_to_nat in E by lia.
    assert (Byte.to_nat x10 = 16%nat) as E16 by reflexivity. lia.
  - rewrite byte_of_Z_to_nat in E by lia.
    assert (Byte.to_nat x10 = 16%nat) as E16 by reflexivity. lia.
  - rewrite !byte_of_Z_to_nat in E by lia. lia.
Qed.

(** A tree that is not empty stores a value. *)
Lemma stored_path tr :
  good tr → valued tr → ∃ s v, tkey s ∧ lookupA tr s = Some (Some v).
Proof.
  induction tr as [|buf|k c IH|tv tcs _ IHcs] using tree_ind'; intros Hg Hv.
  - inversion Hg.
  - inversion Hg.
  - pose proof (good_key_nonempty _ _ Hg) as Hkne.
    destruct (good_short_inv _ _ Hg)
      as [(buf & -> & Hk)|(tv & tcs & -> & _ & Hk & Hgf)].
    + cbn [valued] in Hv. destruct Hv as [v ->]. exists k, v. split; [done|].
      pose proof (lookupA_short_match k (TValue (Some v)) [] Hkne) as E.
      by rewrite app_nil_r in E.
    + destruct (IH Hgf Hv) as (s & v & Hs & Hl).
      exists (k ++ s), v. split; [by apply tkey_app|].
      by rewrite lookupA_short_match.
  - destruct (good_full_inv _ _ Hg) as (Hlen & Hvs & Hcs & Hcount).
    apply valued_full_iff in Hv as [Hvv Hvcs].
    destruct (count_nonempty_one (tv :: tcs)) as (i & c & Hi & Hc); [lia|].
    destruct i as [|i]; simpl in Hi.
    + inversion Hi; subst c. destruct Hvs as [->|[buf ->]]; [done|].
      destruct Hvv as [v ->]. exists [x10], v.
      split; [apply tkey_terminator|]. by rewrite lookupA_full_value.
    + rewrite Forall_lookup in IHcs, Hcs, Hvcs.
      destruct (Hcs _ _ Hi) as [->|Hgc]; [done|].
      destruct (IHcs _ _ Hi Hgc (Hvcs _ _ Hi)) as (s & v & Hs & Hl).
      assert (Hi16 : (i < 16)%nat) by (apply lookup_lt_Some in Hi; lia).
      exists (byte_of_Z (Z.of_nat i) :: s), v.
      split; [apply tkey_cons_nib; [by apply nib_byte_of_nat|done]|].
      rewrite (lookupA_full_child _ _ _ _ c); [done|by apply nib_byte_of_nat|].
      by rewrite byte_of_Z_to_nat by lia.
Qed.

(** A non-empty slot of a Full node stores a value below its byte. *)
Lemma stored_path_slot tv tcs n c :
  good (TFull tv tcs) → valued (TFull tv tcs) →
  (tv :: tcs) !! n = Some c → nonempty c →
  ∃ r v, tkey (slot_byte n :: r)
         ∧ lookupA (TFull tv tcs) (slot_byte n :: r) = Some (Some v).
Proof.
  intros Hg Hv Hn Hc.
  destruct (good_full_inv _ _ Hg) as (Hlen & Hvs & Hcs & Hcount).
  apply valued_full_iff in Hv as [Hvv Hvcs].
  destruct n as [|i]; simpl in Hn.
  - inversion Hn; subst c. destruct Hvs as [->|[buf ->]]; [done|].
    destruct Hvv as [v ->]. exists [], v.
    split; [apply tkey_terminator|]. by rewrite lookupA_full_value.
  - rewrite Forall_lookup in Hcs, Hvcs.
    destruct (Hcs _ _ Hn) as [->|Hgc]; [done|].
    destruct (stored_path c Hgc (Hvcs _ _ Hn)) as (s & v & Hs & Hl).
    assert (Hi16 : (i < 16)%nat) by (apply lookup_lt_Some in Hn; lia).
    exists s, v. cbn [slot_byte].
    split; [apply tkey_cons_nib; [by apply nib_byte_of_nat|done]|].
    rewrite (lookupA_full_child _ _ _ _ c); [done|by apply nib_byte_of_nat|].
    by rewrite byte_of_Z_to_nat by lia.
Qed.

(** A Full node stores values below two different bytes. *)
Lemma stored_paths_full tv tcs :
  good (TFull tv tcs) → valued (TFull tv tcs) →
  ∃ a b r1 r2 v1 v2,
    a ≠ b ∧ tkey (a :: r1) ∧ tkey (b :: r2)
    ∧ lookupA (TFull tv tcs) (a :: r1) = Some (Some v1)
    ∧ lookupA (TFull tv tcs) (b :: r2) = Some (Some v2).
Proof.
  intros Hg Hv.
  destruct (good_full_inv _ _ Hg) as (Hlen & _ & _ & Hcount).
  destruct (count_nonempty_two _ Hcount) as (i & j & ci & cj & Hij & Hi & Hj & Hci & Hcj).
  destruct (stored_path_slot _ _ _ _ Hg Hv Hi Hci) as (r1 & v1 & Ht1 & Hl1).
  destruct (stored_path_slot _ _ _ _ Hg Hv Hj Hcj) as (r2 & v2 & Ht2 & Hl2).
  exists (slot_byte i), (slot_byte j), r1, r2, v1, v2.
  repeat split; try done.
  apply lookup_lt_Some in Hi, Hj. simpl in Hi, Hj.
  intros E. apply slot_byte_inj in E; lia.
Qed.

Lemma same_stored_sym tr1 tr2 : same_stored tr1 tr2 → same_stored tr2 tr1.
Proof. intros H s v Hs. by rewrite (H s v Hs). Qed.

Lemma not_stored_nil tr :
  good tr → valued tr → same_stored TNil tr → False.
Proof.
  intros Hg Hv Hs. destruct (stored_path tr Hg Hv) as (s & v & Ht & Hl).
  by apply (Hs s v Ht) in Hl.
Qed.

Lemma leaf_paths k buf s v :
  good (TShort k (TValue buf)) → tkey s →
  lookupA (TShort k (TValue buf)) s = Some (Some v) → s = k ∧ buf = Some v.
Proof.
  intros Hg Hs Hl. pose proof (good_key_nonempty _ _ Hg) as Hkne.
  apply lookupA_short_inv in Hl as [Et Hl]; [|done].
  destruct (good_short_inv _ _ Hg) as [(buf' & E & Hk)|(tv & tcs & E & _)];
    [|done].
  assert (s = k) as -> by (by apply tkey_prefix_eq).
  split; [done|]. rewrite drop_all in Hl. cbn in Hl. by inversion Hl.
Qed.

Lemma short_full_differ k c tv tcs :
  good (TShort k c) → good (TFull tv tcs) → valued (TFull tv tcs) →
  same_stored (TShort k c) (TFull tv tcs) → False.
Proof.
  intros Hg1 Hg2 Hv2 Hs. pose proof (good_key_nonempty _ _ Hg1) as Hkne.
  destruct (stored_paths_full _ _ Hg2 Hv2)
    as (a & b & r1 & r2 & v1 & v2 & Hab & Ht1 & Ht2 & Hl1 & Hl2).
  apply (Hs _ _ Ht1) in Hl1. apply (Hs _ _ Ht2) in Hl2.
  apply lookupA_short_inv in Hl1 as [E1 _]; [|done].
  apply lookupA_short_inv in Hl2 as [E2 _]; [|done].
  destruct k as [|k0 k]; [done|]. simpl in E1, E2.
  inversion E1. inversion E2. congruence.
Qed.

(** The stored paths of an extension have the key as their prefix and go
    on with two different bytes. *)
Lemma stored_paths_ext k tv tcs :
  good (TShort k (TFull tv tcs)) → valued (TFull tv tcs) →
  ∃ a b r1 r2 v1 v2,
    a ≠ b ∧ tkey (k ++ a :: r1) ∧ tkey (k ++ b :: r2)
    ∧ lookupA (TShort k (TFull tv tcs)) (k ++ a :: r1) = Some (Some v1)
    ∧ lookupA (TShort k (TFull tv tcs)) (k ++ b :: r2) = Some (Some v2).
Proof.
  intros Hg Hv.
  destruct (good_short_inv _ _ Hg) as [(buf' & E & _)|(tv' & tcs' & E & Hkne & Hk & Hgf)];
    [done|]. inversion E; subst tv' tcs'.
  destruct (stored_paths_full _ _ Hgf Hv)
    as (a & b & r1 & r2 & v1 & v2 & Hab & Ht1 & Ht2 & Hl1 & Hl2).
  exists a, b, r1, r2, v1, v2. split; [done|].
  split; [by apply tkey_app|]. split; [by apply tkey_app|].
  by rewrite !lookupA_short_match.
Qed.

Lemma ext_key_not_longer k1 c1 k2 tv tcs :
  good (TShort k1 c1) → good (TShort k2 (TFull tv tcs)) → valued (TFull tv tcs) →
  same_stored (TShort k1 c1) (TShort k2 (TFull tv tcs)) →
  (length k1 ≤ length k2)%nat.
Proof.
  intros Hg1 Hg2 Hv2 Hs. pose proof (good_key_nonempty _ _ Hg1) as Hkne.
  destruct (stored_paths_ext _ _ _ Hg2 Hv2)
    as (a & b & r1 & r2 & v1 & v2 & Hab & Ht1 & Ht2 & Hl1 & Hl2).
  apply (Hs _ _ Ht1) in Hl1. apply (Hs _ _ Ht2) in Hl2.
  apply lookupA_short_inv in Hl1 as [E1 _]; [|done].
  apply lookupA_short_inv in Hl2 as [E2 _]; [|done].
  destruct (decide (length k1 ≤ length k2)%nat) as [|Hlt]; [done|]. exfalso.
  pose proof (take_eq_lookup _ _ (length k2) E1 ltac:(lia)) as F1.
  pose proof (take_eq_lookup _ _ (length k2) E2 ltac:(lia)) as F2.
  rewrite lookup_app_r, Nat.sub_diag in F1, F2 by lia. simpl in F1, F2.
  congruence.
Qed.

(** Two tries of the shape that inserts and deletes keep, which store the
    same values at the same paths, are the same tree. *)
Lemma canonical tr1 : ∀ tr2,
  tr1 = TNil ∨ good tr1 → tr2 = TNil ∨ good tr2 → valued tr1 → valued tr2 →
  same_stored tr1 tr2 → tr1 = tr2.
Proof.
  induction tr1 as [|buf|k1 c1 IH|v1 cs1 _ IHcs] using tree_ind';
    intros tr2 Hg1 Hg2 Hv1 Hv2 Hs.
  - destruct Hg2 as [->|Hg2]; [done|]. by destruct (not_stored_nil tr2).
  - destruct Hg1 as [|Hg1]; [done|inversion Hg1].
  - destruct Hg1 as [|Hg1]; [done|].
    destruct Hg2 as [->|Hg2].
    { destruct (not_stored_nil _ Hg1 Hv1). by apply same_stored_sym. }
    destruct tr2 as [|buf2|k2 c2|v2 cs2]; try (by inversion Hg2).
    2:{ by destruct (short_full_differ _ _ _ _ Hg1 Hg2 Hv2). }
    pose proof (good_key_nonempty _ _ Hg1) as Hk1ne.
    pose proof (good_key_nonempty _ _ Hg2) as Hk2ne.
    destruct (good_short_inv _ _ Hg1)
      as [(buf1 & -> & Hk1)|(tv1 & tcs1 & -> & _ & Hk1 & Hgf1)];
    destruct (good_short_inv _ _ Hg2)
      as [(buf2 & -> & Hk2)|(tv2 & tcs2 & -> & _ & Hk2 & Hgf2)].
    + cbn [valued] in Hv1. destruct Hv1 as [w1 ->].
      assert (Hl : lookupA (TShort k1 (TValue (Some w1))) k1 = Some (Some w1)).
      { pose proof (lookupA_short_match k1 (TValue (Some w1)) [] Hk1ne) as E.
        by rewrite app_nil_r in E. }
      apply (Hs _ _ Hk1) in Hl.
      apply (leaf_paths _ _ _ _ Hg2 Hk1) in Hl as [-> ->]. done.
    + exfalso. cbn [valued] in Hv2.
      destruct (stored_paths_ext _ _ _ Hg2 Hv2)
        as (a & b & r1 & r2 & w1 & w2 & Hab & Ht1 & Ht2 & Hl1 & Hl2).
      apply (Hs _ _ Ht1) in Hl1. apply (Hs _ _ Ht2) in Hl2.
      apply (leaf_paths _ _ _ _ Hg1 Ht1) in Hl1 as [E1 _].
      apply (leaf_paths _ _ _ _ Hg1 Ht2) in Hl2 as [E2 _].
      rewrite <- E2 in E1. apply app_inv_head in E1. by inversion E1.
    + exfalso. cbn [valued] in Hv1.
      destruct (stored_paths_ext _ _ _ Hg1 Hv1)
        as (a & b & r1 & r2 & w1 & w2 & Hab & Ht1 & Ht2 & Hl1 & Hl2).
      apply (Hs _ _ Ht1) in Hl1. apply (Hs _ _ Ht2) in Hl2.
      apply (leaf_paths _ _ _ _ Hg2 Ht1) in Hl1 as [E1 _].
      apply (leaf_paths _ _ _ _ Hg2 Ht2) in Hl2 as [E2 _].
      rewrite <- E2 in E1. apply app_inv_head in E1. by inversion E1.
    + cbn [valued] in Hv1, Hv2.
      pose proof (ext_key_not_longer _ _ _ _ _ Hg1 Hg2 Hv2 Hs) as Hle1.
      pose proof (ext_key_not_longer _ _ _ _ _ Hg2 Hg1 Hv1 (same_stored_sym _ _ Hs))
        as Hle2.
      assert (k1 = k2) as ->.
      { destruct (stored_paths_ext _ _ _ Hg1 Hv1)
          as (a & b & r1 & r2 & w1 & w2 & _ & Ht1 & _ & Hl1 & _).
        apply (Hs _ _ Ht1) in Hl1.
        apply lookupA_short_inv in Hl1 as [E1 _]; [|done].
        rewrite take_app_le in E1 by lia.
        rewrite take_ge in E1 by lia. done. }
      f_equal. apply IH; [by right|by right|done|done|].
      intros x w Hx.
      rewrite <- (lookupA_short_match k2 (TFull tv1 tcs1) x Hk2ne).
      rewrite <- (lookupA_short_match k2 (TFull tv2 tcs2) x Hk2ne).
      apply Hs. by apply tkey_app.
  - destruct Hg1 as [|Hg1]; [done|].
    destruct Hg2 as [->|Hg2].
    { destruct (not_stored_nil _ Hg1 Hv1). by apply same_stored_sym. }
    destruct tr2 as [|buf2|k2 c2|v2 cs2]; try (by inversion Hg2).
    { destruct (short_full_differ _ _ _ _ Hg2 Hg1 Hv1). by apply same_stored_sym. }
    destruct (good_full_inv _ _ Hg1) as (Hlen1 & Hvs1 & Hcs1 & _).
    destruct (good_full_inv _ _ Hg2) as (Hlen2 & Hvs2 & Hcs2 & _).
    apply valued_full_iff in Hv1 as [Hvv1 Hvcs1].
    apply valued_full_iff in Hv2 as [Hvv2 Hvcs2].
    f_equal.
    + pose proof (Hs [x10]) as Hsv. rewrite !lookupA_full_value in Hsv.
      destruct Hvs1 as [->|[b1 ->]], Hvs2 as [->|[b2 ->]]; try done.
      * destruct Hvv2 as [w ->].
        destruct (Hsv w tkey_terminator) as [_ H2]. by specialize (H2 eq_refl).
      * destruct Hvv1 as [w ->].
        destruct (Hsv w tkey_terminator) as [H1 _]. by specialize (H1 eq_refl).
      * destruct Hvv1 as [w1 ->]. destruct Hvv2 as [w2 ->].
        destruct (Hsv w1 tkey_terminator) as [H1 _].
        specialize (H1 eq_refl). cbn in H1. by inversion H1.
    + apply list_eq. intros i.
      destruct (decide (i < 16)%nat) as [Hi|Hi].
      2:{ rewrite !lookup_ge_None_2; [done|lia|lia]. }
      destruct (lookup_lt_is_Some_2 cs1 i) as [c1 Hc1]; [lia|].
      destruct (lookup_lt_is_Some_2 cs2 i) as [c2 Hc2]; [lia|].
      rewrite Hc1, Hc2. f_equal.
      rewrite Forall_lookup in IHcs, Hcs1, Hcs2, Hvcs1, Hvcs2.
      apply (IHcs _ _ Hc1); eauto.
      intros x w Hx.
      pose proof (nib_byte_of_nat i Hi) as Hnib.
      assert (Hto : Byte.to_nat (byte_of_Z (Z.of_nat i)) = i)
        by (apply byte_of_Z_to_nat; lia).
      rewrite <- (lookupA_full_child v1 cs1 _ x c1 Hnib) by (by rewrite Hto).
      rewrite <- (lookupA_full_child v2 cs2 _ x c2 Hnib) by (by rewrite Hto).
      apply Hs. by apply tkey_cons_nib.
Qed.

(** ** Copy on write in [insert] *)

Lemma cow_frame_refl e h : cow_frame e h h.
Proof. split; [done|]. intros q c Hq. by left. Qed.

Lemma same_but_slots_trans c1 c2 c3 :
  same_but_slots c1 c2 → same_but_slots c2 c3 → same_but_slots c1 c3.
Proof.
  destruct c1, c2, c3; simpl; try done. intros [-> ->] [-> ->]. done.
Qed.

Lemma same_but_slots_epoch e c c' :
  same_but_slots c c' → epoch_full e c = true → epoch_full e c' = true.
Proof. destruct c, c'; simpl; try done. by intros [_ ->]. Qed.

Lemma cow_frame_trans e h1 h2 h3 :
  cow_frame e h1 h2 → cow_frame e h2 h3 → cow_frame e h1 h3.
Proof.
  intros [Hl1 H1] [Hl2 H2]. split; [lia|]. intros q c Hq.
  destruct (H1 _ _ Hq) as [Hq2|(He & c' & Hq2 & Hs)].
  - by apply H2.
  - destruct (H2 _ _ Hq2) as [Hq3|(He' & c'' & Hq3 & Hs')].
    + right. split; [done|]. by exists c'.
    + right. split; [done|]. exists c''. split; [done|].
      by eapply same_but_slots_trans.
Qed.

Lemma cow_frame_app e h ext : cow_frame e h (h ++ ext).
Proof.
  split; [rewrite length_app; lia|]. intros q c Hq. left.
  by apply lookup_app_l_Some.
Qed.

Lemma cow_frame_full e h h' b hs v cs :
  cow_frame e h h' → h !! b = Some (FullNode hs e v cs) →
  ∃ v' cs', h' !! b = Some (FullNode hs e v' cs').
Proof.
  intros [_ H] Hb. destruct (H _ _ Hb) as [Hb'|(_ & c' & Hb' & Hs)].
  - by exists v, cs.
  - destruct c' as [| |hs' ep' v' cs']; try done. destruct Hs as [-> ->].
    by exists v', cs'.
Qed.

Lemma alloc_Done c h a h1 :
  alloc c h = Done (a, h1) → a = length h ∧ h1 = h ++ [c].
Proof. by intros [= <- <-]. Qed.

Lemma setEdge_Done b idx x h u h' :
  setEdge b idx x h = Done (u, h') →
  ∃ hs ep v cs v' cs',
    h !! b = Some (FullNode hs ep v cs)
    ∧ h' = <[b := FullNode hs ep v' cs']> h.
Proof.
  unfold setEdge. intros Hs.
  apply bind_Done in Hs as (c & h1 & Hl & Hs).
  apply load_Done in Hl as [Hb ->].
  destruct c as [| |hs ep v cs]; try done.
  destruct (Byte.eqb idx x10).
  - rewrite (store_ok _ _ _ _ Hb) in Hs. inversion Hs. by eexists _, _, _, _, _, _.
  - destruct (bool_decide _); [|done].
    rewrite (store_ok _ _ _ _ Hb) in Hs. inversion Hs. by eexists _, _, _, _, _, _.
Qed.

Lemma setEdge_cow e b idx x h u h' hs v cs :
  h !! b = Some (FullNode hs e v cs) →
  setEdge b idx x h = Done (u, h') → cow_frame e h h'.
Proof.
  intros Hb Hs.
  apply setEdge_Done in Hs as (hs' & ep & v0 & cs0 & v' & cs' & Hb' & ->).
  rewrite Hb in Hb'. inversion Hb'; subst hs' ep v0 cs0.
  split; [by rewrite length_insert|]. intros q c Hq.
  destruct (decide (q = b)) as [->|Hne].
  - right. rewrite Hb in Hq. inversion Hq; subst c. simpl.
    split; [by apply bool_decide_eq_true_2|].
    eexists. split; [apply list_lookup_insert_eq; by eapply lookup_lt_Some|done].
  - left. by rewrite list_lookup_insert_ne.
Qed.

Lemma getEdge_Done p k h e h1 : getEdge p k h = Done (e, h1) → h1 = h.
Proof.
  unfold getEdge. intros Hg.
  apply bind_Done in Hg as (c & h2 & Hl & Hg).
  apply load_Done in Hl as [_ ->].
  destruct c as [| |hs ep v cs]; try done.
  destruct (Byte.eqb k x10); [by inversion Hg|].
  unfold lift, slot in Hg. destruct (cs !! Byte.to_nat k); by inversion Hg.
Qed.

Lemma writeNode_Done t p h b h1 :
  writeNode t p h = Done (b, h1) →
  cow_frame (epoch t) h h1
  ∧ ∃ hs v cs, h1 !! b = Some (FullNode hs (epoch t) v cs)
     ∧ ((b = p ∧ h1 = h) ∨ (b = length h ∧ hs = [])).
Proof.
  unfold writeNode. intros Hw.
  apply bind_Done in Hw as (c & h2 & Hl & Hw).
  apply load_Done in Hl as [Hp ->].
  destruct c as [| |hs ep v cs]; try done.
  case_bd (epoch t = ep) as E.
  - inversion Hw; subst b h1. split; [apply cow_frame_refl|].
    exists hs, v, cs. split; [by rewrite E|by left].
  - apply alloc_Done in Hw as [-> ->]. split; [apply cow_frame_app|].
    exists [], v, cs. split; [apply lookup_alloc|by right].
Qed.

Lemma GetNode_Done buf st h r h1 :
  GetNode buf st h = Done (r, h1) → ∃ ext, h1 = h ++ ext.
Proof.
  unfold GetNode. destruct (st (default [] buf)) as [| |nd]; [done| |].
  - intros [= _ <-]. exists []. by rewrite app_nil_r.
  - destruct (alloc_node_repr nd h) as (q & ext & Ha & _).
    rewrite (bind_step _ _ _ _ _ Ha). intros [= _ <-]. by exists ext.
Qed.

(** [insert] adds structs and writes the slots of Full nodes of the
    transaction's epoch; it writes nothing else. *)
Lemma insert_cow fuel : ∀ t n s v h r h',
  insert fuel t n s v h = Done (r, h') → cow_frame (epoch t) h h'.
Proof.
  induction fuel as [|fuel IH]; intros t n s v h r h' Hi; [done|].
  cbn [insert] in Hi. destruct n as [p|].
  2:{ destruct (bool_decide (length s = 0%nat)).
      - apply bind_Done in Hi as (a & h1 & Ha & Hi). apply alloc_Done in Ha as [-> ->].
        inversion Hi; subst. apply cow_frame_app.
      - apply bind_Done in Hi as (c & h1 & Hc & Hi). apply IH in Hc.
        apply bind_Done in Hi as (a & h2 & Ha & Hi). apply alloc_Done in Ha as [-> ->].
        inversion Hi; subst.
        eapply cow_frame_trans; [done|apply cow_frame_app]. }
  apply bind_Done in Hi as (c & h0 & Hl & Hi). apply load_Done in Hl as [Hp ->].
  destruct c as [[|] buf|hs nkey nchild|hs ep fv fcs].
  - apply bind_Done in Hi as (g & h1 & Hg & Hi). apply GetNode_Done in Hg as [ext ->].
    destruct g as [nc|].
    + apply IH in Hi. eapply cow_frame_trans; [apply cow_frame_app|done].
    + inversion Hi; subst. apply cow_frame_app.
  - destruct (bool_decide (length s = 0%nat)).
    + apply bind_Done in Hi as (a & h1 & Ha & Hi). apply alloc_Done in Ha as [-> ->].
      inversion Hi; subst. apply cow_frame_app.
    + apply bind_Done in Hi as (a & h1 & Ha & Hi). apply alloc_Done in Ha as [-> ->].
      apply IH in Hi. eapply cow_frame_trans; [apply cow_frame_app|done].
  - cbv zeta in Hi.
    destruct (bool_decide (prefixLen s nkey = length nkey)).
    + apply bind_Done in Hi as (c & h1 & Hc & Hi). apply IH in Hc.
      apply bind_Done in Hi as (a & h2 & Ha & Hi). apply alloc_Done in Ha as [-> ->].
      inversion Hi; subst.
      eapply cow_frame_trans; [done|apply cow_frame_app].
    + apply bind_Done in Hi as (b & h1 & Hb & Hi). apply alloc_Done in Hb as [-> ->].
      destruct (nkey !! prefixLen s nkey) as [edge|]; [|done].
      apply bind_Done in Hi as (u & h2 & Hset & Hi).
      assert (Hf2 : cow_frame (epoch t) h h2).
      { destruct (bool_decide (prefixLen s nkey + 1 < length nkey)%nat).
        - apply bind_Done in Hset as (a & h3 & Ha & Hset). apply alloc_Done in Ha as [-> ->].
          eapply cow_frame_trans; [apply cow_frame_app|].
          eapply cow_frame_trans; [apply cow_frame_app|].
          eapply setEdge_cow; [|done].
          rewrite lookup_app_l by (rewrite length_app; simpl; lia).
          apply lookup_alloc.
        - eapply cow_frame_trans; [apply cow_frame_app|].
          eapply setEdge_cow; [|done]. apply lookup_alloc. }
      apply bind_Done in Hi as (c & h3 & Hc & Hi). apply IH in Hc.
      assert (Hf3 : cow_frame (epoch t) h h3) by (by eapply cow_frame_trans).
      destruct (bool_decide (prefixLen s nkey = 0%nat)).
      * by inversion Hi; subst.
      * apply bind_Done in Hi as (a & h4 & Ha & Hi). apply alloc_Done in Ha as [-> ->].
        inversion Hi; subst.
        eapply cow_frame_trans; [done|apply cow_frame_app].
  - apply bind_Done in Hi as (b & h1 & Hw & Hi).
    apply writeNode_Done in Hw as (Hf1 & bhs & bv & bcs & Hb & _).
    destruct s as [|k rest].
    + apply bind_Done in Hi as (bv' & h2 & Hg & Hi). apply getEdge_Done in Hg as ->.
      apply bind_Done in Hi as (nv & h3 & Hc & Hi). apply IH in Hc.
      apply bind_Done in Hi as (u & h4 & Hset & Hi). inversion Hi; subst.
      destruct (cow_frame_full _ _ _ _ _ _ _ Hc Hb) as (v' & cs' & Hb').
      eapply cow_frame_trans; [done|].
      eapply cow_frame_trans; [done|].
      by eapply setEdge_cow.
    + apply bind_Done in Hi as (child & h2 & Hg & Hi). apply getEdge_Done in Hg as ->.
      apply bind_Done in Hi as (nc & h3 & Hc & Hi). apply IH in Hc.
      apply bind_Done in Hi as (u & h4 & Hset & Hi). inversion Hi; subst.
      destruct (cow_frame_full _ _ _ _ _ _ _ Hc Hb) as (v' & cs' & Hb').
      eapply cow_frame_trans; [done|].
      eapply cow_frame_trans; [done|].
      destruct (bool_decide (child = None)); by eapply setEdge_cow.
Qed.

Lemma Txn_Insert_cow fuel t k v h t' h' :
  Txn_Insert fuel t k v h = Done (t', h') →
  cow_frame (epoch t) h h' ∧ epoch t' = epoch t.
Proof.
  unfold Txn_Insert. intros Hi. apply bind_Done in Hi as (r & h1 & Hr & Hi). apply insert_cow in Hr.
  destruct r; inversion Hi; by subst.
Qed.

Lemma insert_all_cow fuel kvs : ∀ t h t' h',
  insert_all fuel t kvs h = Done (t', h') → cow_frame (epoch t) h h'.
Proof.
  induction kvs as [|[k v] kvs IH]; intros t h t' h' Hi; cbn [insert_all] in Hi.
  - inversion Hi. apply cow_frame_refl.
  - apply bind_Done in Hi as (t1 & h1 & H1 & Hi). apply Txn_Insert_cow in H1 as [Hf He].
    apply IH in Hi. rewrite He in Hi. by eapply cow_frame_trans.
Qed.

(** X5 (copy on write).  Inserts only add structs and write slots of Full nodes
    that carry the transaction's epoch: every struct that was in the heap
    is afterwards as it was, or it is a Full node of the transaction's
    epoch of which at most the value and child slots differ; its cached hash
    is kept.  No Short node, Value node or Full node of another epoch is
    ever written. *)
Theorem insert_writes_only_own_epoch
    (fuel : nat) (t : Txn) (kvs : list (list byte * list byte))
    (h : list cell) (t' : Txn) (h' : list cell) :
  insert_all fuel t kvs h = Done (t', h') →
  (length h ≤ length h')%nat
  ∧ ∀ q c, h !! q = Some c →
      h' !! q = Some c
      ∨ ∃ hs v cs v' cs',
          c = FullNode hs (epoch t) v cs
          ∧ h' !! q = Some (FullNode hs (epoch t) v' cs').
Proof.
  intros Hi. apply insert_all_cow in Hi as [Hlen Hf]. split; [done|].
  intros q c Hq. destruct (Hf _ _ Hq) as [?|(He & c' & Hq' & Hs)]; [by left|].
  right. destruct c as [| |hs ep v cs]; try done.
  destruct c' as [| |hs' ep' v' cs']; try done.
  destruct Hs as [-> ->]. simpl in He. apply bool_decide_eq_true_1 in He. subst ep.
  by exists hs, v, cs, v', cs'.
Qed.

Lemma insert_writes_only_own_epoch_witness :
  ∃ t' h',
    insert_all 9 (Trie_Txn two_keys_trie) [([x03], [xcc])] two_keys_heap
      = Done (t', h')
    ∧ (length two_keys_heap ≤ length h')%nat
    ∧ ∀ q c, two_keys_heap !! q = Some c →
        h' !! q = Some c
        ∨ ∃ hs v cs v' cs',
            c = FullNode hs (epoch (Trie_Txn two_keys_trie)) v cs
            ∧ h' !! q = Some (FullNode hs (epoch (Trie_Txn two_keys_trie)) v' cs').
Proof.
  eexists _, _. split; [vm_compute; reflexivity|].
  exact (insert_writes_only_own_epoch 9 (Trie_Txn two_keys_trie) [([x03], [xcc])]
           two_keys_heap _ _ eq_refl).
Defined.

Lemma cow_frame_no_epoch e h h' :
  Forall (λ c, epoch_full e c = false) h → cow_frame e h h' →
  ∃ ext, h' = h ++ ext.
Proof.
  intros Hall [Hlen Hf]. exists (drop (length h) h').
  rewrite <- (take_drop (length h) h') at 1. f_equal.
  apply list_eq. intros q. destruct (h !! q) as [c|] eqn:Hq.
  - rewrite lookup_take_lt by (by eapply lookup_lt_Some).
    destruct (Hf _ _ Hq) as [?|[He _]]; [done|].
    rewrite Forall_lookup in Hall. by rewrite (Hall _ _ Hq) in He.
  - apply lookup_ge_None in Hq. apply lookup_ge_None.
    rewrite length_take. lia.
Qed.

(** X6 (snapshots under inserts).  When no Full node of the heap carries the
    transaction's epoch (the nodes of committed tries carry earlier ones),
    inserts leave the heap as it was and only append to it, and
    [Trie.Get] on any trie, and [lookup] from any node, returns after them
    what it returned before. *)
Theorem inserts_keep_committed_tries
    (fuel : nat) (t : Txn) (kvs : list (list byte * list byte))
    (h : list cell) (t' : Txn) (h' : list cell) :
  Forall (λ c, epoch_full (epoch t) c = false) h →
  insert_all fuel t kvs h = Done (t', h') →
  (∃ ext, h' = h ++ ext)
  ∧ (∀ f old k res h2,
       Trie_Get f old k h = Done (res, h2) →
       ∃ h3, Trie_Get f old k h' = Done (res, h3))
  ∧ (∀ f t0 n key r h2,
       lookup f t0 n key h = Done (r, h2) →
       ∃ h3, lookup f t0 n key h' = Done (r, h3)).
Proof.
  intros Hall Hi. apply insert_all_cow in Hi.
  destruct (cow_frame_no_epoch _ _ _ Hall Hi) as [ext ->].
  split; [by exists ext|]. split.
  - intros f old k res h2 Hg. unfold Trie_Get in *. cbv zeta in *.
    apply bind_Done in Hg as (r & h1 & Hl & Hg). inversion Hg; subst.
    unfold Txn_Lookup in *.
    destruct (lookup_stable _ _ _ _ _ _ _ ext Hl) as [h3 Hl'].
    exists h3. by rewrite (bind_step _ _ _ _ _ Hl').
  - intros f t0 n key r h2 Hl. by eapply lookup_stable.
Qed.

Lemma inserts_keep_committed_tries_witness :
  Forall (λ c, epoch_full (epoch (Trie_Txn two_keys_trie)) c = false) two_keys_heap
  ∧ ∃ t' h',
      insert_all 9 (Trie_Txn two_keys_trie) [([x03], [xcc]); ([x01], [xdd])]
                 two_keys_heap = Done (t', h')
      ∧ (∃ ext, h' = two_keys_heap ++ ext)
      ∧ (∀ f old k res h2,
           Trie_Get f old k two_keys_heap = Done (res, h2) →
           ∃ h3, Trie_Get f old k h' = Done (res, h3))
      ∧ (∀ f t0 n key r h2,
           lookup f t0 n key two_keys_heap = Done (r, h2) →
           ∃ h3, lookup f t0 n key h' = Done (r, h3)).
Proof.
  assert (H1 : Forall (λ c, epoch_full (epoch (Trie_Txn two_keys_trie)) c = false)
                 two_keys_heap)
    by (repeat constructor).
  split; [exact H1|].
  eexists _, _. split; [vm_compute; reflexivity|].
  exact (inserts_keep_committed_tries 9 (Trie_Txn two_keys_trie)
           [([x03], [xcc]); ([x01], [xdd])] two_keys_heap _ _ H1 eq_refl).
Defined.

(** X7 (insert in place).  [insert] at a Full node that carries the
    transaction's epoch returns that same node: it is written in place, and
    its cached hash is the one it had before, whatever it was. *)
Theorem insert_in_place_keeps_hash
    (fuel : nat) (t : Txn) (p : nat) (hs : list byte) (v : option nat)
    (cs : list (option nat)) (s value : list byte) (h : list cell)
    (r : option nat) (h' : list cell) :
  h !! p = Some (FullNode hs (epoch t) v cs) →
  insert fuel t (Some p) s value h = Done (r, h') →
  r = Some p
  ∧ ∃ v' cs', h' !! p = Some (FullNode hs (epoch t) v' cs').
Proof.
  intros Hp Hi. split.
  - destruct fuel as [|fuel]; [done|]. cbn [insert] in Hi.
    rewrite (bind_step _ _ _ _ _ (load_ok _ _ _ Hp)) in Hi.
    rewrite (bind_step _ _ _ _ _ (eq_trans (writeNode_ok _ _ _ _ _ _ _ Hp)
               (decide_True _ _ eq_refl))) in Hi.
    destruct s as [|k rest].
    + apply bind_Done in Hi as (bv & h1 & H1 & Hi). apply bind_Done in Hi as (nv & h2 & H2 & Hi). apply bind_Done in Hi as (u & h3 & H3 & Hi).
      by inversion Hi.
    + apply bind_Done in Hi as (bv & h1 & H1 & Hi). apply bind_Done in Hi as (nv & h2 & H2 & Hi). apply bind_Done in Hi as (u & h3 & H3 & Hi).
      by inversion Hi.
  - apply insert_cow in Hi. by eapply cow_frame_full.
Qed.

Lemma insert_in_place_keeps_hash_witness :
  hashed_heap !! 0%nat = Some (FullNode [xab] (epoch hashed_txn) None (replicate 16 None))
  ∧ ∃ r h',
      insert 5 hashed_txn (Some 0%nat) (keybytesToHex [x01]) [xaa] hashed_heap
        = Done (r, h')
      ∧ r = Some 0%nat
      ∧ ∃ v' cs', h' !! 0%nat = Some (FullNode [xab] (epoch hashed_txn) v' cs').
Proof.
  split; [reflexivity|].
  eexists _, _. split; [vm_compute; reflexivity|].
  exact (insert_in_place_keeps_hash 5 hashed_txn 0 [xab] None (replicate 16 None)
           (keybytesToHex [x01]) [xaa] hashed_heap _ _ eq_refl eq_refl).
Defined.

Lemma run_ops_map_like fuel ops t h :
  root t = None → map_like ops →
  (∀ o, o ∈ ops → (2 * length (op_key o) + 5 ≤ fuel)%nat) →
  ∃ t' h', run_ops fuel t ops h = Done (t', h')
           ∧ txn_stores h' t' (map_ops ops ∅).
Proof.
  intros Hroot [Hst|[L HL]] Hf.
  - destruct (run_ops_stores fuel ops t h ∅ (txn_stores_empty h t Hroot) Hst Hf)
      as (t' & h' & Hr & Hs & _).
    by exists t', h'.
  - destruct ops as [|o ops].
    { exists t, h. split; [done|]. by apply txn_stores_empty. }
    assert (HfL : (2 * L + 5 ≤ fuel)%nat).
    { rewrite <- (HL o) by left. apply Hf. left. }
    destruct (run_ops_stores_len L fuel (o :: ops) t h ∅
                (txn_stores_empty h t Hroot)) as (t' & h' & Hr & Hs & _);
      try done.
    by exists t', h'.
Qed.

Lemma txn_stores_same_tree h1 t1 h2 t2 m :
  txn_stores h1 t1 m → txn_stores h2 t2 m →
  ∃ tr F1 F2, own h1 tr (root t1) F1 ∧ own h2 tr (root t2) F2
              ∧ (tr = TNil ∨ good tr).
Proof.
  intros (tr1 & F1 & Ho1 & _ & Hg1 & Hv1 & Hm1 & Hx1)
         (tr2 & F2 & Ho2 & _ & Hg2 & Hv2 & Hm2 & Hx2).
  assert (tr1 = tr2) as ->.
  { apply canonical; try done. intros s v Hs. split; intros Hl.
    - destruct (Hx1 _ _ Hs Hl) as [k ->].
      rewrite Hm1 in Hl. by rewrite Hm2.
    - destruct (Hx2 _ _ Hs Hl) as [k ->].
      rewrite Hm2 in Hl. by rewrite Hm1. }
  by exists tr2, F1, F2.
Qed.

(** X4 (the tree depends on the stored map only).  Two sequences of inserts and
    deletes that build the same map (each with deletes of stored keys only,
    or with keys of one length) leave, on transactions opened on the empty
    trie, the same tree of Short, Full and Value nodes with the same keys
    and values under the roots: the order of the operations, overwritten
    values and keys that were deleted again leave no trace in it. *)
Theorem same_map_same_tree
    (ops1 ops2 : list op) (t1 t2 : Txn) (h1 h2 : list cell) (fuel : nat) :
  root t1 = None → root t2 = None →
  map_like ops1 → map_like ops2 →
  (∀ o, o ∈ ops1 ++ ops2 → (2 * length (op_key o) + 5 ≤ fuel)%nat) →
  map_ops ops1 ∅ = map_ops ops2 ∅ →
  ∃ t1' h1' t2' h2' tr F1 F2,
    run_ops fuel t1 ops1 h1 = Done (t1', h1')
    ∧ run_ops fuel t2 ops2 h2 = Done (t2', h2')
    ∧ own h1' tr (root t1') F1
    ∧ own h2' tr (root t2') F2
    ∧ wellformed tr.
Proof.
  intros Hr1 Hr2 Hm1 Hm2 Hf Heq.
  destruct (run_ops_map_like fuel ops1 t1 h1 Hr1 Hm1) as (t1' & h1' & Hrun1 & Hs1).
  { intros o Ho. apply Hf. apply elem_of_app. by left. }
  destruct (run_ops_map_like fuel ops2 t2 h2 Hr2 Hm2) as (t2' & h2' & Hrun2 & Hs2).
  { intros o Ho. apply Hf. apply elem_of_app. by right. }
  rewrite Heq in Hs1.
  destruct (txn_stores_same_tree _ _ _ _ _ Hs1 Hs2) as (tr & F1 & F2 & Ho1 & Ho2 & Hg).
  exists t1', h1', t2', h2', tr, F1, F2. repeat split; try done.
  by apply good_wellformed.
Qed.

Lemma same_map_same_tree_witness :
  root (Trie_Txn NewTrie) = None
  ∧ map_like build_ops_1 ∧ map_like build_ops_2
  ∧ (∀ o, o ∈ build_ops_1 ++ build_ops_2 → (2 * length (op_key o) + 5 ≤ 9)%nat)
  ∧ map_ops build_ops_1 ∅ = map_ops build_ops_2 ∅
  ∧ ∃ t1' h1' t2' h2' tr F1 F2,
      run_ops 9 (Trie_Txn NewTrie) build_ops_1 [] = Done (t1', h1')
      ∧ run_ops 9 (Trie_Txn NewTrie) build_ops_2 [] = Done (t2', h2')
      ∧ own h1' tr (root t1') F1
      ∧ own h2' tr (root t2') F2
      ∧ wellformed tr.
Proof.
  assert (H1 : root (Trie_Txn NewTrie) = None) by reflexivity.
  assert (H2 : map_like build_ops_1) by (left; repeat split).
  assert (H3 : map_like build_ops_2) by (left; repeat split; vm_compute; eauto).
  assert (H4 : ∀ o, o ∈ build_ops_1 ++ build_ops_2 →
                    (2 * length (op_key o) + 5 ≤ 9)%nat).
  { intros o Hin. unfold build_ops_1, build_ops_2 in Hin. simpl in Hin.
    rewrite !elem_of_cons, elem_of_nil in Hin.
    destruct Hin as [->|[->|[->|[->|[->|[->|[->|[]]]]]]]]; simpl; lia. }
  assert (H5 : map_ops build_ops_1 ∅ = map_ops build_ops_2 ∅).
  { apply map_eq. intros k. unfold map_ops, build_ops_1, build_ops_2. simpl.
    destruct (decide (k = [x02])) as [->|N2].
    { by rewrite !lookup_insert_eq. }
    rewrite !(lookup_insert_ne _ [x02]) by done.
    destruct (decide (k = [x03])) as [->|N3].
    { rewrite lookup_delete_eq. by rewrite lookup_insert_ne. }
    rewrite lookup_delete_ne by done.
    destruct (decide (k = [x01])) as [->|N1].
    { by rewrite !lookup_insert_eq. }
    rewrite !(lookup_insert_ne _ [x01]) by done.
    rewrite !(lookup_insert_ne _ [x03]) by done.
    by rewrite !(lookup_insert_ne _ [x02]) by done. }
  split; [exact H1|]. split; [exact H2|]. split; [exact H3|].
  split; [exact H4|]. split; [exact H5|].
  exact (same_map_same_tree build_ops_1 build_ops_2 (Trie_Txn NewTrie)
           (Trie_Txn NewTrie) [] [] 9 H1 H1 H2 H3 H4 H5).
Defined.

(** ** prefixLen *)

Lemma prefixLen_unique k1 : ∀ k2 n,
  (n ≤ length k1)%nat → (n ≤ length k2)%nat →
  take n k1 = take n k2 →
  (∀ a b, k1 !! n = Some a → k2 !! n = Some b → a ≠ b) →
  prefixLen k1 k2 = n.
Proof.
  induction k1 as [|a k1 IH]; intros k2 n H1 H2 Ht Hd.
  - simpl in H1. by assert (n = 0%nat) as -> by lia.
  - destruct k2 as [|b k2].
    { simpl in H2. by assert (n = 0%nat) as -> by lia. }
    destruct n as [|n]; simpl.
    + rewrite byte_eqb_neq; [done|]. by apply Hd.
    + simpl in Ht. inversion Ht; subst b. rewrite byte_eqb_refl. f_equal.
      apply IH; simpl in *; try lia; done.
Qed.

(** X8 (prefixLen).  [prefixLen(k1, k2)] is the length of the longest
    common prefix: [n] is its result exactly when [n] is at most both lengths, the slices agree
    on their first [n] bytes, and they differ at index [n] if both reach
    it. *)
Theorem prefixLen_spec (k1 k2 : list byte) (n : nat) :
  prefixLen k1 k2 = n ↔
    (n ≤ length k1)%nat ∧ (n ≤ length k2)%nat
    ∧ take n k1 = take n k2
    ∧ ∀ a b, k1 !! n = Some a → k2 !! n = Some b → a ≠ b.
Proof.
  split.
  - intros <-. split; [apply prefixLen_le_l|]. split; [apply prefixLen_le_r|].
    split; [apply prefixLen_take|]. apply prefixLen_differ.
  - intros (H1 & H2 & H3 & H4). by apply prefixLen_unique.
Qed.

(** ** What [Trie.Commit] hands back *)

Lemma Txn_Insert_epoch fuel t k v h t' h' :
  Txn_Insert fuel t k v h = Done (t', h') →
  epoch t' = epoch t ∧ storage t' = storage t.
Proof.
  unfold Txn_Insert. intros Hi.
  apply bind_Done in Hi as (r & h1 & _ & Hi).
  destruct r; inversion Hi; by subst.
Qed.

Lemma Txn_Delete_epoch fuel t k h t' h' :
  Txn_Delete fuel t k h = Done (t', h') →
  epoch t' = epoch t ∧ storage t' = storage t.
Proof.
  unfold Txn_Delete. intros Hd.
  apply bind_Done in Hd as ([r ok] & h1 & _ & Hd).
  destruct ok; inversion Hd; by subst.
Qed.

Section commit_result.
Context `{Externals}.

Lemma spec_storage_kept fuel b a w h a' w' h' :
  spec_storage fuel b a w h = Done ((a', w'), h') →
  a' = a ∨ (is_Some (so_Txn a) ∧ ∃ r, a' = set_Root a r).
Proof.
  unfold spec_storage. destruct (so_Txn a) as [changes|] eqn:Hc.
  2:{ intros [= <- _ _]. by left. }
  intros Hs. right. split; [done|].
  apply bindW_Done in Hs as (sub & w1 & h1 & _ & Hs).
  apply bindW_Done in Hs as (r & w2 & h2 & _ & Hs).
  apply bindW_Done in Hs as (u & w3 & h3 & _ & Hs).
  inversion Hs; subst. by eexists.
Qed.

Lemma spec_account_kept fuel b outer k a w h outer' a' w' h' :
  spec_account fuel b outer k a w h = Done (((outer', a'), w'), h') →
  epoch outer' = epoch outer
  ∧ (a' = a ∨ (Deleted a = false ∧ is_Some (so_Txn a) ∧ ∃ r, a' = set_Root a r)).
Proof.
  unfold spec_account. destruct (Deleted a) eqn:Hd.
  - intros Hs. apply bindW_Done in Hs as (o & w1 & h1 & Hdel & Hs).
    apply liftW_Done in Hdel as [Hdel ->]. inversion Hs; subst.
    split; [by apply Txn_Delete_epoch in Hdel as [? _]|by left].
  - intros Hs. apply bindW_Done in Hs as (a1 & w1 & h1 & Hst & Hs).
    apply bindW_Done in Hs as (u & w2 & h2 & _ & Hs).
    apply bindW_Done in Hs as (o & w3 & h3 & Hi & Hs).
    apply liftW_Done in Hi as [Hi ->]. inversion Hs; subst.
    split; [by apply Txn_Insert_epoch in Hi as [? _]|].
    apply spec_storage_kept in Hst as [->|[? ?]]; [by left|by right].
Qed.

Lemma spec_accounts_kept fuel b x : ∀ outer w h outer' x' w' h',
  spec_accounts fuel b outer x w h = Done (((outer', x'), w'), h') →
  epoch outer' = epoch outer ∧ Forall2 entry_kept x x'.
Proof.
  induction x as [|[k [a|]] x IH]; intros outer w h outer' x' w' h' Hs;
    cbn [spec_accounts] in Hs.
  - inversion Hs; subst. split; [done|constructor].
  - apply bindW_Done in Hs as ([o1 a1] & w1 & h1 & Ha & Hs).
    apply bindW_Done in Hs as ([o2 x2] & w2 & h2 & Hx & Hs).
    inversion Hs; subst.
    apply spec_account_kept in Ha as [He1 Hk].
    apply IH in Hx as [He2 Hf].
    split; [congruence|]. constructor; [|done].
    split; [done|]. simpl. destruct Hk as [->|(? & ? & r & ->)]; [by left|].
    right. repeat split; try done. by exists r.
  - apply bindW_Done in Hs as ([o2 x2] & w2 & h2 & Hx & Hs).
    inversion Hs; subst. apply IH in Hx as [He Hf].
    split; [done|]. by constructor.
Qed.

(** X9 (what [Trie.Commit] hands back).  The new trie carries the epoch after
    that of the trie it was called on (in [uint32]) and the same store;
    the commit has opened one batch; and the change set comes back with
    the same keys in the same order and the same entries, except that
    accounts which are not deleted and have pending storage changes have a
    new storage root.  No other field of a state object is written, the
    sub-trie of the account among them. *)
Theorem commit_hands_back
    (fuel : nat) (t : Trie) (x : list (list byte * entry))
    (w : world) (h : list cell)
    (nTrie : Trie) (rh : list byte) (x' : list (list byte * entry))
    (w' : world) (h' : list cell) :
  Trie_Commit fuel t x w h = Done (((nTrie, rh, x'), w'), h') →
  trie_epoch nTrie = uint32 (trie_epoch t + 1)
  ∧ trie_storage nTrie = trie_storage t
  ∧ next_batch w' = S (next_batch w)
  ∧ Forall2 entry_kept x x'.
Proof.
  intros Hc. unfold Trie_Commit in Hc.
  apply bindW_Done in Hc as (b0 & w0 & h0 & Hb & Hc).
  inversion Hb; subst b0 w0 h0. clear Hb.
  apply bindW_Done in Hc as ([outer' x1] & w1 & h1 & Hw & Hc).
  rewrite Walk_commit_entry in Hw.
  apply bindW_Done in Hc as (r & w2 & h2 & Hh & Hc).
  apply bindW_Done in Hc as (u1 & w3 & h3 & He1 & Hc).
  apply bindW_Done in Hc as (u2 & w4 & h4 & He2 & Hc).
  inversion He1; subst u1 w3 h3. inversion He2; subst u2 w4 h4.
  inversion Hc; subst. clear He1 He2 Hc.
  destruct (spec_accounts_grows _ _ _ _ _ _ _ _ _ _ Hw) as [[Hn _] _].
  destruct (spec_accounts_kept _ _ _ _ _ _ _ _ _ _ Hw) as [He Hf].
  apply Txn_Hash_Done in Hh as (puts & _ & Hn2 & _).
  split; [by rewrite He|]. split; [done|]. split; [|done].
  cbn [next_batch] in *. by rewrite Hn2, Hn.
Qed.

End commit_result.

Lemma commit_hands_back_witness :
  Trie_Commit (H:=sample_externals) 9 NewTrie sample_changes (mkWorld 0 []) []
    = Done (((sample_committed, [x03], sample_changes_after),
             sample_world_after), sample_heap_after)
  ∧ trie_epoch sample_committed = uint32 (trie_epoch NewTrie + 1)
  ∧ trie_storage sample_committed = trie_storage NewTrie
  ∧ next_batch sample_world_after = S (next_batch (mkWorld 0 []))
  ∧ Forall2 entry_kept sample_changes sample_changes_after.
Proof.
  assert (Hrun :
    Trie_Commit (H:=sample_externals) 9 NewTrie sample_changes (mkWorld 0 []) []
    = Done (((sample_committed, [x03], sample_changes_after),
             sample_world_after), sample_heap_after))
    by (vm_compute; reflexivity).
  split; [exact Hrun|].
  exact (@commit_hands_back sample_externals 9 NewTrie sample_changes
           (mkWorld 0 []) [] _ _ _ _ _ Hrun).
Defined.

(** ** The hash cache *)

Lemma extendByteSlice_ok spare b needLen :
  slice_ok (extendByteSlice spare b needLen)
  ∧ slen (extendByteSlice spare b needLen) = needLen
  ∧ ((needLen ≤ length (arr b))%nat →
       arr (extendByteSlice spare b needLen) = arr b).
Proof.
  unfold extendByteSlice, slice_ok. cbn [arr slen].
  case_bd (0 < needLen - length (arr b))%nat as E; cbn [arr slen].
  - split; [|split; [done|lia]].
    rewrite !length_app, !length_replicate. lia.
  - split; [lia|]. done.
Qed.

(** X10 (the hash cache).  After [SetHash(b)], whatever the cache
    held and whatever its capacity, [Hash()] returns the bytes of [b], and
    reports a hash exactly when [b] is not empty; the cache is a well-formed
    slice again, and when [b] fits the capacity the backing array is the
    old one with [b] written over its first bytes, so nothing is
    allocated.  After the reset of [delete], [Hash()] reports no hash and
    the array is kept. *)
Theorem SetHash_Hash_roundtrip (spare : nat) (hash : slice) (b : list byte) :
  Hash (SetHash spare hash b) = (b, bool_decide (b ≠ []))
  ∧ slice_ok (SetHash spare hash b)
  ∧ ((length b ≤ length (arr hash))%nat →
       arr (SetHash spare hash b) = b ++ drop (length b) (arr hash))
  ∧ Hash (reset (SetHash spare hash b)) = ([], false)
  ∧ arr (reset (SetHash spare hash b)) = arr (SetHash spare hash b).
Proof.
  destruct (extendByteSlice_ok spare hash (length b)) as (Hok' & Hlen & Harr).
  unfold SetHash, copy.
  set (e := extendByteSlice spare hash (length b)) in *.
  rewrite Hlen, Nat.min_id, firstn_all.
  unfold Hash, contents, slice_ok, reset. cbn [arr slen].
  unfold slice_ok in Hok'. rewrite Hlen in Hok'.
  split; [|split; [|split; [|done]]].
  - rewrite take_app_length. f_equal.
    apply bool_decide_ext. by destruct b.
  - rewrite length_app, length_drop. lia.
  - intros Hfit. by rewrite (Harr Hfit).
Qed.

(** ** Hash references *)

(** X11 (looking through a hash reference).  A hash reference whose stored node
    is [nd] answers every lookup as a copy of [nd] in memory answers it:
    whether a subtree is held in memory or left in the store makes no
    difference to [lookup]. *)
Theorem lookup_through_reference
    (fuel : nat) (t : Txn) (p : nat) (buf : option (list byte)) (nd : dnode)
    (q : option nat) (key : list byte) (h : list cell)
    (r : option (list byte)) (h1 : list cell) :
  h !! p = Some (ValueNode true buf) →
  storage t (default [] buf) = GetOk nd →
  reprD h nd q →
  lookup fuel t q key h = Done (r, h1) →
  ∃ h2, lookup (S fuel) t (Some p) key h = Done (r, h2).
Proof.
  intros Hp Hst Hrep Hl.
  pose proof (lookup_reprD fuel t nd h q key Hrep) as Hq. rewrite Hl in Hq.
  cbn [lookup]. rewrite (bind_step _ _ _ _ _ (load_ok _ _ _ Hp)).
  unfold GetNode. rewrite Hst.
  destruct (alloc_node_repr nd h) as (q' & ext & Ha & Hrep').
  unfold bind at 1. rewrite (bind_step _ _ _ _ _ Ha).
  unfold ret. cbv beta iota.
  pose proof (lookup_reprD fuel t nd _ q' key Hrep') as Hq'.
  destruct (lookupD fuel (storage t) nd key) as [x| |]; simpl in *.
  - destruct Hq as [e1 Hq]. inversion Hq; subst.
    destruct Hq' as [e2 ->]. by eexists.
  - done.
  - done.
Qed.

Lemma lookup_through_reference_witness :
  leaf_and_reference !! 0%nat = Some (ValueNode true (Some [x01; x02]))
  ∧ reprD leaf_and_reference (DShort [] [x00; x01; x10] (DValue false (Some [xaa])))
          (Some 2%nat)
  ∧ lookup 3 (hashref_txn leaf_storage) (Some 2%nat) (keybytesToHex [x01])
           leaf_and_reference = Done (Some [xaa], leaf_and_reference)
  ∧ ∃ h2, lookup 4 (hashref_txn leaf_storage) (Some 0%nat) (keybytesToHex [x01])
                 leaf_and_reference = Done (Some [xaa], h2).
Proof.
  assert (H1 : leaf_and_reference !! 0%nat = Some (ValueNode true (Some [x01; x02])))
    by reflexivity.
  assert (H2 : reprD leaf_and_reference
                 (DShort [] [x00; x01; x10] (DValue false (Some [xaa]))) (Some 2%nat)).
  { exists 2%nat, (Some 1%nat). split; [done|]. split; [done|]. by exists 1%nat. }
  assert (H3 : lookup 3 (hashref_txn leaf_storage) (Some 2%nat) (keybytesToHex [x01])
                 leaf_and_reference = Done (Some [xaa], leaf_and_reference))
    by reflexivity.
  split; [exact H1|]. split; [exact H2|]. split; [exact H3|].
  exact (lookup_through_reference 3 (hashref_txn leaf_storage) 0 (Some [x01; x02])
           _ (Some 2%nat) (keybytesToHex [x01]) leaf_and_reference _ _
           H1 eq_refl H2 H3).
Defined.

(** ** Writes stay inside the trie *)

Lemma run_ops_frame fuel ops : ∀ t h tr F,
  own h tr (root t) F → NoDup F → (tr = TNil ∨ good tr) →
  (∀ o, o ∈ ops → (2 * length (op_key o) + 5 ≤ fuel)%nat) →
  ∃ t' h' tr' F',
    run_ops fuel t ops h = Done (t', h')
    ∧ own h' tr' (root t') F' ∧ NoDup F' ∧ (tr' = TNil ∨ good tr')
    ∧ (∀ q, q ∈ F' → q ∈ F ∨ (length h ≤ q)%nat)
    ∧ (∀ q, (q < length h)%nat → q ∉ F → h' !! q = h !! q)
    ∧ (length h ≤ length h')%nat.
Proof.
  induction ops as [|o ops IH]; intros t h tr F Ho Hnd Hg Hf.
  - exists t, h, tr, F. repeat split; try done. by left.
  - assert (Hfo : (2 * length (op_key o) + 5 ≤ fuel)%nat)
      by (apply Hf; left).
    assert (Hfr : ∀ o', o' ∈ ops → (2 * length (op_key o') + 5 ≤ fuel)%nat)
      by (intros; apply Hf; by right).
    assert (Hstep : ∃ t1 h1 tr1 F1,
      (match o with
       | OpInsert k v => Txn_Insert fuel t k v
       | OpDelete k => Txn_Delete fuel t k
       end) h = Done (t1, h1)
      ∧ own h1 tr1 (root t1) F1 ∧ NoDup F1 ∧ (tr1 = TNil ∨ good tr1)
      ∧ (∀ q, q ∈ F1 → q ∈ F ∨ (length h ≤ q)%nat)
      ∧ (∀ q, (q < length h)%nat → q ∉ F → h1 !! q = h !! q)
      ∧ (length h ≤ length h1)%nat).
    { destruct o as [k v|k]; cbn [op_key] in Hfo.
      - destruct (insertA_good tr Hg (keybytesToHex k) v (keybytesToHex_tkey k))
          as (tr' & Hins & Hg' & _).
        assert (Hfuel : (length (keybytesToHex k) + 4 ≤ fuel)%nat)
          by (rewrite length_keybytesToHex; lia).
        destruct (insert_refine tr fuel t h (root t) F _ v tr' Ho Hnd Hins Hfuel)
          as (p' & h' & F' & Hrun & Ho' & Hnd' & Hin & Hfr' & Hlen).
        exists (mkTxn (Some p') (epoch t) (storage t) (batch t)), h', tr', F'.
        split; [unfold Txn_Insert; by rewrite (bind_step _ _ _ _ _ Hrun)|].
        repeat split; try done. by right.
      - destruct (deleteA_good tr Hg _ (keybytesToHex_tkey k))
          as (tr' & ok & Hdel & Hg').
        assert (Hfuel : (length (keybytesToHex k) + 1 ≤ fuel)%nat)
          by (rewrite length_keybytesToHex; lia).
        destruct (delete_refine tr fuel t h (root t) F _ tr' ok Ho Hnd Hdel Hfuel)
          as (n' & h' & Hrun & Hres & Hfr' & Hlen).
        unfold Txn_Delete. rewrite (bind_step _ _ _ _ _ Hrun). cbv beta iota.
        destruct ok.
        + destruct Hres as (F' & Ho' & Hnd' & Hin).
          eexists _, h', tr', F'. split; [done|]. repeat split; done.
        + destruct Hres as [-> Ho'].
          eexists _, h', tr, F. split; [done|]. repeat split; try done.
          by left. }
    destruct Hstep as (t1 & h1 & tr1 & F1 & Hr1 & Ho1 & Hnd1 & Hg1 & Hin1 & Hfr1 & Hl1).
    destruct (IH t1 h1 tr1 F1 Ho1 Hnd1 Hg1 Hfr)
      as (t' & h' & tr' & F' & Hr' & Ho' & Hnd' & Hg' & Hin' & Hfr' & Hl').
    exists t', h', tr', F'. split.
    { destruct o; cbn [run_ops]; by rewrite (bind_step _ _ _ _ _ Hr1). }
    repeat split; try done; [| |lia].
    + intros q Hq. destruct (Hin' _ Hq) as [Hq1|Hq1]; [|right; lia].
      by apply Hin1.
    + intros q Hq HqF. rewrite Hfr'; [by apply Hfr1|lia|].
      intros Hq1. destruct (Hin1 _ Hq1); [done|lia].
Qed.

(** X12 (writes stay inside the trie).  Inserts and deletes on a transaction
    whose root is a trie built from byte keys, laid out as a tree in the
    structs [F], run to the end and write only structs of [F] and structs
    they add: every other struct of the heap, such as the nodes of a trie
    that shares no node with this one, is left as it is. *)
Theorem writes_stay_inside_the_trie
    (fuel : nat) (ops : list op) (t : Txn) (h : list cell)
    (tr : tree) (F : list nat) :
  own h tr (root t) F → NoDup F → (tr = TNil ∨ good tr) →
  (∀ o, o ∈ ops → (2 * length (op_key o) + 5 ≤ fuel)%nat) →
  ∃ t' h',
    run_ops fuel t ops h = Done (t', h')
    ∧ (length h ≤ length h')%nat
    ∧ ∀ q, (q < length h)%nat → q ∉ F → h' !! q = h !! q.
Proof.
  intros Ho Hnd Hg Hf.
  destruct (run_ops_frame fuel ops t h tr F Ho Hnd Hg Hf)
    as (t' & h' & tr' & F' & Hr & _ & _ & _ & _ & Hfr & Hl).
  by exists t', h'.
Qed.

Lemma writes_stay_inside_the_trie_witness :
  own two_keys_heap TNil (root (Trie_Txn NewTrie)) []
  ∧ NoDup ([] : list nat)
  ∧ (∀ o, o ∈ sample_ops → (2 * length (op_key o) + 5 ≤ 9)%nat)
  ∧ ∃ t' h',
      run_ops 9 (Trie_Txn NewTrie) sample_ops two_keys_heap = Done (t', h')
      ∧ (length two_keys_heap ≤ length h')%nat
      ∧ ∀ q, (q < length two_keys_heap)%nat → q ∉ ([] : list nat) →
             h' !! q = two_keys_heap !! q.
Proof.
  assert (H1 : own two_keys_heap TNil (root (Trie_Txn NewTrie)) []) by done.
  assert (H2 : NoDup ([] : list nat)) by constructor.
  assert (H3 : ∀ o, o ∈ sample_ops → (2 * length (op_key o) + 5 ≤ 9)%nat).
  { intros o Hin. unfold sample_ops in Hin.
    rewrite !elem_of_cons, elem_of_nil in Hin.
    destruct Hin as [->|[->|[->|[->|[->|[]]]]]]; simpl; lia. }
  split; [exact H1|]. split; [exact H2|]. split; [exact H3|].
  exact (writes_stay_inside_the_trie 9 sample_ops (Trie_Txn NewTrie) two_keys_heap
           TNil [] H1 H2 (or_introl eq_refl) H3).
Defined.

(** ** Cached hashes under [delete] *)

Lemma clears_refl h : clears h h.
Proof. split; [done|]. intros q c Hq. exists c. split; [done|by left]. Qed.

Lemma clears_trans h1 h2 h3 : clears h1 h2 → clears h2 h3 → clears h1 h3.
Proof.
  intros [Hl1 H1] [Hl2 H2]. split; [lia|]. intros q c Hq.
  destruct (H1 _ _ Hq) as (c' & Hq' & Hc').
  destruct (H2 _ _ Hq') as (c'' & Hq'' & Hc'').
  exists c''. split; [done|].
  destruct Hc'' as [E|E]; [|by right]. rewrite E. done.
Qed.

Lemma clears_app h ext : clears h (h ++ ext).
Proof.
  split; [rewrite length_app; lia|]. intros q c Hq. exists c.
  split; [by apply lookup_app_l_Some|by left].
Qed.

Lemma clears_insert h p c c' :
  h !! p = Some c → (cell_hash c' = cell_hash c ∨ cell_hash c' = []) →
  clears h (<[p := c']> h).
Proof.
  intros Hp Hc. split; [by rewrite length_insert|]. intros q c0 Hq.
  destruct (decide (q = p)) as [->|Hne].
  - rewrite Hp in Hq. inversion Hq; subst c0. exists c'.
    split; [apply list_lookup_insert_eq; by eapply lookup_lt_Some|done].
  - exists c0. split; [by rewrite list_lookup_insert_ne|by left].
Qed.

Lemma clears_unhashed h h' q : clears h h' → unhashed h q → unhashed h' q.
Proof.
  intros [_ H] (c & Hq & Hc). destruct (H _ _ Hq) as (c' & Hq' & Hc').
  exists c'. split; [done|]. destruct Hc' as [E|E]; [by rewrite E|done].
Qed.

Lemma unhashed_alloc h c : cell_hash c = [] → unhashed (h ++ [c]) (length h).
Proof. intros Hc. exists c. split; [apply lookup_alloc|done]. Qed.

Lemma resetHash_Done p h u h' :
  resetHash p h = Done (u, h') → clears h h' ∧ unhashed h' p.
Proof.
  unfold resetHash. intros Hr.
  apply bind_Done in Hr as (c & h1 & Hl & Hr).
  apply load_Done in Hl as [Hp ->].
  pose proof (lookup_lt_Some _ _ _ Hp) as Hlt.
  destruct c as [|hs k c|hs ep v cs]; [done| |];
    rewrite (store_ok _ _ _ _ Hp) in Hr; inversion Hr; subst; split.
  - eapply clears_insert; [done|by right].
  - eexists. split; [by apply list_lookup_insert_eq|done].
  - eapply clears_insert; [done|by right].
  - eexists. split; [by apply list_lookup_insert_eq|done].
Qed.

Lemma setChild_Done p e h u h' : setChild p e h = Done (u, h') → clears h h'.
Proof.
  unfold setChild. intros Hr.
  apply bind_Done in Hr as (c & h1 & Hl & Hr).
  apply load_Done in Hl as [Hp ->].
  destruct c as [|hs k c|]; try done.
  rewrite (store_ok _ _ _ _ Hp) in Hr. inversion Hr; subst.
  eapply clears_insert; [done|by left].
Qed.

Lemma setKey_Done p k h u h' : setKey p k h = Done (u, h') → clears h h'.
Proof.
  unfold setKey. intros Hr.
  apply bind_Done in Hr as (c & h1 & Hl & Hr).
  apply load_Done in Hl as [Hp ->].
  destruct c as [|hs k0 c|]; try done.
  rewrite (store_ok _ _ _ _ Hp) in Hr. inversion Hr; subst.
  eapply clears_insert; [done|by left].
Qed.

Lemma setEdge_clears b idx x h u h' : setEdge b idx x h = Done (u, h') → clears h h'.
Proof.
  intros Hs.
  apply setEdge_Done in Hs as (hs & ep & v & cs & v' & cs' & Hb & ->).
  eapply clears_insert; [done|by left].
Qed.

Lemma collapseFull_clears t p h r ok h' :
  collapseFull t p h = Done ((r, ok), h') → unhashed h p →
  clears h h' ∧ ∀ q, r = Some q → unhashed h' q.
Proof.
  unfold collapseFull. intros Hc Hp.
  apply bind_Done in Hc as (c & h0 & Hl & Hc).
  apply load_Done in Hl as [Hpc ->].
  destruct c as [| |hs ep value children]; try done.
  destruct (scanChildren children 0 (-1)) as [indx notEmpty0].
  destruct (notEmpty0 || _).
  { inversion Hc; subst. split; [apply clears_refl|]. by intros q [= <-]. }
  destruct (bool_decide (indx = -1)).
  { destruct (bool_decide (value = None)).
    - inversion Hc; subst. split; [apply clears_refl|]. done.
    - apply bind_Done in Hc as (s & h1 & Ha & Hc).
      apply alloc_Done in Ha as [-> ->]. inversion Hc; subst.
      split; [apply clears_app|]. intros q [= <-]. by apply unhashed_alloc. }
  destruct (children !! Z.to_nat indx) as [nc0|]; [|done].
  apply bind_Done in Hc as (rr & h1 & Hres & Hc).
  assert (Hc1 : clears h h1).
  { destruct nc0 as [q0|]; [|inversion Hres; apply clears_refl].
    apply bind_Done in Hres as (c0 & h2 & Hl & Hres).
    apply load_Done in Hl as [_ ->].
    destruct c0 as [[|] buf| |];
      try (inversion Hres; subst; apply clears_refl).
    apply GetNode_Done in Hres as [ext ->]. apply clears_app. }
  destruct rr as [nc|].
  2:{ inversion Hc; subst. split; [done|]. done. }
  assert (Hfresh : ∀ h2, 
    (let* s := alloc (ShortNode [] [byte_of_Z indx] nc) in ret (Some s, true)) h1
      = Done ((r, ok), h2) →
    clears h h2 ∧ ∀ q, r = Some q → unhashed h2 q).
  { intros h2 Hf. apply bind_Done in Hf as (s & h3 & Ha & Hf).
    apply alloc_Done in Ha as [-> ->]. inversion Hf; subst.
    split; [eapply clears_trans; [done|apply clears_app]|].
    intros q [= <-]. by apply unhashed_alloc. }
  cbv zeta in Hc.
  destruct nc as [q1|]; [|by apply Hfresh].
  apply bind_Done in Hc as (c1 & h2 & Hl & Hc).
  apply load_Done in Hl as [Hq1 ->].
  destruct c1 as [|hs1 okey oc|].
  - apply Hfresh. unfold bind at 1. by rewrite alloc_ok.
  - apply bind_Done in Hc as (u1 & h3 & Hk & Hc). apply setKey_Done in Hk.
    apply bind_Done in Hc as (u2 & h4 & Hr & Hc).
    apply resetHash_Done in Hr as [Hr Hu]. inversion Hc; subst.
    split; [|by intros q [= <-]].
    eapply clears_trans; [done|]. by eapply clears_trans.
  - apply Hfresh. unfold bind at 1. by rewrite alloc_ok.
Qed.

(** [delete] fills no cached hash, and the node it returns has none. *)
Lemma delete_clears fuel : ∀ t n s h r ok h',
  delete fuel t n s h = Done ((r, ok), h') →
  clears h h' ∧ ∀ q, r = Some q → unhashed h' q.
Proof.
  induction fuel as [|fuel IH]; intros t n s h r ok h' Hd; [done|].
  cbn [delete] in Hd. destruct n as [p|].
  2:{ inversion Hd; subst. split; [apply clears_refl|done]. }
  apply bind_Done in Hd as (c & h0 & Hl & Hd).
  apply load_Done in Hl as [Hp ->].
  destruct c as [[|] buf|hs nkey nchild|hs ep fv fcs].
  - apply bind_Done in Hd as (g & h1 & Hg & Hd).
    apply GetNode_Done in Hg as [ext ->].
    destruct g as [nc|].
    + apply IH in Hd as [Hc Hu].
      split; [eapply clears_trans; [apply clears_app|done]|done].
    + inversion Hd; subst. split; [apply clears_app|done].
  - destruct (bool_decide (length s ≠ 0%nat)); inversion Hd; subst;
      (split; [apply clears_refl|done]).
  - apply bind_Done in Hd as (u & h1 & Hr & Hd).
    apply resetHash_Done in Hr as [Hc1 Hu1]. cbv zeta in Hd.
    destruct (bool_decide (prefixLen s nkey = length s)).
    { inversion Hd; subst. split; [done|done]. }
    destruct (bool_decide (prefixLen s nkey = 0%nat)).
    { inversion Hd; subst. split; [done|done]. }
    apply bind_Done in Hd as ([child okc] & h2 & Hrec & Hd).
    apply IH in Hrec as [Hc2 Hu2].
    assert (Hc12 : clears h h2) by (by eapply clears_trans).
    destruct okc; simpl in Hd.
    2:{ inversion Hd; subst. split; [done|done]. }
    destruct child as [q|].
    2:{ inversion Hd; subst. split; [done|done]. }
    apply bind_Done in Hd as (cq & h3 & Hl & Hd).
    apply load_Done in Hl as [Hq ->].
    destruct cq as [|hsq skey schild|].
    + apply bind_Done in Hd as (u2 & h4 & Hs & Hd). apply setChild_Done in Hs.
      inversion Hd; subst. split; [by eapply clears_trans|].
      intros q' [= <-].
      exact (clears_unhashed _ _ _ Hs (clears_unhashed _ _ _ Hc2 Hu1)).
    + apply bind_Done in Hd as (n' & h4 & Hl & Hd).
      apply load_Done in Hl as [Hp' ->].
      destruct n' as [|hs' nkey' nchild'|]; try done.
      apply bind_Done in Hd as (a & h5 & Ha & Hd).
      apply alloc_Done in Ha as [-> ->]. inversion Hd; subst.
      split; [eapply clears_trans; [done|apply clears_app]|].
      intros q' [= <-]. by apply unhashed_alloc.
    + apply bind_Done in Hd as (u2 & h4 & Hs & Hd). apply setChild_Done in Hs.
      inversion Hd; subst. split; [by eapply clears_trans|].
      intros q' [= <-].
      exact (clears_unhashed _ _ _ Hs (clears_unhashed _ _ _ Hc2 Hu1)).
  - apply bind_Done in Hd as (u & h1 & Hr & Hd).
    apply resetHash_Done in Hr as [Hc1 Hu1].
    destruct s as [|key rest]; [done|].
    apply bind_Done in Hd as (e & h2 & Hg & Hd). apply getEdge_Done in Hg as ->.
    apply bind_Done in Hd as ([newChild okc] & h3 & Hrec & Hd).
    apply IH in Hrec as [Hc2 Hu2].
    destruct okc; simpl in Hd.
    2:{ inversion Hd; subst. split; [by eapply clears_trans|done]. }
    apply bind_Done in Hd as (u2 & h4 & Hs & Hd). apply setEdge_clears in Hs.
    apply collapseFull_clears in Hd as [Hc3 Hu3].
    2:{ exact (clears_unhashed _ _ _ Hs (clears_unhashed _ _ _ Hc2 Hu1)). }
    split; [|done].
    eapply clears_trans; [done|]. eapply clears_trans; [done|].
    by eapply clears_trans.
Qed.

(** X13 (cached hashes under delete).  [Txn.Delete] fills no cached hash: every
    node that was in the heap is still there, with the cached hash it had or
    with none.  The Short or Full node at which the delete starts loses its
    cached hash, whether or not the delete changes the trie, and a new root
    of the transaction has none. *)
Theorem delete_clears_cached_hashes
    (fuel : nat) (t : Txn) (k : list byte) (h : list cell)
    (t' : Txn) (h' : list cell) :
  Txn_Delete fuel t k h = Done (t', h') →
  (∀ q c, h !! q = Some c →
     ∃ c', h' !! q = Some c'
           ∧ (cell_hash c' = cell_hash c ∨ cell_hash c' = []))
  ∧ (∀ p c, root t = Some p → h !! p = Some c →
       (∀ b buf, c ≠ ValueNode b buf) →
       ∃ c', h' !! p = Some c' ∧ cell_hash c' = [])
  ∧ (∀ p', root t' = Some p' → root t' ≠ root t →
       ∃ c', h' !! p' = Some c' ∧ cell_hash c' = []).
Proof.
  unfold Txn_Delete. intros Hd.
  apply bind_Done in Hd as ([r ok] & h1 & Hrun & Hd).
  assert (h1 = h') as -> by (destruct ok; by inversion Hd).
  pose proof (delete_clears _ _ _ _ _ _ _ _ Hrun) as [Hc Hu].
  split; [apply Hc|].
  assert (Hold : ∀ p c, root t = Some p → h !! p = Some c →
                 (∀ b buf, c ≠ ValueNode b buf) → unhashed h' p).
  { intros p c Hroot Hp Hnv. destruct fuel as [|fuel]; [done|].
    rewrite Hroot in Hrun. cbn [delete] in Hrun.
    rewrite (bind_step _ _ _ _ _ (load_ok _ _ _ Hp)) in Hrun.
    destruct c as [b buf|hs nkey nchild|hs ep fv fcs]; [by destruct (Hnv b buf)| |].
    - apply bind_Done in Hrun as (u & h2 & Hr & Hrun).
      apply resetHash_Done in Hr as [_ Hu1].
      assert (clears h2 h') as Hc2; [|by eapply clears_unhashed].
      clear Hc Hu Hd. cbv zeta in Hrun.
      destruct (bool_decide (prefixLen (keybytesToHex k) nkey
                             = length (keybytesToHex k)));
        [inversion Hrun; apply clears_refl|].
      destruct (bool_decide (prefixLen (keybytesToHex k) nkey = 0%nat));
        [inversion Hrun; apply clears_refl|].
      apply bind_Done in Hrun as ([child okc] & h3 & Hrec & Hrun).
      apply delete_clears in Hrec as [Hc3 _].
      destruct okc; simpl in Hrun; [|by inversion Hrun; subst].
      destruct child as [q|]; [|by inversion Hrun; subst].
      apply bind_Done in Hrun as (cq & h4 & Hl & Hrun).
      apply load_Done in Hl as [Hq ->].
      destruct cq as [|hsq skey schild|].
      + apply bind_Done in Hrun as (u2 & h5 & Hs & Hrun).
        apply setChild_Done in Hs. inversion Hrun; subst.
        by eapply clears_trans.
      + apply bind_Done in Hrun as (n' & h5 & Hl & Hrun).
        apply load_Done in Hl as [Hp' ->].
        destruct n' as [|hs' nkey' nchild'|]; try done.
        apply bind_Done in Hrun as (a & h6 & Ha & Hrun).
        apply alloc_Done in Ha as [-> ->]. inversion Hrun; subst.
        eapply clears_trans; [done|apply clears_app].
      + apply bind_Done in Hrun as (u2 & h5 & Hs & Hrun).
        apply setChild_Done in Hs. inversion Hrun; subst.
        by eapply clears_trans.
    - apply bind_Done in Hrun as (u & h2 & Hr & Hrun).
      apply resetHash_Done in Hr as [_ Hu1].
      assert (clears h2 h') as Hc2; [|by eapply clears_unhashed].
      clear Hc Hu Hd.
      destruct (keybytesToHex k) as [|key rest]; [done|].
      apply bind_Done in Hrun as (e & h3 & Hg & Hrun).
      apply getEdge_Done in Hg as ->.
      apply bind_Done in Hrun as ([newChild okc] & h4 & Hrec & Hrun).
      apply delete_clears in Hrec as [Hc3 _].
      destruct okc; simpl in Hrun; [|by inversion Hrun; subst].
      apply bind_Done in Hrun as (u2 & h5 & Hs & Hrun).
      pose proof (setEdge_clears _ _ _ _ _ _ Hs) as Hc4.
      assert (Hu5 : unhashed h5 p)
        by exact (clears_unhashed _ _ _ Hc4 (clears_unhashed _ _ _ Hc3 Hu1)).
      apply collapseFull_clears in Hrun as [Hc5 _]; [|done].
      eapply clears_trans; [done|]. by eapply clears_trans. }
  split.
  - intros p c Hroot Hp Hnv. by apply (Hold p c).
  - intros p' Hroot' Hne.
    destruct ok; inversion Hd; subst t'; simpl in Hroot', Hne; [|done].
    by apply Hu.
Qed.

Lemma delete_clears_cached_hashes_witness :
  ∃ t' h',
    Txn_Delete 9 hashed_trie_txn [x01] hashed_trie = Done (t', h')
    ∧ (∀ q c, hashed_trie !! q = Some c →
         ∃ c', h' !! q = Some c'
               ∧ (cell_hash c' = cell_hash c ∨ cell_hash c' = []))
    ∧ (∀ p c, root hashed_trie_txn = Some p → hashed_trie !! p = Some c →
         (∀ b buf, c ≠ ValueNode b buf) →
         ∃ c', h' !! p = Some c' ∧ cell_hash c' = [])
    ∧ (∀ p', root t' = Some p' → root t' ≠ root hashed_trie_txn →
         ∃ c', h' !! p' = Some c' ∧ cell_hash c' = []).
Proof.
  eexists _, _. split; [vm_compute; reflexivity|].
  exact (delete_clears_cached_hashes 9 hashed_trie_txn [x01] hashed_trie _ _ eq_refl).
Defined.

(** ** The emptied trie *)

(** X14 (the emptied trie).  When the inserts and deletes made on a
    transaction opened on the empty trie leave no key stored (each delete
    being of a stored key, or all keys having one length), the root of the
    transaction is nil again: an emptied trie is the empty trie. *)
Theorem emptied_trie_has_nil_root
    (ops : list op) (t : Txn) (h : list cell) (fuel : nat) :
  root t = None →
  map_like ops →
  (∀ o, o ∈ ops → (2 * length (op_key o) + 5 ≤ fuel)%nat) →
  map_ops ops ∅ = ∅ →
  ∃ t' h', run_ops fuel t ops h = Done (t', h') ∧ root t' = None.
Proof.
  intros Hroot Hm Hf Hempty.
  destruct (run_ops_map_like fuel ops t h Hroot Hm Hf) as (t' & h' & Hrun & Hs).
  exists t', h'. split; [done|]. rewrite Hempty in Hs.
  destruct (txn_stores_same_tree _ _ _ _ _ Hs (txn_stores_empty h' t Hroot))
    as (tr & F1 & F2 & Ho1 & Ho2 & _).
  rewrite Hroot in Ho2.
  assert (tr = TNil) as -> by (by apply (own_shape _ _ _ _ Ho2)).
  by apply (own_shape _ _ _ _ Ho1).
Qed.

Lemma emptied_trie_has_nil_root_witness :
  root (Trie_Txn NewTrie) = None
  ∧ map_like emptying_ops
  ∧ (∀ o, o ∈ emptying_ops → (2 * length (op_key o) + 5 ≤ 9)%nat)
  ∧ map_ops emptying_ops ∅ = ∅
  ∧ ∃ t' h', run_ops 9 (Trie_Txn NewTrie) emptying_ops [] = Done (t', h')
             ∧ root t' = None.
Proof.
  assert (H1 : root (Trie_Txn NewTrie) = None) by reflexivity.
  assert (H2 : map_like emptying_ops) by (left; repeat split; vm_compute; eauto).
  assert (H3 : ∀ o, o ∈ emptying_ops → (2 * length (op_key o) + 5 ≤ 9)%nat).
  { intros o Hin. unfold emptying_ops in Hin.
    rewrite !elem_of_cons, elem_of_nil in Hin.
    destruct Hin as [->|[->|[->|[->|[->|[->|[]]]]]]]; simpl; lia. }
  assert (H4 : map_ops emptying_ops ∅ = ∅).
  { apply map_eq. intros k. unfold map_ops, emptying_ops. simpl.
    rewrite lookup_empty.
    destruct (decide (k = [x02; x03])) as [->|N3]; [by rewrite lookup_delete_eq|].
    rewrite lookup_delete_ne by done.
    destruct (decide (k = [x01])) as [->|N1]; [by rewrite lookup_delete_eq|].
    rewrite lookup_delete_ne by done.
    destruct (decide (k = [x02])) as [->|N2]; [by rewrite lookup_delete_eq|].
    rewrite lookup_delete_ne by done.
    by rewrite !lookup_insert_ne by done. }
  split; [exact H1|]. split; [exact H2|]. split; [exact H3|]. split; [exact H4|].
  exact (emptied_trie_has_nil_root emptying_ops (Trie_Txn NewTrie) [] 9 H1 H2 H3 H4).
Defined.

(** ** Hash references that the store does not have *)

(** X15 (insert at an absent reference).  When [insert] goes down to a
    child that is a hash reference which the store reports absent, it does
    not stop: in a Full node the child slot is set to nil, in a Short node
    the copy of the node gets a nil child, and the insert returns the node
    as if it had succeeded; the value is not stored and the reference is
    gone from the new node. *)
Theorem insert_drops_absent_reference
    (fuel : nat) (t : Txn) (q : nat) (buf : option (list byte))
    (value : list byte) (h : list cell) :
  h !! q = Some (ValueNode true buf) →
  storage t (default [] buf) = GetAbsent →
  (∀ p hs v cs k rest,
     h !! p = Some (FullNode hs (epoch t) v cs) →
     Byte.eqb k x10 = false →
     cs !! Byte.to_nat k = Some (Some q) →
     insert (S (S fuel)) t (Some p) (k :: rest) value h
     = Done (Some p, <[p := FullNode hs (epoch t) v (<[Byte.to_nat k := None]> cs)]> h))
  ∧ (∀ p hs key s,
       h !! p = Some (ShortNode hs key (Some q)) →
       prefixLen s key = length key →
       insert (S (S fuel)) t (Some p) s value h
       = Done (Some (length h), h ++ [ShortNode [] key None])).
Proof.
  intros Hq Habs.
  assert (Hins : ∀ s, insert (S fuel) t (Some q) s value h = Done (None, h)).
  { intros s. cbn [insert]. rewrite (bind_step _ _ _ _ _ (load_ok _ _ _ Hq)).
    unfold GetNode. by rewrite Habs. }
  split.
  - intros p hs v cs k rest Hp Hk Hc.
    cbn [insert]. rewrite (bind_step _ _ _ _ _ (load_ok _ _ _ Hp)).
    rewrite (bind_step _ _ _ _ _ (eq_trans (writeNode_ok _ _ _ _ _ _ _ Hp)
               (decide_True _ _ eq_refl))).
    rewrite (bind_step _ _ _ _ _ (getEdge_child _ _ _ _ _ _ _ _ Hp Hk Hc)).
    rewrite (bind_step _ _ _ _ _ (Hins rest)).
    rewrite bool_decide_eq_false_2 by done.
    unfold replaceEdge, setEdge.
    unfold bind at 1. rewrite (bind_step _ _ _ _ _ (load_ok _ _ _ Hp)).
    rewrite Hk. rewrite bool_decide_eq_true_2 by (by eapply lookup_lt_Some).
    by rewrite (store_ok _ _ _ _ Hp).
  - intros p hs key s Hp Hpl.
    remember (S fuel) as f eqn:Ef.
    cbn [insert]. rewrite (bind_step _ _ _ _ _ (load_ok _ _ _ Hp)).
    cbv zeta. rewrite bool_decide_eq_true_2 by done.
    rewrite (bind_step _ _ _ _ _ (Hins _)).
    by rewrite (bind_step _ _ _ _ _ (alloc_ok _ _)).
Qed.

Lemma insert_drops_absent_reference_witness :
  dangling_heap !! 0%nat = Some (ValueNode true (Some [x01; x02]))
  ∧ storage (hashref_txn absent_storage) (default [] (Some [x01; x02])) = GetAbsent
  ∧ insert 2 (hashref_txn absent_storage) (Some 1%nat) [x03; x04; x10] [xaa]
           dangling_heap
    = Done (Some 1%nat,
            <[1%nat := FullNode [] 1 None
                         (<[3%nat := None]>
                            (<[3%nat := Some 0%nat]> (replicate 16 None)))]>
              dangling_heap)
  ∧ insert 2 (hashref_txn absent_storage) (Some 2%nat) [x03; x04; x10] [xaa]
           dangling_heap
    = Done (Some 3%nat, dangling_heap ++ [ShortNode [] [x03] None]).
Proof.
  assert (H1 : dangling_heap !! 0%nat = Some (ValueNode true (Some [x01; x02])))
    by reflexivity.
  assert (H2 : storage (hashref_txn absent_storage) (default [] (Some [x01; x02]))
               = GetAbsent) by reflexivity.
  destruct (insert_drops_absent_reference 0 (hashref_txn absent_storage) 0
              (Some [x01; x02]) [xaa] dangling_heap H1 H2) as [Hfull Hshort].
  split; [exact H1|]. split; [exact H2|]. split.
  - exact (Hfull 1%nat [] None (<[3%nat := Some 0%nat]> (replicate 16 None))
             x03 [x04; x10] eq_refl eq_refl eq_refl).
  - exact (Hshort 2%nat [] [x03] [x03; x04; x10] eq_refl eq_refl).
Defined.

(** Whatever sequence of inserts and deletes a transaction runs, opened on
    the empty trie or on a committed one, the node graph under the
    transaction's own root stays a tree that satisfies the three
    invariants: no Short node with an empty key, no Full node with fewer
    than two non-empty slots among its seventeen, no Short node below a
    Short node. *)
Theorem transaction_root_stays_wellformed
    (ops : list op) (t : Txn) (h : list cell) (fuel : nat) :
  txn_wf h t →
  (∀ o, o ∈ ops → (2 * length (op_key o) + 5 ≤ fuel)%nat) →
  ∃ t' h' tr F,
    run_ops fuel t ops h = Done (t', h')
    ∧ own h' tr (root t') F ∧ wellformed tr ∧ txn_wf h' t'.
Proof.
  intros Hwf Hfuel. revert t h Hwf.
  induction ops as [|o ops IH]; intros t h Hwf; simpl.
  - pose proof Hwf as (tr & F & Ho & _ & Hg).
    exists t, h, tr, F.
    split; [done|]. split; [done|]. split; [by apply good_wellformed|done].
  - destruct o as [k v|k].
    + destruct (Txn_Insert_wf fuel t h k v Hwf) as (t1 & h1 & Hrun & Hwf1).
      { apply (Hfuel (OpInsert k v)). set_solver. }
      destruct (IH (λ o Ho, Hfuel o ltac:(set_solver)) t1 h1 Hwf1)
        as (t' & h' & tr & F & Hrun' & Hres).
      exists t', h', tr, F. split; [|done].
      by rewrite (bind_step _ _ _ _ _ Hrun).
    + destruct (Txn_Delete_wf fuel t h k Hwf) as (t1 & h1 & Hrun & Hwf1).
      { pose proof (Hfuel (OpDelete k) ltac:(set_solver)). simpl in *. lia. }
      destruct (IH (λ o Ho, Hfuel o ltac:(set_solver)) t1 h1 Hwf1)
        as (t' & h' & tr & F & Hrun' & Hres).
      exists t', h', tr, F. split; [|done].
      by rewrite (bind_step _ _ _ _ _ Hrun).
Qed.

Lemma transaction_root_stays_wellformed_witness :
  txn_wf two_keys_heap (Trie_Txn two_keys_trie)
  ∧ (∀ o, o ∈ later_ops → (2 * length (op_key o) + 5 ≤ 9)%nat)
  ∧ ∃ t' h' tr F,
      run_ops 9 (Trie_Txn two_keys_trie) later_ops two_keys_heap = Done (t', h')
      ∧ own h' tr (root t') F ∧ wellformed tr ∧ txn_wf h' t'.
Proof.
  assert (H1 : txn_wf two_keys_heap (Trie_Txn two_keys_trie)).
  { exists two_keys_tree, [6; 2; 3; 0; 5; 4]%nat.
    split; [exact own_two_keys_tree|].
    split; [by apply (bool_decide_unpack _)|].
    right. apply good_ext; [done|by repeat constructor; compute; lia|].
    apply good_full.
    - reflexivity.
    - by left.
    - apply Forall_insert; [apply Forall_insert|].
      + apply Forall_replicate. by left.
      + right. apply good_leaf. exists []. split; [done|constructor].
      + right. apply good_leaf. exists []. split; [done|constructor].
    - vm_compute. lia. }
  assert (H2 : ∀ o, o ∈ later_ops → (2 * length (op_key o) + 5 ≤ 9)%nat).
  { intros o Hin. unfold later_ops in Hin.
    rewrite !elem_of_cons, elem_of_nil in Hin.
    destruct Hin as [->|[->|[->|[]]]]; simpl; lia. }
  split; [exact H1|]. split; [exact H2|].
  exact (transaction_root_stays_wellformed later_ops (Trie_Txn two_keys_trie)
           two_keys_heap 9 H1 H2).
Defined.
